(** * Holmes semantic analysis: a shallow embedding of [holmes_extractor/semantics.py]

    The Python module enriches a spaCy parse with a per-token
    [HolmesDictionary] of [SemanticDependency] edges.  Every pass mutates the
    token dictionaries of one document in place, so the embedding threads the
    document through a state-and-exception monad: the state that a pass had
    reached when an exception was raised is kept, as it is in Python. *)

From Stdlib Require Import ZArith Ascii String List Bool Lia DecimalString.
From stdpp Require Import base list strings gmap.
Import ListNotations.
Local Open Scope string_scope.
Local Open Scope Z_scope.

(** ** Python exceptions and results *)

(** Modelled from the spec: the exception classes [DocumentTooBigError] and
    [WrongModelDeserializationError] of [holmes_extractor/errors.py], which is
    not part of the sources at hand; they are the oversized-input and the
    model-mismatch error of the specification, and each is raised with one
    argument.  The other constructors are exceptions of Python itself and of
    the libraries. *)
Inductive Error : Type :=
| RuntimeError (msg : string)
| IndexError
| AttributeError
| RecursionError
| MemoryError
| NonTermination          (* no exception: a loop that does not end *)
| DocumentTooBigError (msg : string)
| WrongModelDeserializationError (model : string)
| LibraryError (msg : string).

Inductive Result (A : Type) : Type :=
| Ok (a : A)
| Raise (e : Error).
Arguments Ok {A} a.
Arguments Raise {A} e.

Definition is_ok {A} (r : Result A) : bool :=
  match r with Ok _ => true | Raise _ => false end.

(** [str] on an integer and [' '.join] on a pair of strings. *)
Definition str_of_int (z : Z) : string := NilZero.string_of_int (Z.to_int z).
Definition join_space (a b : string) : string := (a ++ " " ++ b)%string.

(** ** Python strings

    A [str] is kept as its UTF-8 encoding, one [ascii] per byte.  Comparison,
    concatenation, [endswith] and [rstrip] with ASCII arguments act on the
    encoding as they act on the characters; [len] does not: it counts
    characters, that is every byte of the encoding but the continuation
    bytes [10xxxxxx]. *)
Definition is_continuation_byte (c : ascii) : bool :=
  match c with
  | Ascii _ _ _ _ _ _ b6 b7 => b7 && negb b6
  end.

Fixpoint str_len (s : string) : nat :=
  match s with
  | EmptyString => O
  | String c s' => if is_continuation_byte c then str_len s' else S (str_len s')
  end.

(** ** SemanticDependency *)

Module SemanticDependency.

Record t : Type := Build {
  parent_index : Z;
  child_index : Z;
  label : option string;
  is_uncertain : bool
}.

(** [__init__]: the two guards are tested in the order of the source. *)
Definition init (parent_index child_index : Z) (label : option string)
    (is_uncertain : bool) : Result t :=
  if (child_index <? 0) && negb (bool_decide (label = None)) then
    Raise (RuntimeError
      "Semantic dependency with negative child index may not have a label.")
  else if parent_index =? child_index then
    Raise (RuntimeError (join_space
      "Attempt to create self-referring semantic dependency with index"
      (str_of_int parent_index)))
  else Ok (Build parent_index child_index label is_uncertain).

End SemanticDependency.

Abbreviation SemDep := SemanticDependency.t.

(** The values [__eq__] can be handed as its [other] argument: another
    dependency, or an object of some other type. *)
Inductive PyObject : Type :=
| PyDependency (d : SemDep)
| PyNone
| PyStr (s : string)
| PyInt (z : Z).

Section EqualityAndHash.

(** Python's built-in [hash] on a pair of integers. *)
Variable tuple_hash : Z * Z -> Z.

Definition SemanticDependency_eq (self : SemDep) (other : PyObject) : bool :=
  match other with
  | PyDependency o =>
      (SemanticDependency.parent_index self =? SemanticDependency.parent_index o)
      && (SemanticDependency.child_index self =? SemanticDependency.child_index o)
  | _ => false
  end.

Definition SemanticDependency_ne (self : SemDep) (other : PyObject) : bool :=
  negb (SemanticDependency_eq self other).

Definition SemanticDependency_hash (self : SemDep) : Z :=
  tuple_hash (SemanticDependency.parent_index self,
              SemanticDependency.child_index self).

End EqualityAndHash.

(** ** HolmesDictionary *)

Module HolmesDictionary.

Record t : Type := Build {
  index : Z;
  lemma : string;
  children : list SemDep;
  righthand_siblings : list Z;
  is_involved_in_or_conjunction : bool;
  is_negated : option bool;
  is_matchable : option bool
}.

Definition init (index : Z) (lemma : string) : t :=
  Build index lemma [] [] false None None.

Definition is_uncertain (self : t) : bool := is_involved_in_or_conjunction self.

Definition has_dependency_with_child_index (self : t) (index : Z) : bool :=
  existsb (fun dependency => SemanticDependency.child_index dependency =? index)
          (children self).

Definition has_dependency_with_label (self : t) (label : option string) : bool :=
  existsb (fun dependency =>
             bool_decide (SemanticDependency.label dependency = label))
          (children self).

Definition has_dependency_with_child_index_and_label (self : t) (index : Z)
    (label : option string) : bool :=
  existsb (fun dependency =>
             (SemanticDependency.child_index dependency =? index)
             && bool_decide (SemanticDependency.label dependency = label))
          (children self).

Definition set_children (cs : list SemDep) (self : t) : t :=
  Build (index self) (lemma self) cs (righthand_siblings self)
        (is_involved_in_or_conjunction self) (is_negated self) (is_matchable self).

Definition set_is_involved_in_or_conjunction (b : bool) (self : t) : t :=
  Build (index self) (lemma self) (children self) (righthand_siblings self)
        b (is_negated self) (is_matchable self).

Definition set_is_negated (b : option bool) (self : t) : t :=
  Build (index self) (lemma self) (children self) (righthand_siblings self)
        (is_involved_in_or_conjunction self) b (is_matchable self).

Definition set_is_matchable (b : option bool) (self : t) : t :=
  Build (index self) (lemma self) (children self) (righthand_siblings self)
        (is_involved_in_or_conjunction self) (is_negated self) b.

Definition set_righthand_siblings (rs : list Z) (self : t) : t :=
  Build (index self) (lemma self) (children self) rs
        (is_involved_in_or_conjunction self) (is_negated self) (is_matchable self).

(** [self.children.append(dep)] *)
Definition append_child (dep : SemDep) (self : t) : t :=
  set_children (children self ++ [dep]) self.

Definition remove_dependency_with_child_index (index : Z) (self : t) : t :=
  set_children
    (List.filter (fun dep => negb (SemanticDependency.child_index dep =? index))
                 (children self))
    self.

End HolmesDictionary.

Abbreviation HDict := HolmesDictionary.t.

(** ** Tokens and documents (the spaCy side)

    A token is known by its position [token.i] in the document.  Its spaCy
    attributes are input and never change; the extension attribute
    [token._.holmes] (default [''], see [Token.set_extension]) is the only
    mutable part. *)

Inductive Extension : Type :=
| ExtStr (s : string)
| ExtNone
| ExtDict (d : HDict).

(** A coreference mention: a span with its root token. *)
Record Mention : Type := {
  mention_start : Z;
  mention_end : Z;
  mention_root : nat
}.

Module Token.

Record t : Type := Build {
  text : string;
  lemma_ : string;
  pos_ : string;
  tag_ : string;
  dep_ : string;
  ent_type_ : string;
  head : nat;                          (* token.head.i *)
  children : list nat;                 (* positions of token.children *)
  sent : nat * nat;                    (* token.sent.start, token.sent.end *)
  coref_clusters : list (list Mention);(* token._.coref_clusters *)
  holmes : Extension                   (* token._.holmes *)
}.

Definition set_holmes (e : Extension) (self : t) : t :=
  Build (text self) (lemma_ self) (pos_ self) (tag_ self) (dep_ self)
        (ent_type_ self) (head self) (children self) (sent self)
        (coref_clusters self) e.

End Token.

Module Doc.

Record t : Type := Build {
  tokens : list Token.t;
  has_coref : bool                     (* doc._.has_coref *)
}.

Definition set_tokens (ts : list Token.t) (self : t) : t :=
  Build ts (has_coref self).

Definition len (self : t) : nat := length (tokens self).

End Doc.

(** ** The monad of the passes: state (the document) and exceptions *)

Definition M (A : Type) : Type := Doc.t -> Result A * Doc.t.

Definition ret {A} (a : A) : M A := fun doc => (Ok a, doc).

Definition raise {A} (e : Error) : M A := fun doc => (Raise e, doc).

Definition bind {A B} (m : M A) (k : A -> M B) : M B :=
  fun doc =>
    match m doc with
    | (Ok a, doc') => k a doc'
    | (Raise e, doc') => (Raise e, doc')
    end.

Notation "'let*' x ':=' m 'in' k" := (bind m (fun x => k))
  (at level 10, x pattern, m at level 100, k at level 200).
Notation "m1 ';;;' m2" := (bind m1 (fun _ => m2))
  (at level 100, m2 at level 200, right associativity).

Definition lift {A} (r : Result A) : M A := fun doc => (r, doc).

Definition when (b : bool) (m : M unit) : M unit := if b then m else ret tt.

(** [for x in l: body x] over a list that was evaluated before the loop. *)
Fixpoint for_each {A} (l : list A) (body : A -> M unit) : M unit :=
  match l with
  | [] => ret tt
  | x :: l' => body x ;;; for_each l' body
  end.

(** Python indexing of a sequence of length [n]: negative indices count from
    the end, anything outside [-n, n) raises [IndexError]. *)
Definition py_index (n : nat) (i : Z) : option nat :=
  if 0 <=? i then (if i <? Z.of_nat n then Some (Z.to_nat i) else None)
  else if 0 <=? Z.of_nat n + i then Some (Z.to_nat (Z.of_nat n + i)) else None.

(** [doc[i]]: the position of the token that Python returns. *)
Definition doc_getitem (i : Z) : M nat :=
  fun doc =>
    match py_index (Doc.len doc) i with
    | Some p => (Ok p, doc)
    | None => (Raise IndexError, doc)
    end.

(** Reading the spaCy attributes of the token at position [p]. *)
Definition token_at (p : nat) : M Token.t :=
  fun doc =>
    match Doc.tokens doc !! p with
    | Some tok => (Ok tok, doc)
    | None => (Raise IndexError, doc)
    end.

(** [token._.holmes.<attribute>]: the dictionary of the token at [p]; a token
    whose extension is not a dictionary has no such attribute. *)
Definition holmes_of (p : nat) : M HDict :=
  let* tok := token_at p in
  match Token.holmes tok with
  | ExtDict d => ret d
  | _ => raise AttributeError
  end.

(** The document after the dictionary at [p] is replaced by [h]. *)
Definition put_dict (p : nat) (h : HDict) (doc : Doc.t) : Doc.t :=
  Doc.set_tokens (alter (Token.set_holmes (ExtDict h)) p (Doc.tokens doc)) doc.

(** In-place update of the dictionary of the token at [p]. *)
Definition update_holmes (p : nat) (f : HDict -> HDict) : M unit :=
  let* d := holmes_of p in
  fun doc => (Ok tt, put_dict p (f d) doc).

Definition append_child (p : nat) (dep : SemDep) : M unit :=
  update_holmes p (HolmesDictionary.append_child dep).

(** ** The analyzer object and the class attributes of the two languages *)

Module SemanticAnalyzer.

Record t : Type := Build {
  (* instance attributes set by [__init__] *)
  model : string;
  debug : bool;
  nlp_has_neuralcoref : bool;          (* self.nlp.has_pipe('neuralcoref') *)
  (* class attributes *)
  language_name : string;
  _maximum_document_size : Z;
  noun_pos : list string;
  _matchable_pos : list string;
  _adjectival_predicate_head_pos : string;
  _adjectival_predicate_subject_pos : list string;
  noun_kernel_dep : list string;
  sibling_marker_deps : list string;
  _adjectival_predicate_subject_dep : string;
  _adjectival_predicate_predicate_dep : string;
  _modifier_dep : string;
  _spacy_noun_to_preposition_dep : string;
  _spacy_verb_to_preposition_dep : string;
  _holmes_noun_to_preposition_dep : string;
  _holmes_verb_to_preposition_dep : string;
  _conjunction_deps : list string;
  _interrogative_pronoun_tags : list string;
  _semantic_dependency_excluded_tags : string;   (* ('DT') is a string *)
  _generic_pronoun_lemmas : list string;
  _or_lemma : string;
  _mark_child_dependencies_copied_to_siblings_as_uncertain : bool;
  _maximum_mentions_in_coreference_chain : Z
}.

End SemanticAnalyzer.

Abbreviation Analyzer := SemanticAnalyzer.t.

Definition EnglishSemanticAnalyzer (model : string) (debug has_neuralcoref : bool)
    : Analyzer :=
  {| SemanticAnalyzer.model := model;
     SemanticAnalyzer.debug := debug;
     SemanticAnalyzer.nlp_has_neuralcoref := has_neuralcoref;
     SemanticAnalyzer.language_name := "English";
     SemanticAnalyzer._maximum_document_size := 1000000;
     SemanticAnalyzer.noun_pos := ["NOUN"; "PROPN"];
     SemanticAnalyzer._matchable_pos :=
       ["ADJ"; "ADP"; "ADV"; "NOUN"; "NUM"; "PROPN"; "VERB"];
     SemanticAnalyzer._adjectival_predicate_head_pos := "VERB";
     SemanticAnalyzer._adjectival_predicate_subject_pos := ["NOUN"; "PROPN"];
     SemanticAnalyzer.noun_kernel_dep := ["nmod"; "compound"; "appos"; "nummod"];
     SemanticAnalyzer.sibling_marker_deps := ["conj"; "appos"];
     SemanticAnalyzer._adjectival_predicate_subject_dep := "nsubj";
     SemanticAnalyzer._adjectival_predicate_predicate_dep := "acomp";
     SemanticAnalyzer._modifier_dep := "amod";
     SemanticAnalyzer._spacy_noun_to_preposition_dep := "prep";
     SemanticAnalyzer._spacy_verb_to_preposition_dep := "prep";
     SemanticAnalyzer._holmes_noun_to_preposition_dep := "prepposs";
     SemanticAnalyzer._holmes_verb_to_preposition_dep := "prepposs";
     SemanticAnalyzer._conjunction_deps := ["conj"; "appos"; "cc"];
     SemanticAnalyzer._interrogative_pronoun_tags := ["WDT"; "WP"; "WRB"];
     SemanticAnalyzer._semantic_dependency_excluded_tags := "DT";
     SemanticAnalyzer._generic_pronoun_lemmas := ["something"; "somebody"; "someone"];
     SemanticAnalyzer._or_lemma := "or";
     SemanticAnalyzer._mark_child_dependencies_copied_to_siblings_as_uncertain := true;
     SemanticAnalyzer._maximum_mentions_in_coreference_chain := 3 |}.

Definition GermanSemanticAnalyzer (model : string) (debug has_neuralcoref : bool)
    : Analyzer :=
  {| SemanticAnalyzer.model := model;
     SemanticAnalyzer.debug := debug;
     SemanticAnalyzer.nlp_has_neuralcoref := has_neuralcoref;
     SemanticAnalyzer.language_name := "German";
     SemanticAnalyzer._maximum_document_size := 1000000;
     SemanticAnalyzer.noun_pos := ["NOUN"; "PROPN"; "ADJ"];
     SemanticAnalyzer._matchable_pos :=
       ["ADJ"; "ADP"; "ADV"; "NOUN"; "NUM"; "PROPN"; "VERB"; "AUX"];
     SemanticAnalyzer._adjectival_predicate_head_pos := "AUX";
     SemanticAnalyzer._adjectival_predicate_subject_pos := ["NOUN"; "PROPN"; "PRON"];
     SemanticAnalyzer.noun_kernel_dep := ["nk"; "pnc"];
     SemanticAnalyzer.sibling_marker_deps := ["cj"; "app"];
     SemanticAnalyzer._adjectival_predicate_subject_dep := "sb";
     SemanticAnalyzer._adjectival_predicate_predicate_dep := "pd";
     SemanticAnalyzer._modifier_dep := "nk";
     SemanticAnalyzer._spacy_noun_to_preposition_dep := "mnr";
     SemanticAnalyzer._spacy_verb_to_preposition_dep := "mo";
     SemanticAnalyzer._holmes_noun_to_preposition_dep := "mnrposs";
     SemanticAnalyzer._holmes_verb_to_preposition_dep := "moposs";
     SemanticAnalyzer._conjunction_deps := ["cj"; "cd"; "punct"; "app"];
     SemanticAnalyzer._interrogative_pronoun_tags := ["PWAT"; "PWAV"; "PWS"];
     SemanticAnalyzer._semantic_dependency_excluded_tags := "ART";
     SemanticAnalyzer._generic_pronoun_lemmas := ["jemand"; "etwas"];
     SemanticAnalyzer._or_lemma := "oder";
     SemanticAnalyzer._mark_child_dependencies_copied_to_siblings_as_uncertain := false;
     SemanticAnalyzer._maximum_mentions_in_coreference_chain := 3 |}.

(** [x in (a, b, ...)] for a string and a tuple of strings. *)
Definition str_in (x : string) (l : list string) : bool :=
  existsb (String.eqb x) l.

(** [label in (a, b, ...)] where the label may be [None]. *)
Definition label_in (label : option string) (l : list string) : bool :=
  match label with
  | Some x => str_in x l
  | None => false
  end.

(** ** Coordination propagation: [_copy_any_sibling_info] *)

Section CopyAnySiblingInfo.

Variable self : Analyzer.

(** The first inner loop of the source for one dependency of [token] and one
    righthand sibling of the dependency's child: add a dependency from
    [token] to that sibling. *)
Definition copy_to_child_sibling (token : nat) (dependency : SemDep)
    (child_righthand_sibling : Z) : M unit :=
  let* h := holmes_of token in
  when (Nat.eqb
          (length (List.filter
             (fun dependency =>
                SemanticDependency.child_index dependency =? child_righthand_sibling)
             (HolmesDictionary.children h)))
          0%nat)
    (let child_index_to_add :=
       if SemanticDependency.child_index dependency <? 0
       then 0 - (child_righthand_sibling + 1)
       else child_righthand_sibling in
     let* h := holmes_of token in
     when (negb (Z.of_nat token =? child_index_to_add)
           && negb (HolmesDictionary.has_dependency_with_child_index
                      h child_index_to_add))
       (let* dep := lift (SemanticDependency.init (Z.of_nat token)
                            child_index_to_add
                            (SemanticDependency.label dependency)
                            (SemanticDependency.is_uncertain dependency)) in
        append_child token dep)).

(** The second inner loop for one dependency of [token] and one righthand
    sibling of [token]: copy the dependency onto the sibling. *)
Definition copy_to_sibling (dependency : SemDep) (righthand_sibling : Z)
    : M unit :=
  let* righthand_sibling_token := doc_getitem righthand_sibling in
  let* hs := holmes_of righthand_sibling_token in
  when (Nat.eqb
          (length (List.filter
             (fun sibling_dependency =>
                bool_decide (SemanticDependency.label sibling_dependency
                             = SemanticDependency.label dependency))
             (HolmesDictionary.children hs)))
          0%nat
        && negb (label_in (SemanticDependency.label dependency)
                          (SemanticAnalyzer._conjunction_deps self))
        && negb (HolmesDictionary.has_dependency_with_child_index hs
                   (SemanticDependency.child_index dependency))
        && negb (righthand_sibling =? SemanticDependency.child_index dependency))
    (let* dep := lift (SemanticDependency.init righthand_sibling
                         (SemanticDependency.child_index dependency)
                         (SemanticDependency.label dependency)
                         (SemanticAnalyzer._mark_child_dependencies_copied_to_siblings_as_uncertain self)) in
     append_child righthand_sibling_token dep).

Definition copy_dependency (token : nat) (dependency : SemDep) : M unit :=
  (let* child := doc_getitem (SemanticDependency.child_index dependency) in
   let* hc := holmes_of child in
   for_each (HolmesDictionary.righthand_siblings hc)
            (copy_to_child_sibling token dependency)) ;;;
  let* h := holmes_of token in
  for_each
    (List.filter
       (fun righthand_sibling =>
          negb (righthand_sibling =? SemanticDependency.child_index dependency))
       (HolmesDictionary.righthand_siblings h))
    (copy_to_sibling dependency).

Definition _copy_any_sibling_info (token : nat) : M unit :=
  (let* h := holmes_of token in
   when (HolmesDictionary.is_involved_in_or_conjunction h)
     (for_each (HolmesDictionary.righthand_siblings h)
        (fun righthand_sibling =>
           let* p := doc_getitem righthand_sibling in
           update_holmes p
             (HolmesDictionary.set_is_involved_in_or_conjunction true)))) ;;;
  let* h := holmes_of token in
  for_each (HolmesDictionary.children h) (copy_dependency token).

(** [for token in spacy_doc: self._copy_any_sibling_info(token)] *)
Definition copy_any_sibling_info_pass : M unit :=
  fun doc => for_each (seq 0 (Doc.len doc)) _copy_any_sibling_info doc.

End CopyAnySiblingInfo.

(** ** Limits of the interpreter

    Python bounds the depth of recursion ([sys.getrecursionlimit()], a
    [RecursionError] beyond it), and a loop over a list that keeps growing
    while it is iterated ends when memory is exhausted.  Both bounds are
    parameters of the model, and so is the number of rounds after which a
    [while] loop is given up as not ending. *)
Record Limits : Type := {
  recursion_limit : nat;
  memory : nat;
  patience : nat
}.

(** [for x in l: if test(x): return True] followed by falling through: the
    tests run in order and stop at the first hit. *)
Fixpoint any_m {A} (l : list A) (test : A -> M bool) : M bool :=
  match l with
  | [] => ret false
  | x :: l' =>
      let* b := test x in
      if b then ret true else any_m l' test
  end.

(** ** Negation: [_set_negation] *)

(** The body of [for child in token.children] in the English analyzer: does
    this child make the token negative? *)
Definition English_negation_child (child : nat) : M bool :=
  let* hc := holmes_of child in
  let* tc := token_at child in
  if str_in (HolmesDictionary.lemma hc)
       ["nobody"; "nothing"; "nowhere"; "noone"; "neither"; "nor"; "no"]
     || String.eqb (Token.dep_ tc) "neg"
  then ret true
  else if str_in (HolmesDictionary.lemma hc) ["more"; "longer"]
  then any_m (Token.children tc)
         (fun grandchild =>
            let* hg := holmes_of grandchild in
            ret (String.eqb (HolmesDictionary.lemma hg) "no"))
  else ret false.

(** The same for the German analyzer. *)
Definition German_negation_child (child : nat) : M bool :=
  let* hc := holmes_of child in
  ret (str_in (HolmesDictionary.lemma hc) ["nicht"; "kein"; "keine"; "nie"]
       || String.prefix "nirgend" (HolmesDictionary.lemma hc)).

Section SetNegation.

(** The language's test on one syntactic child. *)
Variable negation_child : nat -> M bool.

(** [_set_negation(token)] with [depth] frames of recursion left. *)
Fixpoint _set_negation (depth : nat) (token : nat) : M unit :=
  match depth with
  | O => raise RecursionError
  | S depth' =>
      let* h := holmes_of token in
      match HolmesDictionary.is_negated h with
      | Some _ => ret tt
      | None =>
          let* tok := token_at token in
          let* found := any_m (Token.children tok) negation_child in
          if found then
            update_holmes token (HolmesDictionary.set_is_negated (Some true))
          else if String.eqb (Token.dep_ tok) "ROOT" then
            update_holmes token (HolmesDictionary.set_is_negated (Some false))
          else
            _set_negation depth' (Token.head tok) ;;;
            let* hh := holmes_of (Token.head tok) in
            update_holmes token
              (HolmesDictionary.set_is_negated (HolmesDictionary.is_negated hh))
      end
  end.

(** [for token in spacy_doc: self._set_negation(token)] *)
Definition set_negation_pass (limits : Limits) : M unit :=
  fun doc =>
    for_each (seq 0 (Doc.len doc)) (_set_negation (recursion_limit limits)) doc.

End SetNegation.

Definition English_set_negation (limits : Limits) (token : nat) : M unit :=
  _set_negation English_negation_child (recursion_limit limits) token.

Definition German_set_negation (limits : Limits) (token : nat) : M unit :=
  _set_negation German_negation_child (recursion_limit limits) token.

(** ** Loops over a list that the body may extend

    A generator over [token._.holmes.children] walks the list object by
    position; elements that the body appends to that same list are visited
    too.  [for_live fuel p k body acc] continues such a walk over the children
    of the token at [p] from position [k], threading the local variables
    [acc] of the loop. *)
Fixpoint for_live {Locals} (fuel : nat) (p : nat) (k : nat)
    (body : SemDep -> Locals -> M Locals) (acc : Locals) : M Locals :=
  match fuel with
  | O => raise MemoryError
  | S fuel' =>
      let* h := holmes_of p in
      match HolmesDictionary.children h !! k with
      | None => ret acc
      | Some dependency =>
          let* acc' := body dependency acc in
          for_live fuel' p (S k) body acc'
      end
  end.

(** ** Coreference: [is_involved_in_coreference] *)

Definition is_involved_in_coreference (self : Analyzer) (token : nat) : M bool :=
  fun doc =>
    if SemanticAnalyzer.nlp_has_neuralcoref self && Doc.has_coref doc then
      (let* tok := token_at token in
       any_m (Token.coref_clusters tok)
         (fun cluster =>
            any_m cluster
              (fun mention =>
                 if Nat.eqb (mention_root mention) token then ret true
                 else
                   let* hr := holmes_of (mention_root mention) in
                   ret (existsb (Z.eqb (Z.of_nat token))
                          (HolmesDictionary.righthand_siblings hr))))) doc
    else (Ok false, doc).

(** ** Predicative adjectives: [_normalize_predicative_adjectives] *)

Section NormalizePredicativeAdjectives.

Variable self : Analyzer.
Variable limits : Limits.

(** The filter of the outer generator. *)
Definition is_predicative_adjective (dependency : SemDep) : M bool :=
  if bool_decide (SemanticDependency.label dependency
                  = Some (SemanticAnalyzer._adjectival_predicate_predicate_dep self))
  then
    let* c := doc_getitem (SemanticDependency.child_index dependency) in
    let* tc := token_at c in
    ret (String.eqb (Token.pos_ tc) "ADJ"
         && (0 <=? SemanticDependency.child_index dependency))
  else ret false.

(** The filter of the inner generator. *)
Definition is_predicate_subject (predicative_adjective_index : Z)
    (dependency : SemDep) : M bool :=
  if bool_decide (SemanticDependency.label dependency
                  = Some (SemanticAnalyzer._adjectival_predicate_subject_dep self))
  then
    let* c := doc_getitem (SemanticDependency.child_index dependency) in
    let* tc := token_at c in
    let* b :=
      (if str_in (Token.pos_ tc)
            (SemanticAnalyzer._adjectival_predicate_subject_pos self)
       then ret true
       else
         let* c' := doc_getitem (SemanticDependency.child_index dependency) in
         is_involved_in_coreference self c') in
    ret (b && (0 <=? SemanticDependency.child_index dependency)
           && negb (SemanticDependency.child_index dependency
                    =? predicative_adjective_index))
  else ret false.

(** The local variables [altered] and [subject_index] of the method. *)
Definition AdjectiveLocals : Type := (bool * option Z)%type.

Definition attach_adjective (predicative_adjective_index : Z)
    (dependency : SemDep) (locals : AdjectiveLocals) : M AdjectiveLocals :=
  let* is_subject := is_predicate_subject predicative_adjective_index dependency in
  if is_subject then
    let subject_index := SemanticDependency.child_index dependency in
    let* subject := doc_getitem subject_index in
    let* _ := holmes_of subject in
    let* dep := lift (SemanticDependency.init subject_index
                        predicative_adjective_index
                        (Some (SemanticAnalyzer._modifier_dep self)) false) in
    append_child subject dep ;;;
    ret (true, Some subject_index)
  else ret locals.

Definition _normalize_predicative_adjectives (token : nat) : M unit :=
  let* tok := token_at token in
  when (String.eqb (Token.pos_ tok)
          (SemanticAnalyzer._adjectival_predicate_head_pos self))
    (let* locals :=
       for_live (memory limits) token 0
         (fun dependency locals =>
            let* is_adjective := is_predicative_adjective dependency in
            if is_adjective then
              for_live (memory limits) token 0
                (attach_adjective (SemanticDependency.child_index dependency))
                locals
            else ret locals)
         (false, None) in
     match locals with
     | (true, Some subject_index) =>
         let* dep := lift (SemanticDependency.init (Z.of_nat token)
                             (0 - (subject_index + 1)) None false) in
         update_holmes token (HolmesDictionary.set_children [dep])
     | _ => ret tt
     end).

Definition normalize_predicative_adjectives_pass : M unit :=
  fun doc => for_each (seq 0 (Doc.len doc)) _normalize_predicative_adjectives doc.

End NormalizePredicativeAdjectives.

(** ** Preposition phrases:
       [_create_additional_preposition_phrase_semantic_dependencies] *)

(** A list comprehension with a condition that reads the document. *)
Fixpoint filter_m {A} (l : list A) (test : A -> M bool) : M (list A) :=
  match l with
  | [] => ret []
  | x :: l' =>
      let* b := test x in
      let* rest := filter_m l' test in
      ret (if b then x :: rest else rest)
  end.

(** The indices that [loop_token_and_righthand_siblings] hands to [doc[...]],
    in the order of the generator. *)
Definition loop_token_and_righthand_siblings (self : HDict) : list Z :=
  HolmesDictionary.index self :: HolmesDictionary.righthand_siblings self.

Section CreateAdditionalPrepositionDependencies.

Variable self : Analyzer.

(** The nested function of the source; [token] is the preposition of the
    enclosing call. *)
Definition add_dependencies_pointing_to_preposition_and_siblings
    (token parent : nat) (label : string) : M unit :=
  let* h := holmes_of token in
  for_each (loop_token_and_righthand_siblings h)
    (fun i =>
       let* working_preposition := doc_getitem i in
       when (negb (Nat.eqb parent working_preposition))
         (let* _ := holmes_of parent in
          let* dep := lift (SemanticDependency.init (Z.of_nat parent)
                              (Z.of_nat working_preposition) (Some label) true) in
          append_child parent dep)).

(** [token.i > 0 and token.doc[token.i-1].sent == token.sent and
     (token.doc[token.i-1].pos_ in ('NOUN', 'PROPN') or
      self.is_involved_in_coreference(token.doc[token.i-1]))] *)
Definition directly_preceded_by_noun (token : nat) (tok : Token.t) : M bool :=
  if (0 <? token)%nat then
    let* previous := doc_getitem (Z.of_nat token - 1) in
    let* tprev := token_at previous in
    if bool_decide (Token.sent tprev = Token.sent tok) then
      if str_in (Token.pos_ tprev) ["NOUN"; "PROPN"] then ret true
      else
        let* previous' := doc_getitem (Z.of_nat token - 1) in
        is_involved_in_coreference self previous'
    else ret false
  else ret false.

(** The condition of the list comprehension that collects the governing
    verbs of the sentence. *)
Definition governs (token preceding_noun working_token : nat) : M bool :=
  let* wt := token_at working_token in
  if (working_token <? token)%nat && String.eqb (Token.pos_ wt) "VERB" then
    let* hw := holmes_of working_token in
    ret (HolmesDictionary.has_dependency_with_child_index hw (Z.of_nat preceding_noun))
  else ret false.

(** [token.doc[preposition_dep_index]._.holmes.has_dependency_with_label('relcl')] *)
Definition points_to_relative_clause (dependency : SemDep) : M bool :=
  let* c := doc_getitem (SemanticDependency.child_index dependency) in
  let* hc := holmes_of c in
  ret (HolmesDictionary.has_dependency_with_label hc (Some "relcl")).

Definition _create_additional_preposition_phrase_semantic_dependencies
    (token : nat) : M unit :=
  let* tok := token_at token in
  when (String.eqb (Token.pos_ tok) "ADP")
    (let* preceded := directly_preceded_by_noun token tok in
     when preceded
       (let* preceding_noun := doc_getitem (Z.of_nat token - 1) in
        let* governing_verbs :=
          filter_m (seq (fst (Token.sent tok))
                        (snd (Token.sent tok) - fst (Token.sent tok)))
                   (governs token preceding_noun) in
        match governing_verbs with
        | [] => ret tt
        | first_governing_verb :: _ =>
            for_each governing_verbs
              (fun governing_verb =>
                 let* hn := holmes_of preceding_noun in
                 if HolmesDictionary.has_dependency_with_child_index_and_label hn
                      (Z.of_nat token)
                      (Some (SemanticAnalyzer._spacy_noun_to_preposition_dep self))
                 then
                   let* hv := holmes_of governing_verb in
                   when (negb (HolmesDictionary.has_dependency_with_child_index_and_label
                                 hv (Z.of_nat token)
                                 (Some (SemanticAnalyzer._spacy_verb_to_preposition_dep self))))
                     (add_dependencies_pointing_to_preposition_and_siblings
                        token governing_verb
                        (SemanticAnalyzer._holmes_verb_to_preposition_dep self))
                 else ret tt) ;;;
            let* hv0 := holmes_of first_governing_verb in
            if HolmesDictionary.has_dependency_with_child_index_and_label hv0
                 (Z.of_nat token)
                 (Some (SemanticAnalyzer._spacy_verb_to_preposition_dep self))
            then
              let* hn := holmes_of preceding_noun in
              when (negb (HolmesDictionary.has_dependency_with_child_index_and_label
                            hn (Z.of_nat token)
                            (Some (SemanticAnalyzer._spacy_noun_to_preposition_dep self))))
                (let* ht := holmes_of token in
                 let* relative :=
                   any_m (HolmesDictionary.children ht) points_to_relative_clause in
                 if relative then ret tt
                 else add_dependencies_pointing_to_preposition_and_siblings
                        token preceding_noun
                        (SemanticAnalyzer._holmes_noun_to_preposition_dep self))
            else ret tt
        end)).

Definition create_additional_preposition_dependencies_pass : M unit :=
  fun doc =>
    for_each (seq 0 (Doc.len doc))
      _create_additional_preposition_phrase_semantic_dependencies doc.

End CreateAdditionalPrepositionDependencies.

(** ** Calls into spaCy and jsonpickle

    A call into one of the two libraries returns a value or raises an
    exception of the library's own; the exception classes of Holmes
    ([DocumentTooBigError], [WrongModelDeserializationError]) are unknown to
    them. *)
Inductive Library (A : Type) : Type :=
| Returns (a : A)
| LibraryRaises (msg : string).
Arguments Returns {A} a.
Arguments LibraryRaises {A} msg.

Definition from_library {A} (r : Library A) : Result A :=
  match r with
  | Returns a => Ok a
  | LibraryRaises msg => Raise (LibraryError msg)
  end.

(** ** Parsing: [spacy_parse] *)

Section SpacyParse.

Variable self : Analyzer.

(** [self.nlp(text)], the spaCy pipeline. *)
Variable nlp : string -> Library Doc.t.

(** The result of [spacy_parse], together with the texts that were handed to
    the spaCy pipeline on the way. *)
Definition spacy_parse (text : string) : Result Doc.t * list string :=
  if Z.of_nat (str_len text) >? SemanticAnalyzer._maximum_document_size self
  then
    (Raise (DocumentTooBigError
              (join_space "size:"
                 (join_space (str_of_int (Z.of_nat (str_len text)))
                    (join_space "max:"
                       (str_of_int (SemanticAnalyzer._maximum_document_size self)))))),
     [])
  else (from_library (nlp text), [text]).

End SpacyParse.

(** ** Serialization: [SerializedHolmesDocument], [to_serialized_string],
       [from_serialized_string] *)

Record SerializedHolmesDocument (Bytes : Type) : Type := {
  _serialized_spacy_document : Bytes;
  _dictionaries : list Extension;
  _model : string
}.
Arguments Build_SerializedHolmesDocument {Bytes} _ _ _.
Arguments _serialized_spacy_document {Bytes} _.
Arguments _dictionaries {Bytes} _.
Arguments _model {Bytes} _.

(** [token._.holmes = e] on the token at [p]. *)
Definition set_extension (p : nat) (e : Extension) : M unit :=
  fun doc =>
    match Doc.tokens doc !! p with
    | Some _ =>
        (Ok tt, Doc.set_tokens (alter (Token.set_holmes e) p (Doc.tokens doc)) doc)
    | None => (Raise IndexError, doc)
    end.

(** [for token in doc: token._.holmes = dictionaries[token.i]] *)
Definition attach_dictionaries (dictionaries : list Extension) : M unit :=
  fun doc =>
    for_each (seq 0 (Doc.len doc))
      (fun p =>
         match dictionaries !! p with
         | Some e => set_extension p e
         | None => raise IndexError
         end) doc.

Section Serialization.

(** The bytes of [Doc.to_bytes] and the text of [jsonpickle.encode]; the
    code only ever hands them back to the library they came from. *)
Variables Bytes Pickle : Type.

(** [spacy_doc.to_bytes()] *)
Variable to_bytes : Doc.t -> Library Bytes.
(** [Doc(semantic_analyzer.nlp.vocab).from_bytes(b)] *)
Variable from_bytes : Analyzer -> Bytes -> Library Doc.t.
Variable jsonpickle_encode : SerializedHolmesDocument Bytes -> Library Pickle.
Variable jsonpickle_decode : Pickle -> Library (SerializedHolmesDocument Bytes).

(** The first loop of [to_serialized_string]:
    [dictionaries.append(token._.holmes); token._.holmes = None]. *)
Fixpoint detach_dictionaries (positions : list nat) (dictionaries : list Extension)
    : M (list Extension) :=
  match positions with
  | [] => ret dictionaries
  | p :: rest =>
      let* tok := token_at p in
      set_extension p ExtNone ;;;
      detach_dictionaries rest (dictionaries ++ [Token.holmes tok])
  end.

Definition to_serialized_string (self : Analyzer) : M Pickle :=
  let* dictionaries :=
    (fun doc => detach_dictionaries (seq 0 (Doc.len doc)) [] doc) in
  let* bytes := (fun doc => (from_library (to_bytes doc), doc)) in
  let serialized_document :=
    Build_SerializedHolmesDocument bytes dictionaries (SemanticAnalyzer.model self) in
  attach_dictionaries dictionaries ;;;
  lift (from_library (jsonpickle_encode serialized_document)).

(** [SerializedHolmesDocument.holmes_document] *)
Definition holmes_document (this : SerializedHolmesDocument Bytes)
    (semantic_analyzer : Analyzer) : Result Doc.t :=
  match from_library (from_bytes semantic_analyzer (_serialized_spacy_document this)) with
  | Raise e => Raise e
  | Ok doc =>
      match attach_dictionaries (_dictionaries this) doc with
      | (Ok _, doc') => Ok doc'
      | (Raise e, _) => Raise e
      end
  end.

Definition from_serialized_string (self : Analyzer) (serialized_spacy_doc : Pickle)
    : Result Doc.t :=
  match from_library (jsonpickle_decode serialized_spacy_doc) with
  | Raise e => Raise e
  | Ok serialized_document =>
      if negb (String.eqb (_model serialized_document) (SemanticAnalyzer.model self))
      then Raise (WrongModelDeserializationError (_model serialized_document))
      else holmes_document serialized_document self
  end.

End Serialization.

(** ** The passes of the base class that precede the rewrites *)

(** A [for] loop that updates local variables. *)
Fixpoint fold_m {A Locals} (l : list A) (body : A -> Locals -> M Locals)
    (acc : Locals) : M Locals :=
  match l with
  | [] => ret acc
  | x :: l' =>
      let* acc' := body x acc in
      fold_m l' body acc'
  end.

(** [needle in hay] for two strings. *)
Fixpoint str_contains (hay needle : string) : bool :=
  String.prefix needle hay
  || match hay with
     | EmptyString => false
     | String _ hay' => str_contains hay' needle
     end.

Section BasePasses.

Variable self : Analyzer.
Variable limits : Limits.

Definition _set_matchability (token : nat) : M unit :=
  let* tok := token_at token in
  let* candidate :=
    (if str_in (Token.pos_ tok) (SemanticAnalyzer._matchable_pos self)
     then ret true
     else is_involved_in_coreference self token) in
  let* value :=
    (if candidate
          && negb (str_in (Token.tag_ tok)
                     (SemanticAnalyzer._interrogative_pronoun_tags self))
     then
       let* h := holmes_of token in
       ret (negb (str_in (HolmesDictionary.lemma h)
                    (SemanticAnalyzer._generic_pronoun_lemmas self)))
     else ret false) in
  update_holmes token (HolmesDictionary.set_is_matchable (Some value)).

Definition _initialize_semantic_dependencies (token : nat) : M unit :=
  let* tok := token_at token in
  for_each (Token.children tok)
    (fun child =>
       let* tc := token_at child in
       when (negb (String.eqb (Token.dep_ tc) "punct")
             && negb (str_contains
                        (SemanticAnalyzer._semantic_dependency_excluded_tags self)
                        (Token.tag_ tc)))
         (let* _ := holmes_of token in
          let* dep := lift (SemanticDependency.init (Z.of_nat token) (Z.of_nat child)
                              (Some (Token.dep_ tc)) false) in
          append_child token dep)).

(** The [while] loop of [_mark_if_righthand_sibling]: climb to the lefthandmost
    sibling, noting any [or] among the children on the way. *)
Fixpoint climb_to_lefthand_sibling (rounds : nat) (working_token : nat)
    (working_or_conjunction_flag : bool) : M (nat * bool) :=
  match rounds with
  | O => raise NonTermination
  | S rounds' =>
      let* wt := token_at working_token in
      if str_in (Token.dep_ wt) (SemanticAnalyzer._conjunction_deps self) then
        let* wh := token_at (Token.head wt) in
        let* flag :=
          fold_m (Token.children wh)
            (fun working_child flag =>
               let* wc := token_at working_child in
               ret (if String.eqb (Token.lemma_ wc) (SemanticAnalyzer._or_lemma self)
                    then true else flag))
            working_or_conjunction_flag in
        climb_to_lefthand_sibling rounds' (Token.head wt) flag
      else ret (working_token, working_or_conjunction_flag)
  end.

Definition _mark_if_righthand_sibling (token : nat) : M unit :=
  let* tok := token_at token in
  when (str_in (Token.dep_ tok) (SemanticAnalyzer.sibling_marker_deps self))
    (let* (working_token, working_or_conjunction_flag) :=
       climb_to_lefthand_sibling (patience limits) token false in
     update_holmes working_token
       (fun h => HolmesDictionary.set_righthand_siblings
                   (HolmesDictionary.righthand_siblings h ++ [Z.of_nat token]) h) ;;;
     when working_or_conjunction_flag
       (update_holmes working_token
          (HolmesDictionary.set_is_involved_in_or_conjunction true))).

(** [debug_structures]: what is printed is no part of the model; the reads
    that precede the printing are. *)
Definition debug_structures : M unit :=
  when (SemanticAnalyzer.debug self)
    (fun doc =>
       for_each (seq 0 (Doc.len doc))
         (fun token =>
            let* _ := holmes_of token in
            let* _ := is_involved_in_coreference self token in
            ret tt) doc).

End BasePasses.

(** ** German: [_perform_language_specific_tasks] *)

(** The list object that the nested [def] binds as the default value of
    [visited].  It belongs to the function object, not to a call, so it is
    kept apart from the locals and handed from one call of the nested
    function to the next. *)
Record DefaultArguments : Type := {
  visited_default : list nat
}.

Section GermanLanguageSpecificTasks.

Variable limits : Limits.

Definition infinitive_tags : list string := ["VVINF"; "VAINF"; "VAFIN"; "VAINF"].

(** [find_target_tokens_and_dependency_recursively(token, visited)]; the
    result carries the contents of the list [visited] after the call. *)
Fixpoint find_target_tokens_and_dependency_recursively (depth : nat) (token : nat)
    (visited : list nat) : M (list nat * string * list nat) :=
  match depth with
  | O => raise RecursionError
  | S depth' =>
      let visited := (visited ++ [token])%list in
      let* h := holmes_of token in
      let grammatical :=
        List.filter
          (fun dependency =>
             (SemanticDependency.child_index dependency <? 0)
             && negb (SemanticDependency.child_index dependency + Z.of_nat token =? -1))
          (HolmesDictionary.children h) in
      if (0 <? length grammatical)%nat then
        fold_m grammatical
          (fun dependency '(tokens_to_return, target_dependency, visited) =>
             let* child_token :=
               doc_getitem (0 - (SemanticDependency.child_index dependency + 1)) in
             let* tc := token_at child_token in
             let target_dependency :=
               if String.eqb (HolmesDictionary.lemma h) "werden"
                  && negb (str_in (Token.tag_ tc) infinitive_tags)
               then "oa" else target_dependency in
             if negb (existsb (Nat.eqb child_token) visited) then
               let* (new_tokens, new_target_dependency, visited) :=
                 find_target_tokens_and_dependency_recursively depth' child_token
                   visited in
               ret ((tokens_to_return ++ new_tokens)%list,
                    (if String.eqb new_target_dependency "oa"
                     then "oa" else target_dependency),
                    visited)
             else
               ret ((tokens_to_return ++ [token])%list, target_dependency, visited))
          ([], "sb", visited)
      else ret ([token], "sb", visited)
  end.

(** A call that leaves [visited] to its default. *)
Definition find_target_tokens_and_dependency (token : nat) (defaults : DefaultArguments)
    : M (list nat * string * DefaultArguments) :=
  let* (target_tokens, target_dependency, visited) :=
    find_target_tokens_and_dependency_recursively (recursion_limit limits) token
      (visited_default defaults) in
  ret (target_tokens, target_dependency, {| visited_default := visited |}).

(** [token.head._.holmes.remove_dependency_with_child_index(token.i)] for a
    separable verb particle. *)
Definition remove_particle_dependency (token : nat) (tok : Token.t) : M unit :=
  if String.eqb (Token.tag_ tok) "PTKVZ" then
    let* th := token_at (Token.head tok) in
    when (String.eqb (Token.pos_ th) "VERB"
          && negb (str_in (Token.tag_ th) ["VAINF"; "VMINF"; "VVINF"; "VVIZU"]))
      (update_holmes (Token.head tok)
         (HolmesDictionary.remove_dependency_with_child_index (Z.of_nat token)))
  else ret tt.

(** 'der Abschluss von einer Versicherung': the loop over the [mnr]/[pg]
    dependencies of [token]. *)
Definition span_von_preposition (token : nat) : M unit :=
  for_live (memory limits) token 0
    (fun dependency (_ : unit) =>
       let* selected :=
         (if label_in (SemanticDependency.label dependency) ["mnr"; "pg"] then
            let* c := doc_getitem (SemanticDependency.child_index dependency) in
            let* hc := holmes_of c in
            ret (str_in (HolmesDictionary.lemma hc) ["von"; "vom"])
          else ret false) in
       when selected
         (let* child := doc_getitem (SemanticDependency.child_index dependency) in
          for_live (memory limits) child 0
            (fun child_dependency (_ : unit) =>
               when (bool_decide (SemanticDependency.label child_dependency = Some "nk")
                     && negb (Z.of_nat token
                              =? SemanticDependency.child_index child_dependency))
                 (let* _ := holmes_of token in
                  let* dep := lift (SemanticDependency.init (Z.of_nat token)
                                      (SemanticDependency.child_index child_dependency)
                                      (Some "nk") false) in
                  append_child token dep ;;;
                  update_holmes child (HolmesDictionary.set_is_matchable (Some false))))
            tt))
    tt.

(** [other_dependency.child_token(token.doc)._.holmes.lemma == 'um' and
     other_dependency.child_token(token.doc).tag_ == 'KOUI'] *)
Definition is_um_zu (other_dependency : SemDep) : M bool :=
  let* c := doc_getitem (SemanticDependency.child_index other_dependency) in
  let* hc := holmes_of c in
  if String.eqb (HolmesDictionary.lemma hc) "um" then
    let* c' := doc_getitem (SemanticDependency.child_index other_dependency) in
    let* tc := token_at c' in
    ret (String.eqb (Token.tag_ tc) "KOUI")
  else ret false.

(** The [oa] dependencies that are neither dependent clauses nor reflexive
    pronouns. *)
Definition is_forcing_object (other_dependency : SemDep) : M bool :=
  if bool_decide (SemanticDependency.label other_dependency = Some "oa") then
    let* c := doc_getitem (SemanticDependency.child_index other_dependency) in
    let* tc := token_at c in
    if negb (str_in (Token.pos_ tc) ["VERB"; "AUX"]) then
      let* c' := doc_getitem (SemanticDependency.child_index other_dependency) in
      let* tc' := token_at c' in
      ret (negb (String.eqb (Token.tag_ tc') "PRF"))
    else ret false
  else ret false.

Definition has_label (label : string) (dependency : SemDep) : bool :=
  bool_decide (SemanticDependency.label dependency = Some label).

(** 'Der Mann hat xxx, es zu yyy': the body of the loop for one dependency of
    [token] to a dependent verb. *)
Definition project_subject_onto_dependent_verb (token : nat) (dependency : SemDep)
    (defaults : DefaultArguments) : M DefaultArguments :=
  let* child := doc_getitem (SemanticDependency.child_index dependency) in
  let* (target_tokens, target_dependency, defaults) :=
    find_target_tokens_and_dependency child defaults in
  let* first_target :=
    match target_tokens with
    | [] => raise IndexError
    | first_target :: _ => ret first_target
    end in
  let* h0 := holmes_of first_target in
  let* um_zu := filter_m (HolmesDictionary.children h0) is_um_zu in
  let* dependencies_to_add :=
    (if Nat.eqb (length um_zu) 0 then
       let* ht := holmes_of token in
       let datives := List.filter (has_label "da") (HolmesDictionary.children ht) in
       if Nat.eqb (length datives) 0 then
         let* ht := holmes_of token in
         filter_m (HolmesDictionary.children ht) is_forcing_object
       else ret datives
     else ret []) in
  let* dependencies_to_add :=
    (if Nat.eqb (length dependencies_to_add) 0 then
       let* ht := holmes_of token in
       ret (List.filter (has_label "sb") (HolmesDictionary.children ht))
     else ret dependencies_to_add) in
  for_each target_tokens
    (fun target_token =>
       for_each
         (List.filter
            (fun other_dependency =>
               negb (Z.of_nat target_token
                     =? SemanticDependency.child_index other_dependency))
            dependencies_to_add)
         (fun other_dependency =>
            let* _ := holmes_of target_token in
            let* dep := lift (SemanticDependency.init (Z.of_nat target_token)
                                (SemanticDependency.child_index other_dependency)
                                (Some target_dependency) true) in
            append_child target_token dep)) ;;;
  ret defaults.

Definition project_subjects (token : nat) (tok : Token.t)
    (defaults : DefaultArguments) : M DefaultArguments :=
  for_live (memory limits) token 0
    (fun dependency defaults =>
       let* selected :=
         (if label_in (SemanticDependency.label dependency) ["oc"; "oa"; "mo"; "re"]
             && String.eqb (Token.pos_ tok) "VERB"
          then
            let* c := doc_getitem (SemanticDependency.child_index dependency) in
            let* tc := token_at c in
            ret (str_in (Token.pos_ tc) ["VERB"; "AUX"])
          else ret false) in
       if selected
       then project_subject_onto_dependent_verb token dependency defaults
       else ret defaults)
    defaults.

(** 'er war froh, etwas zu tun' *)
Definition project_onto_adjective_complements (token : nat) (tok : Token.t)
    (defaults : DefaultArguments) : M DefaultArguments :=
  for_live (memory limits) token 0
    (fun dependency defaults =>
       let* selected :=
         (if has_label "nk" dependency
             && String.eqb (Token.pos_ tok) "NOUN"
             && String.eqb (Token.dep_ tok) "sb"
          then
            let* c := doc_getitem (SemanticDependency.child_index dependency) in
            let* tc := token_at c in
            ret (String.eqb (Token.pos_ tc) "ADJ")
          else ret false) in
       if selected then
         let* child_token := doc_getitem (SemanticDependency.child_index dependency) in
         for_live (memory limits) child_token 0
           (fun child_dependency defaults =>
              let* selected :=
                (if label_in (SemanticDependency.label child_dependency) ["oc"; "re"]
                 then
                   let* c :=
                     doc_getitem (SemanticDependency.child_index child_dependency) in
                   let* tc := token_at c in
                   ret (str_in (Token.pos_ tc) ["VERB"; "AUX"])
                 else ret false) in
              if selected then
                let* target :=
                  doc_getitem (SemanticDependency.child_index child_dependency) in
                let* (target_tokens, target_dependency, defaults) :=
                  find_target_tokens_and_dependency target defaults in
                for_each
                  (List.filter
                     (fun target_token =>
                        negb (Z.of_nat target_token
                              =? SemanticDependency.parent_index dependency))
                     target_tokens)
                  (fun target_token =>
                     let* _ := holmes_of target_token in
                     let* dep := lift (SemanticDependency.init (Z.of_nat target_token)
                                         (SemanticDependency.parent_index dependency)
                                         (Some target_dependency) true) in
                     append_child target_token dep) ;;;
                ret defaults
              else ret defaults)
           defaults
       else ret defaults)
    defaults.

(** The method.  Its [def] statement runs on every call and binds a fresh
    empty list as the default of [visited], whatever an earlier call left. *)
Definition German_perform_language_specific_tasks (token : nat)
    (defaults : DefaultArguments) : M DefaultArguments :=
  let* tok := token_at token in
  remove_particle_dependency token tok ;;;
  span_von_preposition token ;;;
  let defaults := {| visited_default := [] |} in
  let* defaults := project_subjects token tok defaults in
  project_onto_adjective_complements token tok defaults.

End GermanLanguageSpecificTasks.

(** ** The pipeline: [holmes_parse] and [parse] *)

Section HolmesParse.

Variable self : Analyzer.
Variable limits : Limits.

(** The abstract methods of [SemanticAnalyzer]. *)
Variable _holmes_lemma : nat -> M string.
Variable _set_negation : nat -> M unit.
Variable _correct_auxiliaries_and_passives : nat -> M unit.
Variable _handle_relative_constructions : nat -> M unit.
Variable _perform_language_specific_tasks :
  nat -> DefaultArguments -> M DefaultArguments.

(** [for token in spacy_doc: method(token)] *)
Definition for_each_token (method : nat -> M unit) : M unit :=
  fun doc => for_each (seq 0 (Doc.len doc)) method doc.

Definition holmes_parse (defaults : DefaultArguments) : M DefaultArguments :=
  for_each_token
    (fun token =>
       let* lemma := _holmes_lemma token in
       set_extension token
         (ExtDict (HolmesDictionary.init (Z.of_nat token) lemma))) ;;;
  for_each_token (_set_matchability self) ;;;
  for_each_token _set_negation ;;;
  for_each_token (_initialize_semantic_dependencies self) ;;;
  for_each_token (_mark_if_righthand_sibling self limits) ;;;
  for_each_token (_copy_any_sibling_info self) ;;;
  for_each_token _correct_auxiliaries_and_passives ;;;
  for_each_token (_copy_any_sibling_info self) ;;;
  for_each_token (_normalize_predicative_adjectives self limits) ;;;
  for_each_token _handle_relative_constructions ;;;
  for_each_token (_create_additional_preposition_phrase_semantic_dependencies self) ;;;
  let* defaults :=
    (fun doc =>
       fold_m (seq 0 (Doc.len doc)) _perform_language_specific_tasks defaults doc) in
  debug_structures self ;;;
  ret defaults.

(** [parse]: the spaCy parse, then the Holmes passes on its document. *)
Definition parse (nlp : string -> Library Doc.t) (text : string)
    (defaults : DefaultArguments)
    : Result (DefaultArguments * Doc.t) * list string :=
  match spacy_parse self nlp text with
  | (Ok spacy_doc, calls) =>
      match holmes_parse defaults spacy_doc with
      | (Ok defaults', holmes_doc) => (Ok (defaults', holmes_doc), calls)
      | (Raise e, _) => (Raise e, calls)
      end
  | (Raise e, calls) => (Raise e, calls)
  end.

End HolmesParse.

(** ** Example documents *)

(** A token as spaCy delivers it, before Holmes has touched it. *)
Definition spacy_token (text lemma_ pos_ tag_ dep_ : string) (head : nat)
    (children : list nat) (sent : nat * nat) : Token.t :=
  Token.Build text lemma_ pos_ tag_ dep_ "" head children sent [] (ExtStr "").

(** The dictionary of a token after the preparatory passes. *)
Definition prepared (index : Z) (lemma : string) (children : list SemDep)
    (righthand_siblings : list Z) (is_matchable : bool) : Extension :=
  ExtDict (HolmesDictionary.Build index lemma children righthand_siblings
             false (Some false) (Some is_matchable)).

Definition dep (parent child : Z) (label : string) : SemDep :=
  SemanticDependency.Build parent child (Some label) false.

Definition english : Analyzer := EnglishSemanticAnalyzer "en_core_web_lg" false false.
Definition german : Analyzer := GermanSemanticAnalyzer "de_core_news_md" false false.


(** ** Observations on documents used in the statements *)

(** The dictionary of the token at position [p], when it has one. *)
Definition dict_at (doc : Doc.t) (p : nat) : option HDict :=
  match Doc.tokens doc !! p with
  | Some tok =>
      match Token.holmes tok with
      | ExtDict d => Some d
      | _ => None
      end
  | None => None
  end.

(** The semantic children of the token at [p] ([[]] when it has no dictionary). *)
Definition children_at (doc : Doc.t) (p : nat) : list SemDep :=
  match dict_at doc p with
  | Some h => HolmesDictionary.children h
  | None => []
  end.

(** [grows P doc doc']: between [doc] and [doc'] no token appeared or
    disappeared, every dictionary is still a dictionary with the same
    righthand siblings, and its children are the old ones, in place and
    unchanged, followed by new ones that all satisfy [P] (given the position
    of the owning token). *)
Definition grows (P : nat -> SemDep -> Prop) (doc doc' : Doc.t) : Prop :=
  Doc.len doc' = Doc.len doc /\
  forall p h, dict_at doc p = Some h ->
    exists h' new,
      dict_at doc' p = Some h'
      /\ HolmesDictionary.righthand_siblings h' = HolmesDictionary.righthand_siblings h
      /\ HolmesDictionary.children h' = (HolmesDictionary.children h ++ new)%list
      /\ Forall (P p) new.

(** A computation keeps a relation between the document it starts from and
    the document it leaves, whether it returns or raises. *)
Definition keeps {A} (R : Doc.t -> Doc.t -> Prop) (m : M A) : Prop :=
  forall doc, R doc (snd (m doc)).

(** The token at position [a] carries an edge to the child of [d] or an edge
    with the label of [d]. *)
Definition has_child_or_label (doc : Doc.t) (a : nat) (d : SemDep) : Prop :=
  exists h, dict_at doc a = Some h
    /\ (HolmesDictionary.has_dependency_with_child_index h
          (SemanticDependency.child_index d) = true
        \/ HolmesDictionary.has_dependency_with_label h
             (SemanticDependency.label d) = true).

(** What one call of [_copy_any_sibling_info] for the token at [b] may append
    to the children of the token at [p]: on every other token, only edges that
    carry the language's flag and a label outside the coordination labels. *)
Definition copied_edge (self : Analyzer) (b p : nat) (e : SemDep) : Prop :=
  p <> b ->
  SemanticDependency.is_uncertain e
  = SemanticAnalyzer._mark_child_dependencies_copied_to_siblings_as_uncertain self
  /\ label_in (SemanticDependency.label e)
              (SemanticAnalyzer._conjunction_deps self) = false.

(** The outcome for one edge [d] of a token and one righthand sibling [rs] of
    that token. *)
Definition sibling_served (self : Analyzer) (d : SemDep) (rs : Z) (doc : Doc.t)
    : Prop :=
  label_in (SemanticDependency.label d) (SemanticAnalyzer._conjunction_deps self) = true
  \/ rs = SemanticDependency.child_index d
  \/ exists a, py_index (Doc.len doc) rs = Some a /\ has_child_or_label doc a d.

(** *** The moment at which the pass considers an edge for a sibling *)

(** The document [s] in which a loop over [l], started on [doc], comes to an
    occurrence of [x]: the loop has run its body on what stands before that
    occurrence and has returned every time. *)
Definition reaches {A} (l : list A) (body : A -> M unit) (doc : Doc.t) (x : A)
    (s : Doc.t) : Prop :=
  exists before after,
    l = (before ++ x :: after)%list /\ for_each before body doc = (Ok tt, s).

(** The document [s] in which the pass, started on [doc], considers copying
    the edge [d] of the token at [b] onto the righthand sibling [rs] of that
    token: the loop over the tokens has come to [b] (on [s0]), the call for
    [b] has propagated the or-flag (leaving [s1]), its loop over the
    dependencies has come to [d] (on [s2]), the first inner loop for [d] has
    run (leaving [s3]), and the second inner loop has come to [rs]. *)
Definition considered_at (self : Analyzer) (doc : Doc.t) (b : nat) (d : SemDep)
    (rs : Z) (s : Doc.t) : Prop :=
  exists s0 s1 hb s2 s3 hb',
    reaches (seq 0 (Doc.len doc)) (_copy_any_sibling_info self) doc b s0
    /\ (let* h := holmes_of b in
        when (HolmesDictionary.is_involved_in_or_conjunction h)
          (for_each (HolmesDictionary.righthand_siblings h)
             (fun righthand_sibling =>
                let* p := doc_getitem righthand_sibling in
                update_holmes p
                  (HolmesDictionary.set_is_involved_in_or_conjunction true)))) s0
       = (Ok tt, s1)
    /\ dict_at s1 b = Some hb
    /\ reaches (HolmesDictionary.children hb) (copy_dependency self b) s1 d s2
    /\ (let* child := doc_getitem (SemanticDependency.child_index d) in
        let* hc := holmes_of child in
        for_each (HolmesDictionary.righthand_siblings hc)
                 (copy_to_child_sibling b d)) s2
       = (Ok tt, s3)
    /\ dict_at s3 b = Some hb'
    /\ reaches
         (List.filter
            (fun righthand_sibling =>
               negb (righthand_sibling =? SemanticDependency.child_index d))
            (HolmesDictionary.righthand_siblings hb'))
         (copy_to_sibling self d) s3 rs s.

(** *** Documents on which the coordination pass runs to its end *)

(** An edge as the constructor and the passes produce it, in a document of
    [n] tokens: its child index is one that [doc[...]] accepts, and a negative
    child index comes without a label. *)
Definition edge_ok (n : nat) (d : SemDep) : Prop :=
  is_Some (py_index n (SemanticDependency.child_index d))
  /\ (SemanticDependency.child_index d < 0 -> SemanticDependency.label d = None).

Definition dict_ok (n : nat) (h : HDict) : Prop :=
  Forall (edge_ok n) (HolmesDictionary.children h)
  /\ Forall (fun rs => 0 <= rs < Z.of_nat n) (HolmesDictionary.righthand_siblings h).

(** Every token has its dictionary, with edges and righthand siblings that
    refer to tokens of the document. *)
Definition coordinated (n : nat) (doc : Doc.t) : Prop :=
  Doc.len doc = n /\
  forall p tok, Doc.tokens doc !! p = Some tok ->
    exists h, Token.holmes tok = ExtDict h /\ dict_ok n h.

(** From every document that satisfies [Inv] the computation returns, with a
    value that satisfies [Q], and leaves a document that satisfies [Inv]. *)
Definition succeeds {A} (Inv : Doc.t -> Prop) (m : M A) (Q : A -> Prop) : Prop :=
  forall doc, Inv doc -> exists a doc', m doc = (Ok a, doc') /\ Inv doc' /\ Q a.

(** ** Observations for the negation pass *)

Inductive Language : Type := English | German.

Definition negation_child_of (language : Language) : nat -> M bool :=
  match language with
  | English => English_negation_child
  | German => German_negation_child
  end.

(** The token at [p] has a dictionary whose [is_negated] is [True] or [False]. *)
Definition negation_resolved_at (doc : Doc.t) (p : nat) : Prop :=
  exists h b, dict_at doc p = Some h /\ HolmesDictionary.is_negated h = Some b.

(** [reaches_root doc n p]: following [head] from the token at [p] arrives at
    a token whose [dep_] is [ROOT] after at most [n] steps. *)
Inductive reaches_root (doc : Doc.t) : nat -> nat -> Prop :=
| reaches_root_here n p tok :
    Doc.tokens doc !! p = Some tok ->
    Token.dep_ tok = "ROOT" ->
    reaches_root doc n p
| reaches_root_up n p tok :
    Doc.tokens doc !! p = Some tok ->
    reaches_root doc n (Token.head tok) ->
    reaches_root doc (S n) p.

(** What spaCy guarantees of a parse and [holmes_parse] of its first pass:
    syntactic children are tokens of the document, and every token has its
    dictionary. *)
Definition well_parsed (doc : Doc.t) : Prop :=
  forall p tok, Doc.tokens doc !! p = Some tok ->
    (exists h, Token.holmes tok = ExtDict h)
    /\ Forall (fun c => (c < Doc.len doc)%nat) (Token.children tok).

(** Between [doc] and [doc'] nothing but [is_negated] fields changed, and no
    resolved [is_negated] became unset. *)
Definition negation_only (doc doc' : Doc.t) : Prop :=
  Doc.len doc' = Doc.len doc /\
  forall p tok, Doc.tokens doc !! p = Some tok ->
    exists tok',
      Doc.tokens doc' !! p = Some tok'
      /\ tok' = Token.set_holmes (Token.holmes tok') tok
      /\ forall h, Token.holmes tok = ExtDict h ->
           exists o, Token.holmes tok' = ExtDict (HolmesDictionary.set_is_negated o h)
                     /\ (HolmesDictionary.is_negated h <> None -> o <> None).

(** The negation property in the strong form: on this document the pass
    returns, for a suitable recursion limit, and leaves no [is_negated] unset. *)
Definition negation_pass_resolves (language : Language) (doc : Doc.t) : Prop :=
  exists limits doc',
    set_negation_pass (negation_child_of language) limits doc = (Ok tt, doc')
    /\ forall p, (p < Doc.len doc)%nat -> negation_resolved_at doc' p.

(** Two tokens that are each other's head, as freshly initialised by
    [holmes_parse]: no token is a [ROOT]. *)
Definition doc_head_cycle : Doc.t :=
  Doc.Build
    [ Token.set_holmes (ExtDict (HolmesDictionary.init 0 "go"))
        (spacy_token "go" "go" "VERB" "VB" "dep" 1 [1%nat] (0, 2)%nat);
      Token.set_holmes (ExtDict (HolmesDictionary.init 1 "home"))
        (spacy_token "home" "home" "ADV" "RB" "dep" 0 [0%nat] (0, 2)%nat) ]
    false.

(** "He did not go." after the first two passes of [holmes_parse]. *)
Definition doc_he_did_not_go : Doc.t :=
  Doc.Build
    [ Token.set_holmes (ExtDict (HolmesDictionary.init 0 "-pron-"))
        (spacy_token "He" "-PRON-" "PRON" "PRP" "nsubj" 3 [] (0, 5)%nat);
      Token.set_holmes (ExtDict (HolmesDictionary.init 1 "do"))
        (spacy_token "did" "do" "VERB" "VBD" "aux" 3 [] (0, 5)%nat);
      Token.set_holmes (ExtDict (HolmesDictionary.init 2 "not"))
        (spacy_token "not" "not" "ADV" "RB" "neg" 3 [] (0, 5)%nat);
      Token.set_holmes (ExtDict (HolmesDictionary.init 3 "go"))
        (spacy_token "go" "go" "VERB" "VB" "ROOT" 3 [0; 1; 2; 4]%nat (0, 5)%nat);
      Token.set_holmes (ExtDict (HolmesDictionary.init 4 "."))
        (spacy_token "." "." "PUNCT" "." "punct" 3 [] (0, 5)%nat) ]
    false.

(** An edge that the preposition pass may add below the token at [p]: it is
    uncertain, it starts at [p], it points to a token, and its label is one of
    the two 'possible' labels of the language. *)
Definition possible_preposition_edge (self : Analyzer) (p : nat) (e : SemDep)
    : Prop :=
  SemanticDependency.is_uncertain e = true
  /\ SemanticDependency.parent_index e = Z.of_nat p
  /\ 0 <= SemanticDependency.child_index e
  /\ (SemanticDependency.label e
      = Some (SemanticAnalyzer._holmes_noun_to_preposition_dep self)
      \/ SemanticDependency.label e
         = Some (SemanticAnalyzer._holmes_verb_to_preposition_dep self)).

(** A computation that reads the document and leaves it as it is. *)
Definition reads_only {A} (m : M A) : Prop := forall doc, snd (m doc) = doc.

(** ** Observations for serialization *)

(** The document while [to_bytes] runs: every extension is [None]. *)
Definition detached (doc : Doc.t) : Doc.t :=
  Doc.Build (map (Token.set_holmes ExtNone) (Doc.tokens doc)) (Doc.has_coref doc).


(** ** Observations for the pipeline *)

(** Three German verbs: the first and the third are grammatical tokens that
    both point to the second. *)
Definition doc_three_verbs : Doc.t :=
  Doc.Build
    [ Token.set_holmes
        (prepared 0 "wollen" [SemanticDependency.Build 0 (-2) None false] [] true)
        (spacy_token "will" "wollen" "VERB" "VMFIN" "ROOT" 0 [1%nat] (0, 3)%nat);
      Token.set_holmes (prepared 1 "gehen" [] [] true)
        (spacy_token "gehen" "gehen" "VERB" "VVINF" "oc" 0 [] (0, 3)%nat);
      Token.set_holmes
        (prepared 2 "muessen" [SemanticDependency.Build 2 (-2) None false] [] true)
        (spacy_token "muss" "muessen" "VERB" "VMFIN" "cj" 0 [] (0, 3)%nat) ]
    false.

(** "Er steht auf." with the dictionaries of the preparatory passes and
    hooks that stand in for the three methods that are parameters. *)
Definition doc_er_steht_auf : Doc.t :=
  Doc.Build
    [ spacy_token "Er" "er" "PRON" "PPER" "sb" 1 [] (0, 4)%nat;
      spacy_token "steht" "stehen" "VERB" "VVFIN" "ROOT" 1 [0; 2; 3]%nat (0, 4)%nat;
      spacy_token "auf" "auf" "PART" "PTKVZ" "svp" 1 [] (0, 4)%nat;
      spacy_token "." "." "PUNCT" "$." "punct" 1 [] (0, 4)%nat ]
    false.

Definition plain_lemma (token : nat) : M string :=
  let* tok := token_at token in ret (Token.lemma_ tok).

Definition no_rewrite (token : nat) : M unit := ret tt.

(** ** Example documents, continued *)

(** "The big red dog and cat ran." as it stands before the first
    coordination pass: [cat] is a righthand sibling of [dog], and [dog]
    carries two edges with the label [amod]. *)
Definition doc_big_red_dog : Doc.t :=
  Doc.Build
    [ Token.set_holmes (prepared 0 "the" [] [] false)
        (spacy_token "The" "the" "DET" "DT" "det" 3 [] (0, 8)%nat);
      Token.set_holmes (prepared 1 "big" [] [] true)
        (spacy_token "big" "big" "ADJ" "JJ" "amod" 3 [] (0, 8)%nat);
      Token.set_holmes (prepared 2 "red" [] [] true)
        (spacy_token "red" "red" "ADJ" "JJ" "amod" 3 [] (0, 8)%nat);
      Token.set_holmes
        (prepared 3 "dog"
           [dep 3 1 "amod"; dep 3 2 "amod"; dep 3 4 "cc"; dep 3 5 "conj"] [5] true)
        (spacy_token "dog" "dog" "NOUN" "NN" "nsubj" 6 [0; 1; 2; 4; 5]%nat (0, 8)%nat);
      Token.set_holmes (prepared 4 "and" [] [] false)
        (spacy_token "and" "and" "CCONJ" "CC" "cc" 3 [] (0, 8)%nat);
      Token.set_holmes (prepared 5 "cat" [] [] true)
        (spacy_token "cat" "cat" "NOUN" "NN" "conj" 3 [] (0, 8)%nat);
      Token.set_holmes (prepared 6 "run" [dep 6 3 "nsubj"] [] true)
        (spacy_token "ran" "run" "VERB" "VBD" "ROOT" 6 [3; 7]%nat (0, 8)%nat);
      Token.set_holmes (prepared 7 "." [] [] false)
        (spacy_token "." "." "PUNCT" "." "punct" 6 [] (0, 8)%nat) ]
    false.

(** The coordination property in the strong form: whenever the pass returns,
    every righthand sibling [A] of a token [B] that had, before the pass,
    neither an edge labelled [L] nor an edge to [C] ends the pass with an edge
    to [C], for every edge [(B, C, L)] of [B] with [L] outside the
    coordination labels and [C] other than [A]. *)
Definition siblings_receive_every_edge (self : Analyzer) (doc : Doc.t) : Prop :=
  forall doc', copy_any_sibling_info_pass self doc = (Ok tt, doc') ->
  forall b hb d rs a ha,
    dict_at doc b = Some hb ->
    In d (HolmesDictionary.children hb) ->
    In rs (HolmesDictionary.righthand_siblings hb) ->
    label_in (SemanticDependency.label d)
             (SemanticAnalyzer._conjunction_deps self) = false ->
    rs <> SemanticDependency.child_index d ->
    py_index (Doc.len doc) rs = Some a ->
    dict_at doc a = Some ha ->
    HolmesDictionary.has_dependency_with_label ha (SemanticDependency.label d) = false ->
    HolmesDictionary.has_dependency_with_child_index ha
      (SemanticDependency.child_index d) = false ->
    exists ha',
      dict_at doc' a = Some ha'
      /\ HolmesDictionary.has_dependency_with_child_index ha'
           (SemanticDependency.child_index d) = true.

(** "The town is old." as it stands before the predicative-adjective pass. *)
Definition doc_the_town_is_old : Doc.t :=
  Doc.Build
    [ Token.set_holmes (prepared 0 "the" [] [] false)
        (spacy_token "The" "the" "DET" "DT" "det" 1 [] (0, 5)%nat);
      Token.set_holmes (prepared 1 "town" [] [] true)
        (spacy_token "town" "town" "NOUN" "NN" "nsubj" 2 [0%nat] (0, 5)%nat);
      Token.set_holmes
        (prepared 2 "be" [dep 2 1 "nsubj"; dep 2 3 "acomp"] [] true)
        (spacy_token "is" "be" "VERB" "VBZ" "ROOT" 2 [1; 3; 4]%nat (0, 5)%nat);
      Token.set_holmes (prepared 3 "old" [] [] true)
        (spacy_token "old" "old" "ADJ" "JJ" "acomp" 2 [] (0, 5)%nat);
      Token.set_holmes (prepared 4 "." [] [] false)
        (spacy_token "." "." "PUNCT" "." "punct" 2 [] (0, 5)%nat) ]
    false.

(** A text of 1,000,001 characters. *)
Definition oversized_text : string :=
  string_of_list_ascii (repeat "a"%char (Z.to_nat 1000001)).

(** A text of 1,000,000 characters in 2,000,000 bytes. *)
Definition text_of_umlauts : string :=
  string_of_list_ascii
    (List.concat (repeat (list_ascii_of_string "ü") (Z.to_nat 1000000))).

(** Stand-ins for the two libraries: the bytes of a document are its number
    of tokens, reading them back gives that many bare tokens, and pickling is
    the identity. *)
Definition toy_to_bytes (doc : Doc.t) : Library nat := Returns (Doc.len doc).

Definition toy_from_bytes (_ : Analyzer) (n : nat) : Library Doc.t :=
  Returns (Doc.Build (repeat (spacy_token "" "" "" "" "" 0 [] (0, 0)%nat) n) false).

Definition toy_encode (sd : SerializedHolmesDocument nat)
  : Library (SerializedHolmesDocument nat) := Returns sd.

Definition toy_decode (s : SerializedHolmesDocument nat)
  : Library (SerializedHolmesDocument nat) := Returns s.

Definition pickled_the_town_is_old : SerializedHolmesDocument nat :=
  Build_SerializedHolmesDocument 5%nat
    (map Token.holmes (Doc.tokens doc_the_town_is_old)) "en_core_web_lg".

(** "Somebody needs insurance for a period." before the preposition pass:
    spaCy has attached [for] to the noun [insurance]. *)
Definition doc_insurance_for_a_period : Doc.t :=
  Doc.Build
    [ Token.set_holmes (prepared 0 "somebody" [] [] false)
        (spacy_token "Somebody" "somebody" "NOUN" "NN" "nsubj" 1 [] (0, 7)%nat);
      Token.set_holmes (prepared 1 "need" [dep 1 0 "nsubj"; dep 1 2 "dobj"] [] true)
        (spacy_token "needs" "need" "VERB" "VBZ" "ROOT" 1 [0; 2; 6]%nat (0, 7)%nat);
      Token.set_holmes (prepared 2 "insurance" [dep 2 3 "prep"] [] true)
        (spacy_token "insurance" "insurance" "NOUN" "NN" "dobj" 1 [3%nat] (0, 7)%nat);
      Token.set_holmes (prepared 3 "for" [dep 3 5 "pobj"] [] true)
        (spacy_token "for" "for" "ADP" "IN" "prep" 2 [5%nat] (0, 7)%nat);
      Token.set_holmes (prepared 4 "a" [] [] false)
        (spacy_token "a" "a" "DET" "DT" "det" 5 [] (0, 7)%nat);
      Token.set_holmes (prepared 5 "period" [] [] true)
        (spacy_token "period" "period" "NOUN" "NN" "pobj" 3 [4%nat] (0, 7)%nat);
      Token.set_holmes (prepared 6 "." [] [] false)
        (spacy_token "." "." "PUNCT" "." "punct" 1 [] (0, 7)%nat) ]
    false.

(** A document as spaCy hands it over: no token has a dictionary yet. *)
Definition as_parsed_by_spacy (doc : Doc.t) : Doc.t :=
  Doc.Build (map (Token.set_holmes (ExtStr "")) (Doc.tokens doc)) (Doc.has_coref doc).

(** The first five loops of [holmes_parse]. *)
Definition preparatory_passes (self : Analyzer) (limits : Limits)
    (_holmes_lemma : nat -> M string) (_set_negation : nat -> M unit) : M unit :=
  for_each_token
    (fun token =>
       let* lemma := _holmes_lemma token in
       set_extension token
         (ExtDict (HolmesDictionary.init (Z.of_nat token) lemma))) ;;;
  for_each_token (_set_matchability self) ;;;
  for_each_token _set_negation ;;;
  for_each_token (_initialize_semantic_dependencies self) ;;;
  for_each_token (_mark_if_righthand_sibling self limits).

(** * Further parts of the module *)

(** ** [SemanticDependency.child_token] *)

(** [dependency.child_token(doc)] is [doc[self.child_index]]. *)
Definition child_token (self : SemDep) : M nat :=
  doc_getitem (SemanticDependency.child_index self).

(** ** [SemanticAnalyzer.dependency_labels_match] *)

Section DependencyLabelsMatch.

(** The class attribute [_matching_dep_dict] of the analyzer. *)
Variable _matching_dep_dict : gmap string (list string).

(** A label is a string or [None]; [None] is no key of the dictionary and no
    element of its lists. *)
Definition dependency_labels_match
    (search_phrase_dependency_label document_dependency_label : option string)
    : bool :=
  if bool_decide (search_phrase_dependency_label = document_dependency_label)
  then true
  else
    match search_phrase_dependency_label with
    | None => false
    | Some key =>
        match _matching_dep_dict !! key with
        | None => false
        | Some labels => label_in document_dependency_label labels
        end
    end.

End DependencyLabelsMatch.

Definition English_matching_dep_dict : gmap string (list string) :=
  list_to_map
    [ ("nsubj", ["csubj"; "poss"; "pobjb"; "advmodsubj"]);
      ("acomp", ["amod"; "advmod"; "npmod"]);
      ("amod", ["acomp"; "advmod"; "npmod"]);
      ("advmod", ["acomp"; "amod"; "npmod"]);
      ("dative", ["pobjt"; "relant"; "nsubjpass"]);
      ("pobjt", ["dative"; "relant"]);
      ("nsubjpass",
       ["dobj"; "pobjo"; "poss"; "relant"; "csubjpass"; "compound"; "advmodobj"]);
      ("dobj",
       ["pobjo"; "poss"; "relant"; "nsubjpass"; "csubjpass"; "compound"; "advmodobj"]);
      ("nmod", ["appos"; "compound"; "nummod"]);
      ("poss", ["pobjo"]);
      ("pobjo", ["poss"]);
      ("pobjb", ["nsubj"; "csubj"; "poss"; "advmodsubj"]);
      ("prep", ["prepposs"]) ].

Definition German_matching_dep_dict : gmap string (list string) :=
  list_to_map
    [ ("sb", ["nk"; "ag"; "mnr"]);
      ("ag", ["nk"; "mnr"]);
      ("da", ["nk"; "og"; "op"]);
      ("oa", ["nk"; "og"; "op"; "ag"; "mnr"]);
      ("og", ["oa"; "da"; "nk"; "op"]);
      ("nk", ["ag"]);
      ("mo", ["moposs"; "op"]);
      ("mnr", ["mnrposs"; "op"]) ].

(** ** [SemanticAnalyzerFactory.semantic_analyzer] *)

(** What a call of the factory ends in: an analyzer, the [ValueError] of the
    factory, or an exception of [spacy.load]. *)
Inductive FactoryOutcome : Type :=
| Created (analyzer : Analyzer)
| ValueError (msg : string)
| LoadFailed (msg : string).

Section SemanticAnalyzerFactory.

(** [spacy.load(model)]; of the pipeline it returns, the analyzer record keeps
    whether it has the [neuralcoref] component. *)
Variable spacy_load : string -> Library bool.

(** [SemanticAnalyzer.__init__] for one of the two subclasses. *)
Definition SemanticAnalyzer_init (subclass : string -> bool -> bool -> Analyzer)
    (model : string) (debug : bool) : FactoryOutcome :=
  match spacy_load model with
  | Returns has_neuralcoref => Created (subclass model debug has_neuralcoref)
  | LibraryRaises msg => LoadFailed msg
  end.

(** The outcome of [semantic_analyzer(model=..., debug=...)], together with
    the model names that were handed to [spacy.load] on the way. *)
Definition semantic_analyzer (model : string) (debug : bool)
    : FactoryOutcome * list string :=
  let language := String.substring 0 2 model in
  if String.eqb language "en" then
    (SemanticAnalyzer_init EnglishSemanticAnalyzer model debug, [model])
  else if String.eqb language "de" then
    (SemanticAnalyzer_init GermanSemanticAnalyzer model debug, [model])
  else
    (ValueError (join_space "No semantic analyzer for model" language), []).

End SemanticAnalyzerFactory.

(** ** [EnglishSemanticAnalyzer._lefthand_sibling_recursively] *)

(** A method of the English analyzer; it reads [self._conjunction_deps].
    [depth] is the number of frames of recursion left. *)
Fixpoint _lefthand_sibling_recursively (self : Analyzer) (depth : nat)
    (token : nat) : M nat :=
  match depth with
  | O => raise RecursionError
  | S depth' =>
      let* tok := token_at token in
      if negb (str_in (Token.dep_ tok) (SemanticAnalyzer._conjunction_deps self))
      then ret token
      else _lefthand_sibling_recursively self depth' (Token.head tok)
  end.

(** ** [SemanticAnalyzer._move_information_between_tokens] *)

(** [l.remove(x)] on a list that holds [x]: the first occurrence goes. *)
Fixpoint list_remove (x : Z) (l : list Z) : list Z :=
  match l with
  | [] => []
  | y :: l' => if y =? x then l' else y :: list_remove x l'
  end.

Section MoveInformationBetweenTokens.

Variable limits : Limits.

(** The last loop of the method, for one token of the sentence of
    [from_token]. *)
Definition redirect_sibling_reference (from_token to_token token : nat) : M unit :=
  let* h := holmes_of token in
  when (existsb (Z.eqb (Z.of_nat from_token)) (HolmesDictionary.righthand_siblings h))
    (update_holmes token
       (fun h => HolmesDictionary.set_righthand_siblings
                   (list_remove (Z.of_nat from_token)
                      (HolmesDictionary.righthand_siblings h)) h) ;;;
     when (negb (Nat.eqb token to_token))
       (update_holmes token
          (fun h => HolmesDictionary.set_righthand_siblings
                      (HolmesDictionary.righthand_siblings h ++ [Z.of_nat to_token])
                      h))).

Definition _move_information_between_tokens (from_token to_token : nat) : M unit :=
  let* hf := holmes_of from_token in
  let linking_dependencies :=
    List.filter
      (fun dependency =>
         SemanticDependency.child_index dependency =? Z.of_nat to_token)
      (HolmesDictionary.children hf) in
  match linking_dependencies with
  | [] => ret tt
  | linking_dependency :: _ =>
      let linking_dependency_label := SemanticDependency.label linking_dependency in
      for_live (memory limits) from_token 0
        (fun dependency (_ : unit) =>
           if negb (bool_decide (SemanticDependency.label dependency
                                 = linking_dependency_label))
           then
             let* ht := holmes_of to_token in
             when (negb (HolmesDictionary.has_dependency_with_child_index ht
                           (SemanticDependency.child_index dependency))
                   && negb (Z.of_nat to_token
                            =? SemanticDependency.child_index dependency))
               (let* _ := holmes_of to_token in
                let* dep := lift (SemanticDependency.init (Z.of_nat to_token)
                                    (SemanticDependency.child_index dependency)
                                    (SemanticDependency.label dependency)
                                    (SemanticDependency.is_uncertain dependency)) in
                append_child to_token dep)
           else ret tt)
        tt ;;;
      let* pointer := lift (SemanticDependency.init (Z.of_nat from_token)
                              (0 - (Z.of_nat to_token + 1)) None false) in
      update_holmes from_token (HolmesDictionary.set_children [pointer]) ;;;
      let* _ := holmes_of to_token in
      let* hf := holmes_of from_token in
      update_holmes to_token
        (fun h => HolmesDictionary.set_righthand_siblings
                    (HolmesDictionary.righthand_siblings h
                     ++ HolmesDictionary.righthand_siblings hf) h) ;;;
      let* hf := holmes_of from_token in
      when (HolmesDictionary.is_involved_in_or_conjunction hf)
        (update_holmes to_token
           (HolmesDictionary.set_is_involved_in_or_conjunction true)) ;;;
      let* hf := holmes_of from_token in
      when (bool_decide (HolmesDictionary.is_negated hf = Some true))
        (update_holmes to_token (HolmesDictionary.set_is_negated (Some true))) ;;;
      let* tf := token_at from_token in
      for_each (seq (fst (Token.sent tf)) (snd (Token.sent tf) - fst (Token.sent tf)))
        (redirect_sibling_reference from_token to_token)
  end.

End MoveInformationBetweenTokens.

(** ** [_holmes_lemma] of the two languages *)

(** [s.endswith(suffix)]: [s] or one of its tails is [suffix]. *)
Fixpoint endswith (s suffix : string) : bool :=
  String.eqb s suffix
  || match s with
     | EmptyString => false
     | String _ s' => endswith s' suffix
     end.

(** [s.rstrip(chars)]: the characters of [chars] are removed from the end of
    [s] for as long as there are any. *)
Fixpoint rstrip (chars : list ascii) (s : string) : string :=
  match s with
  | EmptyString => EmptyString
  | String c s' =>
      match rstrip chars s' with
      | EmptyString =>
          if existsb (Ascii.eqb c) chars then EmptyString else String c EmptyString
      | rest => String c rest
      end
  end.

(** [for child in token.children: if child.tag_ == tag: return ...]: the
    first syntactic child with the tag. *)
Fixpoint first_child_with_tag (tag : string) (children : list nat)
    : M (option Token.t) :=
  match children with
  | [] => ret None
  | child :: rest =>
      let* tc := token_at child in
      if String.eqb (Token.tag_ tc) tag then ret (Some tc)
      else first_child_with_tag tag rest
  end.

Section HolmesLemma.

(** Python's [str.lower]. *)
Variable lower : string -> string.

Definition English_holmes_lemma (token : nat) : M string :=
  let* tok := token_at token in
  let* particle :=
    (if String.eqb (Token.pos_ tok) "VERB"
     then first_child_with_tag "RP" (Token.children tok)
     else ret None) in
  match particle with
  | Some child => ret (join_space (lower (Token.lemma_ tok)) (lower (Token.lemma_ child)))
  | None => ret (lower (Token.lemma_ tok))
  end.

Definition German_holmes_lemma (token : nat) : M string :=
  let* tok := token_at token in
  let* particle :=
    (if String.eqb (Token.pos_ tok) "VERB"
        && negb (str_in (Token.tag_ tok) ["VAINF"; "VMINF"; "VVINF"; "VVIZU"])
     then first_child_with_tag "PTKVZ" (Token.children tok)
     else ret None) in
  match particle with
  | Some child =>
      let child_lemma := lower (Token.lemma_ child) in
      let child_lemma := if String.eqb child_lemma "einen" then "ein" else child_lemma in
      ret (child_lemma ++ lower (Token.lemma_ tok))%string
  | None =>
      let lemma := lower (Token.lemma_ tok) in
      let contracted :=
        if String.eqb (Token.tag_ tok) "APPRART" then
          if String.eqb lemma "im" then Some "in"
          else if String.eqb lemma "am" then Some "an"
          else if String.eqb lemma "beim" then Some "bei"
          else if String.eqb lemma "zum" then Some "zu"
          else if String.eqb lemma "zur" then Some "zu"
          else None
        else None in
      match contracted with
      | Some preposition => ret preposition
      | None =>
          if String.eqb (Token.tag_ tok) "ADJA"
             && (5 <? str_len lemma)%nat && endswith lemma "en"
          then ret (rstrip ["e"; "n"]%char lemma)
          else if String.eqb (Token.tag_ tok) "ADJA"
                  && (5 <? str_len lemma)%nat && endswith lemma "e"
          then ret (rstrip ["e"]%char lemma)
          else ret lemma
      end
  end.

End HolmesLemma.

(** ** English: [_perform_language_specific_tasks] *)

(** [dependency.label = label] and [dependency.is_uncertain = True] on a
    dependency object. *)
Definition set_label (label : option string) (dependency : SemDep) : SemDep :=
  SemanticDependency.Build (SemanticDependency.parent_index dependency)
    (SemanticDependency.child_index dependency) label
    (SemanticDependency.is_uncertain dependency).

Definition set_is_uncertain (is_uncertain : bool) (dependency : SemDep) : SemDep :=
  SemanticDependency.Build (SemanticDependency.parent_index dependency)
    (SemanticDependency.child_index dependency)
    (SemanticDependency.label dependency) is_uncertain.

(** The position of the first element of a list that passes a test, with
    the element. *)
Fixpoint find_first {A} (test : A -> bool) (k : nat) (l : list A) : option (nat * A) :=
  match l with
  | [] => None
  | x :: l' => if test x then Some (k, x) else find_first test (S k) l'
  end.

(** [for other_dependency in [other_dependency for other_dependency in
     token._.holmes.children if other_dependency.label != 'aux']:
     other_dependency.is_uncertain = True]: the dependency objects are changed
    where they are, in the list that holds them. *)
Definition mark_uncertain_unless_aux (children : list SemDep) : list SemDep :=
  List.map
    (fun other_dependency =>
       if negb (has_label "aux" other_dependency)
       then set_is_uncertain true other_dependency
       else other_dependency)
    children.

Section EnglishLanguageSpecificTasks.

Variable self : Analyzer.
Variable limits : Limits.

(** The [if]/[elif] chain that chooses [working_dependency_label] from the
    lemma of the preposition; [None] stands for the [continue] of its [else]
    branch. *)
Definition working_dependency_label (lemma : string) (dependency : SemDep)
    : option string :=
  if String.eqb lemma "by" then Some "pobjb"
  else if String.eqb lemma "of" then Some "pobjo"
  else if String.eqb lemma "to" then
    if has_label "dative" dependency then Some "dative" else Some "pobjt"
  else None.

(** Phrasal verbs: the dependency from the verb to the particle goes. *)
Definition remove_phrasal_particle_dependency (token : nat) (tok : Token.t) : M unit :=
  when (String.eqb (Token.tag_ tok) "RP")
    (update_holmes (Token.head tok)
       (HolmesDictionary.remove_dependency_with_child_index (Z.of_nat token))).

(** Modal verbs: the other dependencies of the verb become uncertain. *)
Definition mark_modal_verb_dependencies (token : nat) (tok : Token.t) : M unit :=
  when (String.eqb (Token.pos_ tok) "VERB")
    (for_live (memory limits) token 0
       (fun dependency (_ : unit) =>
          if has_label "aux" dependency then
            let* child := child_token dependency in
            let* tc := token_at child in
            if String.eqb (Token.pos_ tc) "VERB" then
              let* hc := holmes_of child in
              when (negb (str_in (HolmesDictionary.lemma hc)
                            ["be"; "have"; "do"; "go"; "use"; "will"; "shall"]))
                (update_holmes token
                   (fun h =>
                      HolmesDictionary.set_children
                        (mark_uncertain_unless_aux (HolmesDictionary.children h)) h))
            else ret tt
          else ret tt)
       tt).

(** Auxiliaries are not matchable. *)
Definition set_auxiliaries_not_matchable (token : nat) (tok : Token.t) : M unit :=
  when (str_in (Token.dep_ tok) ["aux"; "auxpass"])
    (update_holmes token (HolmesDictionary.set_is_matchable (Some false))).

(** Phrases with [by], [of] and [to]: dependencies from the token to the
    objects of the preposition. *)
Definition add_deverbal_dependencies (token : nat) : M unit :=
  for_live (memory limits) token 0
    (fun dependency (_ : unit) =>
       if label_in (SemanticDependency.label dependency) ["prep"; "agent"; "dative"]
       then
         let* child := child_token dependency in
         let* hc := holmes_of child in
         match working_dependency_label (HolmesDictionary.lemma hc) dependency with
         | None => ret tt
         | Some working_dependency_label =>
             update_holmes child (HolmesDictionary.set_is_matchable (Some false)) ;;;
             for_live (memory limits) child 0
               (fun child_dependency (_ : unit) =>
                  if has_label "pobj" child_dependency
                     && negb (Z.of_nat token
                              =? SemanticDependency.child_index child_dependency)
                  then
                    let* _ := holmes_of token in
                    let* dep :=
                      lift (SemanticDependency.init (Z.of_nat token)
                              (SemanticDependency.child_index child_dependency)
                              (Some working_dependency_label) false) in
                    append_child token dep
                  else ret tt)
               tt
         end
       else ret tt)
    tt.

(** Past passive participles: the antecedents become objects. *)
Definition handle_past_passive_participle (token : nat) (tok : Token.t) : M unit :=
  when (String.eqb (Token.dep_ tok) "acl" && String.eqb (Token.tag_ tok) "VBN")
    (let* lefthand_sibling :=
       _lefthand_sibling_recursively self (recursion_limit limits) (Token.head tok) in
     let* hl := holmes_of lefthand_sibling in
     for_each (loop_token_and_righthand_siblings hl)
       (fun i =>
          let* antecedent := doc_getitem i in
          when (negb (Nat.eqb token antecedent))
            (let* _ := holmes_of token in
             let* dep := lift (SemanticDependency.init (Z.of_nat token)
                                 (Z.of_nat antecedent) (Some "dobj") false) in
             append_child token dep))).

(** Phrases like 'cat-eating dog' and 'dog-eaten cat': only the first
    [npadvmod] dependency is handled. *)
Definition handle_participle_compound (token : nat) (tok : Token.t) : M unit :=
  when (String.eqb (Token.dep_ tok) "amod" && String.eqb (Token.pos_ tok) "VERB")
    (let* h := holmes_of token in
     match find_first (has_label "npadvmod") 0 (HolmesDictionary.children h) with
     | None => ret tt
     | Some (k, _) =>
         let labels :=
           if String.eqb (Token.tag_ tok) "VBG" then Some ("advmodobj", "advmodsubj")
           else if String.eqb (Token.tag_ tok) "VBN" then Some ("advmodsubj", "advmodobj")
           else None in
         match labels with
         | None => ret tt
         | Some (own_label, noun_dependency) =>
             update_holmes token
               (fun h =>
                  HolmesDictionary.set_children
                    (alter (set_label (Some own_label)) k (HolmesDictionary.children h))
                    h) ;;;
             let* hh := holmes_of (Token.head tok) in
             for_each (loop_token_and_righthand_siblings hh)
               (fun i =>
                  let* noun := doc_getitem i in
                  when (negb (Nat.eqb token noun))
                    (let* _ := holmes_of token in
                     let* dep :=
                       lift (SemanticDependency.init (Z.of_nat token) (Z.of_nat noun)
                               (Some noun_dependency)
                               (negb (Nat.eqb noun (Token.head tok)))) in
                     append_child token dep))
         end
     end).

(** [while True: counter -= 1; if counter < token.sent.start: return;
     if token.doc[counter].dep_ in ('nsubj', 'nsubjpass'): break], started
    with the given value of [counter]. *)
Fixpoint find_subject_phrase (sent_start : nat) (counter : nat) : M (option nat) :=
  match counter with
  | O => ret None
  | S counter' =>
      if (counter' <? sent_start)%nat then ret None
      else
        let* candidate := doc_getitem (Z.of_nat counter') in
        let* tc := token_at candidate in
        if str_in (Token.dep_ tc) ["nsubj"; "nsubjpass"] then ret (Some candidate)
        else find_subject_phrase sent_start counter'
  end.

(** The second [while True] loop: from the subject phrase up through the
    syntactic parents. *)
Fixpoint project_subject_phrase (rounds : nat) (token : nat)
    (new_dependency_label : string) (working_token : nat) : M unit :=
  match rounds with
  | O => raise NonTermination
  | S rounds' =>
      let* wt := token_at working_token in
      let* is_nominal :=
        (if String.prefix "NN" (Token.tag_ wt) then ret true
         else is_involved_in_coreference self working_token) in
      if is_nominal then
        let* hw := holmes_of working_token in
        for_each (loop_token_and_righthand_siblings hw)
          (fun i =>
             let* source_token := doc_getitem i in
             let* ht := holmes_of token in
             for_each (loop_token_and_righthand_siblings ht)
               (fun j =>
                  let* target_token := doc_getitem j in
                  when (negb (Nat.eqb target_token source_token))
                    (let* _ := holmes_of target_token in
                     let* dep :=
                       lift (SemanticDependency.init (Z.of_nat target_token)
                               (Z.of_nat source_token) (Some new_dependency_label)
                               true) in
                     append_child target_token dep)))
      else if negb (String.eqb (Token.dep_ wt) "ROOT")
      then project_subject_phrase rounds' token new_dependency_label (Token.head wt)
      else ret tt
  end.

(** Phrases like 'he is thinking about singing', 'he keeps on singing'. *)
Definition handle_prepositional_complement (token : nat) (tok : Token.t) : M unit :=
  when (String.eqb (Token.pos_ tok) "VERB" && String.eqb (Token.dep_ tok) "pcomp")
    (let* h := holmes_of token in
     let new_dependency_label :=
       if existsb (has_label "auxpass") (HolmesDictionary.children h)
       then "nsubjpass" else "nsubj" in
     let* h := holmes_of token in
     when (negb (existsb (has_label new_dependency_label) (HolmesDictionary.children h)))
       (let* subject := find_subject_phrase (fst (Token.sent tok)) token in
        match subject with
        | None => ret tt
        | Some working_token =>
            project_subject_phrase (patience limits) token new_dependency_label
              working_token
        end)).

Definition English_perform_language_specific_tasks (token : nat) : M unit :=
  let* tok := token_at token in
  remove_phrasal_particle_dependency token tok ;;;
  mark_modal_verb_dependencies token tok ;;;
  set_auxiliaries_not_matchable token tok ;;;
  add_deverbal_dependencies token ;;;
  handle_past_passive_participle token tok ;;;
  handle_participle_compound token tok ;;;
  handle_prepositional_complement token tok.

End EnglishLanguageSpecificTasks.

(** ** Observations for the further properties *)

(** The semantic edge that stands for the syntactic child at position
    [child] of the token at [token], when the child is neither punctuation
    nor has a tag that occurs in [_semantic_dependency_excluded_tags]. *)
Definition initial_edge (self : Analyzer) (doc : Doc.t) (token child : nat)
    : option SemDep :=
  match Doc.tokens doc !! child with
  | Some tc =>
      if negb (String.eqb (Token.dep_ tc) "punct")
         && negb (str_contains
                    (SemanticAnalyzer._semantic_dependency_excluded_tags self)
                    (Token.tag_ tc))
      then Some (SemanticDependency.Build (Z.of_nat token) (Z.of_nat child)
                   (Some (Token.dep_ tc)) false)
      else None
  | None => None
  end.

(** No token is listed among its own righthand siblings. *)
Definition no_own_sibling (doc : Doc.t) : Prop :=
  forall p h, dict_at doc p = Some h ->
    ~ In (Z.of_nat p) (HolmesDictionary.righthand_siblings h).

(** Between [doc] and [doc'] nothing changed but lists of righthand siblings,
    which were extended at their end, and [is_involved_in_or_conjunction]
    flags, which were raised. *)
Definition siblings_only (doc doc' : Doc.t) : Prop :=
  Doc.len doc' = Doc.len doc /\
  forall p tok, Doc.tokens doc !! p = Some tok ->
    exists tok',
      Doc.tokens doc' !! p = Some tok'
      /\ tok' = Token.set_holmes (Token.holmes tok') tok
      /\ match Token.holmes tok with
         | ExtDict h =>
             exists more flag,
               Token.holmes tok'
               = ExtDict
                   (HolmesDictionary.set_is_involved_in_or_conjunction flag
                      (HolmesDictionary.set_righthand_siblings
                         (HolmesDictionary.righthand_siblings h ++ more) h))
               /\ (HolmesDictionary.is_involved_in_or_conjunction h = true ->
                   flag = true)
         | e => Token.holmes tok' = e
         end.

(** *** Observations for [_move_information_between_tokens] *)

(** The edges that the loop of [_move_information_between_tokens] appends to
    the destination: it walks the edges [source] of the source token and
    looks each one up among the edges [target] that the destination has at
    that moment. *)
Fixpoint moved_edges (to_token : Z) (linking_label : option string)
    (source target : list SemDep) : list SemDep :=
  match source with
  | [] => []
  | d :: rest =>
      if negb (bool_decide (SemanticDependency.label d = linking_label))
         && (negb (existsb
                     (fun dependency =>
                        SemanticDependency.child_index dependency
                        =? SemanticDependency.child_index d) target)
             && negb (to_token =? SemanticDependency.child_index d))
      then
        let e := SemanticDependency.Build to_token (SemanticDependency.child_index d)
                   (SemanticDependency.label d) (SemanticDependency.is_uncertain d) in
        e :: moved_edges to_token linking_label rest (target ++ [e])
      else moved_edges to_token linking_label rest target
  end.

(** What the last loop of the method makes of the list of righthand
    siblings of one token of the sentence. *)
Definition redirected_siblings (from_token to_token token : nat) (rs : list Z)
    : list Z :=
  if existsb (Z.eqb (Z.of_nat from_token)) rs then
    if Nat.eqb token to_token then list_remove (Z.of_nat from_token) rs
    else (list_remove (Z.of_nat from_token) rs ++ [Z.of_nat to_token])%list
  else rs.

(** The positions of the tokens of a sentence. *)
Definition sentence_positions (sent : nat * nat) : list nat :=
  seq (fst sent) (snd sent - fst sent).

(** Whether the token at [p] belongs to the sentence with the given start
    and end. *)
Definition in_sentence (sent : nat * nat) (p : nat) : bool :=
  (fst sent <=? p)%nat && (p <? snd sent)%nat.

(** *** Observations for the German language-specific tasks *)

(** The number of positions of a document of [n] tokens that the list
    [visited] does not hold. *)
Definition unvisited (n : nat) (visited : list nat) : nat :=
  length (List.filter (fun p => negb (existsb (Nat.eqb p) visited)) (seq 0 n)).

(** On a document of [n] tokens the computation leaves a document of [n]
    tokens, does not end in [RecursionError], and returns only values that
    satisfy [Q]. *)
Definition within_recursion_limit {A} (n : nat) (Q : A -> Prop) (m : M A) : Prop :=
  forall doc, Doc.len doc = n ->
    Doc.len (snd (m doc)) = n
    /\ match fst (m doc) with
       | Ok a => Q a
       | Raise e => e <> RecursionError
       end.

(** What [find_target_tokens_and_dependency_recursively] returns when it is
    called for [token] with the list [visited]. *)
Definition found_targets (visited : list nat) (token : nat)
    (result : list nat * string * list nat) : Prop :=
  let '(tokens_to_return, target_dependency, visited') := result in
  tokens_to_return <> []
  /\ (target_dependency = "sb" \/ target_dependency = "oa")
  /\ (exists more, visited' = (visited ++ token :: more)%list)
  /\ Forall (fun t => In t visited') tokens_to_return.

(** An edge that the German language-specific tasks may append below the
    token at [p]: a certain [nk] edge that spans the preposition [von], or
    an uncertain edge to a projected subject or object. *)
Definition projected_edge (p : nat) (e : SemDep) : Prop :=
  SemanticDependency.parent_index e = Z.of_nat p
  /\ (SemanticDependency.label e = Some "nk"
      /\ SemanticDependency.is_uncertain e = false
      \/ SemanticDependency.is_uncertain e = true).

(** *** Observations for the passes of [holmes_parse] *)

(** What spaCy says about a token: the token without its [holmes]
    extension. *)
Definition spacy_attributes (tok : Token.t) : Token.t :=
  Token.set_holmes ExtNone tok.

(** Two documents are the same parse: they agree on everything but the
    [holmes] extensions of their tokens. *)
Definition same_parse (doc doc' : Doc.t) : Prop :=
  Doc.has_coref doc' = Doc.has_coref doc
  /\ spacy_attributes <$> Doc.tokens doc' = spacy_attributes <$> Doc.tokens doc.

(** Between [doc] and [doc'] no token appeared or disappeared and nothing
    that spaCy says changed; an extension that is no dictionary is what it
    was, and the dictionary [h] of the token at [p] became a dictionary [h']
    with [Rh p h h']. *)
Definition dictionaries_related (Rh : nat -> HDict -> HDict -> Prop)
    (doc doc' : Doc.t) : Prop :=
  Doc.has_coref doc' = Doc.has_coref doc
  /\ Doc.len doc' = Doc.len doc
  /\ forall p tok, Doc.tokens doc !! p = Some tok ->
       exists tok',
         Doc.tokens doc' !! p = Some tok'
         /\ tok' = Token.set_holmes (Token.holmes tok') tok
         /\ match Token.holmes tok with
            | ExtDict h => exists h', Token.holmes tok' = ExtDict h' /\ Rh p h h'
            | e => Token.holmes tok' = e
            end.

(** A dictionary keeps its index and its lemma, and its matchability stays
    decided once it is. *)
Definition identity_kept (p : nat) (h h' : HDict) : Prop :=
  HolmesDictionary.index h' = HolmesDictionary.index h
  /\ HolmesDictionary.lemma h' = HolmesDictionary.lemma h
  /\ (HolmesDictionary.is_matchable h <> None ->
      HolmesDictionary.is_matchable h' <> None).

(** Nothing of a dictionary changed but, possibly, [is_matchable]. *)
Definition matchability_only (p : nat) (h h' : HDict) : Prop :=
  exists m, h' = HolmesDictionary.set_is_matchable m h.

(** Every token of the document has its dictionary. *)
Definition has_dictionaries (doc : Doc.t) : Prop :=
  forall p tok, Doc.tokens doc !! p = Some tok ->
    exists h, Token.holmes tok = ExtDict h.

(** The roots of the coreference mentions are tokens of the document. *)
Definition mentions_in_document (doc : Doc.t) : Prop :=
  forall p tok, Doc.tokens doc !! p = Some tok ->
    Forall (Forall (fun mention => (mention_root mention < Doc.len doc)%nat))
           (Token.coref_clusters tok).

(** Two runs of computations that only read, on two documents that [E]
    relates, end alike: both raise the same exception, or both return, with
    values that [RA] relates. *)
Definition alike {A} (RA : A -> A -> Prop) (r r' : Result A) : Prop :=
  match r, r' with
  | Ok a, Ok a' => RA a a'
  | Raise e, Raise e' => e = e'
  | _, _ => False
  end.

Definition corresponds_under {A} (E : Doc.t -> Doc.t -> Prop) (RA : A -> A -> Prop)
    (m m' : M A) : Prop :=
  forall doc doc', E doc doc' ->
    alike RA (fst (m doc)) (fst (m' doc'))
    /\ snd (m doc) = doc /\ snd (m' doc') = doc'.

(** A computation that reads nothing but what spaCy says, and writes
    nothing. *)
Definition reads_spacy_attributes_only {A} (m : M A) : Prop :=
  corresponds_under same_parse eq m m.

(** The labels of the dependencies that the language-specific tasks of the
    English analyzer add. *)
Definition English_task_labels : list string :=
  ["pobjb"; "pobjo"; "pobjt"; "dative"; "dobj"; "advmodsubj"; "advmodobj";
   "nsubj"; "nsubjpass"].

(** The edge [e'] continues the edge [e]: it has the parent and the child of
    [e]; its label is that of [e], or [advmodobj] or [advmodsubj]; and it is
    uncertain when [e] was. *)
Definition continues_edge (e e' : SemDep) : Prop :=
  SemanticDependency.parent_index e' = SemanticDependency.parent_index e
  /\ SemanticDependency.child_index e' = SemanticDependency.child_index e
  /\ (SemanticDependency.label e' = SemanticDependency.label e
      \/ label_in (SemanticDependency.label e') ["advmodobj"; "advmodsubj"] = true)
  /\ (SemanticDependency.is_uncertain e = true ->
      SemanticDependency.is_uncertain e' = true).

(** An edge that the tasks may add to the token at [p]: it starts at [p],
    ends elsewhere, carries one of the labels of the tasks, and is uncertain
    when that label is [nsubj] or [nsubjpass]. *)
Definition added_by_English_tasks (p : nat) (e' : SemDep) : Prop :=
  SemanticDependency.parent_index e' = Z.of_nat p
  /\ SemanticDependency.child_index e' <> Z.of_nat p
  /\ label_in (SemanticDependency.label e') English_task_labels = true
  /\ (label_in (SemanticDependency.label e') ["nsubj"; "nsubjpass"] = true ->
      SemanticDependency.is_uncertain e' = true).

(** What the language-specific tasks of the English analyzer may do to the
    dictionary of the token at [p]: nothing changes but the children and
    [is_matchable]; [is_matchable] stays what it was or becomes [False]; and
    every edge either continues an edge that was there before, or is one that
    the tasks may add. *)
Definition English_tasks_frame (p : nat) (h h' : HDict) : Prop :=
  HolmesDictionary.index h' = HolmesDictionary.index h
  /\ HolmesDictionary.lemma h' = HolmesDictionary.lemma h
  /\ HolmesDictionary.righthand_siblings h' = HolmesDictionary.righthand_siblings h
  /\ HolmesDictionary.is_involved_in_or_conjunction h'
     = HolmesDictionary.is_involved_in_or_conjunction h
  /\ HolmesDictionary.is_negated h' = HolmesDictionary.is_negated h
  /\ (HolmesDictionary.is_matchable h' = HolmesDictionary.is_matchable h
      \/ HolmesDictionary.is_matchable h' = Some false)
  /\ Forall
       (fun e' =>
          (exists e, In e (HolmesDictionary.children h) /\ continues_edge e e')
          \/ added_by_English_tasks p e')
       (HolmesDictionary.children h').

(** Every uncertain edge of a dictionary is still there, with its parent and
    its child, and is still uncertain. *)
Definition uncertain_kept (p : nat) (h h' : HDict) : Prop :=
  forall e, In e (HolmesDictionary.children h) ->
    SemanticDependency.is_uncertain e = true ->
    exists e',
      In e' (HolmesDictionary.children h')
      /\ SemanticDependency.parent_index e' = SemanticDependency.parent_index e
      /\ SemanticDependency.child_index e' = SemanticDependency.child_index e
      /\ SemanticDependency.is_uncertain e' = true.

(** *** Observations for the deverbal phrases of the English analyzer *)

(** Before the loop over the prepositions: the lemma of a dictionary is what
    it was; the children of [token] are what they were, or what they were
    with the dependencies other than [aux] marked as uncertain; the children
    of the other tokens are what they were. *)
Definition marked_or_same (token : nat) (p : nat) (h h' : HDict) : Prop :=
  HolmesDictionary.lemma h' = HolmesDictionary.lemma h
  /\ (HolmesDictionary.children h' = HolmesDictionary.children h
      \/ p = token
         /\ HolmesDictionary.children h'
            = mark_uncertain_unless_aux (HolmesDictionary.children h)).

(** During the loop over the prepositions: the lemma of a dictionary is what
    it was, a token that is unmatchable stays so, and the children are what
    they were, followed by new ones in the case of [token]. *)
Definition deverbal_frame (token : nat) (p : nat) (h h' : HDict) : Prop :=
  HolmesDictionary.lemma h' = HolmesDictionary.lemma h
  /\ (exists new,
        HolmesDictionary.children h' = (HolmesDictionary.children h ++ new)%list
        /\ (p <> token -> new = []))
  /\ (HolmesDictionary.is_matchable h = Some false ->
      HolmesDictionary.is_matchable h' = Some false).

(** After the loop over the prepositions: every dependency with a label
    other than [npadvmod] is kept as it is, and a token that is unmatchable
    stays so. *)
Definition kept_unless_npadvmod (p : nat) (h h' : HDict) : Prop :=
  (forall e, In e (HolmesDictionary.children h) ->
     SemanticDependency.label e <> Some "npadvmod" ->
     In e (HolmesDictionary.children h'))
  /\ (HolmesDictionary.is_matchable h = Some false ->
      HolmesDictionary.is_matchable h' = Some false).

(** *** Observations for the prepositional complements of the English
        analyzer *)

(** Whether a dictionary has a dependency labelled [auxpass], [nsubj] or
    [nsubjpass] is as it was. *)
Definition subject_labels_kept (p : nat) (h h' : HDict) : Prop :=
  forall label, In label ["auxpass"; "nsubj"; "nsubjpass"] ->
    existsb (has_label label) (HolmesDictionary.children h')
    = existsb (has_label label) (HolmesDictionary.children h).

(** A dictionary keeps its index, its righthand siblings and its children,
    which new children may follow. *)
Definition children_extended (p : nat) (h h' : HDict) : Prop :=
  HolmesDictionary.index h' = HolmesDictionary.index h
  /\ HolmesDictionary.righthand_siblings h' = HolmesDictionary.righthand_siblings h
  /\ exists new,
       HolmesDictionary.children h' = (HolmesDictionary.children h ++ new)%list.

(** The children of every dictionary but the one of [token] are what they
    were. *)
Definition other_children_kept (token : nat) (p : nat) (h h' : HDict) : Prop :=
  p <> token -> HolmesDictionary.children h' = HolmesDictionary.children h.

(** Two tokens on which spaCy says the same. *)
Definition same_token (tok tok' : Token.t) : Prop :=
  spacy_attributes tok' = spacy_attributes tok.

Definition same_optional_token (o o' : option Token.t) : Prop :=
  match o, o' with
  | Some tok, Some tok' => same_token tok tok'
  | None, None => True
  | _, _ => False
  end.

(** *** Well-formed documents *)

(** An edge held by the token at [p] in a document of [n] tokens is anchored:
    its parent is [p], its child is not, the child index is one that
    [doc[...]] accepts, and a negative child index comes without a label. *)
Definition edge_anchored (n p : nat) (e : SemDep) : Prop :=
  edge_ok n e
  /\ SemanticDependency.parent_index e = Z.of_nat p
  /\ SemanticDependency.child_index e <> Z.of_nat p.

Definition dict_anchored (n p : nat) (h : HDict) : Prop :=
  Forall (edge_anchored n p) (HolmesDictionary.children h)
  /\ Forall (fun rs => 0 <= rs < Z.of_nat n) (HolmesDictionary.righthand_siblings h).

(** Every token of the document has its dictionary, every edge is anchored
    at the token that holds it, and every righthand sibling is the position
    of a token. *)
Definition anchored (n : nat) (doc : Doc.t) : Prop :=
  Doc.len doc = n
  /\ forall p tok, Doc.tokens doc !! p = Some tok ->
       exists h, Token.holmes tok = ExtDict h /\ dict_anchored n p h.

(** The computation leaves an anchored document anchored, whether it returns
    or raises, and what it returns satisfies [Q]. *)
Definition establishes {A} (n : nat) (m : M A) (Q : A -> Prop) : Prop :=
  forall doc, anchored n doc ->
    anchored n (snd (m doc)) /\ forall a, fst (m doc) = Ok a -> Q a.

(** *** Invariants of a pass *)

(** The computation leaves a document that satisfies [Inv] in a document
    that satisfies [Inv], whether it returns or raises, and what it returns
    satisfies [Q]. *)
Definition maintains {A} (Inv : Doc.t -> Prop) (m : M A) (Q : A -> Prop) : Prop :=
  forall doc, Inv doc ->
    Inv (snd (m doc)) /\ forall a, fst (m doc) = Ok a -> Q a.

(** What the pass over the predicative adjectives keeps, between the
    document [doc] on which it starts and a document [current] that it
    reaches, for a copula at [t] with its subject at [s]: spaCy says the same;
    the dictionary of the copula is [copula]; the subject still has the
    children [before] that it had in [doc], in place, followed by new ones
    among which are those of [attached]; and no dependency with the subject
    label ends at the copula. *)
Definition copula_invariant (self : Analyzer) (doc : Doc.t) (t s : nat)
    (before : list SemDep) (copula : HDict) (attached : list SemDep)
    (current : Doc.t) : Prop :=
  same_parse doc current
  /\ dict_at current t = Some copula
  /\ (exists hs new,
         dict_at current s = Some hs
         /\ HolmesDictionary.children hs = (before ++ new)%list
         /\ incl attached new)
  /\ (forall q hq e,
         dict_at current q = Some hq ->
         In e (HolmesDictionary.children hq) ->
         SemanticDependency.label e
         = Some (SemanticAnalyzer._adjectival_predicate_subject_dep self) ->
         SemanticDependency.child_index e <> Z.of_nat t).

(** ** Example documents for the further properties *)

(** "dog or cat" with freshly initialised dictionaries: [cat] is a conjunct
    of [dog]. *)
Definition doc_dog_or_cat : Doc.t :=
  Doc.Build
    [ Token.set_holmes (ExtDict (HolmesDictionary.init 0 "dog"))
        (spacy_token "dog" "dog" "NOUN" "NN" "ROOT" 0 [1; 2]%nat (0, 3)%nat);
      Token.set_holmes (ExtDict (HolmesDictionary.init 1 "or"))
        (spacy_token "or" "or" "CCONJ" "CC" "cc" 0 [] (0, 3)%nat);
      Token.set_holmes (ExtDict (HolmesDictionary.init 2 "cat"))
        (spacy_token "cat" "cat" "NOUN" "NN" "conj" 0 [] (0, 3)%nat) ]
    false.

(** "He sang and used to dance." as it stands when the English analyzer
    corrects auxiliaries: [used] is a righthand sibling of [sang], it has
    received the subject of [sang], and it governs [dance]. *)
Definition doc_he_sang_and_used_to_dance : Doc.t :=
  Doc.Build
    [ Token.set_holmes (prepared 0 "-pron-" [] [] false)
        (spacy_token "He" "-PRON-" "PRON" "PRP" "nsubj" 1 [] (0, 7)%nat);
      Token.set_holmes
        (prepared 1 "sing" [dep 1 0 "nsubj"; dep 1 2 "cc"; dep 1 3 "conj"] [3] true)
        (spacy_token "sang" "sing" "VERB" "VBD" "ROOT" 1 [0; 2; 3; 6]%nat (0, 7)%nat);
      Token.set_holmes (prepared 2 "and" [] [] false)
        (spacy_token "and" "and" "CCONJ" "CC" "cc" 1 [] (0, 7)%nat);
      Token.set_holmes
        (prepared 3 "use"
           [dep 3 5 "xcomp"; SemanticDependency.Build 3 0 (Some "nsubj") true] [] true)
        (spacy_token "used" "use" "VERB" "VBD" "conj" 1 [5%nat] (0, 7)%nat);
      Token.set_holmes (prepared 4 "to" [] [] false)
        (spacy_token "to" "to" "PART" "TO" "aux" 5 [] (0, 7)%nat);
      Token.set_holmes (prepared 5 "dance" [dep 5 4 "aux"] [] true)
        (spacy_token "dance" "dance" "VERB" "VB" "xcomp" 3 [4%nat] (0, 7)%nat);
      Token.set_holmes (prepared 6 "." [] [] false)
        (spacy_token "." "." "PUNCT" "." "punct" 1 [] (0, 7)%nat) ]
    false.

(** Two German verbs that are grammatical tokens pointing at each other. *)
Definition doc_pointer_cycle : Doc.t :=
  Doc.Build
    [ Token.set_holmes
        (prepared 0 "werden" [SemanticDependency.Build 0 (-2) None false] [] true)
        (spacy_token "wird" "werden" "AUX" "VAFIN" "ROOT" 0 [1%nat] (0, 2)%nat);
      Token.set_holmes
        (prepared 1 "haben" [SemanticDependency.Build 1 (-1) None false] [] true)
        (spacy_token "haben" "haben" "AUX" "VAINF" "oc" 0 [] (0, 2)%nat) ]
    false.

(** "Er steht auf." with the dictionary of the verb as the preparatory passes
    leave it. *)
Definition doc_er_steht_auf_prepared : Doc.t :=
  Doc.Build
    [ Token.set_holmes (prepared 0 "er" [] [] false)
        (spacy_token "Er" "er" "PRON" "PPER" "sb" 1 [] (0, 4)%nat);
      Token.set_holmes (prepared 1 "aufstehen" [dep 1 0 "sb"; dep 1 2 "svp"] [] true)
        (spacy_token "steht" "stehen" "VERB" "VVFIN" "ROOT" 1 [0; 2; 3]%nat (0, 4)%nat);
      Token.set_holmes (prepared 2 "auf" [] [] true)
        (spacy_token "auf" "auf" "PART" "PTKVZ" "svp" 1 [] (0, 4)%nat);
      Token.set_holmes (prepared 3 "." [] [] false)
        (spacy_token "." "." "PUNCT" "$." "punct" 1 [] (0, 4)%nat) ]
    false.

(** "Which dog ate something?" with the dictionaries of the first pass. *)
Definition doc_which_dog_ate_something : Doc.t :=
  Doc.Build
    [ Token.set_holmes (ExtDict (HolmesDictionary.init 0 "which"))
        (spacy_token "Which" "which" "ADJ" "WDT" "det" 1 [] (0, 5)%nat);
      Token.set_holmes (ExtDict (HolmesDictionary.init 1 "dog"))
        (spacy_token "dog" "dog" "NOUN" "NN" "nsubj" 2 [0%nat] (0, 5)%nat);
      Token.set_holmes (ExtDict (HolmesDictionary.init 2 "eat"))
        (spacy_token "ate" "eat" "VERB" "VBD" "ROOT" 2 [1; 3; 4]%nat (0, 5)%nat);
      Token.set_holmes (ExtDict (HolmesDictionary.init 3 "something"))
        (spacy_token "something" "something" "NOUN" "NN" "dobj" 2 [] (0, 5)%nat);
      Token.set_holmes (ExtDict (HolmesDictionary.init 4 "?"))
        (spacy_token "?" "?" "PUNCT" "." "punct" 2 [] (0, 5)%nat) ]
    false.

(** "He gave up." before the language-specific tasks of the English
    analyzer. *)
Definition doc_he_gave_up : Doc.t :=
  Doc.Build
    [ Token.set_holmes (prepared 0 "-pron-" [] [] false)
        (spacy_token "He" "-PRON-" "PRON" "PRP" "nsubj" 1 [] (0, 4)%nat);
      Token.set_holmes (prepared 1 "give up" [dep 1 0 "nsubj"; dep 1 2 "prt"] [] true)
        (spacy_token "gave" "give" "VERB" "VBD" "ROOT" 1 [0; 2; 3]%nat (0, 4)%nat);
      Token.set_holmes (prepared 2 "up" [] [] true)
        (spacy_token "up" "up" "PART" "RP" "prt" 1 [] (0, 4)%nat);
      Token.set_holmes (prepared 3 "." [] [] false)
        (spacy_token "." "." "PUNCT" "." "punct" 1 [] (0, 4)%nat) ]
    false.

(** "He might go." before the language-specific tasks. *)
Definition doc_he_might_go : Doc.t :=
  Doc.Build
    [ Token.set_holmes (prepared 0 "-pron-" [] [] false)
        (spacy_token "He" "-PRON-" "PRON" "PRP" "nsubj" 2 [] (0, 4)%nat);
      Token.set_holmes (prepared 1 "might" [] [] true)
        (spacy_token "might" "might" "VERB" "MD" "aux" 2 [] (0, 4)%nat);
      Token.set_holmes (prepared 2 "go" [dep 2 0 "nsubj"; dep 2 1 "aux"] [] true)
        (spacy_token "go" "go" "VERB" "VB" "ROOT" 2 [0; 1; 3]%nat (0, 4)%nat);
      Token.set_holmes (prepared 3 "." [] [] false)
        (spacy_token "." "." "PUNCT" "." "punct" 2 [] (0, 4)%nat) ]
    false.

(** "destruction of cities by armies" before the language-specific tasks. *)
Definition doc_destruction_of_cities_by_armies : Doc.t :=
  Doc.Build
    [ Token.set_holmes
        (prepared 0 "destruction" [dep 0 1 "prep"; dep 0 3 "prep"] [] true)
        (spacy_token "destruction" "destruction" "NOUN" "NN" "ROOT" 0 [1; 3]%nat
           (0, 5)%nat);
      Token.set_holmes (prepared 1 "of" [dep 1 2 "pobj"] [] true)
        (spacy_token "of" "of" "ADP" "IN" "prep" 0 [2%nat] (0, 5)%nat);
      Token.set_holmes (prepared 2 "city" [] [] true)
        (spacy_token "cities" "city" "NOUN" "NNS" "pobj" 1 [] (0, 5)%nat);
      Token.set_holmes (prepared 3 "by" [dep 3 4 "pobj"] [] true)
        (spacy_token "by" "by" "ADP" "IN" "prep" 0 [4%nat] (0, 5)%nat);
      Token.set_holmes (prepared 4 "army" [] [] true)
        (spacy_token "armies" "army" "NOUN" "NNS" "pobj" 3 [] (0, 5)%nat) ]
    false.

(** "the man and woman seen" before the language-specific tasks. *)
Definition doc_the_man_and_woman_seen : Doc.t :=
  Doc.Build
    [ Token.set_holmes (prepared 0 "the" [] [] false)
        (spacy_token "the" "the" "DET" "DT" "det" 1 [] (0, 5)%nat);
      Token.set_holmes (prepared 1 "man" [dep 1 2 "cc"; dep 1 3 "conj"] [3] true)
        (spacy_token "man" "man" "NOUN" "NN" "ROOT" 1 [0; 2; 3]%nat (0, 5)%nat);
      Token.set_holmes (prepared 2 "and" [] [] false)
        (spacy_token "and" "and" "CCONJ" "CC" "cc" 1 [] (0, 5)%nat);
      Token.set_holmes (prepared 3 "woman" [dep 3 4 "acl"] [] true)
        (spacy_token "woman" "woman" "NOUN" "NN" "conj" 1 [4%nat] (0, 5)%nat);
      Token.set_holmes (prepared 4 "see" [] [] true)
        (spacy_token "seen" "see" "VERB" "VBN" "acl" 3 [] (0, 5)%nat) ]
    false.

(** "cat-eating dog" before the language-specific tasks. *)
Definition doc_cat_eating_dog : Doc.t :=
  Doc.Build
    [ Token.set_holmes (prepared 0 "cat" [] [] true)
        (spacy_token "cat" "cat" "NOUN" "NN" "npadvmod" 2 [] (0, 4)%nat);
      Token.set_holmes (prepared 1 "-" [] [] false)
        (spacy_token "-" "-" "PUNCT" "HYPH" "punct" 2 [] (0, 4)%nat);
      Token.set_holmes (prepared 2 "eat" [dep 2 0 "npadvmod"] [] true)
        (spacy_token "eating" "eat" "VERB" "VBG" "amod" 3 [0; 1]%nat (0, 4)%nat);
      Token.set_holmes (prepared 3 "dog" [dep 3 2 "amod"] [] true)
        (spacy_token "dog" "dog" "NOUN" "NN" "ROOT" 3 [2%nat] (0, 4)%nat) ]
    false.

(** "der Abschluss von einer Versicherung" before the language-specific
    tasks of the German analyzer. *)
Definition doc_abschluss_von_einer_versicherung : Doc.t :=
  Doc.Build
    [ Token.set_holmes (prepared 0 "der" [] [] false)
        (spacy_token "der" "der" "DET" "ART" "nk" 1 [] (0, 5)%nat);
      Token.set_holmes (prepared 1 "abschluss" [dep 1 2 "mnr"] [] true)
        (spacy_token "Abschluss" "Abschluss" "NOUN" "NN" "ROOT" 1 [0; 2]%nat
           (0, 5)%nat);
      Token.set_holmes (prepared 2 "von" [dep 2 4 "nk"] [] true)
        (spacy_token "von" "von" "ADP" "APPR" "mnr" 1 [4%nat] (0, 5)%nat);
      Token.set_holmes (prepared 3 "einer" [] [] false)
        (spacy_token "einer" "einer" "DET" "ART" "nk" 4 [] (0, 5)%nat);
      Token.set_holmes (prepared 4 "versicherung" [] [] true)
        (spacy_token "Versicherung" "Versicherung" "NOUN" "NN" "nk" 2 [3%nat]
           (0, 5)%nat) ]
    false.

(** "Peter thinks about singing" before the language-specific tasks of the
    English analyzer. *)
Definition doc_peter_thinks_about_singing : Doc.t :=
  Doc.Build
    [ Token.set_holmes (prepared 0 "peter" [] [] true)
        (spacy_token "Peter" "Peter" "PROPN" "NNP" "nsubj" 1 [] (0, 4)%nat);
      Token.set_holmes (prepared 1 "think" [dep 1 0 "nsubj"; dep 1 2 "prep"] [] true)
        (spacy_token "thinks" "think" "VERB" "VBZ" "ROOT" 1 [0; 2]%nat (0, 4)%nat);
      Token.set_holmes (prepared 2 "about" [dep 2 3 "pcomp"] [] true)
        (spacy_token "about" "about" "ADP" "IN" "prep" 1 [3%nat] (0, 4)%nat);
      Token.set_holmes (prepared 3 "sing" [] [] true)
        (spacy_token "singing" "sing" "VERB" "VBG" "pcomp" 2 [] (0, 4)%nat) ]
    false.

(** "Er versucht zu schlafen." before the language-specific tasks: the
    subject of [versucht] is to be projected onto [schlafen]. *)
Definition doc_er_versucht_zu_schlafen : Doc.t :=
  Doc.Build
    [ Token.set_holmes (prepared 0 "er" [] [] false)
        (spacy_token "Er" "er" "PRON" "PPER" "sb" 1 [] (0, 5)%nat);
      Token.set_holmes (prepared 1 "versuchen" [dep 1 0 "sb"; dep 1 3 "oc"] [] true)
        (spacy_token "versucht" "versuchen" "VERB" "VVFIN" "ROOT" 1 [0; 3; 4]%nat
           (0, 5)%nat);
      Token.set_holmes (prepared 2 "zu" [] [] false)
        (spacy_token "zu" "zu" "PART" "PTKZU" "pm" 3 [] (0, 5)%nat);
      Token.set_holmes (prepared 3 "schlafen" [dep 3 2 "pm"] [] true)
        (spacy_token "schlafen" "schlafen" "VERB" "VVINF" "oc" 1 [2%nat] (0, 5)%nat);
      Token.set_holmes (prepared 4 "." [] [] false)
        (spacy_token "." "." "PUNCT" "$." "punct" 1 [] (0, 5)%nat) ]
    false.

(** * Reasoning principles for the monad and the document store *)

Section MonadLemmas.

Context {A B : Type}.

Lemma bind_ok (m : M A) (k : A -> M B) doc b doc' :
  bind m k doc = (Ok b, doc') ->
  exists a doc1, m doc = (Ok a, doc1) /\ k a doc1 = (Ok b, doc').
Proof.
  unfold bind. destruct (m doc) as [[a|e] doc1]; intros H.
  - eauto.
  - discriminate.
Qed.

Lemma bind_ok_intro (m : M A) (k : A -> M B) doc a doc1 :
  m doc = (Ok a, doc1) -> bind m k doc = k a doc1.
Proof. unfold bind. now intros ->. Qed.

Lemma bind_raise_intro (m : M A) (k : A -> M B) doc e doc1 :
  m doc = (Raise e, doc1) -> bind m k doc = (Raise e, doc1).
Proof. unfold bind. now intros ->. Qed.

End MonadLemmas.

Section Keeps.

Variable R : Doc.t -> Doc.t -> Prop.
Context `{!Reflexive R, !Transitive R}.

Lemma keeps_ret {A} (a : A) : keeps R (ret a).
Proof. intros doc. cbn. reflexivity. Qed.

Lemma keeps_raise {A} (e : Error) : keeps R (@raise A e).
Proof. intros doc. cbn. reflexivity. Qed.

Lemma keeps_lift {A} (r : Result A) : keeps R (lift r).
Proof. intros doc. cbn. reflexivity. Qed.

Lemma keeps_bind {A B} (m : M A) (k : A -> M B) :
  keeps R m -> (forall a, keeps R (k a)) -> keeps R (bind m k).
Proof.
  intros Hm Hk doc. unfold bind. specialize (Hm doc).
  destruct (m doc) as [[a|e] doc1]; cbn in *.
  - etransitivity; [exact Hm | apply Hk].
  - exact Hm.
Qed.

Lemma keeps_when (b : bool) (m : M unit) : keeps R m -> keeps R (when b m).
Proof. destruct b; cbn; [auto | intros _; apply keeps_ret]. Qed.

Lemma keeps_when_true (b : bool) (m : M unit) :
  (b = true -> keeps R m) -> keeps R (when b m).
Proof. destruct b; cbn; [auto | intros _; apply keeps_ret]. Qed.

Lemma keeps_for_each {A} (l : list A) (body : A -> M unit) :
  (forall x, keeps R (body x)) -> keeps R (for_each l body).
Proof.
  intros Hb. induction l as [|x l IH]; cbn.
  - apply keeps_ret.
  - apply keeps_bind; auto.
Qed.

Lemma keeps_doc_getitem (i : Z) : keeps R (doc_getitem i).
Proof.
  intros doc. unfold doc_getitem.
  destruct (py_index _ _); cbn; reflexivity.
Qed.

Lemma keeps_token_at (p : nat) : keeps R (token_at p).
Proof.
  intros doc. unfold token_at. destruct (_ !! _); cbn; reflexivity.
Qed.

Lemma keeps_holmes_of (p : nat) : keeps R (holmes_of p).
Proof.
  unfold holmes_of. apply keeps_bind; [apply keeps_token_at|].
  intros tok. destruct (Token.holmes tok); auto using keeps_ret, keeps_raise.
Qed.

End Keeps.

(** *** Reading and writing dictionaries *)

Lemma doc_getitem_ok i doc p doc' :
  doc_getitem i doc = (Ok p, doc') ->
  doc' = doc /\ py_index (Doc.len doc) i = Some p.
Proof.
  unfold doc_getitem. destruct (py_index _ _); intros H; inversion H; auto.
Qed.

Lemma py_index_lt n i p : py_index n i = Some p -> (p < n)%nat.
Proof.
  unfold py_index.
  destruct (Z.leb_spec 0 i).
  - destruct (Z.ltb_spec i (Z.of_nat n)); intros [= <-]. lia.
  - destruct (Z.leb_spec 0 (Z.of_nat n + i)); intros [= <-]. lia.
Qed.

Lemma py_index_nonneg n i p :
  0 <= i -> py_index n i = Some p -> i = Z.of_nat p.
Proof.
  unfold py_index. intros Hi.
  destruct (Z.leb_spec 0 i); [|lia].
  destruct (Z.ltb_spec i (Z.of_nat n)); intros [= <-]. lia.
Qed.

Lemma py_index_of_nat n (p : nat) :
  (p < n)%nat -> py_index n (Z.of_nat p) = Some p.
Proof.
  intros Hp. unfold py_index.
  destruct (Z.leb_spec 0 (Z.of_nat p)); [|lia].
  destruct (Z.ltb_spec (Z.of_nat p) (Z.of_nat n)); [|lia].
  now rewrite Nat2Z.id.
Qed.

Lemma holmes_of_ok p doc h doc' :
  holmes_of p doc = (Ok h, doc') -> doc' = doc /\ dict_at doc p = Some h.
Proof.
  unfold holmes_of, bind, token_at, dict_at.
  destruct (Doc.tokens doc !! p) as [tok|]; [|discriminate].
  destruct (Token.holmes tok); cbn; intros H; inversion H; auto.
Qed.

Lemma holmes_of_dict p doc h :
  dict_at doc p = Some h -> holmes_of p doc = (Ok h, doc).
Proof.
  unfold holmes_of, bind, token_at, dict_at.
  destruct (Doc.tokens doc !! p) as [tok|]; [|discriminate].
  destruct (Token.holmes tok); cbn; intros H; inversion H; auto.
Qed.

Lemma holmes_of_no_dict p doc :
  dict_at doc p = None -> exists e, holmes_of p doc = (Raise e, doc).
Proof.
  unfold holmes_of, bind, token_at, dict_at.
  destruct (Doc.tokens doc !! p) as [tok|]; [|eauto].
  destruct (Token.holmes tok); cbn; intros H; inversion H; eauto.
Qed.

Lemma dict_at_lt doc p h : dict_at doc p = Some h -> (p < Doc.len doc)%nat.
Proof.
  unfold dict_at, Doc.len.
  destruct (Doc.tokens doc !! p) eqn:E; [|discriminate].
  intros _. eapply lookup_lt_Some; eauto.
Qed.

Lemma len_put_dict p h doc : Doc.len (put_dict p h doc) = Doc.len doc.
Proof. unfold Doc.len, put_dict. cbn. apply length_alter. Qed.

Lemma dict_at_put_dict_eq p h0 h doc :
  dict_at doc p = Some h0 -> dict_at (put_dict p h doc) p = Some h.
Proof.
  unfold dict_at, put_dict. cbn. rewrite list_lookup_alter_eq.
  destruct (Doc.tokens doc !! p); [|discriminate]. reflexivity.
Qed.

Lemma dict_at_put_dict_ne p q h doc :
  p <> q -> dict_at (put_dict p h doc) q = dict_at doc q.
Proof.
  intros Hne. unfold dict_at, put_dict. cbn.
  now rewrite list_lookup_alter_ne.
Qed.

Lemma update_holmes_ok p f doc h :
  dict_at doc p = Some h ->
  update_holmes p f doc = (Ok tt, put_dict p (f h) doc).
Proof.
  intros H. unfold update_holmes. erewrite bind_ok_intro; [|apply holmes_of_dict, H].
  reflexivity.
Qed.

Lemma update_holmes_inv p f doc r doc' :
  update_holmes p f doc = (r, doc') ->
  (exists h, dict_at doc p = Some h /\ r = Ok tt /\ doc' = put_dict p (f h) doc)
  \/ (dict_at doc p = None /\ doc' = doc /\ is_ok r = false).
Proof.
  destruct (dict_at doc p) as [h|] eqn:E.
  - rewrite (update_holmes_ok _ _ _ _ E). intros [= <- <-]. left. eauto.
  - destruct (holmes_of_no_dict _ _ E) as [e He].
    unfold update_holmes. erewrite bind_raise_intro by exact He.
    intros [= <- <-]. right. auto.
Qed.

(** *** The growth relation *)

Section Grows.

Variable P : nat -> SemDep -> Prop.

#[global] Instance grows_refl : Reflexive (grows P).
Proof.
  intros doc. split; [reflexivity|].
  intros p h Hh. exists h, []. rewrite app_nil_r. auto.
Qed.

#[global] Instance grows_trans : Transitive (grows P).
Proof.
  intros d1 d2 d3 [L12 H12] [L23 H23]. split; [congruence|].
  intros p h Hh.
  destruct (H12 p h Hh) as (h2 & n2 & D2 & S2 & C2 & F2).
  destruct (H23 p h2 D2) as (h3 & n3 & D3 & S3 & C3 & F3).
  exists h3, (n2 ++ n3)%list. repeat split.
  - exact D3.
  - congruence.
  - rewrite C3, C2. now rewrite <- app_assoc.
  - apply Forall_app; auto.
Qed.

Lemma grows_put_dict p h h' doc new :
  dict_at doc p = Some h ->
  HolmesDictionary.righthand_siblings h' = HolmesDictionary.righthand_siblings h ->
  HolmesDictionary.children h' = (HolmesDictionary.children h ++ new)%list ->
  Forall (P p) new ->
  grows P doc (put_dict p h' doc).
Proof.
  intros Hh Hs Hc Hn. split; [apply len_put_dict|].
  intros q hq Hq. destruct (decide (p = q)) as [<-|Hne].
  - assert (hq = h) by congruence. subst hq.
    exists h', new. erewrite dict_at_put_dict_eq by eauto. auto.
  - exists hq, []. rewrite dict_at_put_dict_ne by auto.
    rewrite app_nil_r. auto.
Qed.

Lemma keeps_update_holmes p f :
  (forall h, HolmesDictionary.righthand_siblings (f h)
             = HolmesDictionary.righthand_siblings h) ->
  (forall h, exists new,
      HolmesDictionary.children (f h) = (HolmesDictionary.children h ++ new)%list
      /\ Forall (P p) new) ->
  keeps (grows P) (update_holmes p f).
Proof.
  intros Hs Hc doc.
  destruct (update_holmes p f doc) as [r doc'] eqn:E. cbn.
  apply update_holmes_inv in E as [(h & Hh & -> & ->)|(_ & -> & _)].
  - destruct (Hc h) as (new & Hn & HF).
    eapply grows_put_dict; eauto.
  - reflexivity.
Qed.

Lemma keeps_append_child p dep :
  P p dep -> keeps (grows P) (append_child p dep).
Proof.
  intros HP. apply keeps_update_holmes.
  - reflexivity.
  - intros h. exists [dep]. split; [reflexivity|]. auto.
Qed.

End Grows.

Lemma grows_weaken (P Q : nat -> SemDep -> Prop) doc doc' :
  (forall p d, P p d -> Q p d) -> grows P doc doc' -> grows Q doc doc'.
Proof.
  intros HPQ [HL H]. split; [exact HL|].
  intros p h Hh. destruct (H p h Hh) as (h' & new & ? & ? & ? & HF).
  exists h', new. repeat split; auto.
  eapply Forall_impl; eauto.
Qed.

(** *** Computations that only read, and a tactic for the frame of a pass *)

Lemma keeps_lift_bind {A B} (R : Doc.t -> Doc.t -> Prop) `{!Reflexive R}
    (r : Result A) (k : A -> M B) :
  (forall a, r = Ok a -> keeps R (k a)) -> keeps R (bind (lift r) k).
Proof.
  intros Hk doc. unfold bind, lift. destruct r as [a|e]; cbn.
  - now apply Hk.
  - reflexivity.
Qed.

Lemma reads_only_ret {A} (a : A) : reads_only (ret a).
Proof. intros doc. reflexivity. Qed.

Lemma reads_only_bind {A B} (m : M A) (k : A -> M B) :
  reads_only m -> (forall a, reads_only (k a)) -> reads_only (bind m k).
Proof.
  intros Hm Hk doc. unfold bind. specialize (Hm doc).
  destruct (m doc) as [[a|e] doc1]; cbn in *; subst; [apply Hk | reflexivity].
Qed.

Lemma reads_only_holmes_of p : reads_only (holmes_of p).
Proof.
  intros doc. unfold holmes_of, bind, token_at.
  destruct (_ !! _) as [tok|]; [|reflexivity]. now destruct (Token.holmes tok).
Qed.

Lemma reads_only_token_at p : reads_only (token_at p).
Proof. intros doc. unfold token_at. now destruct (_ !! _). Qed.

Lemma reads_only_doc_getitem i : reads_only (doc_getitem i).
Proof. intros doc. unfold doc_getitem. now destruct (py_index _ _). Qed.

Lemma reads_only_any_m {A} (l : list A) (test : A -> M bool) :
  (forall x, reads_only (test x)) -> reads_only (any_m l test).
Proof.
  intros Ht. induction l as [|x l IH]; cbn; [apply reads_only_ret|].
  apply reads_only_bind; [apply Ht|]. intros []; [apply reads_only_ret | exact IH].
Qed.

Lemma reads_only_filter_m {A} (l : list A) (test : A -> M bool) :
  (forall x, reads_only (test x)) -> reads_only (filter_m l test).
Proof.
  intros Ht. induction l as [|x l IH]; cbn; [apply reads_only_ret|].
  apply reads_only_bind; [apply Ht|]. intros b.
  apply reads_only_bind; [exact IH|]. intros rest. apply reads_only_ret.
Qed.

Lemma reads_only_is_involved_in_coreference self token :
  reads_only (is_involved_in_coreference self token).
Proof.
  intros doc. unfold is_involved_in_coreference.
  destruct (_ && _); [|reflexivity].
  apply reads_only_bind; [apply reads_only_token_at|]. intros tok.
  apply reads_only_any_m. intros cluster. apply reads_only_any_m. intros mention.
  destruct (Nat.eqb _ _); [apply reads_only_ret|].
  apply reads_only_bind; [apply reads_only_holmes_of|]. intros hr.
  apply reads_only_ret.
Qed.

Lemma reads_only_keeps {A} (R : Doc.t -> Doc.t -> Prop) `{!Reflexive R} (m : M A) :
  reads_only m -> keeps R m.
Proof. intros H doc. rewrite H. reflexivity. Qed.

(** Decomposing a computation into the steps whose effect on the document is
    known. *)
Ltac reads_only_step :=
  first
    [ apply reads_only_ret
    | apply reads_only_holmes_of
    | apply reads_only_token_at
    | apply reads_only_doc_getitem
    | apply reads_only_is_involved_in_coreference
    | apply reads_only_bind; [|intros ?]
    | apply reads_only_any_m; intros ?
    | apply reads_only_filter_m; intros ?
    | match goal with
      | |- reads_only (if ?b then _ else _) => destruct b
      | |- reads_only (match ?x with _ => _ end) => destruct x
      end ].

Ltac keeps_step :=
  lazymatch goal with
  | |- keeps _ (bind (lift _) _) => fail
  | |- keeps _ (append_child _ _) => fail
  | |- keeps _ (update_holmes _ _) => fail
  | |- _ =>
    first
      [ apply keeps_ret; typeclasses eauto
      | apply keeps_raise; typeclasses eauto
      | apply keeps_lift; typeclasses eauto
      | apply keeps_holmes_of; typeclasses eauto
      | apply keeps_token_at; typeclasses eauto
      | apply keeps_doc_getitem; typeclasses eauto
      | (apply keeps_when_true; try typeclasses eauto); [intros ?]
      | (apply keeps_for_each; try typeclasses eauto); [intros ?]
      | (apply keeps_bind; try typeclasses eauto); [|intros ?]
      | match goal with
        | |- keeps _ (if ?b then _ else _) => destruct b
        | |- keeps _ (match ?x with _ => _ end) => destruct x
        end ]
  end.


(** * Properties *)

(** ** Construction, equality and hashing of dependencies *)

(** C2: constructing a dependency whose parent and child coincide raises
    [RuntimeError], constructing one with a negative child index and a label
    raises [RuntimeError], and every dependency the constructor returns has
    the fields it was given, distinct parent and child, and no label when its
    child index is negative. *)
Theorem SemanticDependency_init_guards :
  (forall (i : Z) (label : option string) (u : bool),
      exists msg, SemanticDependency.init i i label u = Raise (RuntimeError msg))
  /\ (forall (p c : Z) (l : string) (u : bool),
         c < 0 ->
         exists msg, SemanticDependency.init p c (Some l) u = Raise (RuntimeError msg))
  /\ (forall (p c : Z) (label : option string) (u : bool) (d : SemDep),
         SemanticDependency.init p c label u = Ok d ->
         d = SemanticDependency.Build p c label u
         /\ SemanticDependency.parent_index d <> SemanticDependency.child_index d
         /\ (SemanticDependency.child_index d < 0 ->
             SemanticDependency.label d = None)).
Proof.
  split; [|split].
  - intros i label u. unfold SemanticDependency.init.
    destruct ((i <? 0) && _); [eexists; reflexivity|].
    rewrite Z.eqb_refl. eexists; reflexivity.
  - intros p c l u Hc. unfold SemanticDependency.init.
    apply Z.ltb_lt in Hc. rewrite Hc. eexists; reflexivity.
  - intros p c label u d H. unfold SemanticDependency.init in H.
    destruct (c <? 0) eqn:Hc; cbn in H.
    + case_bool_decide as Hl; cbn in H; [|discriminate].
      destruct (Z.eqb_spec p c); [discriminate|]. injection H as <-. cbn. auto.
    + destruct (Z.eqb_spec p c); [discriminate|]. injection H as <-. cbn.
      apply Z.ltb_ge in Hc. repeat split; [exact n | lia].
Qed.

Lemma SemanticDependency_init_guards_witness :
  (exists msg,
      SemanticDependency.init 2 (-2) (Some "nsubj") false = Raise (RuntimeError msg))
  /\ (SemanticDependency.parent_index (SemanticDependency.Build 2 (-2) None false)
      <> SemanticDependency.child_index (SemanticDependency.Build 2 (-2) None false)
      /\ SemanticDependency.label (SemanticDependency.Build 2 (-2) None false) = None).
Proof.
  destruct SemanticDependency_init_guards as (_ & Hneg & Hok).
  split.
  - apply Hneg. lia.
  - destruct (Hok 2 (-2) None false (SemanticDependency.Build 2 (-2) None false))
      as (_ & Hne & Hlab); [reflexivity|].
    split; [exact Hne | apply Hlab; cbn; lia].
Defined.

(** C3: [__eq__] and [__hash__] look at [(parent_index, child_index)] only:
    two dependencies with the same pair are equal and have the same hash
    whatever their labels and uncertainty flags, and two dependencies that
    differ in one of the two indices are unequal. *)
Theorem SemanticDependency_eq_hash_by_index_pair :
  forall (tuple_hash : Z * Z -> Z) (a b : SemDep),
    (SemanticDependency.parent_index a = SemanticDependency.parent_index b
     /\ SemanticDependency.child_index a = SemanticDependency.child_index b ->
     SemanticDependency_eq a (PyDependency b) = true
     /\ SemanticDependency_ne a (PyDependency b) = false
     /\ SemanticDependency_hash tuple_hash a = SemanticDependency_hash tuple_hash b)
    /\ (SemanticDependency.parent_index a <> SemanticDependency.parent_index b
        \/ SemanticDependency.child_index a <> SemanticDependency.child_index b ->
        SemanticDependency_eq a (PyDependency b) = false
        /\ SemanticDependency_ne a (PyDependency b) = true).
Proof.
  intros tuple_hash a b. unfold SemanticDependency_ne, SemanticDependency_hash.
  cbn [SemanticDependency_eq]. split.
  - intros [Hp Hc]. rewrite Hp, Hc, !Z.eqb_refl. auto.
  - intros [Hp | Hc].
    + apply Z.eqb_neq in Hp. rewrite Hp. auto.
    + apply Z.eqb_neq in Hc. rewrite Hc, andb_false_r. auto.
Qed.

Lemma SemanticDependency_eq_hash_by_index_pair_witness :
  SemanticDependency_eq (SemanticDependency.Build 2 1 (Some "nsubj") false)
    (PyDependency (SemanticDependency.Build 2 1 (Some "nsubjpass") true)) = true
  /\ SemanticDependency_eq (SemanticDependency.Build 2 1 (Some "nsubj") false)
       (PyDependency (SemanticDependency.Build 2 3 (Some "nsubj") false)) = false.
Proof.
  split.
  - apply (SemanticDependency_eq_hash_by_index_pair (fun p => fst p + snd p)
             (SemanticDependency.Build 2 1 (Some "nsubj") false)
             (SemanticDependency.Build 2 1 (Some "nsubjpass") true)).
    split; reflexivity.
  - apply (SemanticDependency_eq_hash_by_index_pair (fun p => fst p + snd p)
             (SemanticDependency.Build 2 1 (Some "nsubj") false)
             (SemanticDependency.Build 2 3 (Some "nsubj") false)).
    right. cbn. lia.
Defined.

(** ** Coordination propagation *)

Lemma init_ok_eq p c l u d :
  SemanticDependency.init p c l u = Ok d -> d = SemanticDependency.Build p c l u.
Proof.
  unfold SemanticDependency.init.
  destruct (_ && _); [discriminate|]. destruct (p =? c); [discriminate|].
  congruence.
Qed.

Lemma filter_length_zero {A} (f : A -> bool) (l : list A) :
  Nat.eqb (length (List.filter f l)) 0 = negb (existsb f l).
Proof.
  induction l as [|x l IH]; cbn; [reflexivity|].
  destruct (f x); cbn; [reflexivity | exact IH].
Qed.

(** A loop establishes, for each element it ran on, a postcondition that
    later iterations cannot undo. *)
Lemma for_each_post {A} (R : Doc.t -> Doc.t -> Prop)
    `{!Reflexive R, !Transitive R}
    (l : list A) (body : A -> M unit) (Post : A -> Doc.t -> Prop) (doc0 : Doc.t) :
  (forall x, keeps R (body x)) ->
  (forall x doc doc', Post x doc -> R doc doc' -> Post x doc') ->
  (forall x doc doc', R doc0 doc -> body x doc = (Ok tt, doc') -> Post x doc') ->
  forall doc doc', R doc0 doc -> for_each l body doc = (Ok tt, doc') ->
    R doc0 doc' /\ forall x, In x l -> Post x doc'.
Proof.
  intros Hk Hst Hb. induction l as [|y l IH]; intros doc doc' H0 Hrun.
  - cbn in Hrun. injection Hrun as <-. split; [exact H0 | intros x []].
  - cbn in Hrun. apply bind_ok in Hrun as ([] & doc1 & Hy & Hrest).
    assert (H01 : R doc0 doc1).
    { etransitivity; [exact H0|]. specialize (Hk y doc). now rewrite Hy in Hk. }
    destruct (IH doc1 doc' H01 Hrest) as [H0' Hl].
    split; [exact H0'|].
    intros x [<-|Hx]; [|now apply Hl].
    apply (Hst y doc1 doc'); [apply (Hb y doc doc1 H0 Hy)|].
    pose proof (keeps_for_each R l body Hk doc1) as Hg. rewrite Hrest in Hg. exact Hg.
Qed.

Section CopyAnySiblingInfoProofs.

Variable self : Analyzer.

Lemma keeps_copy_any_sibling_info (b : nat) :
  keeps (grows (copied_edge self b)) (_copy_any_sibling_info self b).
Proof.
  unfold _copy_any_sibling_info, copy_dependency, copy_to_child_sibling,
    copy_to_sibling.
  repeat keeps_step.
  - apply keeps_update_holmes; [reflexivity|].
    intros h0. exists []. cbn. rewrite app_nil_r. auto.
  - apply keeps_lift_bind; [typeclasses eauto|]. intros dep _.
    apply keeps_append_child. intros Hne. congruence.
  - match goal with
    | H : (_ && negb _ && _ && _) = true |- _ =>
        apply andb_prop in H as [H _]; apply andb_prop in H as [H _];
        apply andb_prop in H as [_ H]; apply negb_true_iff in H
    end.
    apply keeps_lift_bind; [typeclasses eauto|]. intros dep Hdep.
    apply init_ok_eq in Hdep. subst dep.
    apply keeps_append_child. intros _. cbn. auto.
Qed.

End CopyAnySiblingInfoProofs.

Lemma has_child_or_label_grows P doc doc' a d :
  has_child_or_label doc a d -> grows P doc doc' -> has_child_or_label doc' a d.
Proof.
  intros (h & Hh & Hor) [_ Hg].
  destruct (Hg a h Hh) as (h' & new & Hh' & _ & Hc & _).
  exists h'. split; [exact Hh'|].
  unfold HolmesDictionary.has_dependency_with_child_index,
    HolmesDictionary.has_dependency_with_label in *.
  rewrite Hc, !existsb_app.
  destruct Hor as [-> | ->]; auto.
Qed.

Lemma sibling_served_grows P self d rs doc doc' :
  sibling_served self d rs doc -> grows P doc doc' -> sibling_served self d rs doc'.
Proof.
  intros [H | [H | (a & Ha & HQ)]] Hg; [left; exact H | right; left; exact H |].
  right; right. exists a. split.
  - destruct Hg as [-> _]. exact Ha.
  - eapply has_child_or_label_grows; eauto.
Qed.

Section CopyAnySiblingInfoPost.

Variable self : Analyzer.

Let R := grows (fun (_ : nat) (_ : SemDep) => True).

Lemma keeps_any_copy_any_sibling_info (b : nat) :
  keeps R (_copy_any_sibling_info self b).
Proof.
  intros doc. eapply grows_weaken; [|apply keeps_copy_any_sibling_info].
  auto.
Qed.

Lemma keeps_any_copy_to_sibling d rs : keeps R (copy_to_sibling self d rs).
Proof.
  unfold copy_to_sibling. repeat keeps_step.
  apply keeps_lift_bind; [typeclasses eauto|]. intros dep _.
  now apply keeps_append_child.
Qed.

Lemma keeps_any_copy_to_child_siblings b d :
  keeps R (let* child := doc_getitem (SemanticDependency.child_index d) in
           let* hc := holmes_of child in
           for_each (HolmesDictionary.righthand_siblings hc)
             (copy_to_child_sibling b d)).
Proof.
  unfold copy_to_child_sibling. repeat keeps_step.
  apply keeps_lift_bind; [typeclasses eauto|]. intros dep _.
  now apply keeps_append_child.
Qed.

Lemma keeps_any_copy_dependency b d : keeps R (copy_dependency self b d).
Proof.
  unfold copy_dependency.
  apply keeps_bind; [typeclasses eauto | apply keeps_any_copy_to_child_siblings |].
  intros _. apply keeps_bind; [typeclasses eauto | apply keeps_holmes_of; typeclasses eauto |].
  intros h. apply keeps_for_each; [typeclasses eauto..|].
  intros rs. apply keeps_any_copy_to_sibling.
Qed.

Lemma keeps_any_propagate_or_flag b :
  keeps R (let* h := holmes_of b in
           when (HolmesDictionary.is_involved_in_or_conjunction h)
             (for_each (HolmesDictionary.righthand_siblings h)
                (fun righthand_sibling =>
                   let* p := doc_getitem righthand_sibling in
                   update_holmes p
                     (HolmesDictionary.set_is_involved_in_or_conjunction true)))).
Proof.
  repeat keeps_step. apply keeps_update_holmes; [reflexivity|].
  intros h1. exists []. cbn. rewrite app_nil_r. auto.
Qed.

(** One run of the body of the second loop serves its sibling. *)
Lemma copy_to_sibling_post d rs doc doc' :
  copy_to_sibling self d rs doc = (Ok tt, doc') ->
  sibling_served self d rs doc'.
Proof.
  unfold copy_to_sibling. intros H.
  apply bind_ok in H as (a & doc1 & Ha & H).
  apply doc_getitem_ok in Ha as [-> Ha].
  apply bind_ok in H as (hs & doc1 & Hhs & H).
  apply holmes_of_ok in Hhs as [-> Hhs].
  rewrite filter_length_zero in H.
  destruct (label_in (SemanticDependency.label d)
              (SemanticAnalyzer._conjunction_deps self)) eqn:Hconj;
    [left; exact Hconj|].
  destruct (Z.eqb_spec rs (SemanticDependency.child_index d)) as [Heq|Hne];
    [right; left; exact Heq|].
  right; right.
  destruct (existsb _ (HolmesDictionary.children hs)) eqn:Hlab in H.
  { cbn in H. injection H as <-. exists a. split; [exact Ha|].
    exists hs. split; [exact Hhs|]. right. exact Hlab. }
  destruct (HolmesDictionary.has_dependency_with_child_index hs
              (SemanticDependency.child_index d)) eqn:Hch in H.
  { cbn in H. injection H as <-. exists a. split; [exact Ha|].
    exists hs. split; [exact Hhs|]. left. exact Hch. }
  cbn [when negb andb] in H. apply bind_ok in H as (dep & doc1 & Hdep & H).
  unfold lift in Hdep. injection Hdep as Hdep <-.
  apply init_ok_eq in Hdep. subst dep.
  unfold append_child in H. rewrite (update_holmes_ok _ _ _ _ Hhs) in H.
  injection H as <-. exists a. split; [now rewrite len_put_dict|].
  eexists. split; [eapply dict_at_put_dict_eq; eauto|].
  left. unfold HolmesDictionary.has_dependency_with_child_index,
          HolmesDictionary.append_child. cbn.
  rewrite existsb_app. cbn. rewrite Z.eqb_refl. now rewrite orb_true_r.
Qed.

(** One run of the body of the loop over the dependencies of [b] serves
    every righthand sibling of [b]. *)
Lemma copy_dependency_post b d doc doc' h :
  dict_at doc b = Some h ->
  copy_dependency self b d doc = (Ok tt, doc') ->
  forall rs, In rs (HolmesDictionary.righthand_siblings h) ->
    sibling_served self d rs doc'.
Proof.
  intros Hh H rs Hrs. unfold copy_dependency in H.
  apply bind_ok in H as ([] & doc1 & H1 & H).
  assert (Hg1 : R doc doc1).
  { pose proof (keeps_any_copy_to_child_siblings b d doc) as K.
    rewrite H1 in K. exact K. }
  apply bind_ok in H as (h1 & doc2 & Hh1 & H).
  apply holmes_of_ok in Hh1 as [-> Hh1].
  destruct Hg1 as [_ Hg1]. destruct (Hg1 b h Hh) as (h1' & new & E & Hsib & _).
  assert (h1' = h1) by congruence. subst h1'.
  destruct (Z.eqb_spec rs (SemanticDependency.child_index d)) as [Heq|Hne];
    [right; left; exact Heq|].
  eapply (for_each_post R _ _ (fun rs doc => sibling_served self d rs doc) doc1)
    in H as [_ H].
  - apply H. apply filter_In. split; [now rewrite Hsib|].
    apply negb_true_iff. now apply Z.eqb_neq.
  - intros x. apply keeps_any_copy_to_sibling.
  - intros x s s' Hs Hss. eapply sibling_served_grows; eauto.
  - intros x s s' _ Hrun. eapply copy_to_sibling_post; eauto.
  - reflexivity.
Qed.

(** One call for the token at [b] serves every righthand sibling of [b]
    for every edge that [b] had when the call began. *)
Lemma copy_any_sibling_info_post b doc doc' h :
  dict_at doc b = Some h ->
  _copy_any_sibling_info self b doc = (Ok tt, doc') ->
  forall d rs,
    In d (HolmesDictionary.children h) ->
    In rs (HolmesDictionary.righthand_siblings h) ->
    sibling_served self d rs doc'.
Proof.
  intros Hh H d rs Hd Hrs. unfold _copy_any_sibling_info in H.
  apply bind_ok in H as ([] & doc1 & H1 & H).
  assert (Hg1 : R doc doc1).
  { pose proof (keeps_any_propagate_or_flag b doc) as K.
    rewrite H1 in K. exact K. }
  apply bind_ok in H as (h1 & doc2 & Hh1 & H).
  apply holmes_of_ok in Hh1 as [-> Hh1].
  destruct Hg1 as [_ Hg1]. destruct (Hg1 b h Hh) as (h1' & new & E & Hsib & Hch & _).
  assert (h1' = h1) by congruence. subst h1'.
  eapply (for_each_post R _ _
            (fun d doc => forall rs, In rs (HolmesDictionary.righthand_siblings h) ->
                                     sibling_served self d rs doc) doc1)
    in H as [_ H].
  - apply (H d); [|exact Hrs]. rewrite Hch. apply in_or_app. now left.
  - intros x. apply keeps_any_copy_dependency.
  - intros x s s' Hs Hss r Hr. eapply sibling_served_grows; eauto.
  - intros x s s' [_ Hs] Hrun r Hr.
    destruct (Hs b h1 Hh1) as (h2 & new2 & E2 & Hsib2 & _).
    eapply copy_dependency_post; eauto. congruence.
  - reflexivity.
Qed.

(** The whole pass. *)
Lemma copy_any_sibling_info_pass_post doc doc' :
  copy_any_sibling_info_pass self doc = (Ok tt, doc') ->
  forall b h d rs,
    dict_at doc b = Some h ->
    In d (HolmesDictionary.children h) ->
    In rs (HolmesDictionary.righthand_siblings h) ->
    sibling_served self d rs doc'.
Proof.
  unfold copy_any_sibling_info_pass. intros H b h d rs Hh Hd Hrs.
  eapply (for_each_post R _ _
            (fun b doc' => forall h d rs,
                 dict_at doc b = Some h ->
                 In d (HolmesDictionary.children h) ->
                 In rs (HolmesDictionary.righthand_siblings h) ->
                 sibling_served self d rs doc') doc)
    in H as [_ H].
  - eapply H; eauto. apply in_seq. apply dict_at_lt in Hh. lia.
  - intros x. apply keeps_any_copy_any_sibling_info.
  - intros x s s' Hs Hss h0 d0 rs0 ? ? ?. eapply sibling_served_grows; eauto.
  - intros x s s' [_ Hs] Hrun h0 d0 rs0 Hh0 Hd0 Hrs0.
    destruct (Hs x h0 Hh0) as (h2 & new2 & E2 & Hsib2 & Hch2 & _).
    eapply copy_any_sibling_info_post; eauto.
    + rewrite Hch2. apply in_or_app. now left.
    + congruence.
  - reflexivity.
Qed.

End CopyAnySiblingInfoPost.

(** ** Negation *)

Lemma any_m_total {A} (l : list A) (test : A -> M bool) doc :
  (forall x, In x l -> exists b, test x doc = (Ok b, doc)) ->
  exists b, any_m l test doc = (Ok b, doc).
Proof.
  induction l as [|x l IH]; intros H; cbn.
  - eexists. reflexivity.
  - destruct (H x (or_introl eq_refl)) as [b Hb].
    erewrite bind_ok_intro by exact Hb.
    destruct b; [eexists; reflexivity|].
    apply IH. intros y Hy. apply H. now right.
Qed.

Lemma well_parsed_dict doc p :
  well_parsed doc -> (p < Doc.len doc)%nat ->
  exists tok h, Doc.tokens doc !! p = Some tok /\ Token.holmes tok = ExtDict h
                /\ dict_at doc p = Some h.
Proof.
  intros Hwp Hp. destruct (lookup_lt_is_Some_2 (Doc.tokens doc) p Hp) as [tok Htok].
  destruct (Hwp p tok Htok) as [[h Hh] _].
  exists tok, h. repeat split; auto. unfold dict_at. now rewrite Htok, Hh.
Qed.

Lemma token_at_ok doc p tok :
  Doc.tokens doc !! p = Some tok -> token_at p doc = (Ok tok, doc).
Proof. unfold token_at. now intros ->. Qed.

Lemma negation_child_total language doc c :
  well_parsed doc -> (c < Doc.len doc)%nat ->
  exists b, negation_child_of language c doc = (Ok b, doc).
Proof.
  intros Hwp Hc.
  destruct (well_parsed_dict doc c Hwp Hc) as (tok & h & Htok & Hh & Hd).
  destruct language; cbn.
  - unfold English_negation_child.
    rewrite (bind_ok_intro _ _ _ _ _ (holmes_of_dict _ _ _ Hd)).
    rewrite (bind_ok_intro _ _ _ _ _ (token_at_ok _ _ _ Htok)).
    destruct (_ || _); [eexists; reflexivity|].
    destruct (str_in _ _); [|eexists; reflexivity].
    apply any_m_total. intros g Hg.
    destruct (Hwp c tok Htok) as [_ Hch].
    rewrite Forall_forall in Hch.
    destruct (well_parsed_dict doc g Hwp) as (tg & hg & _ & _ & Hdg).
    { apply Hch. now apply list_elem_of_In. }
    rewrite (bind_ok_intro _ _ _ _ _ (holmes_of_dict _ _ _ Hdg)).
    eexists. reflexivity.
  - unfold German_negation_child.
    rewrite (bind_ok_intro _ _ _ _ _ (holmes_of_dict _ _ _ Hd)).
    eexists. reflexivity.
Qed.

#[global] Instance negation_only_refl : Reflexive negation_only.
Proof.
  intros doc. split; [reflexivity|]. intros p tok Htok.
  exists tok. repeat split; auto.
  - now destruct tok.
  - intros h Hh. exists (HolmesDictionary.is_negated h).
    split; [|auto]. rewrite Hh. now destruct h.
Qed.

#[global] Instance negation_only_trans : Transitive negation_only.
Proof.
  intros d1 d2 d3 [L12 H12] [L23 H23]. split; [congruence|].
  intros p tok Htok.
  destruct (H12 p tok Htok) as (t2 & Ht2 & E2 & D2).
  destruct (H23 p t2 Ht2) as (t3 & Ht3 & E3 & D3).
  exists t3. repeat split; auto.
  - rewrite E3, E2. now destruct tok.
  - intros h Hh. destruct (D2 h Hh) as (o2 & Ho2 & K2).
    destruct (D3 _ Ho2) as (o3 & Ho3 & K3).
    exists o3. split.
    + rewrite Ho3. now destruct h.
    + intros Hn. apply K3. cbn. auto.
Qed.

Lemma negation_only_put doc p h o :
  dict_at doc p = Some h -> o <> None ->
  negation_only doc (put_dict p (HolmesDictionary.set_is_negated o h) doc).
Proof.
  intros Hd Ho. split; [apply len_put_dict|].
  intros q tok Htok. unfold put_dict. cbn.
  destruct (decide (p = q)) as [<-|Hne].
  - rewrite list_lookup_alter_eq, Htok. cbn.
    eexists. split; [reflexivity|]. split; [now destruct tok|].
    intros h0 Hh0. unfold dict_at in Hd. rewrite Htok, Hh0 in Hd.
    injection Hd as ->. exists o. cbn. auto.
  - rewrite list_lookup_alter_ne by auto.
    destruct (negation_only_refl doc) as [_ H]. exact (H q tok Htok).
Qed.

Lemma negation_only_well_parsed doc doc' :
  negation_only doc doc' -> well_parsed doc -> well_parsed doc'.
Proof.
  intros [HL H] Hwp p tok' Htok'.
  assert (Hp : (p < Doc.len doc)%nat).
  { rewrite <- HL. eapply lookup_lt_Some; eauto. }
  destruct (lookup_lt_is_Some_2 (Doc.tokens doc) p Hp) as [tok Htok].
  destruct (H p tok Htok) as (t2 & Ht2 & E2 & D2).
  assert (t2 = tok') by congruence. subst t2.
  destruct (Hwp p tok Htok) as [[h Hh] Hch].
  destruct (D2 h Hh) as (o & Ho & _).
  split; [eauto|].
  rewrite E2. cbn. now rewrite HL.
Qed.

Lemma negation_only_reaches_root doc doc' n p :
  negation_only doc doc' -> reaches_root doc n p -> reaches_root doc' n p.
Proof.
  intros [HL H] Hr. induction Hr as [n p tok Htok Hroot | n p tok Htok Hr IH].
  - destruct (H p tok Htok) as (t2 & Ht2 & E2 & _).
    eapply reaches_root_here; [exact Ht2|]. rewrite E2. exact Hroot.
  - destruct (H p tok Htok) as (t2 & Ht2 & E2 & _).
    eapply reaches_root_up; [exact Ht2|]. rewrite E2. exact IH.
Qed.

Lemma negation_only_resolved doc doc' p :
  negation_only doc doc' -> negation_resolved_at doc p -> negation_resolved_at doc' p.
Proof.
  intros [HL H] (h & b & Hd & Hb). unfold dict_at in Hd.
  destruct (Doc.tokens doc !! p) as [tok|] eqn:Htok; [|discriminate].
  destruct (Token.holmes tok) eqn:Hh; try discriminate. injection Hd as ->.
  destruct (H p tok Htok) as (t2 & Ht2 & _ & D2).
  destruct (D2 h Hh) as (o & Ho & K).
  destruct o as [b'|]; [|exfalso; apply K; congruence].
  exists (HolmesDictionary.set_is_negated (Some b') h), b'.
  split; [|reflexivity]. unfold dict_at. now rewrite Ht2, Ho.
Qed.

Lemma reaches_root_lt doc n p : reaches_root doc n p -> (p < Doc.len doc)%nat.
Proof. intros []; eapply lookup_lt_Some; eauto. Qed.

Section SetNegationProofs.

Variable language : Language.

Let nc := negation_child_of language.

(** Setting [is_negated] of a token that has a dictionary. *)
Lemma set_is_negated_step doc p h b :
  dict_at doc p = Some h ->
  exists doc',
    update_holmes p (HolmesDictionary.set_is_negated (Some b)) doc = (Ok tt, doc')
    /\ negation_only doc doc' /\ negation_resolved_at doc' p.
Proof.
  intros Hd. eexists. split; [apply update_holmes_ok; exact Hd|]. split.
  - apply negation_only_put; [exact Hd | discriminate].
  - eexists _, b. split; [eapply dict_at_put_dict_eq; eauto | reflexivity].
Qed.

(** On a token whose head chain reaches a [ROOT] within the recursion
    limit, [_set_negation] returns and the token is resolved. *)
Lemma set_negation_total n :
  forall depth p doc,
    (n < depth)%nat -> well_parsed doc -> reaches_root doc n p ->
    exists doc',
      _set_negation nc depth p doc = (Ok tt, doc')
      /\ negation_only doc doc' /\ negation_resolved_at doc' p.
Proof.
  induction n as [|n IH]; intros depth p doc Hdepth Hwp Hr;
    (destruct depth as [|depth]; [lia|]); cbn [_set_negation];
    pose proof (reaches_root_lt _ _ _ Hr) as Hp;
    destruct (well_parsed_dict doc p Hwp Hp) as (tok & h & Htok & Hh & Hd);
    rewrite (bind_ok_intro _ _ _ _ _ (holmes_of_dict _ _ _ Hd));
    (destruct (HolmesDictionary.is_negated h) as [b|] eqn:Hneg;
     [ exists doc; split; [reflexivity|]; split; [reflexivity|];
       exists h, b; auto |]);
    rewrite (bind_ok_intro _ _ _ _ _ (token_at_ok _ _ _ Htok));
    (destruct (any_m_total (Token.children tok) nc doc) as [found Hfound];
     [ intros c Hc; apply negation_child_total; [exact Hwp|];
       destruct (Hwp p tok Htok) as [_ Hch]; rewrite Forall_forall in Hch;
       apply Hch; now apply list_elem_of_In |]);
    rewrite (bind_ok_intro _ _ _ _ _ Hfound);
    (destruct found; [now apply set_is_negated_step with (h := h)|]);
    (destruct (String.eqb (Token.dep_ tok) "ROOT") eqn:Hroot;
     [now apply set_is_negated_step with (h := h)|]).
  - inversion Hr as [n' p' tok' Htok' Hdep | ]; subst.
    assert (tok' = tok) by congruence. subst tok'.
    apply String.eqb_neq in Hroot. contradiction.
  - inversion Hr as [n' p' tok' Htok' Hdep | n' p' tok' Htok' Hup]; subst.
    { assert (tok' = tok) by congruence. subst tok'.
      apply String.eqb_neq in Hroot. contradiction. }
    assert (tok' = tok) by congruence. subst tok'.
    destruct (IH depth (Token.head tok) doc ltac:(lia) Hwp Hup)
      as (doc1 & Hrec & Hrel1 & (hh & bh & Hdh & Hbh)).
    rewrite (bind_ok_intro _ _ _ _ _ Hrec).
    rewrite (bind_ok_intro _ _ _ _ _ (holmes_of_dict _ _ _ Hdh)).
    rewrite Hbh.
    assert (Hres : exists h1, dict_at doc1 p = Some h1).
    { destruct Hrel1 as [_ H1]. destruct (H1 p tok Htok) as (t1 & Ht1 & _ & D1).
      destruct (D1 h Hh) as (o & Ho & _). eexists. unfold dict_at.
      rewrite Ht1, Ho. reflexivity. }
    destruct Hres as [h1 Hd1].
    destruct (set_is_negated_step doc1 p h1 bh Hd1) as (doc2 & Hupd & Hrel2 & Hres2).
    exists doc2. split; [exact Hupd|]. split; [|exact Hres2].
    etransitivity; eauto.
Qed.

Lemma set_negation_loop_total n depth (l : list nat) :
  (n < depth)%nat ->
  forall doc,
    well_parsed doc ->
    (forall p, In p l -> reaches_root doc n p) ->
    exists doc',
      for_each l (_set_negation nc depth) doc = (Ok tt, doc')
      /\ negation_only doc doc'
      /\ forall p, In p l -> negation_resolved_at doc' p.
Proof.
  intros Hdepth. induction l as [|x l IH]; intros doc Hwp Hr; cbn [for_each].
  - exists doc. split; [reflexivity|]. split; [reflexivity | intros p []].
  - destruct (set_negation_total n depth x doc Hdepth Hwp (Hr x (or_introl eq_refl)))
      as (doc1 & Hx & Hrel1 & Hres1).
    rewrite (bind_ok_intro _ _ _ _ _ Hx).
    destruct (IH doc1) as (doc2 & Hl & Hrel2 & Hres2).
    { eapply negation_only_well_parsed; eauto. }
    { intros p Hp. eapply negation_only_reaches_root; eauto. apply Hr. now right. }
    exists doc2. split; [exact Hl|]. split; [etransitivity; eauto|].
    intros p [<-|Hp]; [|now apply Hres2].
    eapply negation_only_resolved; eauto.
Qed.

End SetNegationProofs.

(** C4 (as the code has it): on a document that spaCy parsed into trees
    (every token reaches a [ROOT] token along its head links, within the
    recursion limit), the negation pass of either language returns, changes
    nothing but [is_negated], and leaves [is_negated] set to true or false on
    every token. *)
Theorem set_negation_pass_resolves_trees :
  forall (language : Language) (limits : Limits) (doc : Doc.t) (n : nat),
    well_parsed doc ->
    (forall p, (p < Doc.len doc)%nat -> reaches_root doc n p) ->
    (n < recursion_limit limits)%nat ->
    exists doc',
      set_negation_pass (negation_child_of language) limits doc = (Ok tt, doc')
      /\ negation_only doc doc'
      /\ forall p, (p < Doc.len doc)%nat -> negation_resolved_at doc' p.
Proof.
  intros language limits doc n Hwp Hr Hn. unfold set_negation_pass.
  destruct (set_negation_loop_total language n (recursion_limit limits)
              (seq 0 (Doc.len doc)) Hn doc Hwp) as (doc' & Hrun & Hrel & Hres).
  { intros p Hp. apply Hr. apply in_seq in Hp. lia. }
  exists doc'. split; [exact Hrun|]. split; [exact Hrel|].
  intros p Hp. apply Hres. apply in_seq. lia.
Qed.

Lemma set_negation_pass_resolves_trees_witness :
  exists doc',
    set_negation_pass (negation_child_of English) (Build_Limits 1000 1000 1000)
      doc_he_did_not_go = (Ok tt, doc')
    /\ negation_only doc_he_did_not_go doc'
    /\ forall p, (p < Doc.len doc_he_did_not_go)%nat -> negation_resolved_at doc' p.
Proof.
  apply (set_negation_pass_resolves_trees English (Build_Limits 1000 1000 1000)
           doc_he_did_not_go 1).
  - intros p tok Hp.
    do 5 (destruct p as [|p]; [injection Hp as <-; split;
                               [eexists; reflexivity | cbn; repeat constructor]|]).
    discriminate.
  - intros p Hp. cbn in Hp.
    assert (Hroot : reaches_root doc_he_did_not_go 0 3)
      by (eapply reaches_root_here; reflexivity).
    do 5 (destruct p as [|p];
          [first [ exact (reaches_root_here _ _ _ _ eq_refl eq_refl)
                 | eapply reaches_root_up; [reflexivity | exact Hroot] ]|]).
    lia.
  - cbn. lia.
Defined.

(** Scenario A: in "He did not go." the token [go] ends the pass negated. *)
Example he_did_not_go_is_negated :
  let r := set_negation_pass English_negation_child (Build_Limits 1000 1000 1000)
             doc_he_did_not_go in
  fst r = Ok tt
  /\ option_map HolmesDictionary.is_negated (dict_at (snd r) 3) = Some (Some true).
Proof. vm_compute. split; reflexivity. Qed.

(** A token that is unresolved, has no negating child and is no [ROOT]
    passes the question to its head; when that call raises, so does this one. *)
Lemma set_negation_up_raises nc depth p doc tok h e doc1 :
  dict_at doc p = Some h ->
  HolmesDictionary.is_negated h = None ->
  Doc.tokens doc !! p = Some tok ->
  any_m (Token.children tok) nc doc = (Ok false, doc) ->
  String.eqb (Token.dep_ tok) "ROOT" = false ->
  _set_negation nc depth (Token.head tok) doc = (Raise e, doc1) ->
  _set_negation nc (S depth) p doc = (Raise e, doc1).
Proof.
  intros Hd Hneg Htok Hany Hroot Hrec. cbn [_set_negation].
  rewrite (bind_ok_intro _ _ _ _ _ (holmes_of_dict _ _ _ Hd)), Hneg.
  rewrite (bind_ok_intro _ _ _ _ _ (token_at_ok _ _ _ Htok)).
  rewrite (bind_ok_intro _ _ _ _ _ Hany), Hroot.
  now rewrite (bind_raise_intro _ _ _ _ _ Hrec).
Qed.

(** Every call on the two-token cycle exhausts the recursion limit and
    leaves the document as it was. *)
Lemma set_negation_head_cycle language depth :
  forall p, (p < 2)%nat ->
    _set_negation (negation_child_of language) depth p doc_head_cycle
    = (Raise RecursionError, doc_head_cycle).
Proof.
  induction depth as [|depth IH]; intros p Hp; [reflexivity|].
  destruct p as [|[|p]]; [| |lia].
  - eapply set_negation_up_raises; try reflexivity.
    + destruct language; reflexivity.
    + apply IH. cbn. lia.
  - eapply set_negation_up_raises; try reflexivity.
    + destruct language; reflexivity.
    + apply IH. cbn. lia.
Qed.

(** C4, counterexample: on two tokens that are each other's head the upward
    recursion has nothing that stops it; whatever the recursion limit, the
    pass ends in [RecursionError] and resolves no token. *)
Lemma negation_pass_head_cycle_unresolved :
  ~ negation_pass_resolves English doc_head_cycle
  /\ ~ negation_pass_resolves German doc_head_cycle.
Proof.
  split; intros (limits & doc' & Hrun & _);
    unfold set_negation_pass in Hrun; cbn [for_each seq Doc.len doc_head_cycle length Doc.tokens] in Hrun;
    unfold bind in Hrun;
    rewrite set_negation_head_cycle in Hrun by lia; discriminate.
Qed.

(** ** Predicative adjectives *)

Lemma for_live_step {St} fuel p k (body : SemDep -> St -> M St) acc doc h d :
  dict_at doc p = Some h ->
  HolmesDictionary.children h !! k = Some d ->
  for_live (S fuel) p k body acc doc
  = bind (body d acc) (fun acc' => for_live fuel p (S k) body acc') doc.
Proof.
  intros Hd Hk. cbn [for_live].
  rewrite (bind_ok_intro _ _ _ _ _ (holmes_of_dict _ _ _ Hd)). now rewrite Hk.
Qed.

Lemma for_live_end {St} fuel p k (body : SemDep -> St -> M St) acc doc h :
  dict_at doc p = Some h ->
  HolmesDictionary.children h !! k = None ->
  for_live (S fuel) p k body acc doc = (Ok acc, doc).
Proof.
  intros Hd Hk. cbn [for_live].
  rewrite (bind_ok_intro _ _ _ _ _ (holmes_of_dict _ _ _ Hd)). now rewrite Hk.
Qed.

Lemma doc_getitem_of_nat doc (p : nat) :
  (p < Doc.len doc)%nat -> doc_getitem (Z.of_nat p) doc = (Ok p, doc).
Proof. intros Hp. unfold doc_getitem. now rewrite py_index_of_nat. Qed.

Lemma init_ok p c l u :
  (c < 0 -> l = None) -> p <> c ->
  SemanticDependency.init p c l u = Ok (SemanticDependency.Build p c l u).
Proof.
  intros Hl Hne. unfold SemanticDependency.init.
  destruct (Z.ltb_spec c 0) as [Hc|Hc]; cbn.
  - rewrite (Hl Hc). cbn. destruct (Z.eqb_spec p c); [contradiction|reflexivity].
  - destruct (Z.eqb_spec p c); [contradiction|reflexivity].
Qed.

Lemma children_at_put_dict_eq p h0 h doc :
  dict_at doc p = Some h0 ->
  children_at (put_dict p h doc) p = HolmesDictionary.children h.
Proof.
  intros H. unfold children_at. now rewrite (dict_at_put_dict_eq _ _ _ _ H).
Qed.

Lemma children_at_put_dict_ne p q h doc :
  p <> q -> children_at (put_dict p h doc) q = children_at doc q.
Proof.
  intros H. unfold children_at. now rewrite dict_at_put_dict_ne.
Qed.

Lemma tokens_put_dict_ne p q h doc :
  p <> q -> Doc.tokens (put_dict p h doc) !! q = Doc.tokens doc !! q.
Proof. intros H. unfold put_dict. cbn. now rewrite list_lookup_alter_ne. Qed.

(** A stretch of children on which the body does nothing is stepped over. *)
Lemma for_live_skip {St} p (body : SemDep -> St -> M St) doc h acc :
  dict_at doc p = Some h ->
  forall m k fuel,
    (k + m <= length (HolmesDictionary.children h))%nat ->
    (forall k' d, (k <= k' < k + m)%nat ->
                  HolmesDictionary.children h !! k' = Some d ->
                  body d acc doc = (Ok acc, doc)) ->
    for_live (m + fuel) p k body acc doc = for_live fuel p (k + m) body acc doc.
Proof.
  intros Hd. induction m as [|m IH]; intros k fuel Hlen Hskip.
  - now rewrite Nat.add_0_r.
  - destruct (lookup_lt_is_Some_2 (HolmesDictionary.children h) k ltac:(lia)) as [d Hk].
    cbn [Nat.add]. erewrite for_live_step by eauto.
    rewrite (bind_ok_intro _ _ _ _ _ (Hskip k d ltac:(lia) Hk)).
    replace (k + S m)%nat with (S k + m)%nat by lia.
    apply IH; [lia|]. intros k' d' Hk' Hd'. apply (Hskip k' d'); [lia | exact Hd'].
Qed.

(** A loop whose body acts on the child at position [i] only. *)
Lemma for_live_single {St} p (body : SemDep -> St -> M St) doc doc1 h h1 acc acc1 i d fuel :
  dict_at doc p = Some h ->
  dict_at doc1 p = Some h1 ->
  HolmesDictionary.children h1 = HolmesDictionary.children h ->
  HolmesDictionary.children h !! i = Some d ->
  body d acc doc = (Ok acc1, doc1) ->
  (forall k d', k <> i -> HolmesDictionary.children h !! k = Some d' ->
                forall acc' doc', body d' acc' doc' = (Ok acc', doc')) ->
  (length (HolmesDictionary.children h) < fuel)%nat ->
  for_live fuel p 0 body acc doc = (Ok acc1, doc1).
Proof.
  intros Hd Hd1 Hsame Hi Hbody Hskip Hfuel.
  pose proof (lookup_lt_Some _ _ _ Hi) as Hlt.
  set (L := length (HolmesDictionary.children h)) in *.
  replace fuel with (i + S ((L - S i) + (fuel - L)))%nat by lia.
  rewrite (for_live_skip p body doc h acc Hd i 0); [|lia|].
  2:{ intros k' d' Hk' Hd'. apply (Hskip k' d'); [lia | exact Hd']. }
  cbn [Nat.add]. erewrite for_live_step by eauto.
  rewrite (bind_ok_intro _ _ _ _ _ Hbody).
  rewrite (for_live_skip p body doc1 h1 acc1 Hd1 (L - S i) (S i)).
  - destruct (fuel - L)%nat as [|f] eqn:Ef; [lia|].
    eapply for_live_end; [exact Hd1|].
    apply lookup_ge_None. rewrite Hsame. fold L. lia.
  - rewrite Hsame. fold L. lia.
  - intros k' d' Hk' Hd'. rewrite Hsame in Hd'. apply (Hskip k' d'); [lia | exact Hd'].
Qed.

(** One call of [_normalize_predicative_adjectives] for a copula [t]: among
    the children of [t], one edge carries the subject label and points to a
    token [s] with a subject part of speech, one edge carries the predicate
    label and points to an adjective [a], and no other edge carries either
    label.  The call appends to [s] a modifier-labelled edge to [a] and
    leaves [t] with the single redirect to [s]. *)
Lemma normalize_copula_call
    (self : Analyzer) (limits : Limits) (doc : Doc.t) (t s a i j : nat)
    (tok toks toka : Token.t) (ht hs : HDict) (ds da : SemDep) :
  Doc.tokens doc !! t = Some tok ->
  Token.pos_ tok = SemanticAnalyzer._adjectival_predicate_head_pos self ->
  Token.holmes tok = ExtDict ht ->
  HolmesDictionary.children ht !! i = Some ds ->
  HolmesDictionary.children ht !! j = Some da ->
  SemanticDependency.label ds
  = Some (SemanticAnalyzer._adjectival_predicate_subject_dep self) ->
  SemanticDependency.child_index ds = Z.of_nat s ->
  SemanticDependency.label da
  = Some (SemanticAnalyzer._adjectival_predicate_predicate_dep self) ->
  SemanticDependency.child_index da = Z.of_nat a ->
  (forall k d, HolmesDictionary.children ht !! k = Some d ->
               SemanticDependency.label d
               = Some (SemanticAnalyzer._adjectival_predicate_subject_dep self) ->
               k = i) ->
  (forall k d, HolmesDictionary.children ht !! k = Some d ->
               SemanticDependency.label d
               = Some (SemanticAnalyzer._adjectival_predicate_predicate_dep self) ->
               k = j) ->
  Doc.tokens doc !! s = Some toks ->
  str_in (Token.pos_ toks)
    (SemanticAnalyzer._adjectival_predicate_subject_pos self) = true ->
  Token.holmes toks = ExtDict hs ->
  Doc.tokens doc !! a = Some toka ->
  Token.pos_ toka = "ADJ" ->
  s <> a -> s <> t ->
  (length (HolmesDictionary.children ht) < memory limits)%nat ->
  _normalize_predicative_adjectives self limits t doc
  = (Ok tt,
     put_dict t
       (HolmesDictionary.set_children
          [SemanticDependency.Build (Z.of_nat t) (- (Z.of_nat s + 1)) None false] ht)
       (put_dict s
          (HolmesDictionary.append_child
             (SemanticDependency.Build (Z.of_nat s) (Z.of_nat a)
                (Some (SemanticAnalyzer._modifier_dep self)) false) hs)
          doc)).
Proof.
  intros Htok Hpos Hht Hi Hj Hlds Hcds Hlda Hcda Hsubj Hadj Htoks Hposs Hhs Htoka Hposa
    Hsa Hst Hmem.
  assert (Hdt : dict_at doc t = Some ht) by (unfold dict_at; now rewrite Htok, Hht).
  assert (Hds : dict_at doc s = Some hs) by (unfold dict_at; now rewrite Htoks, Hhs).
  assert (Hs_lt : (s < Doc.len doc)%nat) by (eapply lookup_lt_Some; eauto).
  assert (Ha_lt : (a < Doc.len doc)%nat) by (eapply lookup_lt_Some; eauto).
  set (new := SemanticDependency.Build (Z.of_nat s) (Z.of_nat a)
                (Some (SemanticAnalyzer._modifier_dep self)) false).
  set (doc1 := put_dict s (HolmesDictionary.append_child new hs) doc).
  assert (Hdt1 : dict_at doc1 t = Some ht)
    by (unfold doc1; now rewrite dict_at_put_dict_ne).
  (* the two filters *)
  assert (Fadj_other : forall d, SemanticDependency.label d
                                 <> Some (SemanticAnalyzer._adjectival_predicate_predicate_dep self) ->
                                 forall d0, is_predicative_adjective self d d0 = (Ok false, d0)).
  { intros d Hd d0. unfold is_predicative_adjective.
    case_bool_decide as E; [contradiction | reflexivity]. }
  assert (Fadj_da : is_predicative_adjective self da doc = (Ok true, doc)).
  { unfold is_predicative_adjective. rewrite Hlda, Hcda.
    rewrite bool_decide_eq_true_2 by reflexivity.
    rewrite (bind_ok_intro _ _ _ _ _ (doc_getitem_of_nat _ _ Ha_lt)).
    rewrite (bind_ok_intro _ _ _ _ _ (token_at_ok _ _ _ Htoka)).
    rewrite Hposa. cbn. destruct (Z.leb_spec 0 (Z.of_nat a)); [reflexivity | lia]. }
  assert (Fsub_ds : is_predicate_subject self (Z.of_nat a) ds doc = (Ok true, doc)).
  { unfold is_predicate_subject. rewrite Hlds, Hcds.
    rewrite bool_decide_eq_true_2 by reflexivity.
    rewrite (bind_ok_intro _ _ _ _ _ (doc_getitem_of_nat _ _ Hs_lt)).
    rewrite (bind_ok_intro _ _ _ _ _ (token_at_ok _ _ _ Htoks)).
    rewrite Hposs. cbn.
    destruct (Z.leb_spec 0 (Z.of_nat s)); [|lia].
    destruct (Z.eqb_spec (Z.of_nat s) (Z.of_nat a)); [lia | reflexivity]. }
  (* the body of the inner loop *)
  assert (Att_ds : attach_adjective self (Z.of_nat a) ds (false, None) doc
                   = (Ok (true, Some (Z.of_nat s)), doc1)).
  { unfold attach_adjective.
    rewrite (bind_ok_intro _ _ _ _ _ Fsub_ds). rewrite Hcds.
    rewrite (bind_ok_intro _ _ _ _ _ (doc_getitem_of_nat _ _ Hs_lt)).
    rewrite (bind_ok_intro _ _ _ _ _ (holmes_of_dict _ _ _ Hds)).
    rewrite init_ok by lia.
    unfold lift, bind, append_child. rewrite (update_holmes_ok _ _ _ _ Hds).
    reflexivity. }
  assert (Att_other : forall k d, k <> i -> HolmesDictionary.children ht !! k = Some d ->
                        forall l d0, attach_adjective self (Z.of_nat a) d l d0
                                     = (Ok l, d0)).
  { intros k d Hk Hd l d0. unfold attach_adjective, is_predicate_subject.
    case_bool_decide as E; [|reflexivity].
    exfalso. apply Hk. eapply Hsubj; eauto. }
  (* the inner loop, run for the adjective *)
  assert (Inner : for_live (memory limits) t 0 (attach_adjective self (Z.of_nat a))
                    (false, None) doc
                  = (Ok (true, Some (Z.of_nat s)), doc1)).
  { eapply for_live_single with (h := ht) (h1 := ht) (i := i) (d := ds); eauto. }
  (* the outer loop *)
  assert (Outer :
            for_live (memory limits) t 0
              (fun dependency locals =>
                 let* is_adjective := is_predicative_adjective self dependency in
                 if is_adjective then
                   for_live (memory limits) t 0
                     (attach_adjective self (SemanticDependency.child_index dependency))
                     locals
                 else ret locals)
              (false, None) doc
            = (Ok (true, Some (Z.of_nat s)), doc1)).
  { eapply for_live_single with (h := ht) (h1 := ht) (i := j) (d := da); eauto.
    - rewrite (bind_ok_intro _ _ _ _ _ Fadj_da). rewrite Hcda. exact Inner.
    - intros k d Hk Hd l d0.
      rewrite (bind_ok_intro _ _ _ _ _ (Fadj_other d ltac:(intros E; apply Hk; eapply Hadj; eauto) d0)).
      reflexivity. }
  unfold _normalize_predicative_adjectives.
  rewrite (bind_ok_intro _ _ _ _ _ (token_at_ok _ _ _ Htok)).
  rewrite Hpos, String.eqb_refl. cbn [when].
  rewrite (bind_ok_intro _ _ _ _ _ Outer).
  cbn iota. replace (0 - (Z.of_nat s + 1)) with (- (Z.of_nat s + 1)) by lia.
  rewrite init_ok by (intros; lia || reflexivity).
  unfold lift, bind. now rewrite (update_holmes_ok _ _ _ _ Hdt1).
Qed.

(** Scenario C, run through the whole pass over "The town is old.". *)
Example the_town_is_old_normalized :
  let r := normalize_predicative_adjectives_pass english (Build_Limits 1000 1000 1000)
             doc_the_town_is_old in
  fst r = Ok tt
  /\ children_at (snd r) 1 = [SemanticDependency.Build 1 3 (Some "amod") false]
  /\ children_at (snd r) 2 = [SemanticDependency.Build 2 (-2) None false].
Proof. vm_compute. repeat split; reflexivity. Qed.

(** ** Preposition phrases *)

Section PrepositionProofs.

Variable self : Analyzer.

Let R := grows (possible_preposition_edge self).

Lemma reads_only_directly_preceded_by_noun token tok :
  reads_only (directly_preceded_by_noun self token tok).
Proof. unfold directly_preceded_by_noun. repeat reads_only_step. Qed.

Lemma reads_only_governs token noun wt : reads_only (governs token noun wt).
Proof. unfold governs. repeat reads_only_step. Qed.

Lemma reads_only_points_to_relative_clause d :
  reads_only (points_to_relative_clause d).
Proof. unfold points_to_relative_clause. repeat reads_only_step. Qed.

Lemma keeps_add_dependencies token parent label :
  label = SemanticAnalyzer._holmes_noun_to_preposition_dep self
  \/ label = SemanticAnalyzer._holmes_verb_to_preposition_dep self ->
  keeps R (add_dependencies_pointing_to_preposition_and_siblings token parent label).
Proof.
  intros Hl. unfold add_dependencies_pointing_to_preposition_and_siblings.
  repeat keeps_step.
  apply keeps_lift_bind; [typeclasses eauto|]. intros dep Hdep.
  apply init_ok_eq in Hdep. subst dep.
  apply keeps_append_child. unfold possible_preposition_edge. cbn.
  repeat split; try lia. destruct Hl as [-> | ->]; auto.
Qed.

Lemma keeps_create_additional_preposition_dependencies token :
  keeps R (_create_additional_preposition_phrase_semantic_dependencies self token).
Proof.
  unfold _create_additional_preposition_phrase_semantic_dependencies.
  apply keeps_bind; [typeclasses eauto | apply keeps_token_at; typeclasses eauto |].
  intros tok. apply keeps_when; [typeclasses eauto|].
  apply keeps_bind; [typeclasses eauto | |].
  { apply reads_only_keeps; [typeclasses eauto|].
    apply reads_only_directly_preceded_by_noun. }
  intros preceded. apply keeps_when; [typeclasses eauto|].
  apply keeps_bind; [typeclasses eauto | apply keeps_doc_getitem; typeclasses eauto |].
  intros noun.
  apply keeps_bind; [typeclasses eauto | |].
  { apply reads_only_keeps; [typeclasses eauto|].
    apply reads_only_filter_m. intros wt. apply reads_only_governs. }
  intros [|v vs]; [apply keeps_ret; typeclasses eauto|].
  apply keeps_bind; [typeclasses eauto | |].
  { apply keeps_for_each; [typeclasses eauto..|]. intros gv.
    apply keeps_bind; [typeclasses eauto | apply keeps_holmes_of; typeclasses eauto |].
    intros hn. destruct (HolmesDictionary.has_dependency_with_child_index_and_label _ _ _);
      [|apply keeps_ret; typeclasses eauto].
    apply keeps_bind; [typeclasses eauto | apply keeps_holmes_of; typeclasses eauto |].
    intros hv. apply keeps_when; [typeclasses eauto|].
    apply keeps_add_dependencies. now right. }
  intros _.
  apply keeps_bind; [typeclasses eauto | apply keeps_holmes_of; typeclasses eauto |].
  intros hv0. destruct (HolmesDictionary.has_dependency_with_child_index_and_label _ _ _);
    [|apply keeps_ret; typeclasses eauto].
  apply keeps_bind; [typeclasses eauto | apply keeps_holmes_of; typeclasses eauto |].
  intros hn. apply keeps_when; [typeclasses eauto|].
  apply keeps_bind; [typeclasses eauto | apply keeps_holmes_of; typeclasses eauto |].
  intros ht.
  apply keeps_bind; [typeclasses eauto | |].
  { apply reads_only_keeps; [typeclasses eauto|].
    apply reads_only_any_m. intros d. apply reads_only_points_to_relative_clause. }
  intros [|]; [apply keeps_ret; typeclasses eauto|].
  apply keeps_add_dependencies. now left.
Qed.

End PrepositionProofs.

(** C8: the preposition-phrase pass is additive.  Whether it returns or
    raises, no token appears or disappears, every dictionary keeps its
    children in place and unchanged (so no edge is removed and no label or
    uncertainty flag of an existing edge changes), and every edge that
    follows them is uncertain and carries one of the language's two
    'possible' preposition labels. *)
Theorem create_additional_preposition_dependencies_additive :
  forall (self : Analyzer) (doc : Doc.t),
    grows (possible_preposition_edge self) doc
      (snd (create_additional_preposition_dependencies_pass self doc)).
Proof.
  intros self doc. unfold create_additional_preposition_dependencies_pass.
  apply keeps_for_each; [typeclasses eauto..|].
  intros token. apply keeps_create_additional_preposition_dependencies.
Qed.

(** In "Somebody needs insurance for a period." the pass returns and gives
    the verb an uncertain [prepposs] edge to the preposition, next to its two
    old edges. *)
Example insurance_for_a_period_augmented :
  let r := create_additional_preposition_dependencies_pass english
             doc_insurance_for_a_period in
  fst r = Ok tt
  /\ children_at (snd r) 1
     = [dep 1 0 "nsubj"; dep 1 2 "dobj";
        SemanticDependency.Build 1 3 (Some "prepposs") true]
  /\ children_at (snd r) 2 = [dep 2 3 "prep"].
Proof. vm_compute. repeat split; reflexivity. Qed.

(** ** Parsing *)

(** [len] counts characters, not the bytes of the encoding. *)
Example str_len_counts_characters :
  str_len "town" = 4%nat /\ str_len "grüne" = 5%nat /\ String.length "grüne" = 6%nat.
Proof. repeat split; reflexivity. Qed.

(** C6: a text with more characters than the configured maximum (1,000,000
    by default, for both languages) makes [spacy_parse] raise
    [DocumentTooBigError] without handing anything to the spaCy pipeline, so
    that no token is produced; for a text of at most that many characters
    the pipeline is called once, its outcome is the outcome of [spacy_parse],
    and [DocumentTooBigError] is not raised. *)
Theorem spacy_parse_size_bound :
  forall (self : Analyzer) (nlp : string -> Library Doc.t) (text : string),
    (Z.of_nat (str_len text) > SemanticAnalyzer._maximum_document_size self ->
     exists msg,
       spacy_parse self nlp text = (Raise (DocumentTooBigError msg), []))
    /\ (Z.of_nat (str_len text) <= SemanticAnalyzer._maximum_document_size self ->
        spacy_parse self nlp text = (from_library (nlp text), [text])
        /\ forall msg, fst (spacy_parse self nlp text) <> Raise (DocumentTooBigError msg))
    /\ (forall model debug coref,
           SemanticAnalyzer._maximum_document_size
             (EnglishSemanticAnalyzer model debug coref) = 1000000
           /\ SemanticAnalyzer._maximum_document_size
                (GermanSemanticAnalyzer model debug coref) = 1000000).
Proof.
  intros self nlp text. unfold spacy_parse. split; [|split].
  - intros Hbig. apply Z.gtb_gt in Hbig. rewrite Hbig. eexists. reflexivity.
  - intros Hsmall.
    destruct (Z.gtb_spec (Z.of_nat (str_len text))
                (SemanticAnalyzer._maximum_document_size self)) as [H|H]; [lia|].
    split; [reflexivity|]. intros msg. cbn.
    destruct (nlp text); cbn; discriminate.
  - intros model debug coref. split; reflexivity.
Qed.

Lemma spacy_parse_size_bound_witness :
  (exists msg,
      spacy_parse english (fun _ => Returns doc_the_town_is_old) oversized_text
      = (Raise (DocumentTooBigError msg), []))
  /\ spacy_parse english (fun _ => Returns doc_the_town_is_old) "The town is old."
     = (Ok doc_the_town_is_old, ["The town is old."])
  /\ spacy_parse german (fun _ => Returns doc_er_steht_auf) text_of_umlauts
     = (Ok doc_er_steht_auf, [text_of_umlauts]).
Proof.
  split; [|split].
  - apply (spacy_parse_size_bound english (fun _ => Returns doc_the_town_is_old)
             oversized_text).
    vm_compute. reflexivity.
  - apply (spacy_parse_size_bound english (fun _ => Returns doc_the_town_is_old)
             "The town is old.").
    vm_compute. discriminate.
  - apply (spacy_parse_size_bound german (fun _ => Returns doc_er_steht_auf)
             text_of_umlauts).
    vm_compute. discriminate.
Defined.

(** ** Serialization *)

Lemma set_holmes_set_holmes e e' tok :
  Token.set_holmes e (Token.set_holmes e' tok) = Token.set_holmes e tok.
Proof. reflexivity. Qed.

Lemma set_holmes_same tok : Token.set_holmes (Token.holmes tok) tok = tok.
Proof. now destruct tok. Qed.

Lemma set_extension_middle p e pre tok post hc :
  p = length pre ->
  set_extension p e (Doc.Build (pre ++ tok :: post)%list hc)
  = (Ok tt, Doc.Build (pre ++ Token.set_holmes e tok :: post)%list hc).
Proof.
  intros ->. unfold set_extension. cbn.
  rewrite list_lookup_middle by reflexivity.
  unfold Doc.set_tokens. cbn. do 2 f_equal.
  replace (length pre) with (length pre + 0)%nat by lia.
  now rewrite alter_app_r.
Qed.

Lemma token_at_middle p pre tok post hc :
  p = length pre ->
  token_at p (Doc.Build (pre ++ tok :: post)%list hc)
  = (Ok tok, Doc.Build (pre ++ tok :: post)%list hc).
Proof.
  intros ->. unfold token_at. cbn. now rewrite list_lookup_middle by reflexivity.
Qed.

Section SerializationProofs.

Variables Bytes Pickle : Type.
Variable to_bytes : Doc.t -> Library Bytes.
Variable from_bytes : Analyzer -> Bytes -> Library Doc.t.
Variable jsonpickle_encode : SerializedHolmesDocument Bytes -> Library Pickle.
Variable jsonpickle_decode : Pickle -> Library (SerializedHolmesDocument Bytes).

(** The first loop collects the extension values in token order and leaves
    [None] in their place. *)
Lemma detach_dictionaries_spec (ts : list Token.t) :
  forall pre hc dictionaries,
    detach_dictionaries (seq (length pre) (length ts)) dictionaries
      (Doc.Build (pre ++ ts)%list hc)
    = (Ok (dictionaries ++ map Token.holmes ts)%list,
       Doc.Build (pre ++ map (Token.set_holmes ExtNone) ts)%list hc).
Proof.
  induction ts as [|tok ts IH]; intros pre hc dictionaries; cbn.
  - now rewrite !app_nil_r.
  - rewrite (bind_ok_intro _ _ _ _ _ (token_at_middle _ pre tok ts hc eq_refl)).
    rewrite (bind_ok_intro _ _ _ _ _
               (set_extension_middle _ ExtNone pre tok ts hc eq_refl)).
    specialize (IH (pre ++ [Token.set_holmes ExtNone tok])%list hc
                  (dictionaries ++ [Token.holmes tok])%list).
    rewrite length_app in IH. cbn in IH.
    replace (length pre + 1)%nat with (S (length pre)) in IH by lia.
    rewrite <- !app_assoc in IH. cbn in IH. exact IH.
Qed.

(** The loop that attaches a list of extension values, one per token. *)
Lemma attach_loop_spec (all : list Extension) (ts : list Token.t) :
  forall dpre ds pre hc,
    all = (dpre ++ ds)%list -> length dpre = length pre -> length ds = length ts ->
    for_each (seq (length pre) (length ts))
      (fun p =>
         match all !! p with
         | Some e => set_extension p e
         | None => raise IndexError
         end)
      (Doc.Build (pre ++ ts)%list hc)
    = (Ok tt, Doc.Build (pre ++ zip_with Token.set_holmes ds ts)%list hc).
Proof.
  induction ts as [|tok ts IH]; intros dpre ds pre hc Hall Hlen Hds.
  - destruct ds; [|discriminate]. cbn. reflexivity.
  - destruct ds as [|e ds]; [discriminate|]. cbn [length seq for_each zip_with].
    assert (Hlook : all !! length pre = Some e).
    { rewrite Hall, <- Hlen. now apply list_lookup_middle. }
    rewrite Hlook.
    rewrite (bind_ok_intro _ _ _ _ _ (set_extension_middle _ e pre tok ts hc eq_refl)).
    specialize (IH (dpre ++ [e])%list ds (pre ++ [Token.set_holmes e tok])%list hc).
    rewrite !length_app in IH. cbn in IH.
    replace (length pre + 1)%nat with (S (length pre)) in IH by lia.
    rewrite <- !app_assoc in IH. cbn in IH. apply IH.
    + exact Hall.
    + lia.
    + cbn in Hds. lia.
Qed.

Lemma attach_dictionaries_spec ds ts hc :
  length ds = length ts ->
  attach_dictionaries ds (Doc.Build ts hc)
  = (Ok tt, Doc.Build (zip_with Token.set_holmes ds ts) hc).
Proof.
  intros Hlen. unfold attach_dictionaries. cbn.
  exact (attach_loop_spec ds ts [] ds [] hc eq_refl eq_refl Hlen).
Qed.

Lemma zip_with_reattach (ts : list Token.t) :
  zip_with Token.set_holmes (map Token.holmes ts)
    (map (Token.set_holmes ExtNone) ts) = ts.
Proof.
  induction ts as [|tok ts IH]; cbn; [reflexivity|].
  rewrite IH. f_equal. now destruct tok.
Qed.

Lemma to_serialized_string_unfold self doc :
  to_serialized_string Bytes Pickle to_bytes jsonpickle_encode self doc
  = match to_bytes (detached doc) with
    | Returns bytes =>
        (from_library
           (jsonpickle_encode
              (Build_SerializedHolmesDocument bytes (map Token.holmes (Doc.tokens doc))
                 (SemanticAnalyzer.model self))),
         doc)
    | LibraryRaises msg => (Raise (LibraryError msg), detached doc)
    end.
Proof.
  destruct doc as [ts hc]. unfold to_serialized_string, detached. cbn [Doc.tokens Doc.has_coref].
  unfold bind at 1. cbn [Doc.len Doc.tokens].
  pose proof (detach_dictionaries_spec ts [] hc []) as Hd. cbn in Hd.
  change (Doc.len {| Doc.tokens := ts; Doc.has_coref := hc |}) with (length ts).
  rewrite Hd.
  unfold bind at 1. destruct (to_bytes _) as [bytes|msg]; cbn [from_library]; [|reflexivity].
  rewrite (bind_ok_intro _ _ _ _ _
             (attach_dictionaries_spec (map Token.holmes ts)
                (map (Token.set_holmes ExtNone) ts) hc
                ltac:(now rewrite !length_map))).
  rewrite zip_with_reattach. reflexivity.
Qed.

End SerializationProofs.

(** C10: [to_serialized_string] returns whenever [Doc.to_bytes] and
    [jsonpickle.encode] return, and when it returns, the document is what it
    was before the call: every token has its extension value back. *)
Theorem to_serialized_string_restores_document :
  forall (Bytes Pickle : Type) (to_bytes : Doc.t -> Library Bytes)
         (jsonpickle_encode : SerializedHolmesDocument Bytes -> Library Pickle)
         (self : Analyzer) (doc : Doc.t),
    (forall b s,
        to_bytes (detached doc) = Returns b ->
        jsonpickle_encode
          (Build_SerializedHolmesDocument b (map Token.holmes (Doc.tokens doc))
             (SemanticAnalyzer.model self)) = Returns s ->
        to_serialized_string Bytes Pickle to_bytes jsonpickle_encode self doc
        = (Ok s, doc))
    /\ (forall doc' s,
          to_serialized_string Bytes Pickle to_bytes jsonpickle_encode self doc
          = (Ok s, doc') ->
          doc' = doc
          /\ forall p, (Token.holmes <$> Doc.tokens doc' !! p)
                       = (Token.holmes <$> Doc.tokens doc !! p)).
Proof.
  intros Bytes Pickle to_bytes jsonpickle_encode self doc. split.
  - intros b s Hb Hs. rewrite to_serialized_string_unfold, Hb, Hs. reflexivity.
  - intros doc' s H. rewrite to_serialized_string_unfold in H.
    destruct (to_bytes _); [|discriminate].
    injection H as _ <-. auto.
Qed.

Lemma to_serialized_string_restores_document_witness :
  to_serialized_string nat (SerializedHolmesDocument nat) toy_to_bytes toy_encode
    english doc_the_town_is_old
  = (Ok pickled_the_town_is_old, doc_the_town_is_old)
  /\ snd (to_serialized_string nat (SerializedHolmesDocument nat) toy_to_bytes
            toy_encode english doc_the_town_is_old)
     = doc_the_town_is_old.
Proof.
  destruct (to_serialized_string_restores_document nat (SerializedHolmesDocument nat)
              toy_to_bytes toy_encode english doc_the_town_is_old) as [Hruns Hpost].
  assert (Hrun := Hruns 5%nat pickled_the_town_is_old eq_refl eq_refl).
  split; [exact Hrun|].
  destruct (Hpost _ _ Hrun) as [_ _]. rewrite Hrun. reflexivity.
Defined.

(** When [Doc.to_bytes] raises, so does the call, before the second loop:
    the extensions are left at [None]. *)
Lemma to_serialized_string_to_bytes_raises
    (Bytes Pickle : Type) (to_bytes : Doc.t -> Library Bytes)
    (jsonpickle_encode : SerializedHolmesDocument Bytes -> Library Pickle)
    (self : Analyzer) (doc : Doc.t) (msg : string) :
  to_bytes (detached doc) = LibraryRaises msg ->
  to_serialized_string Bytes Pickle to_bytes jsonpickle_encode self doc
  = (Raise (LibraryError msg), detached doc).
Proof. intros H. now rewrite to_serialized_string_unfold, H. Qed.

Lemma lookup_zip_with_set_holmes (ds : list Extension) (ts : list Token.t) p :
  length ds = length ts ->
  (Token.holmes <$> zip_with Token.set_holmes ds ts !! p) = ds !! p.
Proof.
  revert ts p. induction ds as [|e ds IH]; intros [|t ts] p Hlen; try discriminate.
  - reflexivity.
  - destruct p as [|p]; cbn; [reflexivity|]. apply IH. cbn in Hlen. lia.
Qed.

(** C7: assume that jsonpickle decodes what it encoded and that spaCy reads
    back, from the bytes of a document, a document with as many tokens.  Then
    a string made by [to_serialized_string] is turned by
    [from_serialized_string], on an analyzer with the same model, into a
    document whose tokens carry the original dictionaries; on an analyzer
    with another model the call raises [WrongModelDeserializationError] and
    gives no document. *)
Theorem serialization_round_trip :
  forall (Bytes Pickle : Type) (to_bytes : Doc.t -> Library Bytes)
         (from_bytes : Analyzer -> Bytes -> Library Doc.t)
         (jsonpickle_encode : SerializedHolmesDocument Bytes -> Library Pickle)
         (jsonpickle_decode : Pickle -> Library (SerializedHolmesDocument Bytes)),
    (forall sd s, jsonpickle_encode sd = Returns s -> jsonpickle_decode s = Returns sd) ->
    (forall self' doc b,
        to_bytes doc = Returns b ->
        exists doc2, from_bytes self' b = Returns doc2 /\ Doc.len doc2 = Doc.len doc) ->
    forall (self : Analyzer) (doc doc' : Doc.t) (s : Pickle),
      to_serialized_string Bytes Pickle to_bytes jsonpickle_encode self doc = (Ok s, doc') ->
      (forall self',
          SemanticAnalyzer.model self' = SemanticAnalyzer.model self ->
          exists doc2,
            from_serialized_string Bytes Pickle from_bytes jsonpickle_decode self' s
            = Ok doc2
            /\ Doc.len doc2 = Doc.len doc
            /\ forall p, (Token.holmes <$> Doc.tokens doc2 !! p)
                         = (Token.holmes <$> Doc.tokens doc !! p))
      /\ (forall self',
             SemanticAnalyzer.model self' <> SemanticAnalyzer.model self ->
             from_serialized_string Bytes Pickle from_bytes jsonpickle_decode self' s
             = Raise (WrongModelDeserializationError (SemanticAnalyzer.model self))).
Proof.
  intros Bytes Pickle to_bytes from_bytes enc dec Hjson Hspacy self doc doc' s H.
  rewrite to_serialized_string_unfold in H.
  destruct (to_bytes (detached doc)) as [b|msg] eqn:Hb; [|discriminate].
  destruct (enc _) as [s0|msg] eqn:Henc; [|discriminate].
  cbn in H. injection H as <- <-.
  apply Hjson in Henc. split.
  - intros self' Hmodel.
    destruct (Hspacy self' _ _ Hb) as ([ts2 hc2] & Hfrom & Hlen).
    unfold from_serialized_string. rewrite Henc. cbn [from_library _model].
    rewrite Hmodel, String.eqb_refl. cbn [negb].
    unfold holmes_document. cbn [_serialized_spacy_document _dictionaries].
    rewrite Hfrom. cbn [from_library].
    assert (Hl : length (map Token.holmes (Doc.tokens doc)) = length ts2).
    { rewrite length_map. unfold Doc.len, detached in Hlen. cbn in Hlen.
      now rewrite length_map in Hlen. }
    rewrite (attach_dictionaries_spec _ _ hc2 Hl).
    eexists. split; [reflexivity|]. split.
    + unfold Doc.len. cbn. rewrite length_zip_with. rewrite Hl.
      unfold Doc.len, detached in Hlen. cbn in Hlen. rewrite length_map in Hlen. lia.
    + intros p. cbn [Doc.tokens]. rewrite lookup_zip_with_set_holmes by exact Hl.
      now rewrite list_lookup_fmap.
  - intros self' Hmodel.
    unfold from_serialized_string. rewrite Henc. cbn [from_library _model].
    destruct (String.eqb_spec (SemanticAnalyzer.model self) (SemanticAnalyzer.model self'))
      as [E|E]; [congruence | reflexivity].
Qed.

Lemma serialization_round_trip_witness :
  (exists doc2,
      from_serialized_string nat (SerializedHolmesDocument nat) toy_from_bytes toy_decode
        (EnglishSemanticAnalyzer "en_core_web_lg" true false) pickled_the_town_is_old
      = Ok doc2
      /\ Doc.len doc2 = Doc.len doc_the_town_is_old
      /\ forall p, (Token.holmes <$> Doc.tokens doc2 !! p)
                   = (Token.holmes <$> Doc.tokens doc_the_town_is_old !! p))
  /\ from_serialized_string nat (SerializedHolmesDocument nat) toy_from_bytes toy_decode
       german pickled_the_town_is_old
     = Raise (WrongModelDeserializationError "en_core_web_lg").
Proof.
  destruct (serialization_round_trip nat (SerializedHolmesDocument nat)
              toy_to_bytes toy_from_bytes toy_encode toy_decode) with
    (self := english) (doc := doc_the_town_is_old) (doc' := doc_the_town_is_old)
    (s := pickled_the_town_is_old) as [Hsame Hother].
  - intros sd s E. injection E as <-. reflexivity.
  - intros self' doc b E. injection E as <-. eexists. split; [reflexivity|].
    unfold Doc.len. cbn. apply repeat_length.
  - vm_compute. reflexivity.
  - split.
    + apply Hsame. reflexivity.
    + apply Hother. cbn. discriminate.
Defined.
(** ** The default list of the nested function of the German task *)

(** The nested function itself does depend on the list it is handed: called
    on the third verb, it returns the second verb when [visited] is fresh and
    the third verb itself when the list already holds the second. *)
Example find_target_reads_visited :
  let limits := Build_Limits 1000 1000 1000 in
  fst (find_target_tokens_and_dependency limits 2 {| visited_default := [] |}
         doc_three_verbs)
  = Ok ([1%nat], "sb", {| visited_default := [2; 1]%nat |})
  /\ fst (find_target_tokens_and_dependency limits 2
            {| visited_default := [0; 1]%nat |} doc_three_verbs)
     = Ok ([2%nat], "sb", {| visited_default := [0; 1; 2]%nat |}).
Proof. vm_compute. split; reflexivity. Qed.

(** The pipeline runs to its end on "Er steht auf." and removes the edge
    from the verb to its separated particle. *)
Example er_steht_auf_enriched :
  let r := holmes_parse german (Build_Limits 1000 1000 1000) plain_lemma
             (German_set_negation (Build_Limits 1000 1000 1000)) no_rewrite no_rewrite
             (German_perform_language_specific_tasks (Build_Limits 1000 1000 1000))
             {| visited_default := [] |} doc_er_steht_auf in
  is_ok (fst r) = true
  /\ children_at (snd r) 1 = [dep 1 0 "sb"].
Proof. vm_compute. split; reflexivity. Qed.

(** ** The coordination pass runs to its end on well-formed documents *)

Section Succeeds.

Variable Inv : Doc.t -> Prop.

Lemma succeeds_ret {A} (a : A) (Q : A -> Prop) : Q a -> succeeds Inv (ret a) Q.
Proof. intros HQ doc HI. exists a, doc. auto. Qed.

Lemma succeeds_bind {A B} (m : M A) (k : A -> M B) (Q : A -> Prop) (Q' : B -> Prop) :
  succeeds Inv m Q -> (forall a, Q a -> succeeds Inv (k a) Q') ->
  succeeds Inv (bind m k) Q'.
Proof.
  intros Hm Hk doc HI. destruct (Hm doc HI) as (a & doc1 & E & HI1 & HQ).
  destruct (Hk a HQ doc1 HI1) as (b & doc2 & E2 & HI2 & HQ2).
  exists b, doc2. rewrite (bind_ok_intro _ _ _ _ _ E). auto.
Qed.

Lemma succeeds_weaken {A} (m : M A) (Q Q' : A -> Prop) :
  succeeds Inv m Q -> (forall a, Q a -> Q' a) -> succeeds Inv m Q'.
Proof.
  intros Hm HQ doc HI. destruct (Hm doc HI) as (a & doc1 & E & HI1 & Ha).
  exists a, doc1. auto.
Qed.

Lemma succeeds_when (b : bool) (m : M unit) :
  (b = true -> succeeds Inv m (fun _ => True)) ->
  succeeds Inv (when b m) (fun _ => True).
Proof. destruct b; cbn; [auto | intros _; now apply succeeds_ret]. Qed.

Lemma succeeds_for_each {A} (l : list A) (body : A -> M unit) :
  (forall x, In x l -> succeeds Inv (body x) (fun _ => True)) ->
  succeeds Inv (for_each l body) (fun _ => True).
Proof.
  induction l as [|x l IH]; intros H; cbn.
  - now apply succeeds_ret.
  - eapply succeeds_bind; [apply H; now left|].
    intros _ _. apply IH. intros y Hy. apply H. now right.
Qed.

End Succeeds.

Section CoordinationTotal.

Variable self : Analyzer.
Variable n : nat.

Let Inv := coordinated n.

Lemma coordinated_dict doc p :
  Inv doc -> (p < n)%nat -> exists h, dict_at doc p = Some h /\ dict_ok n h.
Proof.
  intros [HL H] Hp. rewrite <- HL in Hp.
  destruct (lookup_lt_is_Some_2 (Doc.tokens doc) p Hp) as [tok Htok].
  destruct (H p tok Htok) as (h & Hh & Hok).
  exists h. split; [|exact Hok]. unfold dict_at. now rewrite Htok, Hh.
Qed.

Lemma coordinated_put_dict doc p h0 h :
  Inv doc -> dict_at doc p = Some h0 -> dict_ok n h -> Inv (put_dict p h doc).
Proof.
  intros [HL H] Hd Hok. split; [now rewrite len_put_dict|].
  intros q tok Hq. unfold put_dict in Hq. cbn in Hq.
  destruct (decide (p = q)) as [<-|Hne].
  - rewrite list_lookup_alter_eq in Hq.
    destruct (Doc.tokens doc !! p) as [tok0|]; [|discriminate].
    injection Hq as <-. exists h. auto.
  - rewrite list_lookup_alter_ne in Hq by auto. eauto.
Qed.

Lemma succeeds_doc_getitem i p :
  py_index n i = Some p -> succeeds Inv (doc_getitem i) (fun q => q = p).
Proof.
  intros Hi doc HI. exists p, doc. unfold doc_getitem.
  assert (HL : Doc.len doc = n) by apply HI. rewrite HL, Hi. auto.
Qed.

Lemma succeeds_holmes_of p :
  (p < n)%nat -> succeeds Inv (holmes_of p) (dict_ok n).
Proof.
  intros Hp doc HI. destruct (coordinated_dict doc p HI Hp) as (h & Hd & Hok).
  exists h, doc. rewrite (holmes_of_dict _ _ _ Hd). auto.
Qed.

Lemma succeeds_update_holmes p f :
  (p < n)%nat -> (forall h, dict_ok n h -> dict_ok n (f h)) ->
  succeeds Inv (update_holmes p f) (fun _ => True).
Proof.
  intros Hp Hf doc HI. destruct (coordinated_dict doc p HI Hp) as (h & Hd & Hok).
  exists tt, (put_dict p (f h) doc). rewrite (update_holmes_ok _ _ _ _ Hd).
  split; [reflexivity|]. split; [|exact I].
  eapply coordinated_put_dict; eauto.
Qed.

Lemma succeeds_append_child p d :
  (p < n)%nat -> edge_ok n d -> succeeds Inv (append_child p d) (fun _ => True).
Proof.
  intros Hp Hd. apply succeeds_update_holmes; [exact Hp|].
  intros h [Hc Hs]. split; [|exact Hs]. cbn. apply Forall_app. auto.
Qed.

Lemma sibling_index rs :
  0 <= rs < Z.of_nat n -> py_index n rs = Some (Z.to_nat rs) /\ (Z.to_nat rs < n)%nat.
Proof.
  intros H. split; [|lia]. unfold py_index.
  destruct (Z.leb_spec 0 rs); [|lia]. destruct (Z.ltb_spec rs (Z.of_nat n)); [|lia].
  reflexivity.
Qed.

Lemma edge_index d :
  edge_ok n d -> exists c, py_index n (SemanticDependency.child_index d) = Some c
                           /\ (c < n)%nat.
Proof.
  intros [[c Hc] _]. exists c. split; [exact Hc|]. eapply py_index_lt; eauto.
Qed.

Lemma redirected_index_ok c rs :
  is_Some (py_index n c) -> c < 0 -> 0 <= rs < Z.of_nat n ->
  is_Some (py_index n (0 - (rs + 1))).
Proof.
  intros _ _ Hrs. unfold py_index.
  destruct (Z.leb_spec 0 (0 - (rs + 1))); [lia|].
  destruct (Z.leb_spec 0 (Z.of_nat n + (0 - (rs + 1)))); [eauto | lia].
Qed.

Lemma succeeds_copy_to_child_sibling token d crs :
  (token < n)%nat -> edge_ok n d -> 0 <= crs < Z.of_nat n ->
  succeeds Inv (copy_to_child_sibling token d crs) (fun _ => True).
Proof.
  intros Ht Hd Hcrs. unfold copy_to_child_sibling.
  eapply succeeds_bind; [now apply succeeds_holmes_of|]. intros h _.
  apply succeeds_when. intros _.
  eapply succeeds_bind; [now apply succeeds_holmes_of|]. intros h2 _.
  apply succeeds_when. intros Hcond. apply andb_prop in Hcond as [Hne _].
  apply negb_true_iff, Z.eqb_neq in Hne.
  set (cita := if SemanticDependency.child_index d <? 0 then 0 - (crs + 1) else crs) in *.
  assert (Hedge : edge_ok n (SemanticDependency.Build (Z.of_nat token) cita
                               (SemanticDependency.label d)
                               (SemanticDependency.is_uncertain d))).
  { destruct Hd as [Hin Hlab]. unfold cita. split; cbn.
    - destruct (Z.ltb_spec (SemanticDependency.child_index d) 0).
      + eapply redirected_index_ok; eauto.
      + destruct (sibling_index crs Hcrs) as [-> _]. eauto.
    - destruct (Z.ltb_spec (SemanticDependency.child_index d) 0); [auto | lia]. }
  rewrite init_ok; [|apply Hedge | exact Hne].
  intros doc HI. unfold lift, bind.
  now apply succeeds_append_child.
Qed.

Lemma succeeds_copy_to_sibling d rs :
  edge_ok n d -> 0 <= rs < Z.of_nat n ->
  succeeds Inv (copy_to_sibling self d rs) (fun _ => True).
Proof.
  intros Hd Hrs. unfold copy_to_sibling.
  destruct (sibling_index rs Hrs) as [Hidx Hlt].
  eapply succeeds_bind; [apply succeeds_doc_getitem; exact Hidx|]. intros a ->.
  eapply succeeds_bind; [now apply succeeds_holmes_of|]. intros hs _.
  apply succeeds_when. intros Hcond. apply andb_prop in Hcond as [_ Hne].
  apply negb_true_iff, Z.eqb_neq in Hne.
  rewrite init_ok; [|apply Hd | exact Hne].
  intros doc HI. unfold lift, bind.
  apply succeeds_append_child; auto.
Qed.

Lemma succeeds_copy_dependency token d :
  (token < n)%nat -> edge_ok n d ->
  succeeds Inv (copy_dependency self token d) (fun _ => True).
Proof.
  intros Ht Hd. unfold copy_dependency.
  destruct (edge_index d Hd) as (c & Hc & Hclt).
  eapply succeeds_bind.
  { eapply succeeds_bind; [apply succeeds_doc_getitem; exact Hc|]. intros c' ->.
    eapply succeeds_bind; [now apply succeeds_holmes_of|]. intros hc [_ Hs].
    apply succeeds_for_each. intros crs Hcrs.
    apply succeeds_copy_to_child_sibling; auto.
    rewrite Forall_forall in Hs. apply Hs. now apply list_elem_of_In. }
  intros _ _.
  eapply succeeds_bind; [now apply succeeds_holmes_of|]. intros h [_ Hs].
  apply succeeds_for_each. intros rs Hrs. apply filter_In in Hrs as [Hrs _].
  apply succeeds_copy_to_sibling; auto.
  rewrite Forall_forall in Hs. apply Hs. now apply list_elem_of_In.
Qed.

Lemma succeeds_copy_any_sibling_info token :
  (token < n)%nat -> succeeds Inv (_copy_any_sibling_info self token) (fun _ => True).
Proof.
  intros Ht. unfold _copy_any_sibling_info.
  eapply succeeds_bind.
  { eapply succeeds_bind; [now apply succeeds_holmes_of|]. intros h [_ Hs].
    apply succeeds_when. intros _. apply succeeds_for_each. intros rs Hrs.
    rewrite Forall_forall in Hs.
    destruct (sibling_index rs (Hs rs ltac:(now apply list_elem_of_In))) as [Hidx Hlt].
    eapply succeeds_bind; [apply succeeds_doc_getitem; exact Hidx|]. intros p ->.
    apply succeeds_update_holmes; [exact Hlt|]. intros h0 Hok. exact Hok. }
  intros _ _.
  eapply succeeds_bind; [now apply succeeds_holmes_of|]. intros h [Hc _].
  apply succeeds_for_each. intros d Hd.
  apply succeeds_copy_dependency; [exact Ht|].
  rewrite Forall_forall in Hc. apply Hc. now apply list_elem_of_In.
Qed.

Lemma succeeds_copy_any_sibling_info_pass :
  succeeds Inv (copy_any_sibling_info_pass self) (fun _ => True).
Proof.
  intros doc HI. unfold copy_any_sibling_info_pass.
  assert (HL : Doc.len doc = n) by apply HI. rewrite HL.
  apply (succeeds_for_each Inv (seq 0 n) (_copy_any_sibling_info self)); [|exact HI].
  intros token Ht. apply in_seq in Ht.
  apply succeeds_copy_any_sibling_info. lia.
Qed.

End CoordinationTotal.

Lemma keeps_copy_any_sibling_info_pass self :
  keeps (grows (fun _ _ => True)) (copy_any_sibling_info_pass self).
Proof.
  intros doc. unfold copy_any_sibling_info_pass.
  apply keeps_for_each; try typeclasses eauto.
  intros b. apply keeps_any_copy_any_sibling_info.
Qed.

(** A loop that returns has come to every element of its list. *)
Lemma for_each_reaches {A} (R : Doc.t -> Doc.t -> Prop)
    `{!Reflexive R, !Transitive R} (l : list A) (body : A -> M unit) (x : A) :
  (forall y, keeps R (body y)) ->
  In x l ->
  forall doc doc', for_each l body doc = (Ok tt, doc') ->
    exists s s',
      reaches l body doc x s /\ R doc s /\ body x s = (Ok tt, s') /\ R s' doc'.
Proof.
  intros Hk. induction l as [|y l IH]; intros Hx doc doc' Hrun; [destruct Hx|].
  cbn [for_each] in Hrun. apply bind_ok in Hrun as ([] & d1 & Hy & Hrest).
  assert (H01 : R doc d1).
  { specialize (Hk y doc). now rewrite Hy in Hk. }
  destruct Hx as [->|Hx].
  - exists doc, d1. split; [exists [], l; auto|]. split; [reflexivity|].
    split; [exact Hy|].
    pose proof (keeps_for_each R l body Hk d1) as Hg. now rewrite Hrest in Hg.
  - destruct (IH Hx d1 doc' Hrest) as (s & s' & (before & after & -> & Hb) & Hs & Hx' & Hs').
    exists s, s'. split.
    + exists (y :: before), after. split; [reflexivity|].
      cbn [for_each]. now rewrite (bind_ok_intro _ _ _ _ _ Hy).
    + split; [etransitivity; eauto|]. auto.
Qed.

(** What the body of the second inner loop does in the document on which it
    runs: it leaves the document as it is when the sibling carries an edge
    with the label or an edge to the child, and appends the copy otherwise. *)
Lemma copy_to_sibling_step self d rs s s' :
  copy_to_sibling self d rs s = (Ok tt, s') ->
  label_in (SemanticDependency.label d) (SemanticAnalyzer._conjunction_deps self) = false ->
  rs <> SemanticDependency.child_index d ->
  exists a ha,
    py_index (Doc.len s) rs = Some a
    /\ dict_at s a = Some ha
    /\ ((HolmesDictionary.has_dependency_with_label ha (SemanticDependency.label d) = true
         /\ s' = s)
        \/ (HolmesDictionary.has_dependency_with_child_index ha
              (SemanticDependency.child_index d) = true
            /\ s' = s)
        \/ s' = put_dict a
                  (HolmesDictionary.append_child
                     (SemanticDependency.Build rs (SemanticDependency.child_index d)
                        (SemanticDependency.label d)
                        (SemanticAnalyzer._mark_child_dependencies_copied_to_siblings_as_uncertain self))
                     ha) s).
Proof.
  unfold copy_to_sibling. intros H Hconj Hne.
  apply bind_ok in H as (a & doc1 & Ha & H).
  apply doc_getitem_ok in Ha as [-> Ha].
  apply bind_ok in H as (hs & doc1 & Hhs & H).
  apply holmes_of_ok in Hhs as [-> Hhs].
  exists a, hs. split; [exact Ha|]. split; [exact Hhs|].
  rewrite filter_length_zero, Hconj in H.
  destruct (Z.eqb_spec rs (SemanticDependency.child_index d)) as [Heq|_];
    [contradiction|].
  unfold HolmesDictionary.has_dependency_with_label.
  destruct (existsb _ (HolmesDictionary.children hs)) eqn:Hlab in H |- *.
  { cbn in H. injection H as <-. left. auto. }
  destruct (HolmesDictionary.has_dependency_with_child_index hs
              (SemanticDependency.child_index d)) eqn:Hch in H |- *.
  { cbn in H. injection H as <-. right. left. auto. }
  cbn [when negb andb] in H. apply bind_ok in H as (dep & doc1 & Hdep & H).
  unfold lift in Hdep. injection Hdep as Hdep <-.
  apply init_ok_eq in Hdep. subst dep.
  unfold append_child in H. rewrite (update_holmes_ok _ _ _ _ Hhs) in H.
  injection H as <-. right. right. reflexivity.
Qed.

(** C1 (as the code has it): on a document whose dictionaries refer to
    tokens of the document the coordination pass returns.  When it returns,
    take an edge [(B, C, L)] that [B] had before the pass, with [L] outside
    the coordination labels, and a righthand sibling [A] of [B] other than
    [C], and take the document at the moment at which the pass considers the
    edge for [A].  Then [A] ends the pass with an edge to [C], unless [A]
    carries an edge labelled [L] at that moment; the edge to [C] is one that
    [A] carries at that moment, or it is the copy from [A] to [C] with the
    label [L] and the language's
    [_mark_child_dependencies_copied_to_siblings_as_uncertain] flag, which
    then follows the edges that [A] carries at that moment.  In each case [A]
    ends the pass with an edge to [C] or with an edge labelled [L].  And an
    edge that the call for one token appends to another token carries the
    language's flag and a label outside the coordination labels, the older
    edges of every token staying in place. *)
Theorem copy_any_sibling_info_pass_serves_siblings :
  forall (self : Analyzer) (doc : Doc.t),
    (coordinated (Doc.len doc) doc ->
     exists doc', copy_any_sibling_info_pass self doc = (Ok tt, doc'))
    /\ (forall doc',
          copy_any_sibling_info_pass self doc = (Ok tt, doc') ->
          forall b hb d rs,
            dict_at doc b = Some hb ->
            In d (HolmesDictionary.children hb) ->
            In rs (HolmesDictionary.righthand_siblings hb) ->
            label_in (SemanticDependency.label d)
                     (SemanticAnalyzer._conjunction_deps self) = false ->
            rs <> SemanticDependency.child_index d ->
            exists a s ha ha',
              py_index (Doc.len doc) rs = Some a
              /\ considered_at self doc b d rs s
              /\ dict_at s a = Some ha
              /\ dict_at doc' a = Some ha'
              /\ (HolmesDictionary.has_dependency_with_label ha
                    (SemanticDependency.label d) = true
                  \/ (HolmesDictionary.has_dependency_with_child_index ha'
                        (SemanticDependency.child_index d) = true
                      /\ (HolmesDictionary.has_dependency_with_child_index ha
                            (SemanticDependency.child_index d) = true
                          \/ exists later,
                               HolmesDictionary.children ha'
                               = (HolmesDictionary.children ha
                                  ++ SemanticDependency.Build rs
                                       (SemanticDependency.child_index d)
                                       (SemanticDependency.label d)
                                       (SemanticAnalyzer._mark_child_dependencies_copied_to_siblings_as_uncertain self)
                                     :: later)%list)))
              /\ has_child_or_label doc' a d)
    /\ (forall b doc1,
          grows (copied_edge self b) doc1 (snd (_copy_any_sibling_info self b doc1))).
Proof.
  intros self doc. split; [|split].
  - intros Hwf.
    destruct (succeeds_copy_any_sibling_info_pass self (Doc.len doc) doc Hwf)
      as ([] & doc' & Hrun & _). eauto.
  - intros doc' Hrun b hb d rs Hb Hd Hrs Hconj Hne.
    set (R := grows (fun (_ : nat) (_ : SemDep) => True)).
    pose proof Hrun as Hpass. unfold copy_any_sibling_info_pass in Hpass.
    (* the loop over the tokens comes to [b] *)
    destruct (for_each_reaches R (seq 0 (Doc.len doc)) (_copy_any_sibling_info self) b
                (keeps_any_copy_any_sibling_info self)
                ltac:(apply in_seq; apply dict_at_lt in Hb; lia) doc doc' Hpass)
      as (s0 & s0' & Hreach0 & H0 & Hcall & H0').
    unfold _copy_any_sibling_info in Hcall.
    apply bind_ok in Hcall as ([] & s1 & Hflag & Hcall).
    assert (H01 : R s0 s1).
    { pose proof (keeps_any_propagate_or_flag b s0) as K. now rewrite Hflag in K. }
    apply bind_ok in Hcall as (h1 & s1' & Hh1 & Hdeps).
    apply holmes_of_ok in Hh1 as [-> Hh1].
    assert (Hdoc1 : R doc s1) by (etransitivity; eauto).
    destruct Hdoc1 as [Hlen1 Hg1].
    destruct (Hg1 b hb Hb) as (h1' & new1 & E1 & Hsib1 & Hch1 & _).
    assert (h1' = h1) by congruence. subst h1'.
    (* the loop over the dependencies comes to [d] *)
    destruct (for_each_reaches R (HolmesDictionary.children h1) (copy_dependency self b) d
                (keeps_any_copy_dependency self b)
                ltac:(rewrite Hch1; apply in_or_app; now left) s1 s0' Hdeps)
      as (s2 & s2' & Hreach2 & H12 & Hdep & H2').
    unfold copy_dependency in Hdep.
    apply bind_ok in Hdep as ([] & s3 & Hfirst & Hdep).
    assert (H23 : R s2 s3).
    { pose proof (keeps_any_copy_to_child_siblings b d s2) as K.
      now rewrite Hfirst in K. }
    apply bind_ok in Hdep as (h3 & s3' & Hh3 & Hsibs).
    apply holmes_of_ok in Hh3 as [-> Hh3].
    assert (H13 : R s1 s3) by (etransitivity; eauto).
    destruct H13 as [Hlen3 Hg3].
    destruct (Hg3 b h1 Hh1) as (h3' & new3 & E3 & Hsib3 & _).
    assert (h3' = h3) by congruence. subst h3'.
    (* the second inner loop comes to [rs] *)
    assert (Hin : In rs (List.filter
                           (fun righthand_sibling =>
                              negb (righthand_sibling
                                    =? SemanticDependency.child_index d))
                           (HolmesDictionary.righthand_siblings h3))).
    { apply filter_In. split; [now rewrite Hsib3, Hsib1|].
      apply negb_true_iff. now apply Z.eqb_neq. }
    destruct (for_each_reaches R _ (copy_to_sibling self d) rs
                (keeps_any_copy_to_sibling self d) Hin s3 s2' Hsibs)
      as (s & s' & Hreach & H3s & Hstep & Hs').
    assert (Hdocs : R doc s).
    { etransitivity; [exact H0|]. etransitivity; [exact H01|].
      etransitivity; [exact H12|]. etransitivity; [exact H23|]. exact H3s. }
    assert (Hsdoc' : R s' doc').
    { etransitivity; [exact Hs'|]. etransitivity; [exact H2'|]. exact H0'. }
    destruct (copy_to_sibling_step self d rs s s' Hstep Hconj Hne)
      as (a & ha & Ha & Hha & Hcases).
    assert (Hserved : has_child_or_label doc' a d).
    { pose proof (keeps_copy_any_sibling_info_pass self doc) as [Hlen _].
      rewrite Hrun in Hlen. cbn in Hlen.
      destruct (copy_any_sibling_info_pass_post self doc doc' Hrun b hb d rs Hb Hd Hrs)
        as [H | [H | (a' & Ha' & HQ)]]; [congruence | contradiction |].
      destruct Hdocs as [Hlens _]. rewrite Hlens in Ha.
      rewrite Hlen in Ha'. assert (a' = a) by congruence. now subst a'. }
    assert (Hconsidered : considered_at self doc b d rs s).
    { exists s0, s1, h1, s2, s3, h3. repeat split; assumption. }
    destruct Hdocs as [Hlens _]. rewrite Hlens in Ha.
    destruct Hcases as [[Hlab ->] | [[Hch ->] | ->]].
    + destruct Hsdoc' as [_ Hg]. destruct (Hg a ha Hha) as (ha' & new & Hha' & _).
      exists a, s, ha, ha'. repeat split; auto.
    + destruct Hsdoc' as [_ Hg].
      destruct (Hg a ha Hha) as (ha' & new & Hha' & _ & Hchildren & _).
      exists a, s, ha, ha'. repeat split; auto. right. split; [|now left].
      unfold HolmesDictionary.has_dependency_with_child_index in *.
      rewrite Hchildren, existsb_app, Hch. reflexivity.
    + destruct Hsdoc' as [_ Hg].
      destruct (Hg a _ (dict_at_put_dict_eq _ _ _ _ Hha))
        as (ha' & new & Hha' & _ & Hchildren & _).
      cbn in Hchildren. rewrite <- app_assoc in Hchildren. cbn in Hchildren.
      exists a, s, ha, ha'. repeat split; auto. right. split; [|right; eauto].
      unfold HolmesDictionary.has_dependency_with_child_index.
      rewrite Hchildren, existsb_app. cbn. rewrite Z.eqb_refl.
      now rewrite orb_true_r.
  - intros b doc1. apply keeps_copy_any_sibling_info.
Qed.

Lemma doc_big_red_dog_coordinated : coordinated 8 doc_big_red_dog.
Proof.
  split; [reflexivity|]. intros p tok Hp.
  do 8 (destruct p as [|p];
        [ injection Hp as <-; eexists; split; [reflexivity|];
          split; cbn; repeat constructor; cbn;
          try (eexists; reflexivity); try discriminate; try lia |]).
  discriminate.
Qed.

Lemma copy_any_sibling_info_pass_serves_siblings_witness :
  exists doc',
    copy_any_sibling_info_pass english doc_big_red_dog = (Ok tt, doc')
    /\ exists a s ha ha',
         py_index 8 5 = Some a
         /\ considered_at english doc_big_red_dog 3 (dep 3 1 "amod") 5 s
         /\ dict_at s a = Some ha
         /\ dict_at doc' a = Some ha'
         /\ (HolmesDictionary.has_dependency_with_label ha (Some "amod") = true
             \/ (HolmesDictionary.has_dependency_with_child_index ha' 1 = true
                 /\ (HolmesDictionary.has_dependency_with_child_index ha 1 = true
                     \/ exists later,
                          HolmesDictionary.children ha'
                          = (HolmesDictionary.children ha
                             ++ SemanticDependency.Build 5 1 (Some "amod") true
                                :: later)%list)))
         /\ has_child_or_label doc' a (dep 3 1 "amod").
Proof.
  destruct (copy_any_sibling_info_pass_serves_siblings english doc_big_red_dog)
    as (Hruns & Hpost & _).
  destruct (Hruns doc_big_red_dog_coordinated) as [doc' Hrun].
  exists doc'. split; [exact Hrun|].
  apply (Hpost doc' Hrun 3%nat
           (HolmesDictionary.Build 3 "dog"
              [dep 3 1 "amod"; dep 3 2 "amod"; dep 3 4 "cc"; dep 3 5 "conj"] [5]
              false (Some false) (Some true))
           (dep 3 1 "amod") 5).
  - reflexivity.
  - cbn. auto.
  - cbn. auto.
  - reflexivity.
  - cbn. lia.
Defined.

(** C1, counterexample to the strong form: in "The big red dog and cat ran."
    the first [amod] edge of [dog] is copied onto [cat], and the copy then
    blocks the second one, so that [cat] ends the pass without an edge to
    [red] although it had no edge at all before the pass. *)
Lemma siblings_receive_every_edge_fails :
  ~ siblings_receive_every_edge english doc_big_red_dog.
Proof.
  intros H.
  destruct (H (snd (copy_any_sibling_info_pass english doc_big_red_dog))
              ltac:(vm_compute; reflexivity)
              3%nat
              (HolmesDictionary.Build 3 "dog"
                 [dep 3 1 "amod"; dep 3 2 "amod"; dep 3 4 "cc"; dep 3 5 "conj"] [5]
                 false (Some false) (Some true))
              (dep 3 2 "amod") 5 5%nat
              (HolmesDictionary.Build 5 "cat" [] [] false (Some false) (Some true)))
    as (ha' & Hd & Hc).
  - reflexivity.
  - cbn. auto.
  - cbn. auto.
  - reflexivity.
  - cbn. lia.
  - reflexivity.
  - reflexivity.
  - reflexivity.
  - reflexivity.
  - vm_compute in Hd. injection Hd as <-. vm_compute in Hc. discriminate.
Qed.

(** On the same sentence, at the moment at which the pass considers the
    second [amod] edge of [dog] for [cat], [cat] carries the copy of the
    first, and that copy is all it has at the end of the pass. *)
Example big_red_dog_second_edge_considered :
  exists s,
    considered_at english doc_big_red_dog 3 (dep 3 2 "amod") 5 s
    /\ children_at s 5 = [SemanticDependency.Build 5 1 (Some "amod") true]
    /\ children_at (snd (copy_any_sibling_info_pass english doc_big_red_dog)) 5
       = [SemanticDependency.Build 5 1 (Some "amod") true].
Proof.
  eexists. split; [|split].
  - unfold considered_at. do 6 eexists. split; [|split; [|split; [|split; [|split; [|split]]]]].
    + exists [0; 1; 2]%nat, [4; 5; 6; 7]%nat. split; [reflexivity|].
      lazy. reflexivity.
    + lazy. reflexivity.
    + lazy. reflexivity.
    + exists [dep 3 1 "amod"], [dep 3 4 "cc"; dep 3 5 "conj"].
      split; [reflexivity|]. lazy. reflexivity.
    + lazy. reflexivity.
    + lazy. reflexivity.
    + exists [], []. split; [reflexivity|]. lazy. reflexivity.
  - lazy. reflexivity.
  - vm_compute. reflexivity.
Qed.

(** Scenario B, on the same sentence: the edge from [ran] to [dog] is
    mirrored onto the sibling [cat] of [dog], with the label and the
    uncertainty of the edge it mirrors. *)
Example edge_to_coordinated_subject_is_mirrored :
  let r := copy_any_sibling_info_pass english doc_big_red_dog in
  fst r = Ok tt
  /\ children_at (snd r) 6 = [dep 6 3 "nsubj"; dep 6 5 "nsubj"]
  /\ children_at (snd r) 5 = [SemanticDependency.Build 5 1 (Some "amod") true].
Proof. vm_compute. repeat split; reflexivity. Qed.

(** The example documents are what the pipeline makes of the spaCy parses:
    the preparatory passes turn the bare parse of "The big red dog and cat
    ran." into the document used above. *)
Example big_red_dog_prepared :
  preparatory_passes english (Build_Limits 1000 1000 1000) plain_lemma
    (English_set_negation (Build_Limits 1000 1000 1000))
    (as_parsed_by_spacy doc_big_red_dog)
  = (Ok tt, doc_big_red_dog).
Proof. vm_compute. reflexivity. Qed.

(** Scenario C through the whole pipeline (the sentence has no auxiliary,
    relative clause or particle for the three remaining methods to act on). *)
Example the_town_is_old_parsed :
  let r := holmes_parse english (Build_Limits 1000 1000 1000) plain_lemma
             (English_set_negation (Build_Limits 1000 1000 1000)) no_rewrite no_rewrite
             (fun token defaults => ret defaults)
             {| visited_default := [] |} (as_parsed_by_spacy doc_the_town_is_old) in
  is_ok (fst r) = true
  /\ children_at (snd r) 1 = [SemanticDependency.Build 1 3 (Some "amod") false]
  /\ children_at (snd r) 2 = [SemanticDependency.Build 2 (-2) None false].
Proof. vm_compute. repeat split; reflexivity. Qed.

(** * Further reasoning principles *)

Lemma put_dict_same p h doc : dict_at doc p = Some h -> put_dict p h doc = doc.
Proof.
  unfold dict_at, put_dict, Doc.set_tokens. destruct doc as [ts hc]. cbn.
  intros H. f_equal.
  destruct (ts !! p) as [tok|] eqn:E; [|discriminate].
  destruct (Token.holmes tok) eqn:Eh; try discriminate. injection H as ->.
  apply list_eq. intros i. destruct (decide (i = p)) as [->|Hne].
  - rewrite list_lookup_alter_eq, E. cbn. f_equal.
    rewrite <- Eh. now destruct tok.
  - now rewrite list_lookup_alter_ne.
Qed.

Lemma put_dict_put_dict p h h' doc :
  put_dict p h (put_dict p h' doc) = put_dict p h doc.
Proof.
  unfold put_dict, Doc.set_tokens. cbn. f_equal.
  apply list_eq. intros i. destruct (decide (i = p)) as [->|Hne].
  - rewrite !list_lookup_alter_eq. now destruct (Doc.tokens doc !! p).
  - now rewrite !list_lookup_alter_ne.
Qed.

Lemma tokens_put_dict_eq p h doc tok :
  Doc.tokens doc !! p = Some tok ->
  Doc.tokens (put_dict p h doc) !! p = Some (Token.set_holmes (ExtDict h) tok).
Proof.
  intros H. unfold put_dict. cbn. now rewrite list_lookup_alter_eq, H.
Qed.

Lemma tokens_put_dict p q h doc :
  Doc.tokens (put_dict p h doc) !! q
  = (if decide (p = q) then Token.set_holmes (ExtDict h) else id)
      <$> Doc.tokens doc !! q.
Proof.
  unfold put_dict. cbn. destruct (decide (p = q)) as [->|Hne].
  - now rewrite list_lookup_alter_eq.
  - rewrite list_lookup_alter_ne by auto. now destruct (Doc.tokens doc !! q).
Qed.

Lemma set_children_same h :
  HolmesDictionary.set_children (HolmesDictionary.children h) h = h.
Proof. now destruct h. Qed.

Lemma token_at_lt doc p :
  (p < Doc.len doc)%nat -> exists tok, Doc.tokens doc !! p = Some tok.
Proof. intros H. apply lookup_lt_is_Some_2 in H. destruct H as [tok H]. eauto. Qed.

Lemma dict_at_token doc p h :
  dict_at doc p = Some h ->
  exists tok, Doc.tokens doc !! p = Some tok /\ Token.holmes tok = ExtDict h.
Proof.
  unfold dict_at. destruct (Doc.tokens doc !! p) as [tok|]; [|discriminate].
  destruct (Token.holmes tok) eqn:E; try discriminate. intros [= ->]. eauto.
Qed.

Lemma token_dict_at doc p tok h :
  Doc.tokens doc !! p = Some tok -> Token.holmes tok = ExtDict h ->
  dict_at doc p = Some h.
Proof. intros H E. unfold dict_at. now rewrite H, E. Qed.

Lemma omap_cons {A B} (f : A -> option B) (x : A) (l : list A) :
  omap f (x :: l)
  = match f x with Some y => y :: omap f l | None => omap f l end.
Proof. reflexivity. Qed.

Lemma bind_holmes_of {B} p (k : HDict -> M B) doc h :
  dict_at doc p = Some h -> bind (holmes_of p) k doc = k h doc.
Proof. intros H. now rewrite (bind_ok_intro _ _ _ _ _ (holmes_of_dict _ _ _ H)). Qed.

Lemma bind_update_holmes {B} p f (k : unit -> M B) doc h :
  dict_at doc p = Some h ->
  bind (update_holmes p f) k doc = k tt (put_dict p (f h) doc).
Proof. intros H. now rewrite (bind_ok_intro _ _ _ _ _ (update_holmes_ok _ _ _ _ H)). Qed.

Lemma when_update_holmes (b : bool) p f doc h :
  dict_at doc p = Some h ->
  when b (update_holmes p f) doc = (Ok tt, put_dict p (if b then f h else h) doc).
Proof.
  intros Hh. destruct b; cbn [when].
  - now apply update_holmes_ok.
  - unfold ret. now rewrite put_dict_same.
Qed.

Lemma bind_when_update_holmes {B} (b : bool) p f (k : unit -> M B) doc h :
  dict_at doc p = Some h ->
  bind (when b (update_holmes p f)) k doc
  = k tt (put_dict p (if b then f h else h) doc).
Proof. intros H. now rewrite (bind_ok_intro _ _ _ _ _ (when_update_holmes _ _ _ _ _ H)). Qed.

Lemma bind_token_at {B} p (k : Token.t -> M B) doc tok :
  Doc.tokens doc !! p = Some tok -> bind (token_at p) k doc = k tok doc.
Proof. intros H. unfold bind, token_at. now rewrite H. Qed.

(** The dictionary of a token in a document that was built by replacing
    dictionaries. *)
Ltac dict_now :=
  repeat (rewrite dict_at_put_dict_ne by auto);
  first [ eassumption | (eapply dict_at_put_dict_eq; dict_now) ].

(** * Further properties of the module *)

(** ** The lookups and the removal of [HolmesDictionary] *)

Lemma has_dependency_with_child_index_filter index j (l : list SemDep) :
  existsb (fun dependency => SemanticDependency.child_index dependency =? j)
    (List.filter (fun dep => negb (SemanticDependency.child_index dep =? index)) l)
  = existsb (fun dependency => SemanticDependency.child_index dependency =? j) l
    && negb (j =? index).
Proof.
  induction l as [|d l IH]; cbn; [reflexivity|].
  destruct (Z.eqb_spec (SemanticDependency.child_index d) index) as [E|E]; cbn.
  - rewrite IH. destruct (Z.eqb_spec (SemanticDependency.child_index d) j) as [F|F]; cbn.
    + assert (j = index) as -> by congruence. rewrite Z.eqb_refl. cbn.
      now rewrite andb_false_r.
    + reflexivity.
  - rewrite IH. destruct (Z.eqb_spec (SemanticDependency.child_index d) j) as [F|F]; cbn.
    + destruct (Z.eqb_spec j index); [congruence | reflexivity].
    + reflexivity.
Qed.

Lemma filter_all_true {A} (f : A -> bool) (l : list A) :
  existsb (fun x => negb (f x)) l = false -> List.filter f l = l.
Proof.
  induction l as [|x l IH]; cbn; [reflexivity|].
  destruct (f x); cbn; [|discriminate]. intros H. now rewrite IH.
Qed.

Lemma sublist_list_filter {A} (f : A -> bool) (l : list A) :
  sublist (List.filter f l) l.
Proof.
  induction l as [|x l IH]; cbn; [constructor|].
  destruct (f x); now constructor.
Qed.

Lemma list_filter_length_split {A} (f : A -> bool) (l : list A) :
  (length l
   = length (List.filter (fun x => negb (f x)) l) + length (List.filter f l))%nat.
Proof.
  induction l as [|x l IH]; cbn; [reflexivity|].
  destruct (f x); cbn; lia.
Qed.

(** X1: [remove_dependency_with_child_index(index)] leaves no edge to [index],
    answers every other lookup by child index as before, keeps exactly the
    edges with another child index, in their order and as many as there were,
    touches no other attribute, changes nothing when there was no such edge,
    and is idempotent. *)
Theorem remove_dependency_with_child_index_removes :
  forall (h : HDict) (index : Z),
    let h' := HolmesDictionary.remove_dependency_with_child_index index h in
    HolmesDictionary.has_dependency_with_child_index h' index = false
    /\ (forall j, j <> index ->
          HolmesDictionary.has_dependency_with_child_index h' j
          = HolmesDictionary.has_dependency_with_child_index h j)
    /\ (forall d, In d (HolmesDictionary.children h')
                  <-> In d (HolmesDictionary.children h)
                      /\ SemanticDependency.child_index d <> index)
    /\ sublist (HolmesDictionary.children h') (HolmesDictionary.children h)
    /\ (length (HolmesDictionary.children h)
        = length (HolmesDictionary.children h')
          + length (List.filter
                      (fun d => (SemanticDependency.child_index d =? index)%Z)
                      (HolmesDictionary.children h)))%nat
    /\ (forall before d after,
          HolmesDictionary.children h = (before ++ d :: after)%list ->
          SemanticDependency.child_index d <> index ->
          HolmesDictionary.children h'
          = (HolmesDictionary.children
               (HolmesDictionary.remove_dependency_with_child_index index
                  (HolmesDictionary.set_children before h))
             ++ d :: HolmesDictionary.children
                       (HolmesDictionary.remove_dependency_with_child_index index
                          (HolmesDictionary.set_children after h)))%list)
    /\ h' = HolmesDictionary.set_children (HolmesDictionary.children h') h
    /\ (HolmesDictionary.has_dependency_with_child_index h index = false -> h' = h)
    /\ HolmesDictionary.remove_dependency_with_child_index index h' = h'.
Proof.
  intros h index h'. subst h'.
  unfold HolmesDictionary.remove_dependency_with_child_index,
    HolmesDictionary.has_dependency_with_child_index.
  cbn [HolmesDictionary.children HolmesDictionary.set_children].
  split; [|split; [|split; [|split; [|split; [|split; [|split; [|split]]]]]]].
  - rewrite has_dependency_with_child_index_filter, Z.eqb_refl. cbn.
    apply andb_false_r.
  - intros j Hj. rewrite has_dependency_with_child_index_filter.
    destruct (Z.eqb_spec j index); [contradiction|]. cbn. apply andb_true_r.
  - intros d. rewrite List.filter_In, negb_true_iff, Z.eqb_neq. reflexivity.
  - apply sublist_list_filter.
  - apply (list_filter_length_split
             (fun d => SemanticDependency.child_index d =? index)).
  - intros before d after -> Hd. rewrite List.filter_app. cbn [List.filter].
    destruct (Z.eqb_spec (SemanticDependency.child_index d) index);
      [contradiction | reflexivity].
  - reflexivity.
  - intros Habs. destruct h as [i l cs rs o n m]. cbn in *.
    unfold HolmesDictionary.set_children. cbn. f_equal.
    apply filter_all_true. rewrite <- Habs. clear Habs.
    induction cs as [|d cs IH]; cbn; [reflexivity|]. now rewrite negb_involutive, IH.
  - unfold HolmesDictionary.set_children. cbn. f_equal.
    apply filter_all_true.
    induction (HolmesDictionary.children h) as [|d cs IH]; cbn; [reflexivity|].
    destruct (Z.eqb_spec (SemanticDependency.child_index d) index) as [E|E]; cbn.
    + exact IH.
    + destruct (Z.eqb_spec (SemanticDependency.child_index d) index); [contradiction|].
      cbn. exact IH.
Qed.

Lemma remove_dependency_with_child_index_removes_witness :
  let h := HolmesDictionary.Build 1 "stehen" [dep 1 0 "sb"; dep 1 2 "svp"] [] false
             None None in
  HolmesDictionary.has_dependency_with_child_index
    (HolmesDictionary.remove_dependency_with_child_index 2 h) 0
  = HolmesDictionary.has_dependency_with_child_index h 0
  /\ HolmesDictionary.remove_dependency_with_child_index 5 h = h.
Proof.
  intros h.
  destruct (remove_dependency_with_child_index_removes h 2) as (_ & Hother & _).
  destruct (remove_dependency_with_child_index_removes h 5)
    as (_ & _ & _ & _ & _ & _ & _ & Hsame & _).
  split.
  - apply Hother. lia.
  - apply Hsame. reflexivity.
Defined.

(** X2: the three lookups of a dictionary agree with each other and with
    [children.append]: a hit for a child index together with a label is a hit
    for each of the two, an appended edge is found by all three, none of the
    three lookups that succeeded fails after an append, and a lookup that
    succeeds after an append succeeded before or asks for what the appended
    edge has. *)
Theorem has_dependency_lookups_agree :
  forall (h : HDict) (dep : SemDep) (index : Z) (label : option string),
    let h' := HolmesDictionary.append_child dep h in
    (HolmesDictionary.has_dependency_with_child_index_and_label h index label = true ->
     HolmesDictionary.has_dependency_with_child_index h index = true
     /\ HolmesDictionary.has_dependency_with_label h label = true)
    /\ HolmesDictionary.has_dependency_with_child_index h'
         (SemanticDependency.child_index dep) = true
    /\ HolmesDictionary.has_dependency_with_label h'
         (SemanticDependency.label dep) = true
    /\ HolmesDictionary.has_dependency_with_child_index_and_label h'
         (SemanticDependency.child_index dep) (SemanticDependency.label dep) = true
    /\ (HolmesDictionary.has_dependency_with_child_index h index = true ->
        HolmesDictionary.has_dependency_with_child_index h' index = true)
    /\ (HolmesDictionary.has_dependency_with_label h label = true ->
        HolmesDictionary.has_dependency_with_label h' label = true)
    /\ (HolmesDictionary.has_dependency_with_child_index_and_label h index label = true ->
        HolmesDictionary.has_dependency_with_child_index_and_label h' index label = true)
    /\ (HolmesDictionary.has_dependency_with_child_index h' index = true ->
        HolmesDictionary.has_dependency_with_child_index h index = true
        \/ index = SemanticDependency.child_index dep)
    /\ (HolmesDictionary.has_dependency_with_label h' label = true ->
        HolmesDictionary.has_dependency_with_label h label = true
        \/ label = SemanticDependency.label dep)
    /\ (HolmesDictionary.has_dependency_with_child_index_and_label h' index label = true ->
        HolmesDictionary.has_dependency_with_child_index_and_label h index label = true
        \/ (index = SemanticDependency.child_index dep
            /\ label = SemanticDependency.label dep)).
Proof.
  intros h dep index label h'. subst h'.
  unfold HolmesDictionary.has_dependency_with_child_index_and_label,
    HolmesDictionary.has_dependency_with_child_index,
    HolmesDictionary.has_dependency_with_label, HolmesDictionary.append_child.
  cbn [HolmesDictionary.children HolmesDictionary.set_children].
  rewrite !existsb_app. cbn [existsb]. rewrite Z.eqb_refl.
  rewrite (bool_decide_eq_true_2 _ (eq_refl (SemanticDependency.label dep))).
  cbn. rewrite !orb_true_r.
  repeat split.
  - apply existsb_exists in H as (d & Hd & Hc). apply andb_true_iff in Hc as [Hc _].
    apply existsb_exists. eauto.
  - apply existsb_exists in H as (d & Hd & Hc). apply andb_true_iff in Hc as [_ Hc].
    apply existsb_exists. eauto.
  - intros ->. reflexivity.
  - intros ->. reflexivity.
  - intros ->. reflexivity.
  - intros H. apply orb_true_iff in H as [H|H]; [now left|].
    rewrite orb_false_r in H. right. symmetry. now apply Z.eqb_eq.
  - intros H. apply orb_true_iff in H as [H|H]; [now left|].
    rewrite orb_false_r in H. right. apply bool_decide_eq_true in H. now symmetry.
  - intros H. apply orb_true_iff in H as [H|H]; [now left|].
    rewrite orb_false_r in H. apply andb_true_iff in H as [Hc Hl]. right.
    apply Z.eqb_eq in Hc. apply bool_decide_eq_true in Hl. split; now symmetry.
Qed.

Lemma has_dependency_lookups_agree_witness :
  let h := HolmesDictionary.Build 2 "be" [dep 2 1 "nsubj"; dep 2 3 "acomp"] [] false
             None None in
  HolmesDictionary.has_dependency_with_child_index h 3 = true
  /\ HolmesDictionary.has_dependency_with_label h (Some "acomp") = true.
Proof.
  intros h.
  apply (has_dependency_lookups_agree h (dep 2 4 "punct") 3 (Some "acomp")).
  reflexivity.
Defined.

(** ** The child token of a dependency *)

(** X3: [child_token] hands the child index to [doc[...]] as it is.  For an
    edge to token [i] of the document it returns token [i].  For a
    grammatical dependency, whose child index is [-(i+1)], Python's negative
    indexing applies: when [i] is a token of the document the call yields
    the token at the mirrored position [len(doc)-1-i], not token [i].  The
    document is left as it is. *)
Theorem child_token_of_grammatical_dependency :
  forall (doc : Doc.t) (d : SemDep) (i : nat),
    (SemanticDependency.child_index d = Z.of_nat i ->
     (i < Doc.len doc)%nat -> child_token d doc = (Ok i, doc))
    /\ (SemanticDependency.child_index d = 0 - (Z.of_nat i + 1) ->
        (i < Doc.len doc)%nat ->
        child_token d doc = (Ok (Doc.len doc - 1 - i)%nat, doc)).
Proof.
  intros doc d i. unfold child_token, doc_getitem, py_index.
  split.
  - intros -> Hi.
    destruct (Z.leb_spec 0 (Z.of_nat i)); [|lia].
    destruct (Z.ltb_spec (Z.of_nat i) (Z.of_nat (Doc.len doc))); [|lia].
    now rewrite Nat2Z.id.
  - intros -> Hi.
    destruct (Z.leb_spec 0 (0 - (Z.of_nat i + 1))); [lia|].
    destruct (Z.leb_spec 0 (Z.of_nat (Doc.len doc) + (0 - (Z.of_nat i + 1)))); [|lia].
    do 2 f_equal. lia.
Qed.

Lemma child_token_of_grammatical_dependency_witness :
  child_token (SemanticDependency.Build 2 (-2) None false) doc_the_town_is_old
  = (Ok 3%nat, doc_the_town_is_old).
Proof.
  apply (child_token_of_grammatical_dependency doc_the_town_is_old
           (SemanticDependency.Build 2 (-2) None false) 1).
  - reflexivity.
  - cbn. lia.
Defined.

(** ** Matching of dependency labels *)

(** X4: in both languages the labels that the preposition pass adds are
    matched one way only.  A search-phrase dependency with the original
    label from a noun or a verb to a preposition matches a document
    dependency with the added 'possible' label, while a search-phrase
    dependency with an added label matches no document label but itself. *)
Theorem possible_preposition_labels_match_one_way :
  forall (model : string) (debug coref : bool),
    let en := EnglishSemanticAnalyzer model debug coref in
    let de := GermanSemanticAnalyzer model debug coref in
    (dependency_labels_match English_matching_dep_dict
       (Some (SemanticAnalyzer._spacy_noun_to_preposition_dep en))
       (Some (SemanticAnalyzer._holmes_noun_to_preposition_dep en)) = true
     /\ dependency_labels_match English_matching_dep_dict
          (Some (SemanticAnalyzer._spacy_verb_to_preposition_dep en))
          (Some (SemanticAnalyzer._holmes_verb_to_preposition_dep en)) = true
     /\ dependency_labels_match German_matching_dep_dict
          (Some (SemanticAnalyzer._spacy_noun_to_preposition_dep de))
          (Some (SemanticAnalyzer._holmes_noun_to_preposition_dep de)) = true
     /\ dependency_labels_match German_matching_dep_dict
          (Some (SemanticAnalyzer._spacy_verb_to_preposition_dep de))
          (Some (SemanticAnalyzer._holmes_verb_to_preposition_dep de)) = true)
    /\ forall document_label : option string,
         (dependency_labels_match English_matching_dep_dict
            (Some (SemanticAnalyzer._holmes_noun_to_preposition_dep en))
            document_label = true ->
          document_label = Some (SemanticAnalyzer._holmes_noun_to_preposition_dep en))
         /\ (dependency_labels_match English_matching_dep_dict
               (Some (SemanticAnalyzer._holmes_verb_to_preposition_dep en))
               document_label = true ->
             document_label = Some (SemanticAnalyzer._holmes_verb_to_preposition_dep en))
         /\ (dependency_labels_match German_matching_dep_dict
               (Some (SemanticAnalyzer._holmes_noun_to_preposition_dep de))
               document_label = true ->
             document_label = Some (SemanticAnalyzer._holmes_noun_to_preposition_dep de))
         /\ (dependency_labels_match German_matching_dep_dict
               (Some (SemanticAnalyzer._holmes_verb_to_preposition_dep de))
               document_label = true ->
             document_label = Some (SemanticAnalyzer._holmes_verb_to_preposition_dep de)).
Proof.
  intros model debug coref en de. split.
  - repeat split; vm_compute; reflexivity.
  - intros document_label.
    assert (Hmiss : forall dict key,
               dict !! key = None ->
               dependency_labels_match dict (Some key) document_label = true ->
               document_label = Some key).
    { intros dict key Hkey. unfold dependency_labels_match.
      case_bool_decide as E; [intros _; now symmetry|].
      rewrite Hkey. discriminate. }
    repeat split; apply Hmiss; vm_compute; reflexivity.
Qed.

Lemma possible_preposition_labels_match_one_way_witness :
  dependency_labels_match English_matching_dep_dict (Some "prep") (Some "prepposs")
  = true
  /\ (dependency_labels_match English_matching_dep_dict (Some "prepposs")
        (Some "prepposs") = true ->
      Some "prepposs" = Some "prepposs").
Proof.
  destruct (possible_preposition_labels_match_one_way "en_core_web_lg" false false)
    as ((Hen & _) & Hback).
  split.
  - exact Hen.
  - destruct (Hback (Some "prepposs")) as (H & _). exact H.
Defined.

(** ** The factory *)



(** ** Reading a serialized document back *)

Lemma attach_loop_enough (all : list Extension) (ts : list Token.t) :
  forall pre hc,
    (length pre + length ts <= length all)%nat ->
    for_each (seq (length pre) (length ts))
      (fun p =>
         match all !! p with
         | Some e => set_extension p e
         | None => raise IndexError
         end)
      (Doc.Build (pre ++ ts)%list hc)
    = (Ok tt,
       Doc.Build (pre ++ zip_with Token.set_holmes (drop (length pre) all) ts)%list hc).
Proof.
  induction ts as [|tok ts IH]; intros pre hc Hlen.
  - cbn. now destruct (drop (length pre) all).
  - cbn [length seq for_each]. cbn [length] in Hlen.
    destruct (lookup_lt_is_Some_2 all (length pre) ltac:(lia)) as [e He].
    rewrite He, (drop_S _ _ _ He). cbn [zip_with].
    rewrite (bind_ok_intro _ _ _ _ _ (set_extension_middle _ e pre tok ts hc eq_refl)).
    specialize (IH (pre ++ [Token.set_holmes e tok])%list hc).
    rewrite !length_app in IH. cbn [length] in IH.
    replace (length pre + 1)%nat with (S (length pre)) in IH by lia.
    rewrite <- !app_assoc in IH. cbn in IH. apply IH. lia.
Qed.

Lemma attach_loop_short (all : list Extension) (ts : list Token.t) :
  forall pre hc,
    (length pre <= length all)%nat ->
    (length all < length pre + length ts)%nat ->
    fst (for_each (seq (length pre) (length ts))
           (fun p =>
              match all !! p with
              | Some e => set_extension p e
              | None => raise IndexError
              end)
           (Doc.Build (pre ++ ts)%list hc))
    = Raise IndexError.
Proof.
  induction ts as [|tok ts IH]; intros pre hc Hpre Hlen.
  - cbn in Hlen. lia.
  - cbn [length seq for_each]. cbn [length] in Hlen.
    destruct (all !! length pre) as [e|] eqn:He.
    + rewrite (bind_ok_intro _ _ _ _ _ (set_extension_middle _ e pre tok ts hc eq_refl)).
      specialize (IH (pre ++ [Token.set_holmes e tok])%list hc).
      rewrite !length_app in IH. cbn [length] in IH.
      replace (length pre + 1)%nat with (S (length pre)) in IH by lia.
      rewrite <- !app_assoc in IH. cbn in IH. apply IH; [|lia].
      apply lookup_lt_Some in He. lia.
    + reflexivity.
Qed.

(** X6: [holmes_document] needs one dictionary per token of the document
    that [Doc.from_bytes] returns.  With fewer dictionaries than tokens it
    raises [IndexError]; with at least as many it returns the document with
    the [i]-th dictionary on the [i]-th token, the spaCy attributes as they
    were read, and any surplus dictionaries ignored. *)
Theorem holmes_document_needs_a_dictionary_per_token :
  forall (Bytes : Type) (from_bytes : Analyzer -> Bytes -> Library Doc.t)
         (this : SerializedHolmesDocument Bytes) (semantic_analyzer : Analyzer)
         (doc : Doc.t),
    from_bytes semantic_analyzer (_serialized_spacy_document this) = Returns doc ->
    ((length (_dictionaries this) < Doc.len doc)%nat ->
     holmes_document Bytes from_bytes this semantic_analyzer = Raise IndexError)
    /\ ((Doc.len doc <= length (_dictionaries this))%nat ->
        holmes_document Bytes from_bytes this semantic_analyzer
        = Ok (Doc.Build
                (zip_with Token.set_holmes (_dictionaries this) (Doc.tokens doc))
                (Doc.has_coref doc))).
Proof.
  intros Bytes from_bytes this semantic_analyzer [ts hc] Hread.
  unfold holmes_document. rewrite Hread. cbn [from_library Doc.tokens Doc.has_coref].
  unfold attach_dictionaries. change (Doc.len (Doc.Build ts hc)) with (length ts).
  split; intros Hlen.
  - pose proof (attach_loop_short (_dictionaries this) ts [] hc
                  ltac:(cbn; lia) Hlen) as H.
    cbn [length app] in H.
    destruct (for_each _ _ _) as [[[]|e] doc']; cbn in H; [discriminate|].
    now injection H as ->.
  - pose proof (attach_loop_enough (_dictionaries this) ts [] hc Hlen) as H.
    cbn [length app drop] in H. now rewrite H.
Qed.

Lemma holmes_document_needs_a_dictionary_per_token_witness :
  holmes_document nat toy_from_bytes
    (Build_SerializedHolmesDocument 5%nat [ExtNone; ExtNone] "en_core_web_lg") english
  = Raise IndexError.
Proof.
  eapply (holmes_document_needs_a_dictionary_per_token nat toy_from_bytes
            (Build_SerializedHolmesDocument 5%nat [ExtNone; ExtNone] "en_core_web_lg")
            english).
  - reflexivity.
  - cbn. lia.
Defined.

(** ** The first semantic edges *)

Lemma initial_edge_put_dict self p h doc token child :
  initial_edge self (put_dict p h doc) token child = initial_edge self doc token child.
Proof.
  unfold initial_edge. rewrite tokens_put_dict.
  destruct (Doc.tokens doc !! child) as [tc|]; [|reflexivity]. cbn.
  now destruct (decide (p = child)).
Qed.

Lemma initial_edges_put_dict self p h doc token (cs : list nat) :
  omap (initial_edge self (put_dict p h doc) token) cs
  = omap (initial_edge self doc token) cs.
Proof.
  induction cs as [|c cs IH]; [reflexivity|].
  now rewrite !omap_cons, initial_edge_put_dict, IH.
Qed.

Lemma initialize_loop self token (cs : list nat) :
  forall doc h,
    dict_at doc token = Some h ->
    Forall (fun c => (c < Doc.len doc)%nat /\ c <> token) cs ->
    for_each cs
      (fun child =>
         let* tc := token_at child in
         when (negb (String.eqb (Token.dep_ tc) "punct")
               && negb (str_contains
                          (SemanticAnalyzer._semantic_dependency_excluded_tags self)
                          (Token.tag_ tc)))
           (let* _ := holmes_of token in
            let* dep := lift (SemanticDependency.init (Z.of_nat token) (Z.of_nat child)
                                (Some (Token.dep_ tc)) false) in
            append_child token dep)) doc
    = (Ok tt,
       put_dict token
         (HolmesDictionary.set_children
            (HolmesDictionary.children h ++ omap (initial_edge self doc token) cs) h)
         doc).
Proof.
  induction cs as [|c cs IH]; intros doc h Hh Hcs.
  - cbn. rewrite app_nil_r, set_children_same, put_dict_same by exact Hh. reflexivity.
  - apply Forall_cons in Hcs as [[Hc Hne] Hcs].
    destruct (token_at_lt _ _ Hc) as [tc Htc].
    cbn [for_each]. rewrite omap_cons. unfold initial_edge at 1. rewrite Htc.
    unfold bind at 1.
    rewrite (bind_ok_intro _ _ _ _ _ (token_at_ok _ _ _ Htc)).
    destruct (negb (String.eqb (Token.dep_ tc) "punct")
              && negb (str_contains _ (Token.tag_ tc))) eqn:Hkeep; cbn [when].
    + rewrite (bind_ok_intro _ _ _ _ _ (holmes_of_dict _ _ _ Hh)).
      rewrite init_ok by (intros; lia).
      unfold lift at 1, bind at 1. unfold append_child.
      rewrite (update_holmes_ok _ _ _ _ Hh).
      rewrite (IH _ (HolmesDictionary.append_child
                       (SemanticDependency.Build (Z.of_nat token) (Z.of_nat c)
                          (Some (Token.dep_ tc)) false) h)).
      * rewrite put_dict_put_dict, initial_edges_put_dict. do 2 f_equal.
        cbn [HolmesDictionary.children HolmesDictionary.append_child
               HolmesDictionary.set_children].
        unfold HolmesDictionary.set_children. cbn. f_equal.
        now rewrite <- app_assoc.
      * eapply dict_at_put_dict_eq; eauto.
      * rewrite len_put_dict. exact Hcs.
    + unfold ret at 1. apply IH; auto.
Qed.

(** X7: on a token that has its dictionary and whose syntactic children are
    tokens of the document other than itself,
    [_initialize_semantic_dependencies] returns, and it changes nothing but
    the children of that token, to which it appends one certain edge for each
    syntactic child, in their order, that is not punctuation and whose tag
    does not occur in [_semantic_dependency_excluded_tags]; the edge carries
    the child's position and its [dep_] as label.  The excluded tags are a
    string, so a tag is excluded when it is a substring of it: for English
    [DT], but [D], [T] and the empty tag as well. *)
Theorem initialize_semantic_dependencies_edges :
  forall (self : Analyzer) (token : nat) (doc : Doc.t) (tok : Token.t) (h : HDict),
    Doc.tokens doc !! token = Some tok ->
    Token.holmes tok = ExtDict h ->
    Forall (fun c => (c < Doc.len doc)%nat /\ c <> token) (Token.children tok) ->
    _initialize_semantic_dependencies self token doc
    = (Ok tt,
       put_dict token
         (HolmesDictionary.set_children
            (HolmesDictionary.children h
             ++ omap (initial_edge self doc token) (Token.children tok)) h)
         doc)
    /\ (forall model debug coref child tc,
          Doc.tokens doc !! child = Some tc ->
          In (Token.tag_ tc) ["DT"; "D"; "T"; ""] ->
          initial_edge (EnglishSemanticAnalyzer model debug coref) doc token child
          = None).
Proof.
  intros self token doc tok h Htok Hh Hcs. split.
  - unfold _initialize_semantic_dependencies.
    rewrite (bind_ok_intro _ _ _ _ _ (token_at_ok _ _ _ Htok)).
    apply initialize_loop; [|exact Hcs].
    eapply token_dict_at; eauto.
  - intros model debug coref child tc Hc Htag. unfold initial_edge. rewrite Hc.
    cbn in Htag.
    destruct Htag as [<-|[<-|[<-|[<-|[]]]]]; cbn; now rewrite andb_false_r.
Qed.

Lemma initialize_semantic_dependencies_edges_witness :
  _initialize_semantic_dependencies english 3 doc_he_did_not_go
  = (Ok tt,
     put_dict 3
       (HolmesDictionary.set_children
          [ SemanticDependency.Build 3 0 (Some "nsubj") false;
            SemanticDependency.Build 3 1 (Some "aux") false;
            SemanticDependency.Build 3 2 (Some "neg") false ]
          (HolmesDictionary.init 3 "go"))
       doc_he_did_not_go).
Proof.
  eapply eq_trans.
  - eapply (initialize_semantic_dependencies_edges english 3).
    + reflexivity.
    + reflexivity.
    + repeat constructor; cbn; lia.
  - reflexivity.
Defined.

(** ** Righthand siblings *)

Lemma reads_only_fold_m {A St} (l : list A) (body : A -> St -> M St) :
  (forall x acc, reads_only (body x acc)) -> forall acc, reads_only (fold_m l body acc).
Proof.
  intros Hb. induction l as [|x l IH]; intros acc; cbn; [apply reads_only_ret|].
  apply reads_only_bind; [apply Hb | intros acc'; apply IH].
Qed.

Lemma reads_only_climb self rounds :
  forall working_token flag,
    reads_only (climb_to_lefthand_sibling self rounds working_token flag).
Proof.
  induction rounds as [|rounds IH]; intros w flag; cbn [climb_to_lefthand_sibling].
  - intros doc. reflexivity.
  - apply reads_only_bind; [apply reads_only_token_at|]. intros wt.
    destruct (str_in _ _); [|apply reads_only_ret].
    apply reads_only_bind; [apply reads_only_token_at|]. intros wh.
    apply reads_only_bind; [|intros f; apply IH].
    apply reads_only_fold_m. intros c acc.
    apply reads_only_bind; [apply reads_only_token_at|]. intros wc.
    apply reads_only_ret.
Qed.

Lemma token_at_inv p doc tok doc' :
  token_at p doc = (Ok tok, doc') -> doc' = doc /\ Doc.tokens doc !! p = Some tok.
Proof.
  unfold token_at. destruct (Doc.tokens doc !! p); intros [= <- <-]; auto.
Qed.

(** The token at which the climb ends carries no conjunction label. *)
Lemma climb_result self rounds :
  forall working_token flag doc w f doc',
    climb_to_lefthand_sibling self rounds working_token flag doc = (Ok (w, f), doc') ->
    exists wt, Doc.tokens doc !! w = Some wt
      /\ str_in (Token.dep_ wt) (SemanticAnalyzer._conjunction_deps self) = false.
Proof.
  induction rounds as [|rounds IH]; intros t flag doc w f doc' H;
    cbn [climb_to_lefthand_sibling] in H; [discriminate|].
  apply bind_ok in H as (wt & doc1 & Hwt & H).
  apply token_at_inv in Hwt as [-> Hwt].
  destruct (str_in (Token.dep_ wt) _) eqn:Hconj.
  - apply bind_ok in H as (wh & doc1 & Hwh & H).
    apply token_at_inv in Hwh as [-> Hwh].
    apply bind_ok in H as (f1 & doc1 & Hf & H).
    assert (doc1 = doc) as ->.
    { pose proof (reads_only_fold_m (Token.children wh)
                    (fun working_child flag0 =>
                       let* wc := token_at working_child in
                       ret (if String.eqb (Token.lemma_ wc)
                                 (SemanticAnalyzer._or_lemma self)
                            then true else flag0))
                    ltac:(intros; apply reads_only_bind;
                          [apply reads_only_token_at | intros; apply reads_only_ret])
                    flag doc) as Hr.
      now rewrite Hf in Hr. }
    eapply IH; eauto.
  - injection H as <- <- <-. eauto.
Qed.

(** The climb of [_mark_if_righthand_sibling] and the recursion of
    [_lefthand_sibling_recursively] walk the same chain of heads. *)
Lemma climb_is_lefthand_sibling self rounds :
  forall working_token flag doc w f doc' depth w' doc'',
    climb_to_lefthand_sibling self rounds working_token flag doc = (Ok (w, f), doc') ->
    _lefthand_sibling_recursively self depth working_token doc = (Ok w', doc'') ->
    w' = w.
Proof.
  induction rounds as [|rounds IH]; intros t flag doc w f doc' depth w' doc'' H H';
    cbn [climb_to_lefthand_sibling] in H; [discriminate|].
  destruct depth as [|depth]; cbn [_lefthand_sibling_recursively] in H'; [discriminate|].
  apply bind_ok in H as (wt & doc1 & Hwt & H).
  apply token_at_inv in Hwt as [-> Hwt].
  rewrite (bind_ok_intro _ _ _ _ _ (token_at_ok _ _ _ Hwt)) in H'.
  destruct (str_in (Token.dep_ wt) _) eqn:Hconj; cbn [negb] in H'.
  - apply bind_ok in H as (wh & doc1 & Hwh & H).
    apply token_at_inv in Hwh as [-> Hwh].
    apply bind_ok in H as (f1 & doc1 & Hf & H).
    assert (doc1 = doc) as ->.
    { pose proof (reads_only_fold_m (Token.children wh)
                    (fun working_child flag0 =>
                       let* wc := token_at working_child in
                       ret (if String.eqb (Token.lemma_ wc)
                                 (SemanticAnalyzer._or_lemma self)
                            then true else flag0))
                    ltac:(intros; apply reads_only_bind;
                          [apply reads_only_token_at | intros; apply reads_only_ret])
                    flag doc) as Hr.
      now rewrite Hf in Hr. }
    eapply IH; eauto.
  - injection H as <- <- <-. now injection H' as <- <-.
Qed.

(** What one call of [_mark_if_righthand_sibling] does to the document. *)
Lemma mark_if_righthand_sibling_inv self limits token doc r doc' :
  _mark_if_righthand_sibling self limits token doc = (r, doc') ->
  (doc' = doc
   /\ (is_ok r = true ->
       exists tok, Doc.tokens doc !! token = Some tok
         /\ str_in (Token.dep_ tok) (SemanticAnalyzer.sibling_marker_deps self)
            = false))
  \/ exists tok w wt hw flag,
       Doc.tokens doc !! token = Some tok
       /\ str_in (Token.dep_ tok) (SemanticAnalyzer.sibling_marker_deps self) = true
       /\ climb_to_lefthand_sibling self (patience limits) token false doc
          = (Ok (w, flag), doc)
       /\ Doc.tokens doc !! w = Some wt
       /\ str_in (Token.dep_ wt) (SemanticAnalyzer._conjunction_deps self) = false
       /\ dict_at doc w = Some hw
       /\ r = Ok tt
       /\ doc' = put_dict w
                   (HolmesDictionary.set_is_involved_in_or_conjunction
                      (flag || HolmesDictionary.is_involved_in_or_conjunction hw)
                      (HolmesDictionary.set_righthand_siblings
                         (HolmesDictionary.righthand_siblings hw ++ [Z.of_nat token])
                         hw))
                   doc.
Proof.
  unfold _mark_if_righthand_sibling. intros H.
  unfold bind at 1 in H.
  destruct (token_at token doc) as [[tok|e] doc1] eqn:Htok.
  2:{ injection H as <- <-. left.
      pose proof (reads_only_token_at token doc) as Hr. rewrite Htok in Hr.
      split; [exact Hr | discriminate]. }
  apply token_at_inv in Htok as [-> Htok].
  destruct (str_in (Token.dep_ tok) _) eqn:Hmark; cbn [when] in H.
  2:{ injection H as <- <-. left. split; [reflexivity | eauto]. }
  unfold bind at 1 in H.
  pose proof (reads_only_climb self (patience limits) token false doc) as Hr.
  destruct (climb_to_lefthand_sibling self (patience limits) token false doc)
    as [[[w flag]|e] doc1] eqn:Hclimb; cbn in Hr; subst doc1.
  2:{ injection H as <- <-. left. split; [reflexivity | discriminate]. }
  destruct (climb_result _ _ _ _ _ _ _ _ Hclimb) as (wt & Hwt & Hconj).
  unfold bind at 1 in H.
  destruct (update_holmes w _ doc) as [r1 doc1] eqn:Hup.
  apply update_holmes_inv in Hup as [(hw & Hhw & -> & ->)|(_ & -> & Hr1)].
  2:{ destruct r1; [discriminate|]. injection H as <- <-. left.
      split; [reflexivity | discriminate]. }
  right. exists tok, w, wt, hw, flag. repeat split; auto.
  - destruct flag; cbn [when] in H.
    + erewrite update_holmes_ok in H by (eapply dict_at_put_dict_eq; eauto).
      now injection H as <- <-.
    + now injection H as <- <-.
  - destruct flag; cbn [when orb] in H |- *.
    + erewrite update_holmes_ok in H by (eapply dict_at_put_dict_eq; eauto).
      injection H as <- <-. apply put_dict_put_dict.
    + injection H as <- <-. reflexivity.
Qed.

#[global] Instance siblings_only_refl : Reflexive siblings_only.
Proof.
  intros doc. split; [reflexivity|]. intros p tok Htok.
  exists tok. repeat split; auto.
  - now destruct tok.
  - destruct (Token.holmes tok) as [s| |h] eqn:E; auto.
    exists [], (HolmesDictionary.is_involved_in_or_conjunction h).
    rewrite app_nil_r. split; [now destruct h | auto].
Qed.

#[global] Instance siblings_only_trans : Transitive siblings_only.
Proof.
  intros d1 d2 d3 [L12 H12] [L23 H23]. split; [congruence|].
  intros p tok Htok.
  destruct (H12 p tok Htok) as (t2 & Ht2 & E2 & D2).
  destruct (H23 p t2 Ht2) as (t3 & Ht3 & E3 & D3).
  exists t3. repeat split; auto.
  - rewrite E3, E2. now destruct tok.
  - destruct (Token.holmes tok) as [s| |h] eqn:E.
    + rewrite D2 in D3. exact D3.
    + rewrite D2 in D3. exact D3.
    + destruct D2 as (m2 & f2 & Eh2 & K2). rewrite Eh2 in D3.
      destruct D3 as (m3 & f3 & Eh3 & K3).
      exists (m2 ++ m3)%list, f3. split.
      * rewrite Eh3. cbn. now rewrite <- app_assoc.
      * intros Hf. apply K3. cbn. auto.
Qed.

Lemma siblings_only_put doc w hw more flag :
  dict_at doc w = Some hw ->
  (HolmesDictionary.is_involved_in_or_conjunction hw = true -> flag = true) ->
  siblings_only doc
    (put_dict w
       (HolmesDictionary.set_is_involved_in_or_conjunction flag
          (HolmesDictionary.set_righthand_siblings
             (HolmesDictionary.righthand_siblings hw ++ more) hw)) doc).
Proof.
  intros Hw Hflag. split; [apply len_put_dict|].
  intros p tok Htok. rewrite tokens_put_dict, Htok. cbn.
  destruct (decide (w = p)) as [->|Hne].
  - eexists. split; [reflexivity|]. split; [now destruct tok|].
    apply dict_at_token in Hw as (tok0 & Htok0 & Eh).
    assert (tok0 = tok) by congruence. subst tok0. rewrite Eh. cbn. eauto.
  - destruct (siblings_only_refl doc) as [_ H].
    destruct (H p tok Htok) as (tok' & Htok' & Hrest).
    assert (tok' = tok) by congruence. subst tok'.
    exists tok. split; [reflexivity | exact Hrest].
Qed.

Lemma keeps_siblings_only_mark self limits token :
  keeps siblings_only (_mark_if_righthand_sibling self limits token).
Proof.
  intros doc. destruct (_mark_if_righthand_sibling self limits token doc) as [r doc'] eqn:E.
  cbn. apply mark_if_righthand_sibling_inv in E
    as [[-> _]|(tok & w & wt & hw & flag & _ & _ & _ & _ & _ & Hw & _ & ->)].
  - reflexivity.
  - apply siblings_only_put; [exact Hw|]. intros ->. apply orb_true_r.
Qed.

#[global] Instance no_own_sibling_kept_refl :
  Reflexive (fun doc doc' => no_own_sibling doc -> no_own_sibling doc').
Proof. intros doc H. exact H. Qed.

#[global] Instance no_own_sibling_kept_trans :
  Transitive (fun doc doc' => no_own_sibling doc -> no_own_sibling doc').
Proof. intros d1 d2 d3 H12 H23 H. auto. Qed.

Lemma keeps_no_own_sibling_mark self limits token :
  (forall x, str_in x (SemanticAnalyzer.sibling_marker_deps self) = true ->
             str_in x (SemanticAnalyzer._conjunction_deps self) = true) ->
  keeps (fun doc doc' => no_own_sibling doc -> no_own_sibling doc')
    (_mark_if_righthand_sibling self limits token).
Proof.
  intros Hsub doc.
  destruct (_mark_if_righthand_sibling self limits token doc) as [r doc'] eqn:E.
  cbn. apply mark_if_righthand_sibling_inv in E
    as [[-> _]|(tok & w & wt & hw & flag & Htok & Hmark & _ & Hwt & Hconj & Hw & _ & ->)].
  - auto.
  - intros Hinv p h Hp.
    destruct (decide (w = p)) as [<-|Hne].
    + erewrite dict_at_put_dict_eq in Hp by eauto. injection Hp as <-. cbn.
      rewrite in_app_iff. intros [Hin|[Heq|[]]].
      * exact (Hinv w hw Hw Hin).
      * apply Nat2Z.inj in Heq. subst token.
        assert (wt = tok) by congruence. subst wt.
        apply Hsub in Hmark. congruence.
    + rewrite dict_at_put_dict_ne in Hp by auto. exact (Hinv p h Hp).
Qed.

(** X8: the pass that marks righthand siblings changes nothing but lists of
    righthand siblings, to which it appends, and or-conjunction flags, which
    it raises; semantic children, lemmas, negation and matchability stay as
    they are, whether the pass returns or raises.  And when every label that
    marks a sibling is a conjunction label, as it is in both languages, a
    pass that starts from a document in which no token is its own righthand
    sibling leaves such a document. *)
Theorem mark_if_righthand_sibling_pass_frame :
  forall (self : Analyzer) (limits : Limits) (doc : Doc.t),
    siblings_only doc
      (snd (for_each_token (_mark_if_righthand_sibling self limits) doc))
    /\ ((forall x, str_in x (SemanticAnalyzer.sibling_marker_deps self) = true ->
                   str_in x (SemanticAnalyzer._conjunction_deps self) = true) ->
        no_own_sibling doc ->
        no_own_sibling
          (snd (for_each_token (_mark_if_righthand_sibling self limits) doc))).
Proof.
  intros self limits doc. unfold for_each_token. split.
  - apply keeps_for_each; [typeclasses eauto..|].
    intros token. apply keeps_siblings_only_mark.
  - intros Hsub.
    apply (keeps_for_each (fun doc doc' => no_own_sibling doc -> no_own_sibling doc'));
      [typeclasses eauto..|].
    intros token. now apply keeps_no_own_sibling_mark.
Qed.

Lemma sibling_markers_are_conjunction_labels model debug coref x :
  (str_in x (SemanticAnalyzer.sibling_marker_deps
               (EnglishSemanticAnalyzer model debug coref)) = true ->
   str_in x (SemanticAnalyzer._conjunction_deps
               (EnglishSemanticAnalyzer model debug coref)) = true)
  /\ (str_in x (SemanticAnalyzer.sibling_marker_deps
                  (GermanSemanticAnalyzer model debug coref)) = true ->
      str_in x (SemanticAnalyzer._conjunction_deps
                  (GermanSemanticAnalyzer model debug coref)) = true).
Proof.
  cbn. split.
  - destruct (String.eqb x "conj"), (String.eqb x "appos"); cbn; intros;
      first [discriminate | reflexivity | now rewrite ?orb_true_r].
  - destruct (String.eqb x "cj"), (String.eqb x "app"); cbn; intros;
      first [discriminate | reflexivity | now rewrite ?orb_true_r].
Qed.

Lemma mark_if_righthand_sibling_pass_frame_witness :
  let marked :=
    snd (for_each_token
           (_mark_if_righthand_sibling english (Build_Limits 1000 1000 1000))
           doc_dog_or_cat) in
  siblings_only doc_dog_or_cat marked /\ no_own_sibling marked.
Proof.
  destruct (mark_if_righthand_sibling_pass_frame english (Build_Limits 1000 1000 1000)
              doc_dog_or_cat) as [Hframe Hown].
  split; [exact Hframe|]. apply Hown.
  - intros x. apply (sibling_markers_are_conjunction_labels "en_core_web_lg" false false).
  - intros p h Hp.
    do 3 (destruct p as [|p]; [injection Hp as <-; cbn; tauto|]).
    discriminate.
Defined.

(** In "dog or cat" the pass makes [cat] a righthand sibling of [dog] and
    notes the [or]; the dictionaries of [or] and of [cat] stay as they are. *)
Example dog_or_cat_marked :
  let r := for_each_token
             (_mark_if_righthand_sibling english (Build_Limits 1000 1000 1000))
             doc_dog_or_cat in
  fst r = Ok tt
  /\ dict_at (snd r) 0
     = Some (HolmesDictionary.set_is_involved_in_or_conjunction true
               (HolmesDictionary.set_righthand_siblings [2]
                  (HolmesDictionary.init 0 "dog")))
  /\ dict_at (snd r) 1 = Some (HolmesDictionary.init 1 "or")
  /\ dict_at (snd r) 2 = Some (HolmesDictionary.init 2 "cat").
Proof. vm_compute. repeat split; reflexivity. Qed.

Lemma lefthand_sibling_put_dict self p h doc depth :
  forall token,
    fst (_lefthand_sibling_recursively self depth token (put_dict p h doc))
    = fst (_lefthand_sibling_recursively self depth token doc).
Proof.
  induction depth as [|depth IH]; intros token; cbn [_lefthand_sibling_recursively];
    [reflexivity|].
  unfold bind, token_at. rewrite tokens_put_dict.
  destruct (Doc.tokens doc !! token) as [tok|]; [|reflexivity]. cbn [fmap option_fmap option_map].
  assert (Hdep : Token.dep_ ((if decide (p = token)
                              then Token.set_holmes (ExtDict h) else id) tok)
                 = Token.dep_ tok) by now destruct (decide (p = token)).
  assert (Hhead : Token.head ((if decide (p = token)
                               then Token.set_holmes (ExtDict h) else id) tok)
                  = Token.head tok) by now destruct (decide (p = token)).
  rewrite Hdep, Hhead.
  destruct (str_in (Token.dep_ tok) _); cbn [negb]; [apply IH | reflexivity].
Qed.

Lemma reads_only_lefthand_sibling self depth :
  forall token, reads_only (_lefthand_sibling_recursively self depth token).
Proof.
  induction depth as [|depth IH]; intros token; cbn [_lefthand_sibling_recursively].
  - intros doc. reflexivity.
  - apply reads_only_bind; [apply reads_only_token_at|]. intros tok.
    destruct (negb _); [apply reads_only_ret | apply IH].
Qed.

(** X9: [_lefthand_sibling_recursively] finds the token at which
    [_mark_if_righthand_sibling] has stored the sibling reference.  When the
    marking of a token with a sibling-marker label returns, and the
    recursion is then started from that token and returns, it returns another
    token, whose list of righthand siblings ends with the marked token; the
    recursion leaves the document as it is. *)
Theorem lefthand_sibling_holds_the_sibling_reference :
  forall (model : string) (debug coref : bool) (limits : Limits) (token : nat)
         (doc doc' doc'' : Doc.t) (tok : Token.t) (depth w : nat),
    Doc.tokens doc !! token = Some tok ->
    str_in (Token.dep_ tok)
      (SemanticAnalyzer.sibling_marker_deps (EnglishSemanticAnalyzer model debug coref))
    = true ->
    _mark_if_righthand_sibling (EnglishSemanticAnalyzer model debug coref) limits
      token doc = (Ok tt, doc') ->
    _lefthand_sibling_recursively (EnglishSemanticAnalyzer model debug coref) depth
      token doc' = (Ok w, doc'') ->
    w <> token
    /\ doc'' = doc'
    /\ exists hw,
         dict_at doc' w = Some hw
         /\ last (HolmesDictionary.righthand_siblings hw) = Some (Z.of_nat token).
Proof.
  intros model debug coref limits token doc doc' doc'' tok depth w Htok Hmark Hrun Hleft.
  apply mark_if_righthand_sibling_inv in Hrun
    as [[-> Hno]|(tok1 & w1 & wt & hw & flag & Htok1 & _ & Hclimb & Hwt & Hconj & Hw & _ & ->)].
  { destruct (Hno eq_refl) as (tok1 & Htok1 & Hfalse). congruence. }
  assert (tok1 = tok) by congruence. subst tok1.
  match type of Hleft with
  | _ ?d = _ => pose proof (reads_only_lefthand_sibling
                              (EnglishSemanticAnalyzer model debug coref)
                              depth token d) as Hr
  end.
  rewrite Hleft in Hr. cbn in Hr. subst doc''.
  pose proof (lefthand_sibling_put_dict (EnglishSemanticAnalyzer model debug coref)
                w1 (HolmesDictionary.set_is_involved_in_or_conjunction
                      (flag || HolmesDictionary.is_involved_in_or_conjunction hw)
                      (HolmesDictionary.set_righthand_siblings
                         (HolmesDictionary.righthand_siblings hw ++ [Z.of_nat token])
                         hw))
                doc depth token) as Hsame.
  rewrite Hleft in Hsame. cbn [fst] in Hsame.
  destruct (_lefthand_sibling_recursively _ depth token doc) as [r d0] eqn:Hl0.
  cbn [fst] in Hsame. subst r.
  assert (w = w1) by (eapply climb_is_lefthand_sibling; eauto). subst w1.
  split; [|split; [reflexivity|]].
  - intros ->. assert (wt = tok) by congruence. subst wt.
    apply (sibling_markers_are_conjunction_labels model debug coref) in Hmark.
    congruence.
  - eexists. split; [eapply dict_at_put_dict_eq; eauto|].
    cbn. apply last_snoc.
Qed.

Lemma lefthand_sibling_holds_the_sibling_reference_witness :
  exists hw,
    dict_at (snd (_mark_if_righthand_sibling english (Build_Limits 1000 1000 1000) 2
                    doc_dog_or_cat)) 0 = Some hw
    /\ last (HolmesDictionary.righthand_siblings hw) = Some 2.
Proof.
  eapply (lefthand_sibling_holds_the_sibling_reference "en_core_web_lg" false false
            (Build_Limits 1000 1000 1000) 2 doc_dog_or_cat _ _ _ 1000 0).
  - reflexivity.
  - reflexivity.
  - vm_compute. reflexivity.
  - vm_compute. reflexivity.
Defined.

(** X10: on a document whose head links lead from the token to a [ROOT]
    token in at most [n] steps, [_lefthand_sibling_recursively] returns
    within [n + 1] frames of recursion, leaves the document as it is, and
    returns a token whose label is no conjunction label; a token whose own
    label is no conjunction label is returned as it is. *)
Theorem lefthand_sibling_recursively_on_trees :
  forall (model : string) (debug coref : bool) (doc : Doc.t) (n token depth : nat),
    reaches_root doc n token ->
    (n < depth)%nat ->
    exists w wt,
      _lefthand_sibling_recursively (EnglishSemanticAnalyzer model debug coref) depth
        token doc = (Ok w, doc)
      /\ Doc.tokens doc !! w = Some wt
      /\ str_in (Token.dep_ wt)
           (SemanticAnalyzer._conjunction_deps
              (EnglishSemanticAnalyzer model debug coref)) = false
      /\ (forall tok, Doc.tokens doc !! token = Some tok ->
            str_in (Token.dep_ tok)
              (SemanticAnalyzer._conjunction_deps
                 (EnglishSemanticAnalyzer model debug coref)) = false ->
            w = token).
Proof.
  intros model debug coref doc n token depth Hr. revert depth.
  induction Hr as [n p tok Htok Hroot | n p tok Htok Hr IH]; intros depth Hd;
    (destruct depth as [|depth]; [lia|]); cbn [_lefthand_sibling_recursively];
    rewrite (bind_ok_intro _ _ _ _ _ (token_at_ok _ _ _ Htok)).
  - rewrite Hroot. cbn. exists p, tok. rewrite Hroot. cbn. auto.
  - destruct (str_in (Token.dep_ tok) _) eqn:Hconj; cbn [negb].
    + destruct (IH depth ltac:(lia)) as (w & wt & Hrun & Hwt & Hw & _).
      exists w, wt. repeat split; auto.
      intros tok' Htok' Hconj'. congruence.
    + exists p, tok. cbn. auto.
Qed.

Lemma lefthand_sibling_recursively_on_trees_witness :
  exists w wt,
    _lefthand_sibling_recursively english 2 2 doc_dog_or_cat = (Ok w, doc_dog_or_cat)
    /\ Doc.tokens doc_dog_or_cat !! w = Some wt
    /\ str_in (Token.dep_ wt) (SemanticAnalyzer._conjunction_deps english) = false
    /\ (forall tok, Doc.tokens doc_dog_or_cat !! 2%nat = Some tok ->
          str_in (Token.dep_ tok) (SemanticAnalyzer._conjunction_deps english) = false ->
          w = 2%nat).
Proof.
  apply (lefthand_sibling_recursively_on_trees "en_core_web_lg" false false
           doc_dog_or_cat 1 2 2).
  - eapply reaches_root_up; [reflexivity|].
    eapply reaches_root_here; reflexivity.
  - lia.
Defined.

(** ** Moving information between tokens *)

Lemma put_dict_comm p q h h' doc :
  p <> q -> put_dict p h (put_dict q h' doc) = put_dict q h' (put_dict p h doc).
Proof.
  intros Hne. unfold put_dict, Doc.set_tokens. cbn. f_equal.
  apply list_eq. intros i.
  destruct (decide (i = p)) as [Hp|Hp]; destruct (decide (i = q)) as [Hq|Hq];
    subst; try contradiction;
    rewrite ?list_lookup_alter_eq, ?list_lookup_alter_ne by auto;
    rewrite ?list_lookup_alter_eq, ?list_lookup_alter_ne by auto; reflexivity.
Qed.

Lemma filter_nil_existsb {A} (f : A -> bool) (l : list A) :
  List.filter f l = [] <-> existsb f l = false.
Proof.
  induction l as [|x l IH]; cbn; [tauto|].
  destruct (f x); cbn; [split; discriminate | exact IH].
Qed.

Lemma lookup_drop_head {A} (l : list A) k d rest :
  drop k l = d :: rest -> l !! k = Some d /\ drop (S k) l = rest.
Proof.
  revert k. induction l as [|x l IH]; intros [|k] H; cbn in *; try discriminate.
  - injection H as -> ->. split; [reflexivity | now rewrite drop_0].
  - apply IH in H. exact H.
Qed.

Lemma lookup_drop_nil {A} (l : list A) k : drop k l = [] -> l !! k = None.
Proof.
  revert k. induction l as [|x l IH]; intros [|k] H; cbn in *; try discriminate; auto.
Qed.

Section MoveInformationProofs.

Variable limits : Limits.
Variables from_token to_token : nat.
Hypothesis Hdistinct : from_token <> to_token.
Variables hf ht : HDict.
Variable linking_label : option string.

(** The loop that copies the edges of the source to the destination. *)
Lemma move_loop (rest : list SemDep) :
  forall k acc fuel doc,
    drop k (HolmesDictionary.children hf) = rest ->
    (length rest < fuel)%nat ->
    dict_at doc from_token = Some hf ->
    dict_at doc to_token
    = Some (HolmesDictionary.set_children (HolmesDictionary.children ht ++ acc) ht) ->
    Forall (fun d => SemanticDependency.child_index d < 0 ->
                     SemanticDependency.label d = None) rest ->
    for_live fuel from_token k
      (fun dependency (_ : unit) =>
         if negb (bool_decide (SemanticDependency.label dependency = linking_label))
         then
           let* ht := holmes_of to_token in
           when (negb (HolmesDictionary.has_dependency_with_child_index ht
                         (SemanticDependency.child_index dependency))
                 && negb (Z.of_nat to_token
                          =? SemanticDependency.child_index dependency))
             (let* _ := holmes_of to_token in
              let* dep := lift (SemanticDependency.init (Z.of_nat to_token)
                                  (SemanticDependency.child_index dependency)
                                  (SemanticDependency.label dependency)
                                  (SemanticDependency.is_uncertain dependency)) in
              append_child to_token dep)
         else ret tt)
      tt doc
    = (Ok tt,
       put_dict to_token
         (HolmesDictionary.set_children
            (HolmesDictionary.children ht
             ++ acc
             ++ moved_edges (Z.of_nat to_token) linking_label rest
                  (HolmesDictionary.children ht ++ acc)) ht)
         doc).
Proof.
  induction rest as [|d rest IH]; intros k acc fuel doc Hdrop Hfuel Hf Ht Hok;
    (destruct fuel as [|fuel]; [cbn in Hfuel; lia|]).
  - rewrite (for_live_end _ _ _ _ _ _ _ Hf (lookup_drop_nil _ _ Hdrop)).
    cbn [moved_edges]. rewrite app_nil_r. now rewrite put_dict_same.
  - apply lookup_drop_head in Hdrop as [Hk Hdrop].
    rewrite (for_live_step _ _ _ _ _ _ _ _ Hf Hk).
    apply Forall_cons in Hok as [Hd Hok]. cbn [length] in Hfuel.
    cbn [moved_edges].
    destruct (negb (bool_decide (SemanticDependency.label d = linking_label))) eqn:Hlab;
      cbn [andb].
    + unfold bind at 1.
      rewrite (bind_ok_intro _ _ _ _ _ (holmes_of_dict _ _ _ Ht)).
      unfold HolmesDictionary.has_dependency_with_child_index.
      cbn [HolmesDictionary.children HolmesDictionary.set_children].
      destruct (negb (existsb _ (HolmesDictionary.children ht ++ acc))
                && negb (Z.of_nat to_token =? SemanticDependency.child_index d))
        eqn:Hcond; cbn [when].
      * apply andb_true_iff in Hcond as [_ Hne]. apply negb_true_iff, Z.eqb_neq in Hne.
        rewrite (bind_ok_intro _ _ _ _ _ (holmes_of_dict _ _ _ Ht)).
        rewrite init_ok by auto.
        unfold lift at 1, bind at 1. unfold append_child.
        rewrite (update_holmes_ok _ _ _ _ Ht).
        rewrite (IH (S k)
                   (acc ++ [SemanticDependency.Build (Z.of_nat to_token)
                              (SemanticDependency.child_index d)
                              (SemanticDependency.label d)
                              (SemanticDependency.is_uncertain d)])%list fuel);
          [| exact Hdrop | lia | | | exact Hok].
        -- rewrite put_dict_put_dict. do 2 f_equal.
           rewrite <- ?app_assoc. cbn. rewrite <- ?app_assoc. reflexivity.
        -- now rewrite dict_at_put_dict_ne by auto.
        -- erewrite dict_at_put_dict_eq by eauto. f_equal.
           unfold HolmesDictionary.append_child, HolmesDictionary.set_children. cbn.
           now rewrite <- app_assoc.
      * unfold ret at 1. now apply IH; try lia.
    + unfold ret at 1, bind at 1. now apply IH; try lia.
Qed.

(** One round of the last loop. *)
Lemma redirect_step token doc h :
  dict_at doc token = Some h ->
  redirect_sibling_reference from_token to_token token doc
  = (Ok tt,
     put_dict token
       (HolmesDictionary.set_righthand_siblings
          (redirected_siblings from_token to_token token
             (HolmesDictionary.righthand_siblings h)) h)
       doc).
Proof.
  intros Hh. unfold redirect_sibling_reference, redirected_siblings.
  rewrite (bind_ok_intro _ _ _ _ _ (holmes_of_dict _ _ _ Hh)).
  destruct (existsb _ _); cbn [when].
  - unfold bind at 1. rewrite (update_holmes_ok _ _ _ _ Hh).
    destruct (Nat.eqb token to_token); cbn [when negb].
    + reflexivity.
    + erewrite update_holmes_ok by (eapply dict_at_put_dict_eq; eauto).
      now rewrite put_dict_put_dict.
  - unfold ret. f_equal. symmetry.
    replace (HolmesDictionary.set_righthand_siblings
               (HolmesDictionary.righthand_siblings h) h) with h by now destruct h.
    now apply put_dict_same.
Qed.

Lemma redirect_loop (n : nat) :
  forall start doc,
    (forall p, (start <= p < start + n)%nat -> is_Some (dict_at doc p)) ->
    exists doc',
      for_each (seq start n) (redirect_sibling_reference from_token to_token) doc
      = (Ok tt, doc')
      /\ forall p h,
           dict_at doc p = Some h ->
           dict_at doc' p
           = Some (if (start <=? p)%nat && (p <? start + n)%nat
                   then HolmesDictionary.set_righthand_siblings
                          (redirected_siblings from_token to_token p
                             (HolmesDictionary.righthand_siblings h)) h
                   else h).
Proof.
  induction n as [|n IH]; intros start doc Hall.
  - exists doc. split; [reflexivity|]. intros p h Hp.
    replace ((start <=? p)%nat && (p <? start + 0)%nat) with false; [exact Hp|].
    symmetry. apply andb_false_iff.
    destruct (Nat.leb_spec start p); [right; apply Nat.ltb_ge; lia | now left].
  - destruct (Hall start ltac:(lia)) as [h0 Hh0].
    cbn [seq for_each].
    rewrite (bind_ok_intro _ _ _ _ _ (redirect_step start doc h0 Hh0)).
    destruct (IH (S start)
                (put_dict start
                   (HolmesDictionary.set_righthand_siblings
                      (redirected_siblings from_token to_token start
                         (HolmesDictionary.righthand_siblings h0)) h0) doc))
      as (doc' & Hrun & Hdict).
    { intros p Hp. rewrite dict_at_put_dict_ne by lia. apply Hall. lia. }
    exists doc'. split; [exact Hrun|].
    intros p h Hp. destruct (decide (start = p)) as [<-|Hne].
    + assert (h = h0) by congruence. subst h.
      erewrite Hdict by (eapply dict_at_put_dict_eq; eauto).
      replace ((S start <=? start)%nat && (start <? S start + n)%nat) with false
        by (symmetry; apply andb_false_iff; left; apply Nat.leb_gt; lia).
      replace ((start <=? start)%nat && (start <? start + S n)%nat) with true
        by (symmetry; apply andb_true_iff; split;
            [apply Nat.leb_le | apply Nat.ltb_lt]; lia).
      reflexivity.
    + erewrite Hdict by (rewrite dict_at_put_dict_ne by auto; exact Hp).
      replace ((S start <=? p)%nat && (p <? S start + n)%nat)
        with ((start <=? p)%nat && (p <? start + S n)%nat); [reflexivity|].
      destruct (Nat.leb_spec start p), (Nat.leb_spec (S start) p),
        (Nat.ltb_spec p (start + S n)), (Nat.ltb_spec p (S start + n));
        cbn; try reflexivity; lia.
Qed.

(** The document that the method leaves, dictionary by dictionary. *)
Lemma move_information_result doc tf link rest :
  dict_at doc from_token = Some hf ->
  dict_at doc to_token = Some ht ->
  List.filter
    (fun dependency => SemanticDependency.child_index dependency =? Z.of_nat to_token)
    (HolmesDictionary.children hf) = link :: rest ->
  linking_label = SemanticDependency.label link ->
  Forall (fun d => SemanticDependency.child_index d < 0 ->
                   SemanticDependency.label d = None)
    (HolmesDictionary.children hf) ->
  (length (HolmesDictionary.children hf) < memory limits)%nat ->
  Doc.tokens doc !! from_token = Some tf ->
  (forall p, in_sentence (Token.sent tf) p = true -> is_Some (dict_at doc p)) ->
  exists doc',
    _move_information_between_tokens limits from_token to_token doc = (Ok tt, doc')
    /\ forall p h,
         dict_at
           (put_dict to_token
              (HolmesDictionary.Build (HolmesDictionary.index ht)
                 (HolmesDictionary.lemma ht)
                 (HolmesDictionary.children ht
                  ++ moved_edges (Z.of_nat to_token) linking_label
                       (HolmesDictionary.children hf) (HolmesDictionary.children ht))
                 (HolmesDictionary.righthand_siblings ht
                  ++ HolmesDictionary.righthand_siblings hf)
                 (HolmesDictionary.is_involved_in_or_conjunction hf
                  || HolmesDictionary.is_involved_in_or_conjunction ht)
                 (if bool_decide (HolmesDictionary.is_negated hf = Some true)
                  then Some true else HolmesDictionary.is_negated ht)
                 (HolmesDictionary.is_matchable ht))
              (put_dict from_token
                 (HolmesDictionary.set_children
                    [SemanticDependency.Build (Z.of_nat from_token)
                       (0 - (Z.of_nat to_token + 1)) None false] hf)
                 doc)) p = Some h ->
         dict_at doc' p
         = Some (if in_sentence (Token.sent tf) p
                 then HolmesDictionary.set_righthand_siblings
                        (redirected_siblings from_token to_token p
                           (HolmesDictionary.righthand_siblings h)) h
                 else h).
Proof.
  intros Hf Ht Hlink Hlab Hok Hmem Htf Hsent.
  set (hf2 := HolmesDictionary.set_children
                [SemanticDependency.Build (Z.of_nat from_token)
                   (0 - (Z.of_nat to_token + 1)) None false] hf).
  match goal with
  | |- context [dict_at (put_dict to_token ?h _) _] => set (ht5 := h)
  end.
  assert (Hrun :
            _move_information_between_tokens limits from_token to_token doc
            = for_each (sentence_positions (Token.sent tf))
                (redirect_sibling_reference from_token to_token)
                (put_dict to_token ht5 (put_dict from_token hf2 doc))).
  { unfold _move_information_between_tokens.
    rewrite (bind_ok_intro _ _ _ _ _ (holmes_of_dict _ _ _ Hf)), Hlink.
    rewrite <- Hlab.
    unfold bind at 1.
    rewrite (move_loop (HolmesDictionary.children hf) 0 [] (memory limits) doc
               eq_refl Hmem Hf
               ltac:(now rewrite app_nil_r, set_children_same) Hok).
    cbn [app]. rewrite app_nil_r.
    rewrite init_ok by (intros; lia || reflexivity).
    unfold lift at 1, bind at 1.
    erewrite bind_update_holmes by dict_now.
    erewrite bind_holmes_of by dict_now.
    erewrite bind_holmes_of by dict_now.
    erewrite bind_update_holmes by dict_now.
    erewrite bind_holmes_of by dict_now.
    erewrite bind_when_update_holmes by dict_now.
    erewrite bind_holmes_of by dict_now.
    erewrite bind_when_update_holmes by dict_now.
    erewrite bind_token_at by (rewrite !tokens_put_dict, Htf; reflexivity).
    replace (Token.sent _) with (Token.sent tf)
      by (destruct (decide (to_token = from_token)),
            (decide (from_token = from_token)); reflexivity).
    unfold sentence_positions. f_equal.
    rewrite !put_dict_put_dict.
    rewrite (put_dict_comm from_token to_token) by auto.
    rewrite put_dict_put_dict. f_equal.
    subst ht5 hf2. cbn.
    destruct (HolmesDictionary.is_involved_in_or_conjunction hf),
      (bool_decide (HolmesDictionary.is_negated hf = Some true)); reflexivity. }
  rewrite Hrun. unfold sentence_positions.
  destruct (redirect_loop (snd (Token.sent tf) - fst (Token.sent tf))
              (fst (Token.sent tf))
              (put_dict to_token ht5 (put_dict from_token hf2 doc)))
    as (doc' & Hloop & Hdict).
  { intros p Hp. assert (Hin : in_sentence (Token.sent tf) p = true).
    { unfold in_sentence. apply andb_true_iff.
      split; [apply Nat.leb_le | apply Nat.ltb_lt]; lia. }
    destruct (Hsent p Hin) as [h Hh].
    destruct (decide (to_token = p)) as [<-|Hto].
    { erewrite dict_at_put_dict_eq; [eauto|].
      rewrite dict_at_put_dict_ne by auto. eauto. }
    rewrite dict_at_put_dict_ne by auto.
    destruct (decide (from_token = p)) as [<-|Hfrom].
    { erewrite dict_at_put_dict_eq; eauto. }
    rewrite dict_at_put_dict_ne by auto. eauto. }
  exists doc'. split; [exact Hloop|].
  intros p h Hp. rewrite (Hdict p h Hp). f_equal.
  unfold in_sentence.
  replace (p <? fst (Token.sent tf) + (snd (Token.sent tf) - fst (Token.sent tf)))%nat
    with ((fst (Token.sent tf) <=? p)%nat && (p <? snd (Token.sent tf))%nat
          || negb (fst (Token.sent tf) <=? p)%nat
             && (p <? fst (Token.sent tf) + (snd (Token.sent tf) - fst (Token.sent tf)))%nat).
  - destruct (fst (Token.sent tf) <=? p)%nat; cbn; [|reflexivity].
    now rewrite orb_false_r.
  - destruct (Nat.leb_spec (fst (Token.sent tf)) p),
      (Nat.ltb_spec p (snd (Token.sent tf))),
      (Nat.ltb_spec p (fst (Token.sent tf)
                       + (snd (Token.sent tf) - fst (Token.sent tf))));
      cbn; try reflexivity; lia.
Qed.

End MoveInformationProofs.

Lemma moved_edges_origin to_token linking_label (source : list SemDep) :
  forall target,
    Forall (fun e => exists d, In d source
                      /\ SemanticDependency.label d <> linking_label
                      /\ e = SemanticDependency.Build to_token
                               (SemanticDependency.child_index d)
                               (SemanticDependency.label d)
                               (SemanticDependency.is_uncertain d))
      (moved_edges to_token linking_label source target).
Proof.
  induction source as [|d source IH]; intros target; cbn [moved_edges]; [constructor|].
  assert (Hrest : forall target,
             Forall (fun e => exists d0, In d0 (d :: source)
                               /\ SemanticDependency.label d0 <> linking_label
                               /\ e = SemanticDependency.Build to_token
                                        (SemanticDependency.child_index d0)
                                        (SemanticDependency.label d0)
                                        (SemanticDependency.is_uncertain d0))
               (moved_edges to_token linking_label source target)).
  { intros target'. eapply Forall_impl; [apply IH|].
    intros e (d0 & Hin & Hl & He). exists d0. split; [now right | auto]. }
  case_bool_decide as Hlab; cbn [negb andb]; [apply Hrest|].
  destruct (negb (existsb _ target) && negb (to_token =? _)); [|apply Hrest].
  constructor; [|apply Hrest]. exists d. split; [now left | auto].
Qed.

Lemma moved_edges_cover to_token linking_label (source : list SemDep) :
  forall target d,
    In d source ->
    SemanticDependency.label d <> linking_label ->
    SemanticDependency.child_index d <> to_token ->
    existsb (fun dependency =>
               SemanticDependency.child_index dependency
               =? SemanticDependency.child_index d)
      (target ++ moved_edges to_token linking_label source target) = true.
Proof.
  induction source as [|d0 source IH]; intros target d Hin Hl Hc; [destruct Hin|].
  cbn [moved_edges].
  destruct Hin as [->|Hin].
  - case_bool_decide as Hlab; [contradiction|]. cbn [negb andb].
    destruct (existsb _ target) eqn:Hex; cbn [negb andb].
    + rewrite existsb_app, Hex. reflexivity.
    + destruct (Z.eqb_spec to_token (SemanticDependency.child_index d));
        [congruence|]. cbn [negb].
      rewrite existsb_app. cbn [existsb SemanticDependency.child_index].
      rewrite Z.eqb_refl. cbn. apply orb_true_r.
  - destruct (negb (bool_decide (SemanticDependency.label d0 = linking_label))
              && (negb (existsb _ target) && negb (to_token =? _))).
    + replace (target ++ _ :: moved_edges to_token linking_label source (target ++ [_]))%list
        with ((target ++ [SemanticDependency.Build to_token
                            (SemanticDependency.child_index d0)
                            (SemanticDependency.label d0)
                            (SemanticDependency.is_uncertain d0)])
              ++ moved_edges to_token linking_label source
                   (target ++ [SemanticDependency.Build to_token
                                 (SemanticDependency.child_index d0)
                                 (SemanticDependency.label d0)
                                 (SemanticDependency.is_uncertain d0)]))%list
        by now rewrite <- app_assoc.
      now apply IH.
    + now apply IH.
Qed.

(** X11: [_move_information_between_tokens] between two different tokens.
    When the source has no edge to the destination, the call returns and
    changes nothing.  Otherwise, when the edges of the source with a negative
    child index carry no label, the tokens of the sentence have their
    dictionaries and memory suffices for the loop, the call returns; the
    source is left with a single edge, the unlabelled grammatical pointer
    [-(to_token.i + 1)]; the destination keeps its edges, in place, followed
    by copies of edges of the source whose label is not that of the linking
    edge, each with the child, label and uncertainty of its original; every
    such edge of the source with a child other than the destination has a
    counterpart with that child at the destination; the destination is part of
    an or-conjunction when one of the two was, and negated when the source
    was; and of every other token nothing changes but its list of righthand
    siblings. *)
Theorem move_information_between_tokens_moves_children :
  forall (limits : Limits) (from_token to_token : nat) (doc : Doc.t)
         (hf ht : HDict) (tf : Token.t),
    from_token <> to_token ->
    dict_at doc from_token = Some hf ->
    dict_at doc to_token = Some ht ->
    Doc.tokens doc !! from_token = Some tf ->
    (HolmesDictionary.has_dependency_with_child_index hf (Z.of_nat to_token) = false ->
     _move_information_between_tokens limits from_token to_token doc = (Ok tt, doc))
    /\ (forall link rest,
          List.filter
            (fun dependency =>
               SemanticDependency.child_index dependency =? Z.of_nat to_token)
            (HolmesDictionary.children hf) = link :: rest ->
          Forall (fun d => SemanticDependency.child_index d < 0 ->
                           SemanticDependency.label d = None)
            (HolmesDictionary.children hf) ->
          (length (HolmesDictionary.children hf) < memory limits)%nat ->
          (forall p, in_sentence (Token.sent tf) p = true -> is_Some (dict_at doc p)) ->
          exists doc' hf' ht' moved,
            _move_information_between_tokens limits from_token to_token doc
            = (Ok tt, doc')
            /\ dict_at doc' from_token = Some hf'
            /\ HolmesDictionary.children hf'
               = [SemanticDependency.Build (Z.of_nat from_token)
                    (0 - (Z.of_nat to_token + 1)) None false]
            /\ dict_at doc' to_token = Some ht'
            /\ HolmesDictionary.children ht'
               = (HolmesDictionary.children ht ++ moved)%list
            /\ Forall (fun e => exists d,
                          In d (HolmesDictionary.children hf)
                          /\ SemanticDependency.label d <> SemanticDependency.label link
                          /\ e = SemanticDependency.Build (Z.of_nat to_token)
                                   (SemanticDependency.child_index d)
                                   (SemanticDependency.label d)
                                   (SemanticDependency.is_uncertain d)) moved
            /\ (forall d, In d (HolmesDictionary.children hf) ->
                  SemanticDependency.label d <> SemanticDependency.label link ->
                  SemanticDependency.child_index d <> Z.of_nat to_token ->
                  HolmesDictionary.has_dependency_with_child_index ht'
                    (SemanticDependency.child_index d) = true)
            /\ HolmesDictionary.is_involved_in_or_conjunction ht'
               = HolmesDictionary.is_involved_in_or_conjunction hf
                 || HolmesDictionary.is_involved_in_or_conjunction ht
            /\ HolmesDictionary.is_negated ht'
               = (if bool_decide (HolmesDictionary.is_negated hf = Some true)
                  then Some true else HolmesDictionary.is_negated ht)
            /\ (forall q h, q <> from_token -> q <> to_token ->
                  dict_at doc q = Some h ->
                  exists h', dict_at doc' q = Some h'
                    /\ h' = HolmesDictionary.set_righthand_siblings
                              (HolmesDictionary.righthand_siblings h') h)).
Proof.
  intros limits from_token to_token doc hf ht tf Hne Hf Ht Htf. split.
  - intros Hno. unfold _move_information_between_tokens.
    rewrite (bind_holmes_of _ _ _ _ Hf).
    replace (List.filter _ (HolmesDictionary.children hf)) with (@nil SemDep);
      [reflexivity|].
    symmetry. apply filter_nil_existsb. exact Hno.
  - intros link rest Hlink Hok Hmem Hsent.
    destruct (move_information_result limits from_token to_token Hne hf ht
                (SemanticDependency.label link) doc tf link rest
                Hf Ht Hlink eq_refl Hok Hmem Htf Hsent) as (doc' & Hrun & Hdict).
    pose proof (Hdict from_token _
                  ltac:(rewrite dict_at_put_dict_ne by auto;
                        eapply dict_at_put_dict_eq; eauto)) as Hfrom.
    pose proof (Hdict to_token _
                  ltac:(eapply dict_at_put_dict_eq;
                        rewrite dict_at_put_dict_ne by auto; eauto)) as Hto.
    match type of Hfrom with _ = Some ?h => set (hf' := h) in * end.
    match type of Hto with _ = Some ?h => set (ht' := h) in * end.
    exists doc', hf', ht',
      (moved_edges (Z.of_nat to_token) (SemanticDependency.label link)
         (HolmesDictionary.children hf) (HolmesDictionary.children ht)).
    split; [exact Hrun|].
    split; [exact Hfrom|].
    split; [subst hf'; now destruct (in_sentence (Token.sent tf) from_token)|].
    split; [exact Hto|].
    assert (Hchildren : HolmesDictionary.children ht'
                        = (HolmesDictionary.children ht
                           ++ moved_edges (Z.of_nat to_token)
                                (SemanticDependency.label link)
                                (HolmesDictionary.children hf)
                                (HolmesDictionary.children ht))%list)
      by (subst ht'; destruct (in_sentence (Token.sent tf) to_token); reflexivity).
    split; [exact Hchildren|].
    split; [apply moved_edges_origin|].
    split.
    { intros d Hin Hl Hc.
      unfold HolmesDictionary.has_dependency_with_child_index.
      rewrite Hchildren. now apply moved_edges_cover. }
    split; [subst ht'; now destruct (in_sentence (Token.sent tf) to_token)|].
    split; [subst ht'; now destruct (in_sentence (Token.sent tf) to_token)|].
    intros q h Hqf Hqt Hq.
    rewrite (Hdict q h) by (rewrite !dict_at_put_dict_ne by auto; exact Hq).
    eexists. split; [reflexivity|].
    destruct (in_sentence (Token.sent tf) q); cbn; [reflexivity | now destruct h].
Qed.

Lemma move_information_between_tokens_moves_children_witness :
  exists doc' hf' ht',
    _move_information_between_tokens (Build_Limits 1000 1000 1000) 3 5
      doc_he_sang_and_used_to_dance = (Ok tt, doc')
    /\ dict_at doc' 3 = Some hf'
    /\ HolmesDictionary.children hf' = [SemanticDependency.Build 3 (-6) None false]
    /\ dict_at doc' 5 = Some ht'
    /\ HolmesDictionary.has_dependency_with_child_index ht' 0 = true.
Proof.
  destruct (move_information_between_tokens_moves_children
              (Build_Limits 1000 1000 1000) 3 5 doc_he_sang_and_used_to_dance
              (HolmesDictionary.Build 3 "use"
                 [dep 3 5 "xcomp"; SemanticDependency.Build 3 0 (Some "nsubj") true]
                 [] false (Some false) (Some true))
              (HolmesDictionary.Build 5 "dance" [dep 5 4 "aux"] [] false (Some false)
                 (Some true))
              (Token.set_holmes
                 (prepared 3 "use"
                    [dep 3 5 "xcomp"; SemanticDependency.Build 3 0 (Some "nsubj") true]
                    [] true)
                 (spacy_token "used" "use" "VERB" "VBD" "conj" 1 [5%nat] (0, 7)%nat))
              ltac:(lia) eq_refl eq_refl eq_refl) as [_ Hmove].
  destruct (Hmove (dep 3 5 "xcomp") []) as
    (doc' & hf' & ht' & moved & Hrun & Hf' & Hcf & Ht' & _ & _ & Hcover & _).
  - reflexivity.
  - repeat constructor; cbn; intros; lia.
  - cbn. lia.
  - intros p Hp. do 7 (destruct p as [|p]; [eexists; reflexivity|]). discriminate.
  - exists doc', hf', ht'. repeat split; auto.
    apply (Hcover (SemanticDependency.Build 3 0 (Some "nsubj") true)).
    + cbn. auto.
    + cbn. discriminate.
    + cbn. lia.
Defined.

Lemma existsb_Z_eqb_In (y : Z) (l : list Z) : existsb (Z.eqb y) l = true <-> In y l.
Proof.
  rewrite existsb_exists. split.
  - intros (x & Hx & E). apply Z.eqb_eq in E. now subst.
  - intros H. exists y. split; [exact H | apply Z.eqb_refl].
Qed.

Lemma list_remove_In (x y : Z) (l : list Z) : In x (list_remove y l) -> In x l.
Proof.
  induction l as [|z l IH]; cbn; [auto|].
  destruct (Z.eqb_spec z y); cbn; intuition.
Qed.

Lemma list_remove_In_ne (x y : Z) (l : list Z) :
  x <> y -> In x l -> In x (list_remove y l).
Proof.
  intros Hne. induction l as [|z l IH]; cbn; [auto|].
  destruct (Z.eqb_spec z y); cbn; intuition congruence.
Qed.

Lemma list_remove_NoDup (y : Z) (l : list Z) : NoDup l -> ~ In y (list_remove y l).
Proof.
  induction 1 as [|z l Hz Hl IH]; cbn; [auto|].
  destruct (Z.eqb_spec z y) as [->|Hne].
  - intros Hin. apply Hz. now apply list_elem_of_In.
  - cbn. intros [E|Hin]; [contradiction | auto].
Qed.

Lemma list_remove_app (y : Z) (l1 l2 : list Z) :
  In y l1 -> list_remove y (l1 ++ l2) = (list_remove y l1 ++ l2)%list.
Proof.
  induction l1 as [|z l1 IH]; cbn; [intros []|].
  destruct (Z.eqb_spec z y); [reflexivity|].
  intros [E|Hin]; [contradiction|]. cbn. now rewrite IH.
Qed.

Lemma redirected_siblings_spec from_token to_token p (rs : list Z) :
  from_token <> to_token ->
  ~ In (Z.of_nat from_token) (list_remove (Z.of_nat from_token) rs) ->
  ~ In (Z.of_nat from_token) (redirected_siblings from_token to_token p rs)
  /\ (In (Z.of_nat from_token) rs -> p <> to_token ->
      In (Z.of_nat to_token) (redirected_siblings from_token to_token p rs))
  /\ (forall x, x <> Z.of_nat from_token -> In x rs ->
        In x (redirected_siblings from_token to_token p rs)).
Proof.
  intros Hne Hrem. unfold redirected_siblings.
  destruct (existsb (Z.eqb (Z.of_nat from_token)) rs) eqn:Hex.
  - destruct (Nat.eqb_spec p to_token) as [->|Hp].
    + repeat split; [exact Hrem | contradiction |].
      intros x Hx Hin. now apply list_remove_In_ne.
    + repeat split.
      * rewrite in_app_iff. intros [H|[H|[]]]; [contradiction|].
        apply Nat2Z.inj in H. congruence.
      * intros _ _. rewrite in_app_iff. right. now left.
      * intros x Hx Hin. rewrite in_app_iff. left. now apply list_remove_In_ne.
  - assert (Hnot : ~ In (Z.of_nat from_token) rs).
    { intros Hin. apply existsb_Z_eqb_In in Hin. congruence. }
    repeat split; auto. contradiction.
Qed.

(** X12: after [_move_information_between_tokens], under the conditions
    under which it returns and when no list of righthand siblings holds a
    token twice and the source is not its own righthand sibling: no token of
    the sentence of the source lists the source as a righthand sibling; each
    token of the sentence other than the destination that did list the source
    lists the destination instead; every other sibling reference of a token of
    the sentence is kept; the destination lists the righthand siblings of the
    source; and the lists of the tokens outside the sentence, the destination
    apart, are as they were. *)
Theorem move_information_between_tokens_redirects_siblings :
  forall (limits : Limits) (from_token to_token : nat) (doc : Doc.t)
         (hf ht : HDict) (tf : Token.t) (link : SemDep) (rest : list SemDep),
    from_token <> to_token ->
    dict_at doc from_token = Some hf ->
    dict_at doc to_token = Some ht ->
    Doc.tokens doc !! from_token = Some tf ->
    List.filter
      (fun dependency =>
         SemanticDependency.child_index dependency =? Z.of_nat to_token)
      (HolmesDictionary.children hf) = link :: rest ->
    Forall (fun d => SemanticDependency.child_index d < 0 ->
                     SemanticDependency.label d = None)
      (HolmesDictionary.children hf) ->
    (length (HolmesDictionary.children hf) < memory limits)%nat ->
    (forall p, in_sentence (Token.sent tf) p = true -> is_Some (dict_at doc p)) ->
    (forall p h, dict_at doc p = Some h ->
                 NoDup (HolmesDictionary.righthand_siblings h)) ->
    ~ In (Z.of_nat from_token) (HolmesDictionary.righthand_siblings hf) ->
    exists doc',
      _move_information_between_tokens limits from_token to_token doc = (Ok tt, doc')
      /\ (forall p h,
            in_sentence (Token.sent tf) p = true ->
            dict_at doc p = Some h ->
            exists h',
              dict_at doc' p = Some h'
              /\ ~ In (Z.of_nat from_token) (HolmesDictionary.righthand_siblings h')
              /\ (In (Z.of_nat from_token) (HolmesDictionary.righthand_siblings h) ->
                  p <> to_token ->
                  In (Z.of_nat to_token) (HolmesDictionary.righthand_siblings h'))
              /\ (forall x, x <> Z.of_nat from_token ->
                    In x (HolmesDictionary.righthand_siblings h) ->
                    In x (HolmesDictionary.righthand_siblings h')))
      /\ (exists ht',
            dict_at doc' to_token = Some ht'
            /\ forall x, In x (HolmesDictionary.righthand_siblings hf) ->
                 In x (HolmesDictionary.righthand_siblings ht'))
      /\ (forall p h,
            in_sentence (Token.sent tf) p = false -> p <> to_token ->
            dict_at doc p = Some h ->
            exists h', dict_at doc' p = Some h'
              /\ HolmesDictionary.righthand_siblings h'
                 = HolmesDictionary.righthand_siblings h).
Proof.
  intros limits from_token to_token doc hf ht tf link rest
    Hne Hf Ht Htf Hlink Hok Hmem Hsent Hnodup Hown.
  destruct (move_information_result limits from_token to_token Hne hf ht
              (SemanticDependency.label link) doc tf link rest
              Hf Ht Hlink eq_refl Hok Hmem Htf Hsent) as (doc' & Hrun & Hdict).
  pose proof (Hdict to_token _
                ltac:(eapply dict_at_put_dict_eq;
                      rewrite dict_at_put_dict_ne by auto; eauto)) as Hto.
  assert (Hto_rem :
            ~ In (Z.of_nat from_token)
                (list_remove (Z.of_nat from_token)
                   (HolmesDictionary.righthand_siblings ht
                    ++ HolmesDictionary.righthand_siblings hf))).
  { destruct (in_dec Z.eq_dec (Z.of_nat from_token)
                (HolmesDictionary.righthand_siblings ht)) as [Hin|Hnin].
    - rewrite list_remove_app by exact Hin. rewrite in_app_iff.
      intros [H|H]; [|contradiction].
      revert H. apply list_remove_NoDup. eapply Hnodup; eauto.
    - intros H. apply list_remove_In in H. apply in_app_iff in H. tauto. }
  exists doc'. split; [exact Hrun|]. split; [|split].
  - intros p h Hp Hh. destruct (decide (p = to_token)) as [->|Hpt].
    + assert (h = ht) by congruence. subst h.
      rewrite Hto, Hp. eexists. split; [reflexivity|]. cbn.
      destruct (redirected_siblings_spec from_token to_token to_token
                  (HolmesDictionary.righthand_siblings ht
                   ++ HolmesDictionary.righthand_siblings hf) Hne Hto_rem)
        as (H1 & H2 & H3).
      split; [exact H1|]. split; [contradiction|].
      intros x Hx Hin. apply H3; [exact Hx|]. rewrite in_app_iff. now left.
    + destruct (decide (p = from_token)) as [->|Hpf].
      * assert (h = hf) by congruence. subst h.
        rewrite (Hdict from_token _
                   ltac:(rewrite dict_at_put_dict_ne by auto;
                         eapply dict_at_put_dict_eq; eauto)), Hp.
        eexists. split; [reflexivity|]. cbn.
        apply redirected_siblings_spec; [exact Hne|].
        intros H. apply list_remove_In in H. contradiction.
      * rewrite (Hdict p h) by (rewrite !dict_at_put_dict_ne by auto; exact Hh).
        rewrite Hp. eexists. split; [reflexivity|]. cbn.
        apply redirected_siblings_spec; [exact Hne|].
        apply list_remove_NoDup. eapply Hnodup; eauto.
  - rewrite Hto. eexists. split; [reflexivity|].
    intros x Hx.
    assert (Hxf : x <> Z.of_nat from_token) by (intros ->; contradiction).
    destruct (in_sentence (Token.sent tf) to_token); cbn.
    + destruct (redirected_siblings_spec from_token to_token to_token
                  (HolmesDictionary.righthand_siblings ht
                   ++ HolmesDictionary.righthand_siblings hf) Hne Hto_rem)
        as (_ & _ & H3).
      apply H3; [exact Hxf|]. rewrite in_app_iff. now right.
    + rewrite in_app_iff. now right.
  - intros p h Hp Hpt Hh. destruct (decide (p = from_token)) as [->|Hpf].
    + assert (h = hf) by congruence. subst h.
      rewrite (Hdict from_token _
                 ltac:(rewrite dict_at_put_dict_ne by auto;
                       eapply dict_at_put_dict_eq; eauto)), Hp.
      eexists. split; reflexivity.
    + rewrite (Hdict p h) by (rewrite !dict_at_put_dict_ne by auto; exact Hh).
      rewrite Hp. eexists. split; reflexivity.
Qed.

Lemma move_information_between_tokens_redirects_siblings_witness :
  exists doc' h',
    _move_information_between_tokens (Build_Limits 1000 1000 1000) 3 5
      doc_he_sang_and_used_to_dance = (Ok tt, doc')
    /\ dict_at doc' 1 = Some h'
    /\ ~ In 3 (HolmesDictionary.righthand_siblings h')
    /\ In 5 (HolmesDictionary.righthand_siblings h').
Proof.
  destruct (move_information_between_tokens_redirects_siblings
              (Build_Limits 1000 1000 1000) 3 5 doc_he_sang_and_used_to_dance
              (HolmesDictionary.Build 3 "use"
                 [dep 3 5 "xcomp"; SemanticDependency.Build 3 0 (Some "nsubj") true]
                 [] false (Some false) (Some true))
              (HolmesDictionary.Build 5 "dance" [dep 5 4 "aux"] [] false (Some false)
                 (Some true))
              (Token.set_holmes
                 (prepared 3 "use"
                    [dep 3 5 "xcomp"; SemanticDependency.Build 3 0 (Some "nsubj") true]
                    [] true)
                 (spacy_token "used" "use" "VERB" "VBD" "conj" 1 [5%nat] (0, 7)%nat))
              (dep 3 5 "xcomp") [])
    as (doc' & Hrun & Hsent & _).
  - lia.
  - reflexivity.
  - reflexivity.
  - reflexivity.
  - reflexivity.
  - repeat constructor; cbn; intros; lia.
  - cbn. lia.
  - intros p Hp. do 7 (destruct p as [|p]; [eexists; reflexivity|]). discriminate.
  - intros p h Hp.
    do 7 (destruct p as [|p];
          [injection Hp as <-; cbn; repeat constructor; set_solver|]).
    discriminate.
  - cbn. tauto.
  - destruct (Hsent 1%nat
                (HolmesDictionary.Build 1 "sing"
                   [dep 1 0 "nsubj"; dep 1 2 "cc"; dep 1 3 "conj"] [3] false
                   (Some false) (Some true)) eq_refl eq_refl)
      as (h' & Hh' & Hnot & Hto & _).
    exists doc', h'. repeat split; auto.
    apply Hto; [cbn; auto | lia].
Defined.

(** ** The German language-specific tasks *)

Section WithinRecursionLimit.

Variable n : nat.

Lemma wrl_ret {A} (Q : A -> Prop) (a : A) : Q a -> within_recursion_limit n Q (ret a).
Proof. intros HQ doc HL. cbn. auto. Qed.

Lemma wrl_raise {A} (Q : A -> Prop) (e : Error) :
  e <> RecursionError -> within_recursion_limit n Q (raise e).
Proof. intros He doc HL. cbn. auto. Qed.

Lemma wrl_bind {A B} (Q : A -> Prop) (Q' : B -> Prop) (m : M A) (k : A -> M B) :
  within_recursion_limit n Q m ->
  (forall a, Q a -> within_recursion_limit n Q' (k a)) ->
  within_recursion_limit n Q' (bind m k).
Proof.
  intros Hm Hk doc HL. unfold bind. specialize (Hm doc HL).
  destruct (m doc) as [[a|e] doc1]; cbn in *.
  - destruct Hm as [HL1 HQ]. exact (Hk a HQ doc1 HL1).
  - exact Hm.
Qed.

Lemma wrl_weaken {A} (Q Q' : A -> Prop) (m : M A) :
  within_recursion_limit n Q m -> (forall a, Q a -> Q' a) ->
  within_recursion_limit n Q' m.
Proof.
  intros Hm HQ doc HL. specialize (Hm doc HL).
  destruct (m doc) as [[a|e] doc1]; cbn in *; intuition.
Qed.

Lemma wrl_lift {A} (r : Result A) :
  (forall e, r = Raise e -> e <> RecursionError) ->
  within_recursion_limit n (fun a => r = Ok a) (lift r).
Proof. intros Hr doc HL. cbn. split; [exact HL|]. destruct r; auto. Qed.

Lemma init_never_recursion_error p c l u e :
  SemanticDependency.init p c l u = Raise e -> e <> RecursionError.
Proof.
  unfold SemanticDependency.init.
  destruct (_ && _); [intros [= <-]; discriminate|].
  destruct (p =? c); intros [= <-]; discriminate.
Qed.

Lemma wrl_init p c l u :
  within_recursion_limit n (fun _ => True) (lift (SemanticDependency.init p c l u)).
Proof.
  eapply wrl_weaken; [apply wrl_lift|auto].
  intros e. apply init_never_recursion_error.
Qed.

Lemma wrl_doc_getitem i :
  within_recursion_limit n (fun p => (p < n)%nat) (doc_getitem i).
Proof.
  intros doc HL. unfold doc_getitem.
  destruct (py_index (Doc.len doc) i) as [p|] eqn:E; cbn.
  - split; [exact HL|]. rewrite <- HL. eapply py_index_lt; eauto.
  - split; [exact HL | discriminate].
Qed.

Lemma wrl_token_at p : within_recursion_limit n (fun _ => True) (token_at p).
Proof.
  intros doc HL. unfold token_at.
  destruct (Doc.tokens doc !! p); cbn; split; auto; discriminate.
Qed.

Lemma wrl_holmes_of p : within_recursion_limit n (fun _ => True) (holmes_of p).
Proof.
  unfold holmes_of. eapply wrl_bind; [apply wrl_token_at|].
  intros tok _. destruct (Token.holmes tok);
    first [now apply wrl_ret | apply wrl_raise; discriminate].
Qed.

Lemma wrl_update_holmes p f :
  within_recursion_limit n (fun _ => True) (update_holmes p f).
Proof.
  unfold update_holmes. eapply wrl_bind; [apply wrl_holmes_of|].
  intros h _ doc HL. cbn. split; [|exact I].
  rewrite <- HL. apply len_put_dict.
Qed.

Lemma wrl_append_child p d :
  within_recursion_limit n (fun _ => True) (append_child p d).
Proof. apply wrl_update_holmes. Qed.

Lemma wrl_when (b : bool) (m : M unit) :
  within_recursion_limit n (fun _ => True) m ->
  within_recursion_limit n (fun _ => True) (when b m).
Proof. destruct b; cbn; [auto | intros _; now apply wrl_ret]. Qed.

Lemma wrl_for_each {A} (l : list A) (body : A -> M unit) :
  (forall x, within_recursion_limit n (fun _ => True) (body x)) ->
  within_recursion_limit n (fun _ => True) (for_each l body).
Proof.
  intros Hb. induction l as [|x l IH]; cbn; [now apply wrl_ret|].
  eapply wrl_bind; [apply Hb | intros _ _; exact IH].
Qed.

Lemma wrl_filter_m {A} (l : list A) (test : A -> M bool) :
  (forall x, within_recursion_limit n (fun _ => True) (test x)) ->
  within_recursion_limit n (fun _ => True) (filter_m l test).
Proof.
  intros Ht. induction l as [|x l IH]; cbn; [now apply wrl_ret|].
  eapply wrl_bind; [apply Ht|]. intros b _.
  eapply wrl_bind; [exact IH|]. intros rest _. now apply wrl_ret.
Qed.

Lemma wrl_for_live {St} (body : SemDep -> St -> M St) fuel :
  (forall d acc, within_recursion_limit n (fun _ => True) (body d acc)) ->
  forall p k acc, within_recursion_limit n (fun _ => True) (for_live fuel p k body acc).
Proof.
  intros Hb. induction fuel as [|fuel IH]; intros p k acc; cbn [for_live].
  - apply wrl_raise. discriminate.
  - eapply wrl_bind; [apply wrl_holmes_of|]. intros h _.
    destruct (HolmesDictionary.children h !! k); [|now apply wrl_ret].
    eapply wrl_bind; [apply Hb|]. intros acc' _. apply IH.
Qed.

Lemma filter_length_le {A} (f g : A -> bool) (l : list A) :
  (forall x, f x = true -> g x = true) ->
  (length (List.filter f l) <= length (List.filter g l))%nat.
Proof.
  intros Hfg. induction l as [|x l IH]; cbn; [lia|].
  destruct (f x) eqn:Hf.
  - rewrite (Hfg x Hf). cbn. lia.
  - destruct (g x); cbn; lia.
Qed.

Lemma filter_length_lt {A} (f g : A -> bool) (l : list A) x :
  (forall y, f y = true -> g y = true) ->
  In x l -> f x = false -> g x = true ->
  (length (List.filter f l) < length (List.filter g l))%nat.
Proof.
  intros Hfg. induction l as [|y l IH]; cbn; [intros []|].
  intros [->|Hin] Hf Hg.
  - rewrite Hf, Hg. cbn. pose proof (filter_length_le f g l Hfg). lia.
  - specialize (IH Hin Hf Hg). destruct (f y) eqn:Hfy.
    + rewrite (Hfg y Hfy). cbn. lia.
    + destruct (g y); cbn; lia.
Qed.

Lemma existsb_Nat_eqb_In (p : nat) (l : list nat) :
  existsb (Nat.eqb p) l = true <-> In p l.
Proof.
  rewrite existsb_exists. split.
  - intros (x & Hx & E). apply Nat.eqb_eq in E. now subst.
  - intros H. exists p. split; [exact H | apply Nat.eqb_refl].
Qed.

Lemma unvisited_mono (v v' : list nat) :
  (forall p, In p v -> In p v') -> (unvisited n v' <= unvisited n v)%nat.
Proof.
  intros Hsub. apply filter_length_le. intros p Hp.
  apply negb_true_iff in Hp. apply negb_true_iff.
  destruct (existsb (Nat.eqb p) v) eqn:E; [|reflexivity].
  apply existsb_Nat_eqb_In, Hsub, existsb_Nat_eqb_In in E. congruence.
Qed.

Lemma unvisited_fresh (v : list nat) (p : nat) :
  (p < n)%nat -> ~ In p v -> (unvisited n (v ++ [p]) < unvisited n v)%nat.
Proof.
  intros Hp Hfresh. apply (filter_length_lt _ _ _ p).
  - intros q Hq. apply negb_true_iff in Hq. apply negb_true_iff.
    rewrite existsb_app in Hq. now apply orb_false_iff in Hq as [Hq _].
  - apply in_seq. lia.
  - apply negb_false_iff. rewrite existsb_app. cbn. rewrite Nat.eqb_refl.
    now rewrite orb_true_r.
  - apply negb_true_iff. destruct (existsb (Nat.eqb p) v) eqn:E; [|reflexivity].
    apply existsb_Nat_eqb_In in E. contradiction.
Qed.

Lemma unvisited_le (v : list nat) : (unvisited n v <= n)%nat.
Proof.
  unfold unvisited. etransitivity; [apply List.filter_length_le|].
  now rewrite length_seq.
Qed.

(** The nested function does not exhaust a recursion depth that exceeds the
    number of tokens it has not visited. *)
Lemma find_target_within_limit depth :
  forall token visited,
    (unvisited n (visited ++ [token]) < depth)%nat ->
    within_recursion_limit n (found_targets visited token)
      (find_target_tokens_and_dependency_recursively depth token visited).
Proof.
  induction depth as [|depth IH]; intros token visited Hdepth; [lia|].
  cbn [find_target_tokens_and_dependency_recursively].
  eapply wrl_bind; [apply wrl_holmes_of|]. intros h _.
  set (grammatical := List.filter _ (HolmesDictionary.children h)).
  destruct (0 <? length grammatical)%nat eqn:Hnonempty.
  2:{ apply wrl_ret. cbn. repeat split.
      - discriminate.
      - now left.
      - exists []. reflexivity.
      - constructor; [|constructor]. apply in_app_iff. right. now left. }
  assert (Hloop :
            forall (l : list SemDep) ts dp vk,
              (dp = "sb" \/ dp = "oa") ->
              (exists more, vk = ((visited ++ [token]) ++ more)%list) ->
              Forall (fun t => In t vk) ts ->
              within_recursion_limit n
                (fun result =>
                   let '(ts', dp', vk') := result in
                   (dp' = "sb" \/ dp' = "oa")
                   /\ (exists more, vk' = ((visited ++ [token]) ++ more)%list)
                   /\ Forall (fun t => In t vk') ts'
                   /\ (ts <> [] \/ l <> [] -> ts' <> []))
                (fold_m l
                   (fun dependency '(tokens_to_return, target_dependency, visited0) =>
                      let* child_token :=
                        doc_getitem (0 - (SemanticDependency.child_index dependency + 1)) in
                      let* tc := token_at child_token in
                      let target_dependency0 :=
                        if String.eqb (HolmesDictionary.lemma h) "werden"
                           && negb (str_in (Token.tag_ tc) infinitive_tags)
                        then "oa" else target_dependency in
                      if negb (existsb (Nat.eqb child_token) visited0) then
                        let* (new_tokens, new_target_dependency, visited1) :=
                          find_target_tokens_and_dependency_recursively depth
                            child_token visited0 in
                        ret ((tokens_to_return ++ new_tokens)%list,
                             (if String.eqb new_target_dependency "oa"
                              then "oa" else target_dependency0),
                             visited1)
                      else
                        ret ((tokens_to_return ++ [token])%list, target_dependency0,
                             visited0))
                   (ts, dp, vk))).
  { induction l as [|d l IHl]; intros ts dp vk Hdp Hvk Hts; cbn [fold_m].
    - apply wrl_ret. repeat split; auto. intros [H|H]; [exact H | contradiction].
    - eapply wrl_bind with
        (Q := fun result =>
                let '(ts', dp', vk') := result in
                (dp' = "sb" \/ dp' = "oa")
                /\ (exists more, vk' = ((visited ++ [token]) ++ more)%list)
                /\ Forall (fun t => In t vk') ts'
                /\ ts' <> []).
      + eapply wrl_bind; [apply wrl_doc_getitem|]. intros child Hchild.
        eapply wrl_bind; [apply wrl_token_at|]. intros tc _.
        assert (Hdp' : forall b : bool, (if b then "oa" else dp) = "sb"
                                        \/ (if b then "oa" else dp) = "oa")
          by (intros []; auto).
        destruct (existsb (Nat.eqb child) vk) eqn:Hseen; cbn [negb].
        * apply wrl_ret. repeat split; auto.
          -- apply Forall_app. split; [exact Hts|].
             constructor; [|constructor].
             destruct Hvk as [more ->]. apply in_app_iff. left.
             apply in_app_iff. right. now left.
          -- now destruct ts.
        * eapply wrl_bind.
          -- apply IH.
             assert (Hfresh : ~ In child vk).
             { intros Hin. apply existsb_Nat_eqb_In in Hin. congruence. }
             pose proof (unvisited_fresh vk child Hchild Hfresh).
             assert (unvisited n vk <= unvisited n (visited ++ [token]))%nat.
             { apply unvisited_mono. intros p Hp. destruct Hvk as [more ->].
               apply in_app_iff. now left. }
             lia.
          -- intros [[new_tokens ndp] vk'] (Hnew & Hndp & [more' Hvk'] & Hin).
             apply wrl_ret. repeat split.
             ++ destruct (String.eqb ndp "oa"); auto.
             ++ destruct Hvk as [more ->]. exists (more ++ child :: more')%list.
                rewrite Hvk'. now rewrite <- !app_assoc.
             ++ apply Forall_app. split; [|exact Hin].
                eapply Forall_impl; [exact Hts|]. intros t Ht. rewrite Hvk'.
                apply in_app_iff. now left.
             ++ destruct ts; [cbn; exact Hnew | discriminate].
      + intros [[ts' dp'] vk'] (Hdp' & Hvk' & Hts' & Hne).
        eapply wrl_weaken; [apply IHl; auto|].
        intros [[ts'' dp''] vk''] (H1 & H2 & H3 & H4).
        repeat split; auto. }
  eapply wrl_weaken.
  - apply (Hloop grammatical [] "sb" (visited ++ [token])%list).
    + now left.
    + exists []. now rewrite app_nil_r.
    + constructor.
  - intros [[ts' dp'] vk'] (H1 & [more H2] & H3 & H4). cbn. repeat split; auto.
    + apply H4. right. intros E. rewrite E in Hnonempty. discriminate.
    + exists more. rewrite H2. now rewrite <- app_assoc.
Qed.

End WithinRecursionLimit.

Lemma reads_only_find_target depth :
  forall token visited,
    reads_only (find_target_tokens_and_dependency_recursively depth token visited).
Proof.
  induction depth as [|depth IH]; intros token visited;
    cbn [find_target_tokens_and_dependency_recursively].
  - intros doc. reflexivity.
  - apply reads_only_bind; [apply reads_only_holmes_of|]. intros h.
    destruct (0 <? _)%nat; [|apply reads_only_ret].
    apply reads_only_fold_m. intros d [[ts dp] vk].
    apply reads_only_bind; [apply reads_only_doc_getitem|]. intros child.
    apply reads_only_bind; [apply reads_only_token_at|]. intros tc.
    destruct (negb _); [|apply reads_only_ret].
    apply reads_only_bind; [apply IH|]. intros [[nt nd] v1]. apply reads_only_ret.
Qed.

(** X13: the nested function [find_target_tokens_and_dependency_recursively]
    of the German analyzer is guarded by its list [visited].  Whatever the
    grammatical pointers of the document, cycles among them, and whatever
    the list holds at the call, a recursion limit above the number of tokens
    is never exhausted; the document is left as it is; and when the call
    returns, it returns at least one target token (so that [target_tokens[0]]
    of the caller exists), a dependency that is [sb] or [oa], and the list
    [visited] extended by the token and the tokens visited below it, among
    which all returned tokens are. *)
Theorem find_target_tokens_guarded_by_visited :
  forall (depth token : nat) (visited : list nat) (doc : Doc.t),
    (Doc.len doc < depth)%nat ->
    snd (find_target_tokens_and_dependency_recursively depth token visited doc) = doc
    /\ match fst (find_target_tokens_and_dependency_recursively depth token visited doc)
       with
       | Ok result => found_targets visited token result
       | Raise e => e <> RecursionError
       end.
Proof.
  intros depth token visited doc Hdepth. split; [apply reads_only_find_target|].
  apply (find_target_within_limit (Doc.len doc) depth token visited); [|reflexivity].
  pose proof (unvisited_le (Doc.len doc) (visited ++ [token])). lia.
Qed.

Lemma find_target_tokens_guarded_by_visited_witness :
  match fst (find_target_tokens_and_dependency_recursively 3 0 [] doc_pointer_cycle)
  with
  | Ok result => found_targets [] 0 result
  | Raise e => e <> RecursionError
  end.
Proof.
  apply (find_target_tokens_guarded_by_visited 3 0 [] doc_pointer_cycle).
  cbn. lia.
Defined.

(** On the two tokens that point at each other the call for the first one
    ends at the second. *)
Example find_target_on_pointer_cycle :
  fst (find_target_tokens_and_dependency_recursively 3 0 [] doc_pointer_cycle)
  = Ok ([1%nat], "sb", [0; 1]%nat).
Proof. vm_compute. reflexivity. Qed.

Section KeepsMore.

Variable R : Doc.t -> Doc.t -> Prop.
Context `{!Reflexive R, !Transitive R}.

Lemma keeps_for_live {St} (body : SemDep -> St -> M St) fuel :
  (forall d acc, keeps R (body d acc)) ->
  forall p k acc, keeps R (for_live fuel p k body acc).
Proof.
  intros Hb. induction fuel as [|fuel IH]; intros p k acc; cbn [for_live].
  - apply keeps_raise; typeclasses eauto.
  - apply keeps_bind; [typeclasses eauto.. | apply keeps_holmes_of; typeclasses eauto |].
    intros h. destruct (HolmesDictionary.children h !! k).
    + apply keeps_bind; [typeclasses eauto.. | apply Hb | intros acc'; apply IH].
    + apply keeps_ret; typeclasses eauto.
Qed.

Lemma keeps_fold_m {A St} (l : list A) (body : A -> St -> M St) :
  (forall x acc, keeps R (body x acc)) -> forall acc, keeps R (fold_m l body acc).
Proof.
  intros Hb. induction l as [|x l IH]; intros acc; cbn [fold_m].
  - apply keeps_ret; typeclasses eauto.
  - apply keeps_bind; [typeclasses eauto.. | apply Hb | intros acc'; apply IH].
Qed.

End KeepsMore.

Lemma reads_only_is_um_zu d : reads_only (is_um_zu d).
Proof. unfold is_um_zu. repeat reads_only_step. Qed.

Lemma reads_only_is_forcing_object d : reads_only (is_forcing_object d).
Proof. unfold is_forcing_object. repeat reads_only_step. Qed.

Lemma reads_only_find_target_default limits token defaults :
  reads_only (find_target_tokens_and_dependency limits token defaults).
Proof.
  unfold find_target_tokens_and_dependency.
  apply reads_only_bind; [apply reads_only_find_target|].
  intros [[ts dp] v]. apply reads_only_ret.
Qed.

Lemma keeps_span_von_preposition limits token :
  keeps (grows projected_edge) (span_von_preposition limits token).
Proof.
  unfold span_von_preposition.
  apply keeps_for_live; [typeclasses eauto..|]. intros d [].
  apply keeps_bind; [typeclasses eauto..| |].
  { apply reads_only_keeps; [typeclasses eauto|]. repeat reads_only_step. }
  intros selected. apply keeps_when; [typeclasses eauto..|].
  apply keeps_bind; [typeclasses eauto.. | apply keeps_doc_getitem; typeclasses eauto |].
  intros child. apply keeps_for_live; [typeclasses eauto..|]. intros cd [].
  apply keeps_when; [typeclasses eauto..|].
  apply keeps_bind; [typeclasses eauto.. | apply keeps_holmes_of; typeclasses eauto |].
  intros _. apply keeps_lift_bind; [typeclasses eauto|]. intros dep Hdep.
  apply init_ok_eq in Hdep. subst dep.
  apply keeps_bind; [typeclasses eauto..| |].
  - apply keeps_append_child. split; [reflexivity|]. left. split; reflexivity.
  - intros _. apply keeps_update_holmes.
    + reflexivity.
    + intros h. exists []. rewrite app_nil_r. split; [reflexivity | constructor].
Qed.

Lemma keeps_project_subject limits token d defaults :
  keeps (grows projected_edge)
    (project_subject_onto_dependent_verb limits token d defaults).
Proof.
  unfold project_subject_onto_dependent_verb.
  apply keeps_bind; [typeclasses eauto.. | apply keeps_doc_getitem; typeclasses eauto |].
  intros child. apply keeps_bind; [typeclasses eauto..| |].
  { apply reads_only_keeps; [typeclasses eauto|]. apply reads_only_find_target_default. }
  intros [[target_tokens target_dependency] defaults'].
  apply keeps_bind; [typeclasses eauto..| |].
  { destruct target_tokens; [apply keeps_raise | apply keeps_ret]; typeclasses eauto. }
  intros first_target.
  apply keeps_bind; [typeclasses eauto.. | apply keeps_holmes_of; typeclasses eauto |].
  intros h0. apply keeps_bind; [typeclasses eauto..| |].
  { apply reads_only_keeps; [typeclasses eauto|].
    apply reads_only_filter_m. intros x. apply reads_only_is_um_zu. }
  intros um_zu. apply keeps_bind; [typeclasses eauto..| |].
  { apply reads_only_keeps; [typeclasses eauto|].
    destruct (Nat.eqb _ _); [|apply reads_only_ret].
    apply reads_only_bind; [apply reads_only_holmes_of|]. intros ht.
    destruct (Nat.eqb _ _); [|apply reads_only_ret].
    apply reads_only_bind; [apply reads_only_holmes_of|]. intros ht'.
    apply reads_only_filter_m. intros x. apply reads_only_is_forcing_object. }
  intros to_add. apply keeps_bind; [typeclasses eauto..| |].
  { apply reads_only_keeps; [typeclasses eauto|].
    destruct (Nat.eqb _ _); [|apply reads_only_ret].
    apply reads_only_bind; [apply reads_only_holmes_of|]. intros ht.
    apply reads_only_ret. }
  intros to_add'. apply keeps_bind; [typeclasses eauto..| |].
  - apply keeps_for_each; [typeclasses eauto..|]. intros target_token.
    apply keeps_for_each; [typeclasses eauto..|]. intros other.
    apply keeps_bind; [typeclasses eauto.. | apply keeps_holmes_of; typeclasses eauto |].
    intros _. apply keeps_lift_bind; [typeclasses eauto|]. intros dep Hdep.
    apply init_ok_eq in Hdep. subst dep.
    apply keeps_append_child. split; [reflexivity|]. right. reflexivity.
  - intros _. apply keeps_ret; typeclasses eauto.
Qed.

Lemma keeps_project_subjects limits token tok defaults :
  keeps (grows projected_edge) (project_subjects limits token tok defaults).
Proof.
  unfold project_subjects.
  apply keeps_for_live; [typeclasses eauto..|]. intros d acc.
  apply keeps_bind; [typeclasses eauto..| |].
  { apply reads_only_keeps; [typeclasses eauto|]. repeat reads_only_step. }
  intros selected. destruct selected.
  - apply keeps_project_subject.
  - apply keeps_ret; typeclasses eauto.
Qed.

Lemma keeps_project_onto_adjective_complements limits token tok defaults :
  keeps (grows projected_edge)
    (project_onto_adjective_complements limits token tok defaults).
Proof.
  unfold project_onto_adjective_complements.
  apply keeps_for_live; [typeclasses eauto..|]. intros d acc.
  apply keeps_bind; [typeclasses eauto..| |].
  { apply reads_only_keeps; [typeclasses eauto|]. repeat reads_only_step. }
  intros selected. destruct selected; [|apply keeps_ret; typeclasses eauto].
  apply keeps_bind; [typeclasses eauto.. | apply keeps_doc_getitem; typeclasses eauto |].
  intros child_token. apply keeps_for_live; [typeclasses eauto..|]. intros cd acc'.
  apply keeps_bind; [typeclasses eauto..| |].
  { apply reads_only_keeps; [typeclasses eauto|]. repeat reads_only_step. }
  intros selected. destruct selected; [|apply keeps_ret; typeclasses eauto].
  apply keeps_bind; [typeclasses eauto.. | apply keeps_doc_getitem; typeclasses eauto |].
  intros target. apply keeps_bind; [typeclasses eauto..| |].
  { apply reads_only_keeps; [typeclasses eauto|]. apply reads_only_find_target_default. }
  intros [[target_tokens target_dependency] defaults'].
  apply keeps_bind; [typeclasses eauto..| |].
  - apply keeps_for_each; [typeclasses eauto..|]. intros target_token.
    apply keeps_bind; [typeclasses eauto.. | apply keeps_holmes_of; typeclasses eauto |].
    intros _. apply keeps_lift_bind; [typeclasses eauto|]. intros dep Hdep.
    apply init_ok_eq in Hdep. subst dep.
    apply keeps_append_child. split; [reflexivity|]. right. reflexivity.
  - intros _. apply keeps_ret; typeclasses eauto.
Qed.

(** Decomposing a computation into steps that do not exhaust the recursion
    limit. *)
Ltac wrl_step :=
  first
    [ apply wrl_ret; exact I
    | apply wrl_raise; discriminate
    | apply wrl_init
    | apply wrl_holmes_of
    | apply wrl_token_at
    | (eapply wrl_weaken; [apply wrl_doc_getitem | intros; exact I])
    | apply wrl_update_holmes
    | apply wrl_append_child
    | apply wrl_when
    | apply wrl_for_each; intros ?
    | apply wrl_filter_m; intros ?
    | apply wrl_for_live; intros ? ?
    | (eapply wrl_bind with (Q := fun _ => True); [|intros ? _])
    | match goal with
      | |- within_recursion_limit _ _ (if ?b then _ else _) => destruct b
      | |- within_recursion_limit _ _ (match ?x with _ => _ end) => destruct x
      end ].

Section GermanTasksWithinLimit.

Variable limits : Limits.
Variable n : nat.
Hypothesis Hlimit : (n < recursion_limit limits)%nat.

Lemma wrl_find_target_default token defaults :
  within_recursion_limit n (fun _ => True)
    (find_target_tokens_and_dependency limits token defaults).
Proof.
  unfold find_target_tokens_and_dependency.
  eapply wrl_bind.
  - apply find_target_within_limit.
    pose proof (unvisited_le n (visited_default defaults ++ [token])). lia.
  - intros [[ts dp] v] _. apply wrl_ret. exact I.
Qed.

Lemma wrl_remove_particle_dependency token tok :
  within_recursion_limit n (fun _ => True) (remove_particle_dependency token tok).
Proof. unfold remove_particle_dependency. repeat wrl_step. Qed.

Lemma wrl_span_von_preposition token :
  within_recursion_limit n (fun _ => True) (span_von_preposition limits token).
Proof. unfold span_von_preposition. repeat wrl_step. Qed.

Lemma wrl_project_subject token d defaults :
  within_recursion_limit n (fun _ => True)
    (project_subject_onto_dependent_verb limits token d defaults).
Proof.
  unfold project_subject_onto_dependent_verb.
  eapply wrl_bind with (Q := fun _ => True);
    [eapply wrl_weaken; [apply wrl_doc_getitem | intros; exact I]|].
  intros child _.
  eapply wrl_bind with (Q := fun _ => True); [apply wrl_find_target_default|].
  intros [[target_tokens target_dependency] defaults'] _.
  unfold is_um_zu, is_forcing_object. repeat wrl_step.
Qed.

Lemma wrl_project_subjects token tok defaults :
  within_recursion_limit n (fun _ => True) (project_subjects limits token tok defaults).
Proof.
  unfold project_subjects. apply wrl_for_live. intros d acc.
  eapply wrl_bind with (Q := fun _ => True); [repeat wrl_step|].
  intros selected _. destruct selected; [apply wrl_project_subject | wrl_step].
Qed.

Lemma wrl_project_onto_adjective_complements token tok defaults :
  within_recursion_limit n (fun _ => True)
    (project_onto_adjective_complements limits token tok defaults).
Proof.
  unfold project_onto_adjective_complements. apply wrl_for_live. intros d acc.
  eapply wrl_bind with (Q := fun _ => True); [repeat wrl_step|].
  intros selected _. destruct selected; [|wrl_step].
  eapply wrl_bind with (Q := fun _ => True);
    [eapply wrl_weaken; [apply wrl_doc_getitem | intros; exact I]|].
  intros child_token _. apply wrl_for_live. intros cd acc'.
  eapply wrl_bind with (Q := fun _ => True); [repeat wrl_step|].
  intros selected _. destruct selected; [|wrl_step].
  eapply wrl_bind with (Q := fun _ => True);
    [eapply wrl_weaken; [apply wrl_doc_getitem | intros; exact I]|].
  intros target _.
  eapply wrl_bind with (Q := fun _ => True); [apply wrl_find_target_default|].
  intros [[target_tokens target_dependency] defaults'] _.
  repeat wrl_step.
Qed.

Lemma wrl_German_tasks token defaults :
  within_recursion_limit n (fun _ => True)
    (German_perform_language_specific_tasks limits token defaults).
Proof.
  unfold German_perform_language_specific_tasks.
  eapply wrl_bind with (Q := fun _ => True); [apply wrl_token_at|]. intros tok _.
  eapply wrl_bind with (Q := fun _ => True); [apply wrl_remove_particle_dependency|].
  intros _ _.
  eapply wrl_bind with (Q := fun _ => True); [apply wrl_span_von_preposition|].
  intros _ _.
  eapply wrl_bind with (Q := fun _ => True); [apply wrl_project_subjects|].
  intros defaults' _. apply wrl_project_onto_adjective_complements.
Qed.

End GermanTasksWithinLimit.

Lemma remove_particle_dependency_inv token tok doc r doc1 :
  remove_particle_dependency token tok doc = (r, doc1) ->
  doc1 = doc
  \/ (Token.tag_ tok = "PTKVZ"
      /\ exists hh, dict_at doc (Token.head tok) = Some hh
           /\ doc1 = put_dict (Token.head tok)
                       (HolmesDictionary.remove_dependency_with_child_index
                          (Z.of_nat token) hh) doc).
Proof.
  unfold remove_particle_dependency.
  destruct (String.eqb_spec (Token.tag_ tok) "PTKVZ") as [Htag|Htag].
  2:{ intros [= <- <-]. now left. }
  unfold bind. destruct (token_at (Token.head tok) doc) as [[th|e] d0] eqn:Hth.
  2:{ intros [= <- <-]. left.
      pose proof (reads_only_token_at (Token.head tok) doc) as Hr.
      now rewrite Hth in Hr. }
  apply token_at_inv in Hth as [-> Hth].
  destruct (_ && _); cbn [when].
  2:{ intros [= <- <-]. now left. }
  intros Hup. apply update_holmes_inv in Hup as [(hh & Hhh & -> & ->)|(_ & -> & _)].
  - right. eauto.
  - now left.
Qed.

(** X14: the language-specific tasks of the German analyzer for one token.
    A recursion limit above the number of tokens is never exhausted.  And
    whether the call returns or raises, the only edges it takes away are
    those from the head of a separable verb particle to the particle: from
    the document as it stands after that removal, no token appears or
    disappears, every dictionary keeps its righthand siblings and its
    children in place and unchanged, and each edge that follows them starts
    at the token that owns it and is either a certain [nk] edge or an
    uncertain edge. *)
Theorem German_language_specific_tasks_frame :
  forall (limits : Limits) (token : nat) (defaults : DefaultArguments) (doc : Doc.t),
    ((Doc.len doc < recursion_limit limits)%nat ->
     fst (German_perform_language_specific_tasks limits token defaults doc)
     <> Raise RecursionError)
    /\ exists doc1,
         grows projected_edge doc1
           (snd (German_perform_language_specific_tasks limits token defaults doc))
         /\ (doc1 = doc
             \/ exists tok hh,
                  Doc.tokens doc !! token = Some tok
                  /\ Token.tag_ tok = "PTKVZ"
                  /\ dict_at doc (Token.head tok) = Some hh
                  /\ doc1 = put_dict (Token.head tok)
                              (HolmesDictionary.remove_dependency_with_child_index
                                 (Z.of_nat token) hh) doc).
Proof.
  intros limits token defaults doc. split.
  - intros Hlimit.
    destruct (wrl_German_tasks limits (Doc.len doc) Hlimit token defaults doc eq_refl)
      as [_ H].
    destruct (fst _) as [a|e]; [discriminate|]. congruence.
  - unfold German_perform_language_specific_tasks. unfold bind at 1.
    destruct (token_at token doc) as [[tok|e] d0] eqn:Htok.
    2:{ exists doc. split; [|now left]. cbn.
        pose proof (reads_only_token_at token doc) as Hr. rewrite Htok in Hr.
        cbn in Hr. subst d0. reflexivity. }
    apply token_at_inv in Htok as [-> Htok].
    unfold bind at 1.
    destruct (remove_particle_dependency token tok doc) as [[[]|e] doc1] eqn:Hrem.
    + exists doc1. split.
      * apply (keeps_bind (grows projected_edge)); [typeclasses eauto..| |].
        -- apply keeps_span_von_preposition.
        -- intros _. apply keeps_bind; [typeclasses eauto..| |].
           ++ apply keeps_project_subjects.
           ++ intros defaults'. apply keeps_project_onto_adjective_complements.
      * apply remove_particle_dependency_inv in Hrem
          as [->|(Htag & hh & Hhh & ->)]; [now left|].
        right. exists tok, hh. auto.
    + exists doc1. split; [reflexivity|].
      apply remove_particle_dependency_inv in Hrem
        as [->|(Htag & hh & Hhh & ->)]; [now left|].
      right. exists tok, hh. auto.
Qed.

Lemma German_language_specific_tasks_frame_witness :
  let r := German_perform_language_specific_tasks (Build_Limits 1000 1000 1000) 1
             {| visited_default := [] |} doc_er_versucht_zu_schlafen in
  fst r <> Raise RecursionError
  /\ exists doc1,
       grows projected_edge doc1 (snd r)
       /\ (doc1 = doc_er_versucht_zu_schlafen
           \/ exists tok hh,
                Doc.tokens doc_er_versucht_zu_schlafen !! 1%nat = Some tok
                /\ Token.tag_ tok = "PTKVZ"
                /\ dict_at doc_er_versucht_zu_schlafen (Token.head tok) = Some hh
                /\ doc1 = put_dict (Token.head tok)
                            (HolmesDictionary.remove_dependency_with_child_index 1 hh)
                            doc_er_versucht_zu_schlafen).
Proof.
  destruct (German_language_specific_tasks_frame (Build_Limits 1000 1000 1000) 1
              {| visited_default := [] |} doc_er_versucht_zu_schlafen)
    as [Hlimit Hframe].
  split; [apply Hlimit; cbn; lia | exact Hframe].
Defined.

(** On "Er versucht zu schlafen." the task for [versucht] calls the nested
    function on [schlafen] and projects the subject onto it as an uncertain
    [sb] edge; on "Er steht auf." the task for the particle removes the edge
    from the verb to it. *)
Example German_tasks_on_examples :
  let limits := Build_Limits 1000 1000 1000 in
  let r := German_perform_language_specific_tasks limits 1
             {| visited_default := [] |} doc_er_versucht_zu_schlafen in
  fst r = Ok {| visited_default := [3%nat] |}
  /\ children_at (snd r) 3
     = [dep 3 2 "pm"; SemanticDependency.Build 3 0 (Some "sb") true]
  /\ children_at (snd r) 1 = [dep 1 0 "sb"; dep 1 3 "oc"]
  /\ children_at
       (snd (German_perform_language_specific_tasks limits 2
               {| visited_default := [] |} doc_er_steht_auf_prepared)) 1
     = [dep 1 0 "sb"].
Proof. vm_compute. repeat split; reflexivity. Qed.

(** ** Holmes lemmas *)

Lemma first_child_with_tag_found tag doc (cs : list nat) :
  Forall (fun c => (c < Doc.len doc)%nat) cs ->
  forall c tc,
    In c cs -> Doc.tokens doc !! c = Some tc -> Token.tag_ tc = tag ->
    exists c' tc',
      In c' cs /\ Doc.tokens doc !! c' = Some tc' /\ Token.tag_ tc' = tag
      /\ first_child_with_tag tag cs doc = (Ok (Some tc'), doc).
Proof.
  induction 1 as [|c0 cs Hc0 Hcs IH]; intros c tc Hin Hc Htag; [destruct Hin|].
  destruct (token_at_lt _ _ Hc0) as [tc0 Htc0].
  cbn [first_child_with_tag]. rewrite (bind_token_at _ _ _ _ Htc0).
  destruct (String.eqb_spec (Token.tag_ tc0) tag) as [E|E].
  - exists c0, tc0. repeat split; auto. now left.
  - destruct Hin as [->|Hin]; [congruence|].
    destruct (IH c tc Hin Hc Htag) as (c' & tc' & Hin' & Hc' & Htag' & Hrun).
    exists c', tc'. repeat split; auto. now right.
Qed.

(** The loop returns at the first child with the tag. *)
Lemma first_child_with_tag_first tag doc (cs : list nat) :
  Forall (fun c => (c < Doc.len doc)%nat) cs ->
  forall c tc,
    In c cs -> Doc.tokens doc !! c = Some tc -> Token.tag_ tc = tag ->
    exists before c' after tc',
      cs = (before ++ c' :: after)%list
      /\ (forall b tb, In b before -> Doc.tokens doc !! b = Some tb ->
                       Token.tag_ tb <> tag)
      /\ Doc.tokens doc !! c' = Some tc' /\ Token.tag_ tc' = tag
      /\ first_child_with_tag tag cs doc = (Ok (Some tc'), doc).
Proof.
  induction 1 as [|c0 cs Hc0 Hcs IH]; intros c tc Hin Hc Htag; [destruct Hin|].
  destruct (token_at_lt _ _ Hc0) as [tc0 Htc0].
  cbn [first_child_with_tag]. rewrite (bind_token_at _ _ _ _ Htc0).
  destruct (String.eqb_spec (Token.tag_ tc0) tag) as [E|E].
  - exists [], c0, cs, tc0. repeat split; auto; intros b tb [].
  - destruct Hin as [->|Hin]; [congruence|].
    destruct (IH c tc Hin Hc Htag)
      as (before & c' & after & tc' & -> & Hbefore & Hc' & Htag' & Hrun).
    exists (c0 :: before), c', after, tc'. repeat split; auto;
      intros b tb [<-|Hb] Htb; [congruence | eauto].
Qed.

(** In "Er steht auf." the lemma of the verb is [aufstehen]. *)
Example er_steht_auf_lemma :
  fst (German_holmes_lemma (fun s => s) 1 doc_er_steht_auf_prepared) = Ok "aufstehen".
Proof. vm_compute. reflexivity. Qed.




Lemma string_snoc_inj (a b : string) (x y : ascii) :
  (a ++ String x "")%string = (b ++ String y "")%string -> a = b /\ x = y.
Proof.
  revert b. induction a as [|c a IH]; intros [|d b] H; cbn in H.
  - now injection H as ->.
  - injection H as -> H. destruct b; discriminate.
  - injection H as -> H. destruct a; discriminate.
  - injection H as -> H. apply IH in H as [-> ->]. auto.
Qed.




(** The lemma [kleinen] loses its ending and the [n] of its stem. *)
Example kleinen_lemma :
  fst (German_holmes_lemma (fun s => s) 0
         (Doc.Build [spacy_token "kleinen" "kleinen" "ADJ" "ADJA" "nk" 0 [] (0, 1)%nat]
            false))
  = Ok "klei".
Proof. vm_compute. reflexivity. Qed.

(** [grüne] and [bösen] have five characters (in six bytes) and keep their
    endings; [schönen] has seven and loses it. *)
Example lemmas_are_measured_in_characters :
  fst (German_holmes_lemma (fun s => s) 0
         (Doc.Build [spacy_token "grüne" "grüne" "ADJ" "ADJA" "nk" 0 [] (0, 1)%nat]
            false))
  = Ok "grüne"
  /\ fst (German_holmes_lemma (fun s => s) 0
            (Doc.Build [spacy_token "bösen" "bösen" "ADJ" "ADJA" "nk" 0 [] (0, 1)%nat]
               false))
     = Ok "bösen"
  /\ fst (German_holmes_lemma (fun s => s) 0
            (Doc.Build [spacy_token "schönen" "schönen" "ADJ" "ADJA" "nk" 0 []
                          (0, 1)%nat] false))
     = Ok "schö".
Proof. vm_compute. repeat split; reflexivity. Qed.

(** * The passes of [holmes_parse] and what they leave alone *)

Section Related.

Variable Rh : nat -> HDict -> HDict -> Prop.
Hypothesis Rh_refl : forall p h, Rh p h h.
Hypothesis Rh_trans : forall p h1 h2 h3, Rh p h1 h2 -> Rh p h2 h3 -> Rh p h1 h3.

Lemma related_refl : Reflexive (dictionaries_related Rh).
Proof.
  intros doc. split; [reflexivity|]. split; [reflexivity|].
  intros p tok Htok. exists tok. split; [exact Htok|]. split; [now destruct tok|].
  destruct (Token.holmes tok) as [s| |h]; eauto.
Qed.

Lemma related_trans : Transitive (dictionaries_related Rh).
Proof.
  intros d1 d2 d3 (C12 & L12 & H12) (C23 & L23 & H23).
  split; [congruence|]. split; [congruence|].
  intros p tok Htok.
  destruct (H12 p tok Htok) as (t2 & Ht2 & E2 & D2).
  destruct (H23 p t2 Ht2) as (t3 & Ht3 & E3 & D3).
  exists t3. split; [exact Ht3|]. split.
  - rewrite E3, E2. now destruct tok.
  - destruct (Token.holmes tok) as [s| |h].
    + rewrite D2 in D3. exact D3.
    + rewrite D2 in D3. exact D3.
    + destruct D2 as (h2 & Eh2 & R2). rewrite Eh2 in D3.
      destruct D3 as (h3 & Eh3 & R3). exists h3. split; [exact Eh3|].
      eapply Rh_trans; eauto.
Qed.

Lemma related_put_dict p h h' doc :
  dict_at doc p = Some h -> Rh p h h' ->
  dictionaries_related Rh doc (put_dict p h' doc).
Proof.
  intros Hh HR. split; [reflexivity|]. split; [apply len_put_dict|].
  intros q tok Htok. rewrite tokens_put_dict, Htok. cbn.
  destruct (decide (p = q)) as [->|Hne].
  - eexists. split; [reflexivity|]. split; [now destruct tok|].
    apply dict_at_token in Hh as (tok0 & Htok0 & Eh).
    assert (tok0 = tok) by congruence. subst tok0. rewrite Eh. cbn. eauto.
  - exists tok. split; [reflexivity|]. split; [now destruct tok|].
    destruct (Token.holmes tok) as [s| |h0]; eauto.
Qed.

Lemma keeps_related_update_holmes p f :
  (forall h, Rh p h (f h)) -> keeps (dictionaries_related Rh) (update_holmes p f).
Proof.
  intros Hf doc.
  destruct (update_holmes p f doc) as [r doc'] eqn:E. cbn.
  apply update_holmes_inv in E as [(h & Hh & -> & ->)|(_ & -> & _)].
  - eapply related_put_dict; eauto.
  - apply related_refl.
Qed.

End Related.

Lemma related_weaken (Rh Rh' : nat -> HDict -> HDict -> Prop) doc doc' :
  (forall p h h', Rh p h h' -> Rh' p h h') ->
  dictionaries_related Rh doc doc' -> dictionaries_related Rh' doc doc'.
Proof.
  intros Hw (HC & HL & H). split; [exact HC|]. split; [exact HL|].
  intros p tok Htok. destruct (H p tok Htok) as (tok' & Htok' & E & D).
  exists tok'. split; [exact Htok'|]. split; [exact E|].
  destruct (Token.holmes tok) as [s| |h]; auto.
  destruct D as (h' & Eh & HR). eauto.
Qed.

Lemma spacy_attributes_set_holmes e tok :
  spacy_attributes (Token.set_holmes e tok) = spacy_attributes tok.
Proof. now destruct tok. Qed.

Lemma related_same_parse Rh doc doc' :
  dictionaries_related Rh doc doc' -> same_parse doc doc'.
Proof.
  intros (HC & HL & H). split; [exact HC|].
  apply list_eq. intros p. rewrite !list_lookup_fmap.
  destruct (Doc.tokens doc !! p) as [tok|] eqn:Htok.
  - destruct (H p tok Htok) as (tok' & -> & E & _). cbn. f_equal.
    rewrite E. apply spacy_attributes_set_holmes.
  - apply lookup_ge_None in Htok.
    rewrite (proj2 (lookup_ge_None (Doc.tokens doc') p)); [reflexivity|].
    unfold Doc.len in HL. lia.
Qed.

Lemma related_dict_at Rh doc doc' p h :
  dictionaries_related Rh doc doc' -> dict_at doc p = Some h ->
  exists h', dict_at doc' p = Some h' /\ Rh p h h'.
Proof.
  intros (_ & _ & H) Hh. apply dict_at_token in Hh as (tok & Htok & Eh).
  destruct (H p tok Htok) as (tok' & Htok' & _ & D). rewrite Eh in D.
  destruct D as (h' & Eh' & HR). exists h'. split; [|exact HR].
  eapply token_dict_at; eauto.
Qed.

#[global] Instance same_parse_refl : Reflexive same_parse.
Proof. intros doc. split; reflexivity. Qed.

#[global] Instance same_parse_sym : Symmetric same_parse.
Proof. intros d1 d2 [H1 H2]. split; congruence. Qed.

#[global] Instance same_parse_trans : Transitive same_parse.
Proof. intros d1 d2 d3 [H1 H2] [H3 H4]. split; congruence. Qed.

(** *** Index, lemma and matchability are kept *)

Lemma identity_kept_refl p h : identity_kept p h h.
Proof. repeat split; auto. Qed.

Lemma identity_kept_trans p h1 h2 h3 :
  identity_kept p h1 h2 -> identity_kept p h2 h3 -> identity_kept p h1 h3.
Proof.
  intros (I1 & L1 & M1) (I2 & L2 & M2). repeat split; try congruence. auto.
Qed.

#[global] Instance identity_related_refl :
  Reflexive (dictionaries_related identity_kept) :=
  related_refl identity_kept identity_kept_refl.

#[global] Instance identity_related_trans :
  Transitive (dictionaries_related identity_kept) :=
  related_trans identity_kept identity_kept_trans.

(** Decomposing a pass into the steps that keep index, lemma and
    matchability. *)
Ltac identity_step :=
  lazymatch goal with
  | |- keeps _ (update_holmes _ _) =>
      apply keeps_related_update_holmes; [exact identity_kept_refl|];
      intros ?; repeat split; cbn; try reflexivity; try discriminate; auto
  | |- keeps _ (append_child _ _) =>
      apply keeps_related_update_holmes; [exact identity_kept_refl|];
      intros ?; repeat split; cbn; auto
  | |- keeps _ (bind (lift _) _) =>
      apply keeps_lift_bind; [typeclasses eauto|]; intros ? _
  | |- keeps _ (for_live _ _ _ _ _) =>
      (apply keeps_for_live; try typeclasses eauto); intros ? ?
  | |- keeps _ (fold_m _ _ _) =>
      (apply keeps_fold_m; try typeclasses eauto); intros ? ?
  | |- keeps _ (is_involved_in_coreference _ _) =>
      apply reads_only_keeps;
      [typeclasses eauto | apply reads_only_is_involved_in_coreference]
  | |- keeps _ (any_m _ _) =>
      apply reads_only_keeps; [typeclasses eauto | repeat reads_only_step]
  | |- keeps _ (filter_m _ _) =>
      apply reads_only_keeps; [typeclasses eauto | repeat reads_only_step]
  | |- keeps _ (let '(_, _) := ?x in _) => destruct x
  | |- _ => keeps_step
  end.

Lemma keeps_identity_set_matchability self token :
  keeps (dictionaries_related identity_kept) (_set_matchability self token).
Proof. unfold _set_matchability. repeat identity_step. Qed.

Lemma keeps_identity_initialize self token :
  keeps (dictionaries_related identity_kept)
    (_initialize_semantic_dependencies self token).
Proof. unfold _initialize_semantic_dependencies. repeat identity_step. Qed.

Ltac identity_reads :=
  apply reads_only_keeps;
  [ typeclasses eauto
  | first [ apply reads_only_climb
          | apply reads_only_directly_preceded_by_noun
          | apply reads_only_governs
          | apply reads_only_points_to_relative_clause
          | apply reads_only_lefthand_sibling
          | unfold is_predicative_adjective, is_predicate_subject,
              English_negation_child, German_negation_child, child_token;
            repeat reads_only_step ] ].

Lemma keeps_identity_mark self limits token :
  keeps (dictionaries_related identity_kept)
    (_mark_if_righthand_sibling self limits token).
Proof.
  unfold _mark_if_righthand_sibling.
  repeat first [ identity_step | solve [identity_reads] ].
Qed.

Lemma keeps_identity_copy self token :
  keeps (dictionaries_related identity_kept) (_copy_any_sibling_info self token).
Proof.
  unfold _copy_any_sibling_info, copy_dependency, copy_to_sibling,
    copy_to_child_sibling.
  repeat first [ identity_step | solve [identity_reads] ].
Qed.

Lemma keeps_identity_normalize self limits token :
  keeps (dictionaries_related identity_kept)
    (_normalize_predicative_adjectives self limits token).
Proof.
  unfold _normalize_predicative_adjectives, attach_adjective.
  repeat first [ identity_step | solve [identity_reads] ].
Qed.

Lemma keeps_identity_preposition self token :
  keeps (dictionaries_related identity_kept)
    (_create_additional_preposition_phrase_semantic_dependencies self token).
Proof.
  unfold _create_additional_preposition_phrase_semantic_dependencies,
    add_dependencies_pointing_to_preposition_and_siblings.
  repeat first [ identity_step | solve [identity_reads] ].
Qed.

Lemma keeps_identity_debug self :
  keeps (dictionaries_related identity_kept) (debug_structures self).
Proof.
  unfold debug_structures. apply keeps_when; [typeclasses eauto..|].
  intros doc. apply keeps_for_each; [typeclasses eauto..|]. intros token.
  repeat first [ identity_step | solve [identity_reads] ].
Qed.

Lemma keeps_identity_set_negation negation_child depth :
  (forall child, reads_only (negation_child child)) ->
  forall token,
    keeps (dictionaries_related identity_kept)
      (_set_negation negation_child depth token).
Proof.
  intros Hchild. induction depth as [|depth IH]; intros token; cbn [_set_negation].
  - apply keeps_raise; typeclasses eauto.
  - apply keeps_bind; [typeclasses eauto.. | apply keeps_holmes_of; typeclasses eauto |].
    intros h. destruct (HolmesDictionary.is_negated h).
    + apply keeps_ret; typeclasses eauto.
    + apply keeps_bind; [typeclasses eauto.. | apply keeps_token_at; typeclasses eauto |].
      intros tok. apply keeps_bind; [typeclasses eauto..| |].
      { apply reads_only_keeps; [typeclasses eauto|].
        apply reads_only_any_m. exact Hchild. }
      intros found. destruct found; [identity_step|].
      destruct (String.eqb _ _); [identity_step|].
      apply keeps_bind; [typeclasses eauto.. | apply IH |]. intros _.
      repeat identity_step.
Qed.

Lemma keeps_identity_German_set_negation limits token :
  keeps (dictionaries_related identity_kept) (German_set_negation limits token).
Proof.
  apply keeps_identity_set_negation. intros child.
  unfold German_negation_child. repeat reads_only_step.
Qed.

Lemma keeps_identity_English_set_negation limits token :
  keeps (dictionaries_related identity_kept) (English_set_negation limits token).
Proof.
  apply keeps_identity_set_negation. intros child.
  unfold English_negation_child. repeat reads_only_step.
Qed.

Ltac identity_reads_German :=
  apply reads_only_keeps;
  [ typeclasses eauto
  | first [ apply reads_only_find_target_default
          | apply reads_only_find_target
          | apply reads_only_is_um_zu
          | apply reads_only_is_forcing_object
          | apply reads_only_filter_m; intros ?; apply reads_only_is_um_zu
          | apply reads_only_filter_m; intros ?; apply reads_only_is_forcing_object
          | repeat reads_only_step ] ].

Lemma keeps_identity_German_tasks limits token defaults :
  keeps (dictionaries_related identity_kept)
    (German_perform_language_specific_tasks limits token defaults).
Proof.
  unfold German_perform_language_specific_tasks, remove_particle_dependency,
    span_von_preposition, project_subjects, project_onto_adjective_complements,
    project_subject_onto_dependent_verb.
  repeat first [ solve [identity_reads_German]
               | identity_step
               | apply reads_only_is_forcing_object
               | apply reads_only_is_um_zu ].
Qed.

Lemma keeps_for_each_token (R : Doc.t -> Doc.t -> Prop)
    `{!Reflexive R, !Transitive R} (method : nat -> M unit) :
  (forall token, keeps R (method token)) -> keeps R (for_each_token method).
Proof.
  intros H doc. unfold for_each_token.
  apply (keeps_for_each R (seq 0 (Doc.len doc)) method H doc).
Qed.

(** ** Computations that read nothing but the parse *)

Section Corresponds.

Variable E : Doc.t -> Doc.t -> Prop.

Lemma corresponds_ret {A} (RA : A -> A -> Prop) a a' :
  RA a a' -> corresponds_under E RA (ret a) (ret a').
Proof. intros H doc doc' _. cbn. auto. Qed.

Lemma corresponds_any_m {A} (l : list A) (test test' : A -> M bool) :
  (forall x, corresponds_under E eq (test x) (test' x)) ->
  corresponds_under E eq (any_m l test) (any_m l test').
Proof.
  intros Ht. induction l as [|x l IH]; intros doc doc' Hdoc; cbn [any_m].
  - cbn. auto.
  - unfold bind. destruct (Ht x doc doc' Hdoc) as (Ha & Hs & Hs').
    destruct (test x doc) as [[b|e] d1], (test' x doc') as [[b'|e'] d1']; cbn in *;
      subst; try contradiction; auto.
    destruct b'; [cbn; auto | apply IH, Hdoc].
Qed.

Lemma corresponds_bind {A B} (RA : A -> A -> Prop) (RB : B -> B -> Prop)
    (m m' : M A) (k k' : A -> M B) :
  corresponds_under E RA m m' ->
  (forall a a', RA a a' -> corresponds_under E RB (k a) (k' a')) ->
  corresponds_under E RB (bind m k) (bind m' k').
Proof.
  intros Hm Hk doc doc' Hdoc. unfold bind.
  destruct (Hm doc doc' Hdoc) as (Ha & Hs & Hs').
  destruct (m doc) as [[a|e] d1], (m' doc') as [[a'|e'] d1']; cbn in *;
    subst; try contradiction.
  - apply (Hk a a' Ha doc doc' Hdoc).
  - auto.
Qed.

End Corresponds.

Lemma same_parse_lookup doc doc' p tok :
  same_parse doc doc' -> Doc.tokens doc !! p = Some tok ->
  exists tok', Doc.tokens doc' !! p = Some tok' /\ same_token tok tok'.
Proof.
  intros [_ H] Htok.
  assert (Hp : (spacy_attributes <$> Doc.tokens doc') !! p
               = Some (spacy_attributes tok)).
  { rewrite H, list_lookup_fmap, Htok. reflexivity. }
  rewrite list_lookup_fmap in Hp.
  destruct (Doc.tokens doc' !! p) as [tok'|]; [|discriminate].
  exists tok'. split; [reflexivity|]. unfold same_token.
  exact (f_equal (fun o => default (spacy_attributes tok) o) Hp).
Qed.

Lemma same_parse_len doc doc' : same_parse doc doc' -> Doc.len doc' = Doc.len doc.
Proof.
  intros [_ H]. unfold Doc.len.
  rewrite <- (length_fmap spacy_attributes (Doc.tokens doc')), H.
  apply length_fmap.
Qed.

Lemma corresponds_token_at p : corresponds_under same_parse same_token (token_at p) (token_at p).
Proof.
  intros doc doc' Hdoc. unfold token_at.
  destruct (Doc.tokens doc !! p) as [tok|] eqn:Htok.
  - destruct (same_parse_lookup _ _ _ _ Hdoc Htok) as (tok' & -> & Hs). cbn. auto.
  - apply lookup_ge_None in Htok.
    rewrite (proj2 (lookup_ge_None (Doc.tokens doc') p)); [cbn; auto|].
    pose proof (same_parse_len _ _ Hdoc) as HL. unfold Doc.len in HL. lia.
Qed.

Lemma same_token_fields tok tok' :
  same_token tok tok' ->
  Token.lemma_ tok' = Token.lemma_ tok
  /\ Token.pos_ tok' = Token.pos_ tok
  /\ Token.tag_ tok' = Token.tag_ tok
  /\ Token.children tok' = Token.children tok.
Proof.
  unfold same_token, spacy_attributes. destruct tok, tok'. cbn.
  intros [= -> -> -> -> -> -> -> -> -> ->]. auto.
Qed.

Lemma corresponds_first_child_with_tag tag children :
  corresponds_under same_parse same_optional_token
    (first_child_with_tag tag children) (first_child_with_tag tag children).
Proof.
  induction children as [|child rest IH]; cbn [first_child_with_tag].
  - now apply corresponds_ret.
  - eapply corresponds_bind; [apply corresponds_token_at|].
    intros tc tc' Hs. destruct (same_token_fields _ _ Hs) as (_ & _ & -> & _).
    destruct (String.eqb _ _); [|exact IH].
    now apply corresponds_ret.
Qed.

Lemma English_holmes_lemma_reads_the_parse lower token :
  reads_spacy_attributes_only (English_holmes_lemma lower token).
Proof.
  unfold reads_spacy_attributes_only, English_holmes_lemma.
  eapply corresponds_bind; [apply corresponds_token_at|].
  intros tok tok' Hs. destruct (same_token_fields _ _ Hs) as (-> & -> & _ & ->).
  eapply (corresponds_bind _ same_optional_token).
  - destruct (String.eqb _ _); [apply corresponds_first_child_with_tag|].
    now apply corresponds_ret.
  - intros [child|] [child'|] Hc; try contradiction.
    + destruct (same_token_fields _ _ Hc) as (-> & _). now apply corresponds_ret.
    + now apply corresponds_ret.
Qed.

Lemma German_holmes_lemma_reads_the_parse lower token :
  reads_spacy_attributes_only (German_holmes_lemma lower token).
Proof.
  unfold reads_spacy_attributes_only, German_holmes_lemma.
  eapply corresponds_bind; [apply corresponds_token_at|].
  intros tok tok' Hs. destruct (same_token_fields _ _ Hs) as (-> & -> & -> & ->).
  eapply (corresponds_bind _ same_optional_token).
  - destruct (_ && _); [apply corresponds_first_child_with_tag|].
    now apply corresponds_ret.
  - intros [child|] [child'|] Hc; try contradiction.
    + destruct (same_token_fields _ _ Hc) as (-> & _). now apply corresponds_ret.
    + repeat match goal with
             | |- corresponds_under _ _ (match ?x with _ => _ end) _ => destruct x
             | |- corresponds_under _ _ (if ?b then _ else _) _ => destruct b
             end; now apply corresponds_ret.
Qed.

(** ** The first pass of [holmes_parse]: a fresh dictionary for every token *)

Lemma same_token_set_holmes e tok tok' :
  same_token tok tok' -> Token.set_holmes e tok' = Token.set_holmes e tok.
Proof.
  unfold same_token, spacy_attributes. destruct tok, tok'. cbn.
  intros [= -> -> -> -> -> -> -> -> -> ->]. reflexivity.
Qed.

Lemma same_parse_set_extension p e doc :
  same_parse doc
    (Doc.set_tokens (alter (Token.set_holmes e) p (Doc.tokens doc)) doc).
Proof.
  split; [reflexivity|]. cbn. apply list_eq. intros q.
  rewrite !list_lookup_fmap. destruct (decide (q = p)) as [->|Hne].
  - rewrite list_lookup_alter_eq. destruct (Doc.tokens doc !! p); cbn; [|reflexivity].
    now rewrite spacy_attributes_set_holmes.
  - now rewrite list_lookup_alter_ne.
Qed.

Section CreateDictionaries.

Variable _holmes_lemma : nat -> M string.
Hypothesis reads_the_parse : forall token, reads_spacy_attributes_only (_holmes_lemma token).

Lemma holmes_lemma_same_parse token doc doc' :
  same_parse doc doc' ->
  fst (_holmes_lemma token doc') = fst (_holmes_lemma token doc).
Proof.
  intros Hdoc. destruct (reads_the_parse token doc doc' Hdoc) as (Ha & _).
  destruct (fst (_holmes_lemma token doc)), (fst (_holmes_lemma token doc'));
    cbn in Ha; try contradiction; congruence.
Qed.

Lemma holmes_lemma_run token doc :
  _holmes_lemma token doc = (fst (_holmes_lemma token doc), doc).
Proof.
  destruct (reads_the_parse token doc doc (reflexivity doc)) as (_ & Hs & _).
  destruct (_holmes_lemma token doc) as [r d]. cbn in *. now subst.
Qed.

(** One step of the first loop of [holmes_parse]. *)
Lemma create_dictionary_step token doc :
  (let* lemma := _holmes_lemma token in
   set_extension token (ExtDict (HolmesDictionary.init (Z.of_nat token) lemma))) doc
  = match fst (_holmes_lemma token doc), Doc.tokens doc !! token with
    | Ok lemma, Some _ =>
        (Ok tt,
         Doc.set_tokens
           (alter (Token.set_holmes
                     (ExtDict (HolmesDictionary.init (Z.of_nat token) lemma)))
              token (Doc.tokens doc)) doc)
    | Ok lemma, None => (Raise IndexError, doc)
    | Raise e, _ => (Raise e, doc)
    end.
Proof.
  unfold bind. rewrite holmes_lemma_run. cbn.
  destruct (fst (_holmes_lemma token doc)) as [lemma|e]; [|reflexivity].
  unfold set_extension. now destruct (Doc.tokens doc !! token).
Qed.

Lemma create_dictionaries_loop m :
  forall k d d1,
    for_each (seq k m)
      (fun token =>
         let* lemma := _holmes_lemma token in
         set_extension token (ExtDict (HolmesDictionary.init (Z.of_nat token) lemma)))
      d = (Ok tt, d1) ->
    same_parse d d1
    /\ forall p tok, Doc.tokens d !! p = Some tok ->
         if bool_decide (k <= p < k + m)%nat then
           exists lemma,
             fst (_holmes_lemma p d) = Ok lemma
             /\ Doc.tokens d1 !! p
                = Some (Token.set_holmes
                          (ExtDict (HolmesDictionary.init (Z.of_nat p) lemma)) tok)
         else Doc.tokens d1 !! p = Some tok.
Proof.
  induction m as [|m IH]; intros k d d1; cbn [seq for_each].
  - intros [= <-]. split; [reflexivity|]. intros p tok Htok.
    rewrite bool_decide_eq_false_2 by lia. exact Htok.
  - intros H. apply bind_ok in H as ([] & dk & Hstep & Hrest).
    rewrite create_dictionary_step in Hstep.
    destruct (fst (_holmes_lemma k d)) as [lemma|e] eqn:Hlemma; [|discriminate].
    destruct (Doc.tokens d !! k) as [tk|] eqn:Htk; [|discriminate].
    injection Hstep as <-.
    destruct (IH _ _ _ Hrest) as (Hsame & Htokens).
    pose proof (same_parse_set_extension k
                  (ExtDict (HolmesDictionary.init (Z.of_nat k) lemma)) d) as Hdk.
    split; [etransitivity; eauto|].
    intros p tok Htok. destruct (decide (p = k)) as [->|Hne].
    + rewrite bool_decide_eq_true_2 by lia.
      exists lemma. split; [exact Hlemma|].
      specialize (Htokens k (Token.set_holmes
                    (ExtDict (HolmesDictionary.init (Z.of_nat k) lemma)) tk)).
      rewrite bool_decide_eq_false_2 in Htokens by lia.
      assert (tok = tk) by congruence. subst tok.
      apply Htokens. cbn. now rewrite list_lookup_alter_eq, Htk.
    + specialize (Htokens p tok). cbn in Htokens.
      rewrite list_lookup_alter_ne in Htokens by auto. specialize (Htokens Htok).
      destruct (decide (S k <= p < S k + m)%nat) as [Hin|Hout].
      * rewrite bool_decide_eq_true_2 in Htokens by exact Hin.
        rewrite bool_decide_eq_true_2 by lia.
        destruct Htokens as (lemma' & Hl' & Hp). exists lemma'. split; [|exact Hp].
        rewrite <- Hl'. symmetry. now apply holmes_lemma_same_parse.
      * rewrite bool_decide_eq_false_2 in Htokens by exact Hout.
        rewrite bool_decide_eq_false_2 by lia. exact Htokens.
Qed.

Lemma create_dictionaries_alike l :
  forall d d', same_parse d d' ->
    let body := fun token =>
      let* lemma := _holmes_lemma token in
      set_extension token (ExtDict (HolmesDictionary.init (Z.of_nat token) lemma)) in
    fst (for_each l body d') = fst (for_each l body d)
    /\ same_parse (snd (for_each l body d)) (snd (for_each l body d')).
Proof.
  induction l as [|token l IH]; intros d d' Hd body; cbn [for_each].
  - cbn. auto.
  - unfold bind. subst body. cbn beta.
    rewrite !create_dictionary_step.
    rewrite (holmes_lemma_same_parse token d d' Hd).
    destruct (fst (_holmes_lemma token d)) as [lemma|e]; [|cbn; auto].
    pose proof (same_parse_len _ _ Hd) as HL. unfold Doc.len in HL.
    destruct (Doc.tokens d !! token) as [tk|] eqn:Htk.
    + destruct (same_parse_lookup _ _ _ _ Hd Htk) as (tk' & -> & _).
      apply IH.
      etransitivity; [symmetry; apply same_parse_set_extension|].
      etransitivity; [exact Hd | apply same_parse_set_extension].
    + apply lookup_ge_None in Htk.
      rewrite (proj2 (lookup_ge_None (Doc.tokens d') token)) by lia. cbn. auto.
Qed.

Lemma create_dictionaries_same_parse d d' r d1 :
  same_parse d d' ->
  for_each_token
    (fun token =>
       let* lemma := _holmes_lemma token in
       set_extension token (ExtDict (HolmesDictionary.init (Z.of_nat token) lemma)))
    d = (r, d1) ->
  exists d1',
    for_each_token
      (fun token =>
         let* lemma := _holmes_lemma token in
         set_extension token (ExtDict (HolmesDictionary.init (Z.of_nat token) lemma)))
      d' = (r, d1')
    /\ (is_ok r = true -> d1' = d1).
Proof.
  intros Hd Hrun. unfold for_each_token in *.
  rewrite (same_parse_len _ _ Hd).
  destruct (create_dictionaries_alike (seq 0 (Doc.len d)) d d' Hd) as (Hfst & _).
  cbn zeta in Hfst. rewrite Hrun in Hfst. cbn in Hfst.
  destruct (for_each _ _ d') as [r' d1'] eqn:Hrun'. cbn in Hfst. subst r'.
  exists d1'. split; [reflexivity|]. intros Hok.
  destruct r as [[]|e]; [|discriminate].
  destruct (create_dictionaries_loop _ _ _ _ Hrun) as (HS & HT).
  destruct (create_dictionaries_loop _ _ _ _ Hrun') as (HS' & HT').
  pose proof (same_parse_len _ _ Hd) as HLd.
  pose proof (same_parse_len _ _ HS) as HL.
  pose proof (same_parse_len _ _ HS') as HL'.
  destruct HS as [HC _], HS' as [HC' _].
  destruct d1 as [ts hc], d1' as [ts' hc']. unfold Doc.len in *. cbn in *. f_equal.
  - apply list_eq. intros p.
    destruct (Doc.tokens d !! p) as [tok|] eqn:Htok.
    + destruct (same_parse_lookup _ _ _ _ Hd Htok) as (tok' & Htok' & Hs).
      specialize (HT p tok Htok). specialize (HT' p tok' Htok').
      apply lookup_lt_Some in Htok.
      rewrite bool_decide_eq_true_2 in HT by lia.
      rewrite bool_decide_eq_true_2 in HT' by lia.
      destruct HT as (lemma & Hl & ->), HT' as (lemma' & Hl' & ->).
      rewrite (holmes_lemma_same_parse p d d' Hd), Hl in Hl'.
      injection Hl' as <-. f_equal. now apply same_token_set_holmes.
    + apply lookup_ge_None in Htok.
      rewrite (proj2 (lookup_ge_None ts p)) by lia.
      rewrite (proj2 (lookup_ge_None ts' p)) by lia. reflexivity.
  - destruct Hd as [Hc _]. congruence.
Qed.

End CreateDictionaries.

Lemma bind_run {A B} (m : M A) (k : A -> M B) doc r d1 :
  m doc = (r, d1) ->
  bind m k doc = match r with Ok a => k a d1 | Raise e => (Raise e, d1) end.
Proof. unfold bind. now intros ->. Qed.

(** X17: [holmes_parse] replaces whatever [holmes] extensions the tokens
    carry: when [_holmes_lemma] reads nothing but what spaCy says, as the
    methods of both languages do, two documents that agree on everything but
    these extensions are enriched alike.  Both calls return or both raise the
    same exception, and when they return they leave the same document; so a
    document that was enriched before is enriched again as if it came
    straight from spaCy. *)
Theorem holmes_parse_replaces_earlier_dictionaries :
  forall (self : Analyzer) (limits : Limits)
         (_holmes_lemma : nat -> M string)
         (_set_negation _correct_auxiliaries_and_passives
            _handle_relative_constructions : nat -> M unit)
         (_perform_language_specific_tasks :
            nat -> DefaultArguments -> M DefaultArguments),
    (forall token, reads_spacy_attributes_only (_holmes_lemma token)) ->
    forall (defaults : DefaultArguments) (doc doc' : Doc.t),
      same_parse doc doc' ->
      fst (holmes_parse self limits _holmes_lemma _set_negation
             _correct_auxiliaries_and_passives _handle_relative_constructions
             _perform_language_specific_tasks defaults doc')
      = fst (holmes_parse self limits _holmes_lemma _set_negation
               _correct_auxiliaries_and_passives _handle_relative_constructions
               _perform_language_specific_tasks defaults doc)
      /\ (is_ok (fst (holmes_parse self limits _holmes_lemma _set_negation
                        _correct_auxiliaries_and_passives
                        _handle_relative_constructions
                        _perform_language_specific_tasks defaults doc)) = true ->
          snd (holmes_parse self limits _holmes_lemma _set_negation
                 _correct_auxiliaries_and_passives _handle_relative_constructions
                 _perform_language_specific_tasks defaults doc')
          = snd (holmes_parse self limits _holmes_lemma _set_negation
                   _correct_auxiliaries_and_passives _handle_relative_constructions
                   _perform_language_specific_tasks defaults doc)).
Proof.
  intros self limits hl sn ca hr task Hhl defaults doc doc' Hdoc.
  unfold holmes_parse.
  destruct (for_each_token
              (fun token =>
                 let* lemma := hl token in
                 set_extension token
                   (ExtDict (HolmesDictionary.init (Z.of_nat token) lemma))) doc)
    as [r d1] eqn:Hrun.
  destruct (create_dictionaries_same_parse hl Hhl doc doc' r d1 Hdoc Hrun)
    as (d1' & Hrun' & Heq).
  rewrite (bind_run _ _ _ _ _ Hrun), (bind_run _ _ _ _ _ Hrun').
  destruct r as [[]|e].
  - rewrite (Heq eq_refl). auto.
  - cbn. split; [reflexivity | discriminate].
Qed.

Lemma holmes_parse_replaces_earlier_dictionaries_witness :
  fst (holmes_parse german (Build_Limits 1000 1000 1000)
         (German_holmes_lemma (fun s => s))
         (German_set_negation (Build_Limits 1000 1000 1000)) no_rewrite no_rewrite
         (German_perform_language_specific_tasks (Build_Limits 1000 1000 1000))
         {| visited_default := [] |} doc_er_steht_auf_prepared)
  = fst (holmes_parse german (Build_Limits 1000 1000 1000)
           (German_holmes_lemma (fun s => s))
           (German_set_negation (Build_Limits 1000 1000 1000)) no_rewrite no_rewrite
           (German_perform_language_specific_tasks (Build_Limits 1000 1000 1000))
           {| visited_default := [] |} doc_er_steht_auf)
  /\ (is_ok (fst (holmes_parse german (Build_Limits 1000 1000 1000)
                    (German_holmes_lemma (fun s => s))
                    (German_set_negation (Build_Limits 1000 1000 1000))
                    no_rewrite no_rewrite
                    (German_perform_language_specific_tasks
                       (Build_Limits 1000 1000 1000))
                    {| visited_default := [] |} doc_er_steht_auf)) = true ->
      snd (holmes_parse german (Build_Limits 1000 1000 1000)
             (German_holmes_lemma (fun s => s))
             (German_set_negation (Build_Limits 1000 1000 1000)) no_rewrite no_rewrite
             (German_perform_language_specific_tasks (Build_Limits 1000 1000 1000))
             {| visited_default := [] |} doc_er_steht_auf_prepared)
      = snd (holmes_parse german (Build_Limits 1000 1000 1000)
               (German_holmes_lemma (fun s => s))
               (German_set_negation (Build_Limits 1000 1000 1000)) no_rewrite
               no_rewrite
               (German_perform_language_specific_tasks (Build_Limits 1000 1000 1000))
               {| visited_default := [] |} doc_er_steht_auf)).
Proof.
  apply (holmes_parse_replaces_earlier_dictionaries german
           (Build_Limits 1000 1000 1000) (German_holmes_lemma (fun s => s))).
  - intros token. apply German_holmes_lemma_reads_the_parse.
  - split; reflexivity.
Defined.

(** Enriched a second time, "Er steht auf." is what it was after the first
    time. *)
Example er_steht_auf_enriched_twice :
  let enrich :=
    holmes_parse german (Build_Limits 1000 1000 1000)
      (German_holmes_lemma (fun s => s))
      (German_set_negation (Build_Limits 1000 1000 1000)) no_rewrite no_rewrite
      (German_perform_language_specific_tasks (Build_Limits 1000 1000 1000))
      {| visited_default := [] |} in
  is_ok (fst (enrich doc_er_steht_auf)) = true
  /\ snd (enrich (snd (enrich doc_er_steht_auf))) = snd (enrich doc_er_steht_auf)
  /\ dict_at (snd (enrich doc_er_steht_auf)) 1
     = Some (HolmesDictionary.Build 1 "aufstehen" [dep 1 0 "sb"] [] false
               (Some false) (Some true)).
Proof. vm_compute. repeat split; reflexivity. Qed.

(** ** The matchability pass *)

Lemma matchability_only_refl p h : matchability_only p h h.
Proof. exists (HolmesDictionary.is_matchable h). now destruct h. Qed.

Lemma matchability_only_trans p h1 h2 h3 :
  matchability_only p h1 h2 -> matchability_only p h2 h3 -> matchability_only p h1 h3.
Proof. intros [m ->] [m' ->]. exists m'. reflexivity. Qed.

#[global] Instance matchability_related_refl :
  Reflexive (dictionaries_related matchability_only) :=
  related_refl matchability_only matchability_only_refl.

#[global] Instance matchability_related_trans :
  Transitive (dictionaries_related matchability_only) :=
  related_trans matchability_only matchability_only_trans.

(** Whether a token is involved in coreference depends on the parse and on
    the righthand siblings in the dictionaries only. *)
Lemma coreference_reads_siblings Rh self token :
  (forall p h h', Rh p h h' ->
     HolmesDictionary.righthand_siblings h' = HolmesDictionary.righthand_siblings h) ->
  corresponds_under (dictionaries_related Rh) eq
    (is_involved_in_coreference self token) (is_involved_in_coreference self token).
Proof.
  intros HRh doc doc' Hdoc.
  pose proof (reads_only_is_involved_in_coreference self token doc) as Hr.
  pose proof (reads_only_is_involved_in_coreference self token doc') as Hr'.
  split; [|split; assumption]. clear Hr Hr'.
  unfold is_involved_in_coreference.
  destruct Hdoc as (HC & HL & HT). rewrite HC.
  destruct (_ && _); [|cbn; reflexivity].
  assert (Hdoc : dictionaries_related Rh doc doc') by (split; auto).
  assert (Hholmes : forall root,
             corresponds_under (dictionaries_related Rh)
               (fun h h' => HolmesDictionary.righthand_siblings h'
                            = HolmesDictionary.righthand_siblings h)
               (holmes_of root) (holmes_of root)).
  { intros root d d' (HC0 & HL0 & HT0).
    pose proof (reads_only_holmes_of root d) as Hr.
    pose proof (reads_only_holmes_of root d') as Hr'.
    split; [|split; assumption]. clear Hr Hr'.
    unfold holmes_of, bind, token_at.
    destruct (Doc.tokens d !! root) as [tr|] eqn:Htr.
    - destruct (HT0 root tr Htr) as (tr' & -> & _ & D).
      destruct (Token.holmes tr) as [s| |h].
      + rewrite D. cbn. reflexivity.
      + rewrite D. cbn. reflexivity.
      + destruct D as (h' & -> & HR). cbn. eauto.
    - apply lookup_ge_None in Htr.
      rewrite (proj2 (lookup_ge_None (Doc.tokens d') root)); [cbn; reflexivity|].
      unfold Doc.len in HL0. lia. }
  unfold bind, token_at.
  destruct (Doc.tokens doc !! token) as [tok|] eqn:Htok.
  - destruct (HT token tok Htok) as (tok' & -> & E & _).
    replace (Token.coref_clusters tok') with (Token.coref_clusters tok)
      by (rewrite E; now destruct tok).
    apply (corresponds_any_m (dictionaries_related Rh)); [|exact Hdoc].
    intros cluster. apply corresponds_any_m. intros mention.
    destruct (Nat.eqb _ _); [now apply corresponds_ret|].
    eapply corresponds_bind; [apply Hholmes|].
    intros h h' ->. now apply corresponds_ret.
  - apply lookup_ge_None in Htok.
    rewrite (proj2 (lookup_ge_None (Doc.tokens doc') token)); [cbn; reflexivity|].
    unfold Doc.len in HL. lia.
Qed.

Lemma any_m_returns {A} (l : list A) (test : A -> M bool) doc :
  Forall (fun x => exists b, test x doc = (Ok b, doc)) l ->
  exists b, any_m l test doc = (Ok b, doc).
Proof.
  induction 1 as [|x l (b & Hb) _ IH]; cbn [any_m].
  - now exists false.
  - rewrite (bind_ok_intro _ _ _ _ _ Hb). destruct b; [now exists true | exact IH].
Qed.

Lemma coreference_returns self token doc :
  has_dictionaries doc -> mentions_in_document doc ->
  (token < Doc.len doc)%nat ->
  exists involved, is_involved_in_coreference self token doc = (Ok involved, doc).
Proof.
  intros Hd Hm Htoken. unfold is_involved_in_coreference.
  destruct (_ && _); [|now exists false].
  destruct (token_at_lt doc token Htoken) as (tok & Htok).
  rewrite (bind_token_at _ _ _ _ Htok).
  apply any_m_returns. specialize (Hm token tok Htok).
  eapply Forall_impl; [exact Hm|]. intros cluster Hcluster. cbn beta.
  apply any_m_returns. eapply Forall_impl; [exact Hcluster|].
  intros mention Hroot. cbn beta in *.
  destruct (Nat.eqb _ _); [now exists true|].
  destruct (token_at_lt doc _ Hroot) as (tr & Htr).
  destruct (Hd _ _ Htr) as (hr & Hhr).
  rewrite (bind_holmes_of _ _ _ _ (token_dict_at _ _ _ _ Htr Hhr)).
  eexists. reflexivity.
Qed.

Lemma reads_only_run {A} (m : M A) doc r doc' :
  reads_only m -> m doc = (r, doc') -> doc' = doc.
Proof. intros Hm H. specialize (Hm doc). rewrite H in Hm. exact Hm. Qed.

Lemma set_matchability_inv self token doc doc' :
  _set_matchability self token doc = (Ok tt, doc') ->
  exists h value,
    dict_at doc token = Some h
    /\ doc' = put_dict token (HolmesDictionary.set_is_matchable (Some value) h) doc.
Proof.
  unfold _set_matchability. intros H.
  apply bind_ok in H as (tok & d1 & Htok & H).
  apply token_at_inv in Htok as [-> Htok].
  apply bind_ok in H as (candidate & d2 & Hc & H).
  assert (d2 = doc) as ->.
  { eapply reads_only_run; [|exact Hc].
    destruct (str_in _ _); [apply reads_only_ret|].
    apply reads_only_is_involved_in_coreference. }
  apply bind_ok in H as (value & d3 & Hv & H).
  assert (d3 = doc) as ->.
  { eapply reads_only_run; [|exact Hv]. repeat reads_only_step. }
  apply update_holmes_inv in H as [(h & Hh & _ & ->)|(_ & _ & Hno)]; [|discriminate].
  eauto.
Qed.

Lemma set_matchability_run self token doc tok h :
  Doc.tokens doc !! token = Some tok -> Token.holmes tok = ExtDict h ->
  _set_matchability self token doc
  = match (if str_in (Token.pos_ tok) (SemanticAnalyzer._matchable_pos self)
           then (Ok true, doc)
           else is_involved_in_coreference self token doc) with
    | (Ok candidate, _) =>
        (Ok tt,
         put_dict token
           (HolmesDictionary.set_is_matchable
              (Some (candidate
                     && negb (str_in (Token.tag_ tok)
                                (SemanticAnalyzer._interrogative_pronoun_tags self))
                     && negb (str_in (HolmesDictionary.lemma h)
                                (SemanticAnalyzer._generic_pronoun_lemmas self))))
              h) doc)
    | (Raise e, _) => (Raise e, doc)
    end.
Proof.
  intros Htok Hh. pose proof (token_dict_at _ _ _ _ Htok Hh) as Hd.
  unfold _set_matchability. rewrite (bind_token_at _ _ _ _ Htok).
  assert (Hrun : forall candidate,
    (let* value :=
       (if candidate
             && negb (str_in (Token.tag_ tok)
                        (SemanticAnalyzer._interrogative_pronoun_tags self))
        then
          let* h := holmes_of token in
          ret (negb (str_in (HolmesDictionary.lemma h)
                       (SemanticAnalyzer._generic_pronoun_lemmas self)))
        else ret false) in
     update_holmes token (HolmesDictionary.set_is_matchable (Some value))) doc
    = (Ok tt,
       put_dict token
         (HolmesDictionary.set_is_matchable
            (Some (candidate
                   && negb (str_in (Token.tag_ tok)
                              (SemanticAnalyzer._interrogative_pronoun_tags self))
                   && negb (str_in (HolmesDictionary.lemma h)
                              (SemanticAnalyzer._generic_pronoun_lemmas self))))
            h) doc)).
  { intros candidate.
    destruct (candidate && negb (str_in (Token.tag_ tok) _)); cbn [andb].
    - unfold bind at 1. rewrite (bind_holmes_of _ _ _ _ Hd). cbn [ret].
      now apply update_holmes_ok.
    - unfold bind at 1. cbn [ret]. now apply update_holmes_ok. }
  destruct (str_in (Token.pos_ tok) _).
  - unfold bind at 1. cbn [ret]. apply Hrun.
  - pose proof (reads_only_is_involved_in_coreference self token doc) as Hr.
    destruct (is_involved_in_coreference self token doc) as [[c|e] d1] eqn:Hc;
      cbn in Hr; subst d1.
    + rewrite (bind_ok_intro _ _ _ _ _ Hc). apply Hrun.
    + now rewrite (bind_raise_intro _ _ _ _ _ Hc).
Qed.

Lemma matchability_loop self doc :
  has_dictionaries doc -> mentions_in_document doc ->
  forall m k d,
    (k + m = Doc.len doc)%nat ->
    dictionaries_related matchability_only doc d ->
    (forall p, (k <= p)%nat -> Doc.tokens d !! p = Doc.tokens doc !! p) ->
    exists d',
      for_each (seq k m) (_set_matchability self) d = (Ok tt, d')
      /\ Doc.len d' = Doc.len doc
      /\ (forall p, (p < k)%nat -> Doc.tokens d' !! p = Doc.tokens d !! p)
      /\ forall p tok h,
           (k <= p)%nat -> Doc.tokens doc !! p = Some tok ->
           Token.holmes tok = ExtDict h ->
           exists involved,
             is_involved_in_coreference self p doc = (Ok involved, doc)
             /\ Doc.tokens d' !! p
                = Some (Token.set_holmes
                          (ExtDict
                             (HolmesDictionary.set_is_matchable
                                (Some ((str_in (Token.pos_ tok)
                                          (SemanticAnalyzer._matchable_pos self)
                                        || involved)
                                       && negb (str_in (Token.tag_ tok)
                                                  (SemanticAnalyzer._interrogative_pronoun_tags self))
                                       && negb (str_in (HolmesDictionary.lemma h)
                                                  (SemanticAnalyzer._generic_pronoun_lemmas self))))
                                h)) tok).
Proof.
  intros Hdicts Hmentions. induction m as [|m IH]; intros k d Hk Hrel Hrest.
  - exists d. cbn [seq for_each]. split; [reflexivity|].
    split; [apply Hrel|]. split; [auto|].
    intros p tok h Hp Htok _. apply lookup_lt_Some in Htok.
    unfold Doc.len in Hk. lia.
  - cbn [seq for_each].
    assert (Hlt : (k < Doc.len doc)%nat) by lia.
    destruct (token_at_lt doc k Hlt) as (tk & Htk).
    destruct (Hdicts k tk Htk) as (hk & Hhk).
    assert (Htk' : Doc.tokens d !! k = Some tk) by (rewrite Hrest by lia; exact Htk).
    destruct (coreference_returns self k doc Hdicts Hmentions Hlt) as (c & Hc).
    assert (Hc' : is_involved_in_coreference self k d = (Ok c, d)).
    { destruct (coreference_reads_siblings matchability_only self k) with (doc := doc)
        (doc' := d) as (Ha & _ & Hs); [|exact Hrel|].
      - intros p h h' [mm ->]. reflexivity.
      - rewrite Hc in Ha. cbn in Ha.
        destruct (is_involved_in_coreference self k d) as [[c'|e] d0];
          cbn in *; [|contradiction]. now subst. }
    pose proof (set_matchability_run self k d tk hk Htk' Hhk) as Hstep.
    rewrite Hc' in Hstep.
    set (value := (str_in (Token.pos_ tk) (SemanticAnalyzer._matchable_pos self) || c)
                  && negb (str_in (Token.tag_ tk)
                             (SemanticAnalyzer._interrogative_pronoun_tags self))
                  && negb (str_in (HolmesDictionary.lemma hk)
                             (SemanticAnalyzer._generic_pronoun_lemmas self))).
    assert (Hstep' : _set_matchability self k d
                     = (Ok tt,
                        put_dict k
                          (HolmesDictionary.set_is_matchable (Some value) hk) d)).
    { rewrite Hstep. subst value. now destruct (str_in (Token.pos_ tk) _). }
    clear Hstep. rewrite (bind_ok_intro _ _ _ _ _ Hstep').
    pose proof (token_dict_at _ _ _ _ Htk' Hhk) as Hdk.
    destruct (IH (S k)
                (put_dict k (HolmesDictionary.set_is_matchable (Some value) hk) d))
      as (d' & Hrun & Hlen & Hbefore & Hafter).
    + lia.
    + etransitivity; [exact Hrel|].
      apply (related_put_dict _ matchability_only_refl _ hk); [exact Hdk|].
      now exists (Some value).
    + intros p Hp. rewrite tokens_put_dict.
      destruct (decide (k = p)); [lia|]. rewrite <- Hrest by lia.
      now destruct (Doc.tokens d !! p).
    + exists d'. split; [exact Hrun|]. split; [exact Hlen|]. split.
      * intros p Hp. rewrite Hbefore by lia. rewrite tokens_put_dict.
        destruct (decide (k = p)); [lia|]. now destruct (Doc.tokens d !! p).
      * intros p tok h Hp Htok Hh. destruct (decide (p = k)) as [->|Hne].
        -- assert (tok = tk) by congruence. subst tok.
           assert (h = hk) by congruence. subst h.
           exists c. split; [exact Hc|]. rewrite Hbefore by lia.
           now apply tokens_put_dict_eq.
        -- apply Hafter; auto. lia.
Qed.

(** X18: the matchability pass.  On a document in which every token has its
    dictionary and every coreference mention has its root among the tokens,
    the loop [for token in spacy_doc: self._set_matchability(token)] runs to
    its end.  It changes nothing but [is_matchable], which becomes a boolean
    for every token: a token is matchable when its part of speech is one of
    [_matchable_pos] or it is involved in coreference, unless its tag is one
    of [_interrogative_pronoun_tags] or its lemma in the dictionary is one of
    [_generic_pronoun_lemmas].  The involvement in coreference is the one of
    the document before the pass: what the pass has written for earlier
    tokens does not affect later ones. *)
Theorem set_matchability_pass_decides_every_token :
  forall (self : Analyzer) (doc : Doc.t),
    has_dictionaries doc -> mentions_in_document doc ->
    exists doc',
      for_each_token (_set_matchability self) doc = (Ok tt, doc')
      /\ Doc.len doc' = Doc.len doc
      /\ Doc.has_coref doc' = Doc.has_coref doc
      /\ forall p tok h,
           Doc.tokens doc !! p = Some tok -> Token.holmes tok = ExtDict h ->
           exists involved,
             is_involved_in_coreference self p doc = (Ok involved, doc)
             /\ Doc.tokens doc' !! p
                = Some (Token.set_holmes
                          (ExtDict
                             (HolmesDictionary.set_is_matchable
                                (Some ((str_in (Token.pos_ tok)
                                          (SemanticAnalyzer._matchable_pos self)
                                        || involved)
                                       && negb (str_in (Token.tag_ tok)
                                                  (SemanticAnalyzer._interrogative_pronoun_tags self))
                                       && negb (str_in (HolmesDictionary.lemma h)
                                                  (SemanticAnalyzer._generic_pronoun_lemmas self))))
                                h)) tok).
Proof.
  intros self doc Hdicts Hmentions.
  unfold for_each_token.
  destruct (matchability_loop self doc Hdicts Hmentions (Doc.len doc) 0 doc)
    as (doc' & Hrun & Hlen & _ & Hall).
  - reflexivity.
  - reflexivity.
  - reflexivity.
  - exists doc'. split; [exact Hrun|]. split; [exact Hlen|]. split.
    + assert (Hk : keeps (dictionaries_related identity_kept)
                     (for_each_token (_set_matchability self))).
      { apply keeps_for_each_token; [typeclasses eauto..|].
        intros token. apply keeps_identity_set_matchability. }
      specialize (Hk doc). unfold for_each_token in Hk. rewrite Hrun in Hk.
      apply Hk.
    + intros p tok h Htok Hh. apply (Hall p tok h); auto. lia.
Qed.

Lemma set_matchability_pass_decides_every_token_witness :
  exists doc',
    for_each_token (_set_matchability english) doc_which_dog_ate_something
    = (Ok tt, doc')
    /\ Doc.len doc' = Doc.len doc_which_dog_ate_something
    /\ Doc.has_coref doc' = Doc.has_coref doc_which_dog_ate_something
    /\ forall p tok h,
         Doc.tokens doc_which_dog_ate_something !! p = Some tok ->
         Token.holmes tok = ExtDict h ->
         exists involved,
           is_involved_in_coreference english p doc_which_dog_ate_something
           = (Ok involved, doc_which_dog_ate_something)
           /\ Doc.tokens doc' !! p
              = Some (Token.set_holmes
                        (ExtDict
                           (HolmesDictionary.set_is_matchable
                              (Some ((str_in (Token.pos_ tok)
                                        (SemanticAnalyzer._matchable_pos english)
                                      || involved)
                                     && negb (str_in (Token.tag_ tok)
                                                (SemanticAnalyzer._interrogative_pronoun_tags english))
                                     && negb (str_in (HolmesDictionary.lemma h)
                                                (SemanticAnalyzer._generic_pronoun_lemmas english))))
                              h)) tok).
Proof.
  apply (set_matchability_pass_decides_every_token english
           doc_which_dog_ate_something).
  - intros p tok H.
    destruct p as [|[|[|[|[|p]]]]]; cbn in H; inversion H; eexists; reflexivity.
  - intros p tok H.
    destruct p as [|[|[|[|[|p]]]]]; cbn in H; inversion H; constructor.
Defined.

(** In "Which dog ate something?" the interrogative determiner, the generic
    pronoun and the punctuation mark are not matchable; the noun and the
    verb are. *)
Example which_dog_ate_something_matchability :
  let r := for_each_token (_set_matchability english) doc_which_dog_ate_something in
  fst r = Ok tt
  /\ omap (fun p => HolmesDictionary.is_matchable <$> dict_at (snd r) p) (seq 0 5)
     = [Some false; Some true; Some true; Some false; Some false].
Proof. vm_compute. split; reflexivity. Qed.

(** ** What [holmes_parse] leaves behind *)

Lemma matchability_pass_decides self m :
  forall k d d',
    for_each (seq k m) (_set_matchability self) d = (Ok tt, d') ->
    forall p, (k <= p < k + m)%nat ->
      exists h, dict_at d' p = Some h /\ HolmesDictionary.is_matchable h <> None.
Proof.
  induction m as [|m IH]; intros k d d' H p Hp; [lia|].
  cbn [seq for_each] in H. apply bind_ok in H as ([] & dk & Hstep & Hrest).
  destruct (decide (p = k)) as [->|Hne].
  - apply set_matchability_inv in Hstep as (h & value & Hh & ->).
    assert (Hk : keeps (dictionaries_related identity_kept)
                   (for_each (seq (S k) m) (_set_matchability self))).
    { apply keeps_for_each; [typeclasses eauto..|].
      intros token. apply keeps_identity_set_matchability. }
    specialize (Hk (put_dict k (HolmesDictionary.set_is_matchable (Some value) h) d)).
    rewrite Hrest in Hk. cbn in Hk.
    destruct (related_dict_at _ _ _ k _ Hk (dict_at_put_dict_eq _ _ _ _ Hh))
      as (h' & Hh' & _ & _ & Hm).
    exists h'. split; [exact Hh'|]. apply Hm. discriminate.
  - apply (IH _ _ _ Hrest). lia.
Qed.

(** X19: what [holmes_parse] leaves behind when it returns.  The hooks of
    the language are assumed to keep the index and the lemma of every
    dictionary and not to withdraw a decision on matchability, as the methods
    at hand do; [_holmes_lemma] is assumed to read nothing but what spaCy
    says.  Then the document is still the same parse, and every token has a
    dictionary whose index is the position of the token, whose lemma is what
    [_holmes_lemma] returns for the token on the document as it came in, and
    whose [is_matchable] is a boolean. *)
Theorem holmes_parse_gives_every_token_its_dictionary :
  forall (self : Analyzer) (limits : Limits)
         (_holmes_lemma : nat -> M string)
         (_set_negation _correct_auxiliaries_and_passives
            _handle_relative_constructions : nat -> M unit)
         (_perform_language_specific_tasks :
            nat -> DefaultArguments -> M DefaultArguments),
    (forall token, reads_spacy_attributes_only (_holmes_lemma token)) ->
    (forall token,
        keeps (dictionaries_related identity_kept) (_set_negation token)) ->
    (forall token,
        keeps (dictionaries_related identity_kept)
          (_correct_auxiliaries_and_passives token)) ->
    (forall token,
        keeps (dictionaries_related identity_kept)
          (_handle_relative_constructions token)) ->
    (forall token defaults,
        keeps (dictionaries_related identity_kept)
          (_perform_language_specific_tasks token defaults)) ->
    forall (defaults defaults' : DefaultArguments) (doc doc' : Doc.t),
      holmes_parse self limits _holmes_lemma _set_negation
        _correct_auxiliaries_and_passives _handle_relative_constructions
        _perform_language_specific_tasks defaults doc
      = (Ok defaults', doc') ->
      same_parse doc doc'
      /\ forall p, (p < Doc.len doc)%nat ->
           exists h,
             dict_at doc' p = Some h
             /\ HolmesDictionary.index h = Z.of_nat p
             /\ fst (_holmes_lemma p doc) = Ok (HolmesDictionary.lemma h)
             /\ HolmesDictionary.is_matchable h <> None.
Proof.
  intros self limits hl sn ca hr task Hhl Hsn Hca Hhr Htask
         defaults defaults' doc doc' H.
  unfold holmes_parse in H.
  apply bind_ok in H as ([] & d1 & Hpass1 & H).
  apply bind_ok in H as ([] & d2 & Hpass2 & H).
  unfold for_each_token in Hpass1, Hpass2.
  destruct (create_dictionaries_loop hl Hhl _ _ _ _ Hpass1) as (Hsame1 & Htokens1).
  assert (H12 : dictionaries_related identity_kept d1 d2).
  { assert (Hk : keeps (dictionaries_related identity_kept)
                   (for_each (seq 0 (Doc.len d1)) (_set_matchability self))).
    { apply keeps_for_each; [typeclasses eauto..|].
      intros token. apply keeps_identity_set_matchability. }
    specialize (Hk d1). now rewrite Hpass2 in Hk. }
  assert (H2' : dictionaries_related identity_kept d2 doc').
  { match type of H with
    | ?rest d2 = _ =>
        assert (Hk : keeps (dictionaries_related identity_kept) rest)
    end.
    { repeat (apply keeps_bind;
                [ typeclasses eauto..
                | apply keeps_for_each_token; [typeclasses eauto..|];
                  first [ exact Hsn | exact Hca | exact Hhr
                        | intros token;
                          first [ apply keeps_identity_set_matchability
                                | apply keeps_identity_initialize
                                | apply keeps_identity_mark
                                | apply keeps_identity_copy
                                | apply keeps_identity_normalize
                                | apply keeps_identity_preposition ] ]
                | intros _ ]).
      apply keeps_bind; [typeclasses eauto..| |].
      - intros d. apply keeps_fold_m; [typeclasses eauto..|]. exact Htask.
      - intros defaults0. apply keeps_bind; [typeclasses eauto..| |].
        + apply keeps_identity_debug.
        + intros _. apply keeps_ret; typeclasses eauto. }
    specialize (Hk d2). now rewrite H in Hk. }
  split.
  - etransitivity; [exact Hsame1|].
    etransitivity; eapply related_same_parse; eauto.
  - intros p Hp. destruct (token_at_lt doc p Hp) as (tok & Htok).
    specialize (Htokens1 p tok Htok).
    rewrite bool_decide_eq_true_2 in Htokens1 by lia.
    destruct Htokens1 as (lemma & Hlemma & Hp1).
    assert (Hd1 : dict_at d1 p
                  = Some (HolmesDictionary.init (Z.of_nat p) lemma)).
    { eapply token_dict_at; [exact Hp1|]. now destruct tok. }
    destruct (related_dict_at _ _ _ p _ H12 Hd1) as (h2 & Hh2 & I2 & L2 & _).
    destruct (matchability_pass_decides self _ _ _ _ Hpass2 p) as (h2' & Hh2' & M2).
    { rewrite (same_parse_len _ _ Hsame1). lia. }
    assert (h2' = h2) by congruence. subst h2'.
    destruct (related_dict_at _ _ _ p _ H2' Hh2) as (h & Hh & I & L & M).
    exists h. split; [exact Hh|]. cbn in I2, L2.
    split; [congruence|]. split; [|auto].
    rewrite Hlemma. congruence.
Qed.

Lemma holmes_parse_gives_every_token_its_dictionary_witness :
  let enriched :=
    snd (holmes_parse german (Build_Limits 1000 1000 1000)
           (German_holmes_lemma (fun s => s))
           (German_set_negation (Build_Limits 1000 1000 1000)) no_rewrite no_rewrite
           (German_perform_language_specific_tasks (Build_Limits 1000 1000 1000))
           {| visited_default := [] |} doc_er_steht_auf) in
  same_parse doc_er_steht_auf enriched
  /\ forall p, (p < Doc.len doc_er_steht_auf)%nat ->
       exists h,
         dict_at enriched p = Some h
         /\ HolmesDictionary.index h = Z.of_nat p
         /\ fst (German_holmes_lemma (fun s => s) p doc_er_steht_auf)
            = Ok (HolmesDictionary.lemma h)
         /\ HolmesDictionary.is_matchable h <> None.
Proof.
  apply (holmes_parse_gives_every_token_its_dictionary german
           (Build_Limits 1000 1000 1000) (German_holmes_lemma (fun s => s))
           (German_set_negation (Build_Limits 1000 1000 1000)) no_rewrite no_rewrite
           (German_perform_language_specific_tasks (Build_Limits 1000 1000 1000)))
    with (defaults := {| visited_default := [] |})
         (defaults' := {| visited_default := [] |}).
  - intros token. apply German_holmes_lemma_reads_the_parse.
  - intros token. apply keeps_identity_German_set_negation.
  - intros token. apply keeps_ret; typeclasses eauto.
  - intros token. apply keeps_ret; typeclasses eauto.
  - intros token defaults. apply keeps_identity_German_tasks.
  - vm_compute. reflexivity.
Defined.

(** * The language-specific tasks of the English analyzer *)

(** On "He gave up." the task for the particle removes the edge from the
    verb to the particle; on "He might go." the task for the verb marks its
    subject as uncertain and the task for the modal makes the modal
    unmatchable; on "destruction of cities by armies" the task for the noun
    adds edges to the objects of the two prepositions, which become
    unmatchable. *)
Example English_tasks_on_examples :
  let limits := Build_Limits 1000 1000 1000 in
  children_at (snd (English_perform_language_specific_tasks english limits 2
                      doc_he_gave_up)) 1
  = [dep 1 0 "nsubj"]
  /\ children_at (snd (English_perform_language_specific_tasks english limits 2
                         doc_he_might_go)) 2
     = [SemanticDependency.Build 2 0 (Some "nsubj") true; dep 2 1 "aux"]
  /\ (HolmesDictionary.is_matchable
        <$> dict_at (snd (English_perform_language_specific_tasks english limits 1
                            doc_he_might_go)) 1)
     = Some (Some false)
  /\ (let r := English_perform_language_specific_tasks english limits 0
                 doc_destruction_of_cities_by_armies in
      fst r = Ok tt
      /\ children_at (snd r) 0
         = [dep 0 1 "prep"; dep 0 3 "prep"; dep 0 2 "pobjo"; dep 0 4 "pobjb"]
      /\ omap (fun p => HolmesDictionary.is_matchable <$> dict_at (snd r) p) (seq 0 5)
         = [Some true; Some false; Some true; Some false; Some true]).
Proof. vm_compute. repeat split; reflexivity. Qed.

Lemma init_ok_inv p c l u d :
  SemanticDependency.init p c l u = Ok d ->
  d = SemanticDependency.Build p c l u /\ p <> c.
Proof.
  unfold SemanticDependency.init.
  destruct (_ && _); [discriminate|].
  destruct (Z.eqb_spec p c); [discriminate|]. intros [= <-]. auto.
Qed.

Lemma working_dependency_label_values lemma d label :
  working_dependency_label lemma d = Some label ->
  In label ["pobjb"; "pobjo"; "dative"; "pobjt"].
Proof.
  unfold working_dependency_label.
  repeat match goal with
         | |- context [if ?b then _ else _] => destruct b
         end; intros [= <-]; cbn; auto.
Qed.

Lemma continues_edge_refl e : continues_edge e e.
Proof. repeat split; auto. Qed.

Lemma label_in_advmod_not_subject l :
  label_in l ["advmodobj"; "advmodsubj"] = true ->
  label_in l English_task_labels = true
  /\ label_in l ["nsubj"; "nsubjpass"] = false.
Proof.
  destruct l as [s|]; [|discriminate]. cbn. rewrite !orb_false_r.
  intros H. apply orb_true_iff in H as [H|H]; apply String.eqb_eq in H; subst s;
    split; reflexivity.
Qed.

Lemma continues_edge_trans e1 e2 e3 :
  continues_edge e1 e2 -> continues_edge e2 e3 -> continues_edge e1 e3.
Proof.
  intros (P1 & C1 & L1 & U1) (P2 & C2 & L2 & U2).
  split; [congruence|]. split; [congruence|]. split; [|auto].
  destruct L2 as [L2|L2]; [|now right]. rewrite L2. exact L1.
Qed.

Lemma added_then_continued p e2 e3 :
  added_by_English_tasks p e2 -> continues_edge e2 e3 ->
  added_by_English_tasks p e3.
Proof.
  intros (P2 & C2 & L2 & U2) (P3 & C3 & L3 & U3).
  split; [congruence|]. split; [congruence|].
  destruct L3 as [L3|L3].
  - rewrite L3. split; [exact L2 | auto].
  - destruct (label_in_advmod_not_subject _ L3) as [Hin Hout].
    split; [exact Hin|]. rewrite Hout. discriminate.
Qed.

Lemma English_tasks_frame_refl p h : English_tasks_frame p h h.
Proof.
  repeat split; auto. apply Forall_forall. intros e He. left. exists e.
  apply list_elem_of_In in He. split; [exact He | apply continues_edge_refl].
Qed.

Lemma English_tasks_frame_trans p h1 h2 h3 :
  English_tasks_frame p h1 h2 -> English_tasks_frame p h2 h3 ->
  English_tasks_frame p h1 h3.
Proof.
  intros (I1 & L1 & S1 & O1 & N1 & M1 & E1) (I2 & L2 & S2 & O2 & N2 & M2 & E2).
  repeat split; try congruence.
  - destruct M2 as [M2|M2]; [|now right]. rewrite M2. exact M1.
  - rewrite Forall_forall in *. intros e3 He3.
    destruct (E2 e3 He3) as [(e2 & He2 & H23)|Hnew]; [|now right].
    apply list_elem_of_In in He2.
    destruct (E1 e2 He2) as [(e1 & He1 & H12)|Hadded].
    + left. exists e1. split; [exact He1|]. eapply continues_edge_trans; eauto.
    + right. eapply added_then_continued; eauto.
Qed.

#[global] Instance English_frame_related_refl :
  Reflexive (dictionaries_related English_tasks_frame) :=
  related_refl English_tasks_frame English_tasks_frame_refl.

#[global] Instance English_frame_related_trans :
  Transitive (dictionaries_related English_tasks_frame) :=
  related_trans English_tasks_frame English_tasks_frame_trans.

(** The writes of the tasks, one by one. *)
Lemma frame_set_children p h cs :
  Forall
    (fun e' =>
       (exists e, In e (HolmesDictionary.children h) /\ continues_edge e e')
       \/ added_by_English_tasks p e') cs ->
  English_tasks_frame p h (HolmesDictionary.set_children cs h).
Proof. intros H. repeat split; cbn; auto. Qed.

Lemma frame_remove p h index :
  English_tasks_frame p h
    (HolmesDictionary.remove_dependency_with_child_index index h).
Proof.
  apply frame_set_children. apply Forall_forall. intros e He.
  apply list_elem_of_In, filter_In in He as [He _]. left. exists e.
  split; [exact He | apply continues_edge_refl].
Qed.

Lemma frame_mark p h :
  English_tasks_frame p h
    (HolmesDictionary.set_children
       (mark_uncertain_unless_aux (HolmesDictionary.children h)) h).
Proof.
  apply frame_set_children. apply Forall_forall. intros e' He'.
  apply list_elem_of_In, in_map_iff in He' as (e & <- & He).
  left. exists e. split; [exact He|].
  destruct (negb (has_label "aux" e)); repeat split; auto.
Qed.

Lemma frame_relabel p h label k :
  label_in (Some label) ["advmodobj"; "advmodsubj"] = true ->
  English_tasks_frame p h
    (HolmesDictionary.set_children
       (alter (set_label (Some label)) k (HolmesDictionary.children h)) h).
Proof.
  intros Hl. apply frame_set_children. apply Forall_forall. intros e' He'.
  apply list_elem_of_lookup in He' as (i & Hi).
  destruct (decide (i = k)) as [->|Hne].
  - rewrite list_lookup_alter_eq in Hi.
    destruct (HolmesDictionary.children h !! k) as [e|] eqn:He; [|discriminate].
    injection Hi as <-. left. exists e. split.
    + apply list_elem_of_In. eapply list_elem_of_lookup_2; eauto.
    + repeat split; auto.
  - rewrite list_lookup_alter_ne in Hi by auto. left. exists e'. split.
    + apply list_elem_of_In. eapply list_elem_of_lookup_2; eauto.
    + apply continues_edge_refl.
Qed.

Lemma frame_not_matchable p h :
  English_tasks_frame p h (HolmesDictionary.set_is_matchable (Some false) h).
Proof.
  repeat split; cbn; auto. apply Forall_forall. intros e He. left. exists e.
  apply list_elem_of_In in He. split; [exact He | apply continues_edge_refl].
Qed.

Lemma frame_append p h c l u :
  Z.of_nat p <> c ->
  label_in (Some l) English_task_labels = true ->
  (label_in (Some l) ["nsubj"; "nsubjpass"] = true -> u = true) ->
  English_tasks_frame p h
    (HolmesDictionary.append_child
       (SemanticDependency.Build (Z.of_nat p) c (Some l) u) h).
Proof.
  intros Hne Hl Hu. apply frame_set_children. apply Forall_app_2.
  - apply Forall_forall. intros e He. left. exists e.
    apply list_elem_of_In in He. split; [exact He | apply continues_edge_refl].
  - constructor; [|constructor]. right. repeat split; cbn; auto.
Qed.

(** Decomposing the tasks into steps that stay within the frame. *)
Ltac frame_label :=
  first
    [ reflexivity
    | discriminate
    | intros _; reflexivity
    | match goal with
      | H : working_dependency_label _ _ = Some _ |- _ =>
          apply working_dependency_label_values in H; cbn in H;
          destruct H as [<-|[<-|[<-|[<-|[]]]]];
          first [reflexivity | discriminate]
      | H : _ = "nsubj" \/ _ = "nsubjpass" |- _ =>
          destruct H as [-> | ->]; first [reflexivity | intros _; reflexivity]
      end ].

Ltac frame_step :=
  lazymatch goal with
  | |- keeps _ (update_holmes _ _) =>
      apply keeps_related_update_holmes; [exact English_tasks_frame_refl|];
      intros ?; cbn beta;
      first [ apply frame_remove
            | apply frame_not_matchable
            | apply frame_mark
            | apply frame_relabel; reflexivity ]
  | |- keeps _ (append_child _ _) =>
      apply keeps_related_update_holmes; [exact English_tasks_frame_refl|];
      intros ?; apply frame_append; [assumption | frame_label | frame_label]
  | |- keeps _ (bind (lift (SemanticDependency.init _ _ _ _)) _) =>
      let dep := fresh "dep" in
      let Hdep := fresh "Hdep" in
      apply keeps_lift_bind; [typeclasses eauto|]; intros dep Hdep;
      apply init_ok_inv in Hdep as [-> Hdep]
  | |- keeps _ (for_live _ _ _ _ _) =>
      (apply keeps_for_live; try typeclasses eauto); intros ? ?
  | |- keeps _ (is_involved_in_coreference _ _) =>
      apply reads_only_keeps;
      [typeclasses eauto | apply reads_only_is_involved_in_coreference]
  | |- keeps _ (_lefthand_sibling_recursively _ _ _) =>
      apply reads_only_keeps; [typeclasses eauto | apply reads_only_lefthand_sibling]
  | |- keeps _ (child_token _) =>
      apply keeps_doc_getitem; typeclasses eauto
  | |- keeps _ (match working_dependency_label ?l ?d with _ => _ end) =>
      let E := fresh "E" in
      destruct (working_dependency_label l d) eqn:E
  | |- keeps _ (match (if ?c then _ else _) with _ => _ end) => destruct c
  | |- keeps _ (let '(_, _) := ?x in _) => destruct x
  | |- _ => keeps_step
  end.

Section EnglishTasksFrame.

Variable self : Analyzer.
Variable limits : Limits.

Lemma frame_remove_phrasal_particle_dependency token tok :
  keeps (dictionaries_related English_tasks_frame)
    (remove_phrasal_particle_dependency token tok).
Proof. unfold remove_phrasal_particle_dependency. repeat frame_step. Qed.

Lemma frame_mark_modal_verb_dependencies token tok :
  keeps (dictionaries_related English_tasks_frame)
    (mark_modal_verb_dependencies limits token tok).
Proof. unfold mark_modal_verb_dependencies. repeat frame_step. Qed.

Lemma frame_set_auxiliaries_not_matchable token tok :
  keeps (dictionaries_related English_tasks_frame)
    (set_auxiliaries_not_matchable token tok).
Proof. unfold set_auxiliaries_not_matchable. repeat frame_step. Qed.

Lemma frame_add_deverbal_dependencies token :
  keeps (dictionaries_related English_tasks_frame)
    (add_deverbal_dependencies limits token).
Proof. unfold add_deverbal_dependencies. repeat frame_step. Qed.

Lemma frame_handle_past_passive_participle token tok :
  keeps (dictionaries_related English_tasks_frame)
    (handle_past_passive_participle self limits token tok).
Proof. unfold handle_past_passive_participle. repeat frame_step. Qed.

Lemma frame_handle_participle_compound token tok :
  keeps (dictionaries_related English_tasks_frame)
    (handle_participle_compound token tok).
Proof. unfold handle_participle_compound. repeat frame_step. Qed.

Lemma reads_only_find_subject_phrase sent_start counter :
  reads_only (find_subject_phrase sent_start counter).
Proof.
  induction counter as [|counter IH]; cbn [find_subject_phrase].
  - apply reads_only_ret.
  - destruct (_ <? _)%nat; [apply reads_only_ret|].
    apply reads_only_bind; [apply reads_only_doc_getitem|]. intros candidate.
    apply reads_only_bind; [apply reads_only_token_at|]. intros tc.
    destruct (str_in _ _); [apply reads_only_ret | exact IH].
Qed.

Lemma frame_project_subject_phrase rounds token new_dependency_label :
  new_dependency_label = "nsubj" \/ new_dependency_label = "nsubjpass" ->
  forall working_token,
    keeps (dictionaries_related English_tasks_frame)
      (project_subject_phrase self rounds token new_dependency_label working_token).
Proof.
  intros Hlabel.
  induction rounds as [|rounds IH]; intros working_token;
    cbn [project_subject_phrase].
  - apply keeps_raise; typeclasses eauto.
  - apply keeps_bind; [typeclasses eauto.. | apply keeps_token_at; typeclasses eauto |].
    intros wt. apply keeps_bind; [typeclasses eauto..| |].
    { destruct (String.prefix _ _); repeat frame_step. }
    intros is_nominal. destruct is_nominal.
    + repeat frame_step.
    + destruct (negb _); [apply IH | apply keeps_ret; typeclasses eauto].
Qed.

Lemma frame_handle_prepositional_complement token tok :
  keeps (dictionaries_related English_tasks_frame)
    (handle_prepositional_complement self limits token tok).
Proof.
  unfold handle_prepositional_complement.
  apply keeps_when; [typeclasses eauto..|].
  apply keeps_bind; [typeclasses eauto.. | apply keeps_holmes_of; typeclasses eauto |].
  intros h. apply keeps_bind; [typeclasses eauto.. | apply keeps_holmes_of; typeclasses eauto |].
  intros h'. apply keeps_when; [typeclasses eauto..|].
  apply keeps_bind; [typeclasses eauto..| |].
  - apply reads_only_keeps; [typeclasses eauto|]. apply reads_only_find_subject_phrase.
  - intros [working_token|]; [|apply keeps_ret; typeclasses eauto].
    apply frame_project_subject_phrase.
    destruct (existsb _ _); auto.
Qed.

Lemma frame_English_tasks token :
  keeps (dictionaries_related English_tasks_frame)
    (English_perform_language_specific_tasks self limits token).
Proof.
  unfold English_perform_language_specific_tasks.
  apply keeps_bind; [typeclasses eauto.. | apply keeps_token_at; typeclasses eauto |].
  intros tok.
  apply keeps_bind;
    [typeclasses eauto.. | apply frame_remove_phrasal_particle_dependency | intros _].
  apply keeps_bind;
    [typeclasses eauto.. | apply frame_mark_modal_verb_dependencies | intros _].
  apply keeps_bind;
    [typeclasses eauto.. | apply frame_set_auxiliaries_not_matchable | intros _].
  apply keeps_bind;
    [typeclasses eauto.. | apply frame_add_deverbal_dependencies | intros _].
  apply keeps_bind;
    [typeclasses eauto.. | apply frame_handle_past_passive_participle | intros _].
  apply keeps_bind;
    [typeclasses eauto.. | apply frame_handle_participle_compound | intros _].
  apply frame_handle_prepositional_complement.
Qed.

End EnglishTasksFrame.

(** X20: the frame of the language-specific tasks of the English analyzer.
    Whether the call for a token returns or raises, no token appears or
    disappears and nothing that spaCy says changes; an extension that is no
    dictionary stays as it is; and of a dictionary nothing changes but the
    children and [is_matchable].  [is_matchable] is left alone or set to
    [False], never to [True].  Every edge of a dictionary after the call
    either continues an edge from before the call, with its parent and its
    child, with its label or one of [advmodobj] and [advmodsubj], and
    uncertain if that edge was; or it is new: then it starts at the token
    that holds it, ends at another token, carries one of the labels [pobjb],
    [pobjo], [pobjt], [dative], [dobj], [advmodsubj], [advmodobj], [nsubj],
    [nsubjpass], and is uncertain when the label is [nsubj] or
    [nsubjpass]. *)
Theorem English_language_specific_tasks_frame :
  forall (self : Analyzer) (limits : Limits) (token : nat) (doc : Doc.t),
    dictionaries_related English_tasks_frame doc
      (snd (English_perform_language_specific_tasks self limits token doc)).
Proof. intros self limits token doc. apply frame_English_tasks. Qed.

(** X21: auxiliaries are not matchable.  When the language-specific tasks of
    the English analyzer return for a token with the dependency label [aux]
    or [auxpass], [is_matchable] of that token is [False], whatever else the
    call did. *)
Theorem English_auxiliaries_are_not_matchable :
  forall (self : Analyzer) (limits : Limits) (token : nat) (doc doc' : Doc.t)
         (tok : Token.t),
    Doc.tokens doc !! token = Some tok ->
    str_in (Token.dep_ tok) ["aux"; "auxpass"] = true ->
    English_perform_language_specific_tasks self limits token doc = (Ok tt, doc') ->
    exists h',
      dict_at doc' token = Some h'
      /\ HolmesDictionary.is_matchable h' = Some false.
Proof.
  intros self limits token doc doc' tok Htok Hdep H.
  unfold English_perform_language_specific_tasks in H.
  rewrite (bind_token_at _ _ _ _ Htok) in H.
  apply bind_ok in H as ([] & d1 & _ & H).
  apply bind_ok in H as ([] & d2 & _ & H).
  apply bind_ok in H as ([] & d3 & Hset & H).
  unfold set_auxiliaries_not_matchable in Hset. rewrite Hdep in Hset.
  cbn [when] in Hset.
  apply update_holmes_inv in Hset as [(h2 & Hh2 & _ & ->)|(_ & _ & Hno)];
    [|discriminate].
  match type of H with
  | ?rest _ = _ =>
      assert (Hk : keeps (dictionaries_related English_tasks_frame) rest)
  end.
  { apply keeps_bind;
      [typeclasses eauto.. | apply frame_add_deverbal_dependencies | intros _].
    apply keeps_bind;
      [typeclasses eauto.. | apply frame_handle_past_passive_participle | intros _].
    apply keeps_bind;
      [typeclasses eauto.. | apply frame_handle_participle_compound | intros _].
    apply frame_handle_prepositional_complement. }
  specialize (Hk (put_dict token
                    (HolmesDictionary.set_is_matchable (Some false) h2) d2)).
  rewrite H in Hk. cbn in Hk.
  destruct (related_dict_at _ _ _ token _ Hk (dict_at_put_dict_eq _ _ _ _ Hh2))
    as (h' & Hh' & _ & _ & _ & _ & _ & Hm & _).
  exists h'. split; [exact Hh'|]. now destruct Hm.
Qed.

Lemma English_auxiliaries_are_not_matchable_witness :
  exists h',
    dict_at (snd (English_perform_language_specific_tasks english
                    (Build_Limits 1000 1000 1000) 1 doc_he_might_go)) 1
    = Some h'
    /\ HolmesDictionary.is_matchable h' = Some false.
Proof.
  apply (English_auxiliaries_are_not_matchable english (Build_Limits 1000 1000 1000)
           1 doc_he_might_go
           (snd (English_perform_language_specific_tasks english
                   (Build_Limits 1000 1000 1000) 1 doc_he_might_go))
           (Token.set_holmes (prepared 1 "might" [] [] true)
              (spacy_token "might" "might" "VERB" "MD" "aux" 2 [] (0, 4)%nat))).
  - reflexivity.
  - reflexivity.
  - vm_compute. reflexivity.
Defined.

(** ** Phrasal verbs *)

Lemma other_children_kept_refl token p h : other_children_kept token p h h.
Proof. intros _. reflexivity. Qed.

Lemma other_children_kept_trans token p h1 h2 h3 :
  other_children_kept token p h1 h2 -> other_children_kept token p h2 h3 ->
  other_children_kept token p h1 h3.
Proof. intros H12 H23 Hp. rewrite H23, H12; auto. Qed.

#[global] Instance other_children_related_refl token :
  Reflexive (dictionaries_related (other_children_kept token)) :=
  related_refl _ (other_children_kept_refl token).

#[global] Instance other_children_related_trans token :
  Transitive (dictionaries_related (other_children_kept token)) :=
  related_trans _ (other_children_kept_trans token).

Ltac others_step token :=
  lazymatch goal with
  | |- keeps _ (update_holmes _ _) =>
      apply keeps_related_update_holmes; [exact (other_children_kept_refl token)|];
      intros ? ?; first [reflexivity | contradiction]
  | |- keeps _ (append_child _ _) =>
      apply keeps_related_update_holmes; [exact (other_children_kept_refl token)|];
      intros ? ?; contradiction
  | |- keeps _ (bind (lift _) _) =>
      apply keeps_lift_bind; [typeclasses eauto|]; intros ? _
  | |- keeps _ (for_live _ _ _ _ _) =>
      (apply keeps_for_live; try typeclasses eauto); intros ? ?
  | |- keeps _ (_lefthand_sibling_recursively _ _ _) =>
      apply reads_only_keeps; [typeclasses eauto | apply reads_only_lefthand_sibling]
  | |- keeps _ (child_token _) =>
      apply keeps_doc_getitem; typeclasses eauto
  | |- _ => keeps_step
  end.

Lemma first_child_with_tag_run tag doc children :
  Forall (fun c => (c < Doc.len doc)%nat) children ->
  forall c tc,
    In c children -> Doc.tokens doc !! c = Some tc -> Token.tag_ tc = tag ->
    exists c' tc',
      In c' children /\ Doc.tokens doc !! c' = Some tc' /\ Token.tag_ tc' = tag
      /\ first_child_with_tag tag children doc = (Ok (Some tc'), doc).
Proof.
  intros Hcs c tc Hin Hc Htag.
  destruct (first_child_with_tag_found tag doc children Hcs c tc Hin Hc Htag)
    as (c' & tc' & H1 & H2 & H3 & H4).
  exists c', tc'. auto.
Qed.

(** X22: phrasal verbs in the English analyzer.  For a token with the tag
    [RP] that is no verb and not its own head, a call of
    [_perform_language_specific_tasks] that returns leaves the head without
    any edge to the token and with its other edges as they were, in their
    order, whatever the part of speech of the head.  The lemma of the head
    is conflated to match only when the head has the part of speech [VERB]:
    then [_holmes_lemma] of the head is its lower-cased lemma, a space and
    the lower-cased lemma of the first of its children with the tag [RP];
    for a head with another part of speech it is the lower-cased lemma of
    the head alone. *)
Theorem phrasal_verb_lemma_and_dependency :
  forall (lower : string -> string) (self : Analyzer) (limits : Limits)
         (token : nat) (doc doc' : Doc.t) (tok th : Token.t) (hh : HDict),
    Doc.tokens doc !! token = Some tok ->
    Token.tag_ tok = "RP" ->
    Token.pos_ tok <> "VERB" ->
    Token.head tok <> token ->
    Doc.tokens doc !! Token.head tok = Some th ->
    dict_at doc (Token.head tok) = Some hh ->
    English_perform_language_specific_tasks self limits token doc = (Ok tt, doc') ->
    (exists hh',
        dict_at doc' (Token.head tok) = Some hh'
        /\ HolmesDictionary.children hh'
           = List.filter
               (fun dependency =>
                  negb (SemanticDependency.child_index dependency =? Z.of_nat token))
               (HolmesDictionary.children hh)
        /\ HolmesDictionary.has_dependency_with_child_index hh' (Z.of_nat token)
           = false)
    /\ (Token.pos_ th = "VERB" ->
        In token (Token.children th) ->
        Forall (fun c => (c < Doc.len doc)%nat) (Token.children th) ->
        exists before particle after tp,
          Token.children th = (before ++ particle :: after)%list
          /\ (forall c tc, In c before -> Doc.tokens doc !! c = Some tc ->
                           Token.tag_ tc <> "RP")
          /\ Doc.tokens doc !! particle = Some tp
          /\ Token.tag_ tp = "RP"
          /\ English_holmes_lemma lower (Token.head tok) doc
             = (Ok (join_space (lower (Token.lemma_ th)) (lower (Token.lemma_ tp))),
                doc))
    /\ (Token.pos_ th <> "VERB" ->
        English_holmes_lemma lower (Token.head tok) doc
        = (Ok (lower (Token.lemma_ th)), doc)).
Proof.
  intros lower self limits token doc doc' tok th hh Htok Htag Hpos Hhead Hth Hhh H.
  split; [|split].
  - unfold English_perform_language_specific_tasks in H.
    rewrite (bind_token_at _ _ _ _ Htok) in H.
    apply bind_ok in H as ([] & d1 & Hrem & H).
    unfold remove_phrasal_particle_dependency in Hrem. rewrite Htag in Hrem.
    replace (String.eqb "RP" "RP") with true in Hrem by reflexivity.
    cbn [when] in Hrem. rewrite (update_holmes_ok _ _ _ _ Hhh) in Hrem.
    injection Hrem as <-.
    assert (Hverb : String.eqb (Token.pos_ tok) "VERB" = false).
    { now apply String.eqb_neq. }
    match type of H with
    | ?rest _ = _ =>
        assert (Hk : keeps (dictionaries_related (other_children_kept token)) rest)
    end.
    { unfold mark_modal_verb_dependencies, set_auxiliaries_not_matchable,
        add_deverbal_dependencies, handle_past_passive_participle,
        handle_participle_compound, handle_prepositional_complement.
      rewrite Hverb, andb_false_r. cbn [andb when].
      repeat others_step token. }
    specialize (Hk (put_dict (Token.head tok)
                      (HolmesDictionary.remove_dependency_with_child_index
                         (Z.of_nat token) hh) doc)).
    rewrite H in Hk. cbn in Hk.
    destruct (related_dict_at _ _ _ (Token.head tok) _ Hk
                (dict_at_put_dict_eq _ _ _ _ Hhh)) as (hh' & Hhh' & Hkept).
    exists hh'. split; [exact Hhh'|].
    specialize (Hkept Hhead). split; [exact Hkept|].
    unfold HolmesDictionary.has_dependency_with_child_index. rewrite Hkept. cbn.
    apply not_true_is_false. intros Hex.
    apply existsb_exists in Hex as (e & He & Heq).
    apply filter_In in He as [_ Hne]. now rewrite Heq in Hne.
  - intros Hverb Hin Hcs.
    destruct (first_child_with_tag_first "RP" doc (Token.children th) Hcs
                token tok Hin Htok Htag)
      as (before & c' & after & tc' & Hsplit & Hbefore & Hc' & Htag' & Hrun).
    exists before, c', after, tc'. repeat split; auto.
    unfold English_holmes_lemma.
    rewrite (bind_token_at _ _ _ _ Hth), Hverb.
    replace (String.eqb "VERB" "VERB") with true by reflexivity.
    now rewrite (bind_ok_intro _ _ _ _ _ Hrun).
  - intros Hverb. unfold English_holmes_lemma.
    rewrite (bind_token_at _ _ _ _ Hth).
    destruct (String.eqb_spec (Token.pos_ th) "VERB"); [contradiction | reflexivity].
Qed.

Lemma phrasal_verb_lemma_and_dependency_witness :
  exists before particle after tp,
    [0; 2; 3]%nat = (before ++ particle :: after)%list
    /\ (forall c tc, In c before -> Doc.tokens doc_he_gave_up !! c = Some tc ->
                     Token.tag_ tc <> "RP")
    /\ Doc.tokens doc_he_gave_up !! particle = Some tp
    /\ Token.tag_ tp = "RP"
    /\ English_holmes_lemma (fun s => s) 1 doc_he_gave_up
       = (Ok (join_space "give" (Token.lemma_ tp)), doc_he_gave_up).
Proof.
  apply (phrasal_verb_lemma_and_dependency (fun s => s) english
           (Build_Limits 1000 1000 1000) 2 doc_he_gave_up
           (snd (English_perform_language_specific_tasks english
                   (Build_Limits 1000 1000 1000) 2 doc_he_gave_up))
           (Token.set_holmes (prepared 2 "up" [] [] true)
              (spacy_token "up" "up" "PART" "RP" "prt" 1 [] (0, 4)%nat))
           (Token.set_holmes
              (prepared 1 "give up" [dep 1 0 "nsubj"; dep 1 2 "prt"] [] true)
              (spacy_token "gave" "give" "VERB" "VBD" "ROOT" 1 [0; 2; 3]%nat
                 (0, 4)%nat))
           (HolmesDictionary.Build 1 "give up" [dep 1 0 "nsubj"; dep 1 2 "prt"] []
              false (Some false) (Some true))).
  - reflexivity.
  - reflexivity.
  - discriminate.
  - discriminate.
  - reflexivity.
  - reflexivity.
  - vm_compute. reflexivity.
  - reflexivity.
  - cbn. auto.
  - repeat constructor; cbn; lia.
Defined.

(** On "He gave up." the lemma of the verb is "give up". *)
Example he_gave_up_lemma :
  English_holmes_lemma (fun s => s) 1 doc_he_gave_up = (Ok "give up", doc_he_gave_up).
Proof. reflexivity. Qed.

(** ** Modal verbs *)

Lemma mark_uncertain_unless_aux_idempotent l :
  mark_uncertain_unless_aux (mark_uncertain_unless_aux l)
  = mark_uncertain_unless_aux l.
Proof.
  unfold mark_uncertain_unless_aux. rewrite map_map. apply map_ext. intros e.
  unfold has_label. destruct e as [p c l0 u]. cbn.
  destruct (bool_decide (l0 = Some "aux")) eqn:E; cbn; rewrite E; reflexivity.
Qed.

Lemma mark_uncertain_unless_aux_lookup l k e :
  l !! k = Some e ->
  mark_uncertain_unless_aux l !! k
  = Some (if has_label "aux" e then e else set_is_uncertain true e).
Proof.
  intros H. unfold mark_uncertain_unless_aux.
  rewrite list_lookup_fmap, H. cbn. now destruct (has_label "aux" e).
Qed.

Section ModalVerbs.

Variable token : nat.
Variable doc : Doc.t.
Variable h : HDict.
Hypothesis token_dictionary : dict_at doc token = Some h.

(** The document once the dependencies of the verb are marked. *)
Let marked : Doc.t :=
  put_dict token
    (HolmesDictionary.set_children
       (mark_uncertain_unless_aux (HolmesDictionary.children h)) h) doc.

(** The test that the loop applies to one dependency of the verb. *)
Let is_modal (x : SemDep) : Prop :=
  has_label "aux" x = true
  /\ exists child tc hc,
       py_index (Doc.len doc) (SemanticDependency.child_index x) = Some child
       /\ Doc.tokens doc !! child = Some tc
       /\ Token.pos_ tc = "VERB"
       /\ dict_at doc child = Some hc
       /\ str_in (HolmesDictionary.lemma hc)
            ["be"; "have"; "do"; "go"; "use"; "will"; "shall"] = false.

Let body : SemDep -> unit -> M unit :=
  fun dependency (_ : unit) =>
    if has_label "aux" dependency then
      let* child := child_token dependency in
      let* tc := token_at child in
      if String.eqb (Token.pos_ tc) "VERB" then
        let* hc := holmes_of child in
        when (negb (str_in (HolmesDictionary.lemma hc)
                      ["be"; "have"; "do"; "go"; "use"; "will"; "shall"]))
          (update_holmes token
             (fun h =>
                HolmesDictionary.set_children
                  (mark_uncertain_unless_aux (HolmesDictionary.children h)) h))
      else ret tt
    else ret tt.

Lemma modal_state_dict st :
  st = doc \/ st = marked ->
  exists hs,
    dict_at st token = Some hs
    /\ put_dict token
         (HolmesDictionary.set_children
            (mark_uncertain_unless_aux (HolmesDictionary.children hs)) hs) st
       = marked
    /\ (forall k e, HolmesDictionary.children h !! k = Some e ->
          has_label "aux" e = true ->
          HolmesDictionary.children hs !! k = Some e)
    /\ length (HolmesDictionary.children hs) = length (HolmesDictionary.children h).
Proof.
  intros [->| ->].
  - exists h. repeat split; auto.
  - eexists. split; [eapply dict_at_put_dict_eq; eauto|]. split; [|split].
    + subst marked. rewrite put_dict_put_dict. cbn.
      now rewrite mark_uncertain_unless_aux_idempotent.
    + intros k e He Haux. cbn.
      rewrite (mark_uncertain_unless_aux_lookup _ _ _ He). now rewrite Haux.
    + cbn. unfold mark_uncertain_unless_aux. apply length_map.
Qed.

Lemma modal_body_inv x st r st' :
  body x tt st = (r, st') ->
  st' = st
  \/ exists hs,
       dict_at st token = Some hs
       /\ st' = put_dict token
                  (HolmesDictionary.set_children
                     (mark_uncertain_unless_aux (HolmesDictionary.children hs)) hs)
                  st.
Proof.
  unfold body. destruct (has_label "aux" x); [|intros [= <- <-]; now left].
  unfold bind at 1.
  destruct (child_token x st) as [[child|e] s1] eqn:Hchild.
  2:{ intros [= <- <-]. left.
      exact (reads_only_run _ _ _ _ (reads_only_doc_getitem _) Hchild). }
  pose proof (reads_only_run _ _ _ _ (reads_only_doc_getitem _) Hchild). subst s1.
  unfold bind at 1. destruct (token_at child st) as [[tc|e] s1] eqn:Htc.
  2:{ intros [= <- <-]. left.
      exact (reads_only_run _ _ _ _ (reads_only_token_at _) Htc). }
  pose proof (reads_only_run _ _ _ _ (reads_only_token_at _) Htc). subst s1.
  destruct (String.eqb _ _); [|intros [= <- <-]; now left].
  unfold bind at 1. destruct (holmes_of child st) as [[hc|e] s1] eqn:Hhc.
  2:{ intros [= <- <-]. left.
      exact (reads_only_run _ _ _ _ (reads_only_holmes_of _) Hhc). }
  pose proof (reads_only_run _ _ _ _ (reads_only_holmes_of _) Hhc). subst s1.
  destruct (negb _); cbn [when]; [|intros [= <- <-]; now left].
  intros H. apply update_holmes_inv in H as [(hs & Hhs & _ & ->)|(_ & -> & _)].
  - right. eauto.
  - now left.
Qed.

Lemma modal_body_fires x st :
  st = doc \/ st = marked -> is_modal x -> body x tt st = (Ok tt, marked).
Proof.
  intros Hst (Haux & child & tc & hc & Hchild & Htc & Hpos & Hhc & Hlemma).
  destruct (modal_state_dict st Hst) as (hs & Hhs & Hput & _).
  assert (Hfacts : Doc.len st = Doc.len doc
                   /\ (exists tc', Doc.tokens st !! child = Some tc'
                                   /\ Token.pos_ tc' = "VERB")
                   /\ (exists hc', dict_at st child = Some hc'
                                   /\ HolmesDictionary.lemma hc'
                                      = HolmesDictionary.lemma hc)).
  { destruct Hst as [->| ->]; [eauto 10|]. subst marked.
    split; [apply len_put_dict|]. split.
    - rewrite tokens_put_dict, Htc. cbn.
      destruct (decide (token = child)); eexists; split; eauto.
    - destruct (decide (token = child)) as [<-|Hne].
      + eexists. split; [eapply dict_at_put_dict_eq; eauto|]. cbn. congruence.
      + rewrite dict_at_put_dict_ne by auto. eauto. }
  destruct Hfacts as (Hlen & (tc' & Htc' & Hpos') & (hc' & Hhc' & Hlemma')).
  unfold body. rewrite Haux.
  assert (Hrun : child_token x st = (Ok child, st)).
  { unfold child_token, doc_getitem. now rewrite Hlen, Hchild. }
  rewrite (bind_ok_intro _ _ _ _ _ Hrun), (bind_token_at _ _ _ _ Htc'), Hpos'.
  replace (String.eqb "VERB" "VERB") with true by reflexivity.
  rewrite (bind_holmes_of _ _ _ _ Hhc'), Hlemma', Hlemma. cbn [negb when].
  rewrite (update_holmes_ok _ _ _ _ Hhs). now rewrite Hput.
Qed.

Lemma modal_loop fuel :
  forall k st r d2,
    st = doc \/ st = marked ->
    for_live fuel token k body tt st = (Ok r, d2) ->
    (d2 = doc \/ d2 = marked)
    /\ (st = marked -> d2 = marked)
    /\ forall j x, (k <= j)%nat -> HolmesDictionary.children h !! j = Some x ->
         is_modal x -> d2 = marked.
Proof.
  induction fuel as [|fuel IH]; intros k st r d2 Hst H; cbn [for_live] in H;
    [discriminate|].
  destruct (modal_state_dict st Hst) as (hs & Hhs & Hput & Hsame & Hlen).
  rewrite (bind_holmes_of _ _ _ _ Hhs) in H.
  destruct (HolmesDictionary.children hs !! k) as [x'|] eqn:Hk.
  - apply bind_ok in H as ([] & st1 & Hbody & H).
    assert (Hst1 : (st1 = doc \/ st1 = marked) /\ (st = marked -> st1 = marked)).
    { apply modal_body_inv in Hbody as [->|(hs' & Hhs' & ->)].
      - split; auto.
      - assert (hs' = hs) by congruence. subst hs'. rewrite Hput. auto. }
    destruct Hst1 as [Hst1 Hkeep].
    destruct (IH _ _ _ _ Hst1 H) as (Hd2 & Hmarked & Hlater).
    split; [exact Hd2|]. split; [auto|].
    intros j x Hj Hx Hmodal. destruct (decide (j = k)) as [->|Hne].
    + pose proof Hmodal as [Haux _].
      rewrite (Hsame _ _ Hx Haux) in Hk. injection Hk as <-.
      rewrite (modal_body_fires x st Hst Hmodal) in Hbody.
      injection Hbody as <-. now apply Hmarked.
    + apply (Hlater j x); auto. lia.
  - injection H as <- <-. split; [exact Hst|]. split; [auto|].
    intros j x Hj Hx _. apply lookup_ge_None in Hk.
    apply lookup_lt_Some in Hx. lia.
Qed.

End ModalVerbs.

Lemma uncertain_kept_refl p h : uncertain_kept p h h.
Proof. intros e He Hu. exists e. auto. Qed.

Lemma uncertain_kept_trans p h1 h2 h3 :
  uncertain_kept p h1 h2 -> uncertain_kept p h2 h3 -> uncertain_kept p h1 h3.
Proof.
  intros H12 H23 e He Hu.
  destruct (H12 e He Hu) as (e2 & He2 & P2 & C2 & U2).
  destruct (H23 e2 He2 U2) as (e3 & He3 & P3 & C3 & U3).
  exists e3. repeat split; congruence.
Qed.

#[global] Instance uncertain_related_refl :
  Reflexive (dictionaries_related uncertain_kept) :=
  related_refl _ uncertain_kept_refl.

#[global] Instance uncertain_related_trans :
  Transitive (dictionaries_related uncertain_kept) :=
  related_trans _ uncertain_kept_trans.

Lemma uncertain_kept_same_children p h h' :
  HolmesDictionary.children h' = HolmesDictionary.children h ->
  uncertain_kept p h h'.
Proof. intros Hc e He Hu. exists e. rewrite Hc. auto. Qed.

Lemma uncertain_kept_append p h d :
  uncertain_kept p h (HolmesDictionary.append_child d h).
Proof.
  intros e He Hu. exists e. cbn. rewrite in_app_iff. auto.
Qed.

Lemma uncertain_kept_relabel p h label k :
  uncertain_kept p h
    (HolmesDictionary.set_children
       (alter (set_label label) k (HolmesDictionary.children h)) h).
Proof.
  intros e He Hu. cbn.
  apply list_elem_of_In, list_elem_of_lookup in He as (i & Hi).
  destruct (decide (i = k)) as [->|Hne].
  - exists (set_label label e). split; [|auto].
    apply list_elem_of_In. apply (list_elem_of_lookup_2 _ k).
    now rewrite list_lookup_alter_eq, Hi.
  - exists e. split; [|auto].
    apply list_elem_of_In. apply (list_elem_of_lookup_2 _ i).
    now rewrite list_lookup_alter_ne.
Qed.

Ltac uncertain_step :=
  lazymatch goal with
  | |- keeps _ (update_holmes _ _) =>
      apply keeps_related_update_holmes; [exact uncertain_kept_refl|];
      intros ?; cbn beta;
      first [ apply uncertain_kept_relabel
            | apply uncertain_kept_same_children; reflexivity ]
  | |- keeps _ (append_child _ _) =>
      apply keeps_related_update_holmes; [exact uncertain_kept_refl|];
      intros ?; apply uncertain_kept_append
  | |- keeps _ (bind (lift _) _) =>
      apply keeps_lift_bind; [typeclasses eauto|]; intros ? _
  | |- keeps _ (for_live _ _ _ _ _) =>
      (apply keeps_for_live; try typeclasses eauto); intros ? ?
  | |- keeps _ (is_involved_in_coreference _ _) =>
      apply reads_only_keeps;
      [typeclasses eauto | apply reads_only_is_involved_in_coreference]
  | |- keeps _ (_lefthand_sibling_recursively _ _ _) =>
      apply reads_only_keeps; [typeclasses eauto | apply reads_only_lefthand_sibling]
  | |- keeps _ (child_token _) =>
      apply keeps_doc_getitem; typeclasses eauto
  | |- keeps _ (find_subject_phrase _ _) =>
      apply reads_only_keeps;
      [typeclasses eauto | apply reads_only_find_subject_phrase]
  | |- keeps _ (let '(_, _) := ?x in _) => destruct x
  | |- _ => keeps_step
  end.

Lemma uncertain_project_subject_phrase self rounds token new_dependency_label :
  forall working_token,
    keeps (dictionaries_related uncertain_kept)
      (project_subject_phrase self rounds token new_dependency_label working_token).
Proof.
  induction rounds as [|rounds IH]; intros working_token;
    cbn [project_subject_phrase].
  - apply keeps_raise; typeclasses eauto.
  - apply keeps_bind; [typeclasses eauto.. | apply keeps_token_at; typeclasses eauto |].
    intros wt. apply keeps_bind; [typeclasses eauto..| |].
    { destruct (String.prefix _ _); repeat uncertain_step. }
    intros is_nominal. destruct is_nominal.
    + repeat uncertain_step.
    + destruct (negb _); [apply IH | apply keeps_ret; typeclasses eauto].
Qed.

Lemma uncertain_later_tasks self limits token tok :
  keeps (dictionaries_related uncertain_kept)
    (set_auxiliaries_not_matchable token tok ;;;
     add_deverbal_dependencies limits token ;;;
     handle_past_passive_participle self limits token tok ;;;
     handle_participle_compound token tok ;;;
     handle_prepositional_complement self limits token tok).
Proof.
  unfold set_auxiliaries_not_matchable, add_deverbal_dependencies,
    handle_past_passive_participle, handle_participle_compound,
    handle_prepositional_complement.
  repeat first [ apply uncertain_project_subject_phrase | uncertain_step ].
Qed.

(** X23: modal verbs in the English analyzer.  Take a token that is a verb
    and no particle, with a dependency labelled [aux] to a token that is a
    verb and whose lemma in the dictionary is none of [be], [have], [do],
    [go], [use], [will], [shall].  When [_perform_language_specific_tasks]
    returns for it, every dependency that the token had before the call and
    that is not labelled [aux] is still there, with its parent and its child,
    and is uncertain. *)
Theorem modal_verbs_make_dependencies_uncertain :
  forall (self : Analyzer) (limits : Limits) (token : nat) (doc doc' : Doc.t)
         (tok : Token.t) (h : HDict) (modal : SemDep) (child : nat)
         (tc : Token.t) (hc : HDict),
    Doc.tokens doc !! token = Some tok ->
    Token.pos_ tok = "VERB" ->
    Token.tag_ tok <> "RP" ->
    dict_at doc token = Some h ->
    In modal (HolmesDictionary.children h) ->
    has_label "aux" modal = true ->
    child_token modal doc = (Ok child, doc) ->
    Doc.tokens doc !! child = Some tc ->
    Token.pos_ tc = "VERB" ->
    dict_at doc child = Some hc ->
    str_in (HolmesDictionary.lemma hc)
      ["be"; "have"; "do"; "go"; "use"; "will"; "shall"] = false ->
    English_perform_language_specific_tasks self limits token doc = (Ok tt, doc') ->
    exists h',
      dict_at doc' token = Some h'
      /\ forall e,
           In e (HolmesDictionary.children h) -> has_label "aux" e = false ->
           exists e',
             In e' (HolmesDictionary.children h')
             /\ SemanticDependency.parent_index e' = SemanticDependency.parent_index e
             /\ SemanticDependency.child_index e' = SemanticDependency.child_index e
             /\ SemanticDependency.is_uncertain e' = true.
Proof.
  intros self limits token doc doc' tok h modal child tc hc
         Htok Hpos Htag Hh Hin Haux Hchild Htc Hposc Hhc Hlemma H.
  unfold English_perform_language_specific_tasks in H.
  rewrite (bind_token_at _ _ _ _ Htok) in H.
  apply bind_ok in H as ([] & d1 & Hrem & H).
  unfold remove_phrasal_particle_dependency in Hrem.
  apply String.eqb_neq in Htag. rewrite Htag in Hrem. injection Hrem as <-.
  apply bind_ok in H as ([] & d2 & Hmark & H).
  unfold mark_modal_verb_dependencies in Hmark. rewrite Hpos in Hmark.
  replace (String.eqb "VERB" "VERB") with true in Hmark by reflexivity.
  cbn [when] in Hmark.
  apply list_elem_of_In, list_elem_of_lookup in Hin as (k & Hk).
  destruct (modal_loop token doc h Hh (memory limits) 0 doc tt d2
              (or_introl eq_refl) Hmark) as (_ & _ & Hmarked).
  specialize (Hmarked k modal (Nat.le_0_l k) Hk).
  assert (d2 = put_dict token
                 (HolmesDictionary.set_children
                    (mark_uncertain_unless_aux (HolmesDictionary.children h)) h)
                 doc) as ->.
  { apply Hmarked. split; [exact Haux|]. exists child, tc, hc.
    repeat split; auto.
    unfold child_token, doc_getitem in Hchild.
    destruct (py_index _ _); [|discriminate]. congruence. }
  pose proof (uncertain_later_tasks self limits token tok
                (put_dict token
                   (HolmesDictionary.set_children
                      (mark_uncertain_unless_aux (HolmesDictionary.children h)) h)
                   doc)) as Hk'.
  rewrite H in Hk'. cbn in Hk'.
  destruct (related_dict_at _ _ _ token _ Hk' (dict_at_put_dict_eq _ _ _ _ Hh))
    as (h' & Hh' & Hkept).
  exists h'. split; [exact Hh'|]. intros e He Hnaux.
  apply (Hkept (set_is_uncertain true e)); [|reflexivity].
  cbn. unfold mark_uncertain_unless_aux. apply in_map_iff.
  exists e. rewrite Hnaux. auto.
Qed.

Lemma modal_verbs_make_dependencies_uncertain_witness :
  exists h',
    dict_at (snd (English_perform_language_specific_tasks english
                    (Build_Limits 1000 1000 1000) 2 doc_he_might_go)) 2
    = Some h'
    /\ forall e,
         In e [dep 2 0 "nsubj"; dep 2 1 "aux"] -> has_label "aux" e = false ->
         exists e',
           In e' (HolmesDictionary.children h')
           /\ SemanticDependency.parent_index e' = SemanticDependency.parent_index e
           /\ SemanticDependency.child_index e' = SemanticDependency.child_index e
           /\ SemanticDependency.is_uncertain e' = true.
Proof.
  apply (modal_verbs_make_dependencies_uncertain english
           (Build_Limits 1000 1000 1000) 2 doc_he_might_go
           (snd (English_perform_language_specific_tasks english
                   (Build_Limits 1000 1000 1000) 2 doc_he_might_go))
           (Token.set_holmes
              (prepared 2 "go" [dep 2 0 "nsubj"; dep 2 1 "aux"] [] true)
              (spacy_token "go" "go" "VERB" "VB" "ROOT" 2 [0; 1; 3]%nat (0, 4)%nat))
           (HolmesDictionary.Build 2 "go" [dep 2 0 "nsubj"; dep 2 1 "aux"] [] false
              (Some false) (Some true))
           (dep 2 1 "aux") 1
           (Token.set_holmes (prepared 1 "might" [] [] true)
              (spacy_token "might" "might" "VERB" "MD" "aux" 2 [] (0, 4)%nat))
           (HolmesDictionary.Build 1 "might" [] [] false (Some false) (Some true))).
  - reflexivity.
  - reflexivity.
  - discriminate.
  - reflexivity.
  - cbn. auto.
  - reflexivity.
  - reflexivity.
  - reflexivity.
  - reflexivity.
  - reflexivity.
  - reflexivity.
  - vm_compute. reflexivity.
Defined.

(** ** Phrases with [by], [of] and [to] *)

(** A generator over the children of a token reaches every dependency that
    the list holds when the loop starts, provided the body leaves the
    dependencies of the list in place. *)
Lemma for_live_visits {St} (R : Doc.t -> Doc.t -> Prop)
    `{!Reflexive R, !Transitive R} (p : nat) (body : SemDep -> St -> M St) :
  (forall x acc, keeps R (body x acc)) ->
  (forall d1 d2 j x,
      R d1 d2 -> children_at d1 p !! j = Some x -> children_at d2 p !! j = Some x) ->
  forall fuel k acc doc r doc',
    for_live fuel p k body acc doc = (Ok r, doc') ->
    forall j x,
      (k <= j)%nat -> children_at doc p !! j = Some x ->
      exists acc1 acc2 st st',
        R doc st /\ body x acc1 st = (Ok acc2, st') /\ R st' doc'.
Proof.
  intros Hbody Hstable.
  induction fuel as [|fuel IH]; intros k acc doc r doc' H j x Hj Hx;
    cbn [for_live] in H; [discriminate|].
  apply bind_ok in H as (h & d0 & Hh & H).
  apply holmes_of_ok in Hh as [-> Hh].
  assert (Hc : children_at doc p = HolmesDictionary.children h).
  { unfold children_at. now rewrite Hh. }
  rewrite Hc in Hx.
  destruct (HolmesDictionary.children h !! k) as [y|] eqn:Hk.
  - apply bind_ok in H as (acc' & d1 & Hy & H).
    assert (R1 : R doc d1).
    { specialize (Hbody y acc doc). now rewrite Hy in Hbody. }
    destruct (decide (j = k)) as [->|Hne].
    + assert (y = x) by congruence. subst y.
      exists acc, acc', doc, d1. split; [reflexivity|]. split; [exact Hy|].
      pose proof (keeps_for_live R body fuel Hbody p (S k) acc' d1) as Hrest.
      now rewrite H in Hrest.
    + destruct (IH (S k) acc' d1 r doc' H j x) as (a1 & a2 & st & st' & R2 & Hrun & R3).
      * lia.
      * apply (Hstable doc d1); [exact R1|]. now rewrite Hc.
      * exists a1, a2, st, st'. split; [|auto]. etransitivity; eauto.
  - injection H as <- <-. apply lookup_ge_None in Hk.
    apply lookup_lt_Some in Hx. lia.
Qed.

Lemma find_first_spec {A} (test : A -> bool) (l : list A) :
  forall k0 k x,
    find_first test k0 l = Some (k, x) ->
    (k0 <= k)%nat /\ l !! (k - k0)%nat = Some x /\ test x = true.
Proof.
  induction l as [|y l IH]; intros k0 k x; cbn [find_first]; [discriminate|].
  destruct (test y) eqn:Hy.
  - intros [= <- <-]. rewrite Nat.sub_diag. auto.
  - intros H. destruct (IH _ _ _ H) as (Hle & Hl & Ht).
    split; [lia|]. split; [|exact Ht].
    replace (k - k0)%nat with (S (k - S k0)) by lia. exact Hl.
Qed.

Section Deverbal.

Variable token : nat.

Lemma marked_or_same_refl p h : marked_or_same token p h h.
Proof. split; auto. Qed.

Lemma marked_or_same_trans p h1 h2 h3 :
  marked_or_same token p h1 h2 -> marked_or_same token p h2 h3 ->
  marked_or_same token p h1 h3.
Proof.
  intros [L1 C1] [L2 C2]. split; [congruence|].
  destruct C2 as [C2|[Hp C2]], C1 as [C1|[Hp' C1]].
  - left. congruence.
  - right. split; [auto | congruence].
  - right. split; [auto | congruence].
  - right. split; [auto|]. rewrite C2, C1.
    apply mark_uncertain_unless_aux_idempotent.
Qed.

#[global] Instance marked_related_refl :
  Reflexive (dictionaries_related (marked_or_same token)) :=
  related_refl _ marked_or_same_refl.

#[global] Instance marked_related_trans :
  Transitive (dictionaries_related (marked_or_same token)) :=
  related_trans _ marked_or_same_trans.

Lemma deverbal_frame_refl p h : deverbal_frame token p h h.
Proof.
  split; [reflexivity|]. split; [|auto].
  exists []. now rewrite app_nil_r.
Qed.

Lemma deverbal_frame_trans p h1 h2 h3 :
  deverbal_frame token p h1 h2 -> deverbal_frame token p h2 h3 ->
  deverbal_frame token p h1 h3.
Proof.
  intros (L1 & (n1 & C1 & E1) & M1) (L2 & (n2 & C2 & E2) & M2).
  split; [congruence|]. split; [|auto].
  exists (n1 ++ n2)%list. split.
  - rewrite C2, C1. now rewrite <- app_assoc.
  - intros Hp. now rewrite E1, E2.
Qed.

#[global] Instance deverbal_related_refl :
  Reflexive (dictionaries_related (deverbal_frame token)) :=
  related_refl _ deverbal_frame_refl.

#[global] Instance deverbal_related_trans :
  Transitive (dictionaries_related (deverbal_frame token)) :=
  related_trans _ deverbal_frame_trans.

End Deverbal.

Lemma kept_unless_npadvmod_refl p h : kept_unless_npadvmod p h h.
Proof. split; auto. Qed.

Lemma kept_unless_npadvmod_trans p h1 h2 h3 :
  kept_unless_npadvmod p h1 h2 -> kept_unless_npadvmod p h2 h3 ->
  kept_unless_npadvmod p h1 h3.
Proof. intros [K1 M1] [K2 M2]. split; auto. Qed.

#[global] Instance kept_related_refl :
  Reflexive (dictionaries_related kept_unless_npadvmod) :=
  related_refl _ kept_unless_npadvmod_refl.

#[global] Instance kept_related_trans :
  Transitive (dictionaries_related kept_unless_npadvmod) :=
  related_trans _ kept_unless_npadvmod_trans.

Lemma deverbal_frame_kept token doc doc' :
  dictionaries_related (deverbal_frame token) doc doc' ->
  dictionaries_related kept_unless_npadvmod doc doc'.
Proof.
  apply related_weaken. intros p h h' (_ & (new & Hc & _) & Hm).
  split; [|exact Hm]. intros e He _. rewrite Hc. apply in_app_iff. now left.
Qed.

Lemma deverbal_frame_stable token d1 d2 p j x :
  dictionaries_related (deverbal_frame token) d1 d2 ->
  children_at d1 p !! j = Some x -> children_at d2 p !! j = Some x.
Proof.
  intros HR. unfold children_at.
  destruct (dict_at d1 p) as [h|] eqn:Hh; [|intros H; discriminate].
  destruct (related_dict_at _ _ _ _ _ HR Hh) as (h' & -> & _ & (new & -> & _) & _).
  intros Hx. now apply lookup_app_l_Some.
Qed.

Lemma kept_in doc doc' p h e :
  dictionaries_related kept_unless_npadvmod doc doc' ->
  dict_at doc p = Some h -> In e (HolmesDictionary.children h) ->
  SemanticDependency.label e <> Some "npadvmod" ->
  exists h', dict_at doc' p = Some h' /\ In e (HolmesDictionary.children h').
Proof.
  intros HR Hh He Hl.
  destruct (related_dict_at _ _ _ _ _ HR Hh) as (h' & Hh' & Hk & _). eauto.
Qed.

Lemma kept_unmatchable doc doc' p h :
  dictionaries_related kept_unless_npadvmod doc doc' ->
  dict_at doc p = Some h -> HolmesDictionary.is_matchable h = Some false ->
  exists h', dict_at doc' p = Some h'
             /\ HolmesDictionary.is_matchable h' = Some false.
Proof.
  intros HR Hh Hm.
  destruct (related_dict_at _ _ _ _ _ HR Hh) as (h' & Hh' & _ & Hk). eauto.
Qed.

(** The steps of the tasks, relation by relation. *)
Ltac marked_step token :=
  lazymatch goal with
  | |- keeps _ (update_holmes _ _) =>
      apply keeps_related_update_holmes; [exact (marked_or_same_refl token)|];
      intros ?; cbn beta; split; [reflexivity|];
      first [ left; reflexivity | right; split; reflexivity ]
  | |- keeps _ (child_token _) =>
      apply keeps_doc_getitem; typeclasses eauto
  | |- keeps _ (for_live _ _ _ _ _) =>
      (apply keeps_for_live; try typeclasses eauto); intros ? ?
  | |- _ => keeps_step
  end.

Ltac deverbal_step token :=
  lazymatch goal with
  | |- keeps _ (update_holmes _ _) =>
      apply keeps_related_update_holmes; [exact (deverbal_frame_refl token)|];
      intros ?; cbn beta; split; [reflexivity|]; split; [|cbn; auto];
      exists []; rewrite app_nil_r; split; reflexivity
  | |- keeps _ (append_child token ?dep) =>
      apply keeps_related_update_holmes; [exact (deverbal_frame_refl token)|];
      intros ?; split; [reflexivity|]; split; [|cbn; auto];
      exists [dep]; split; [reflexivity | intros Hp; now contradiction Hp]
  | |- keeps _ (bind (lift _) _) =>
      apply keeps_lift_bind; [typeclasses eauto|]; intros ? _
  | |- keeps _ (child_token _) =>
      apply keeps_doc_getitem; typeclasses eauto
  | |- keeps _ (for_live _ _ _ _ _) =>
      (apply keeps_for_live; try typeclasses eauto); intros ? ?
  | |- _ => keeps_step
  end.

Ltac kept_step :=
  lazymatch goal with
  | |- keeps _ (append_child _ _) =>
      apply keeps_related_update_holmes; [exact kept_unless_npadvmod_refl|];
      intros ?; split; [|cbn; auto];
      intros ? ? _; cbn; apply in_app_iff; now left
  | |- keeps _ (bind (lift _) _) =>
      apply keeps_lift_bind; [typeclasses eauto|]; intros ? _
  | |- keeps _ (is_involved_in_coreference _ _) =>
      apply reads_only_keeps;
      [typeclasses eauto | apply reads_only_is_involved_in_coreference]
  | |- keeps _ (_lefthand_sibling_recursively _ _ _) =>
      apply reads_only_keeps; [typeclasses eauto | apply reads_only_lefthand_sibling]
  | |- keeps _ (find_subject_phrase _ _) =>
      apply reads_only_keeps;
      [typeclasses eauto | apply reads_only_find_subject_phrase]
  | |- keeps _ (let '(_, _) := ?x in _) => destruct x
  | |- _ => keeps_step
  end.

Lemma marked_early_tasks limits token tok :
  keeps (dictionaries_related (marked_or_same token))
    (mark_modal_verb_dependencies limits token tok ;;;
     set_auxiliaries_not_matchable token tok).
Proof.
  unfold mark_modal_verb_dependencies, set_auxiliaries_not_matchable.
  repeat marked_step token.
Qed.

Lemma kept_project_subject_phrase self rounds token new_dependency_label :
  forall working_token,
    keeps (dictionaries_related kept_unless_npadvmod)
      (project_subject_phrase self rounds token new_dependency_label working_token).
Proof.
  induction rounds as [|rounds IH]; intros working_token;
    cbn [project_subject_phrase].
  - apply keeps_raise; typeclasses eauto.
  - apply keeps_bind; [typeclasses eauto.. | apply keeps_token_at; typeclasses eauto |].
    intros wt. apply keeps_bind; [typeclasses eauto..| |].
    { destruct (String.prefix _ _); repeat kept_step. }
    intros is_nominal. destruct is_nominal.
    + repeat kept_step.
    + destruct (negb _); [apply IH | apply keeps_ret; typeclasses eauto].
Qed.

Lemma kept_handle_participle_compound token tok :
  keeps (dictionaries_related kept_unless_npadvmod)
    (handle_participle_compound token tok).
Proof.
  intros st. unfold handle_participle_compound.
  destruct (_ && _); cbn [when]; [|reflexivity].
  unfold bind at 1.
  destruct (holmes_of token st) as [[hs|e] s0] eqn:Hhs.
  2:{ cbn. rewrite (reads_only_run _ _ _ _ (reads_only_holmes_of _) Hhs).
      reflexivity. }
  apply holmes_of_ok in Hhs as [-> Hhs].
  destruct (find_first _ 0 _) as [[k x]|] eqn:Hfind; [|reflexivity].
  apply find_first_spec in Hfind as (_ & Hk & Hx). rewrite Nat.sub_0_r in Hk.
  destruct (if String.eqb (Token.tag_ tok) "VBG" then _ else _)
    as [[own_label noun_dependency]|]; [|reflexivity].
  rewrite (bind_update_holmes _ _ _ _ _ Hhs).
  match goal with
  | |- dictionaries_related _ st (snd (_ ?mid)) => transitivity mid
  end.
  - apply (related_put_dict _ kept_unless_npadvmod_refl token hs); [exact Hhs|].
    split; [|auto]. intros e He Hl. cbn.
    apply list_elem_of_In, list_elem_of_lookup in He as (i & Hi).
    apply list_elem_of_In. apply (list_elem_of_lookup_2 _ i).
    destruct (decide (i = k)) as [->|Hne].
    + assert (e = x) by congruence. subst e.
      unfold has_label in Hx. apply bool_decide_eq_true_1 in Hx. contradiction.
    + now rewrite list_lookup_alter_ne.
  - match goal with
    | |- dictionaries_related _ ?d (snd (?rest ?d)) =>
        assert (Hk' : keeps (dictionaries_related kept_unless_npadvmod) rest)
    end.
    { repeat kept_step. }
    apply Hk'.
Qed.

Lemma kept_later_tasks self limits token tok :
  keeps (dictionaries_related kept_unless_npadvmod)
    (handle_past_passive_participle self limits token tok ;;;
     handle_participle_compound token tok ;;;
     handle_prepositional_complement self limits token tok).
Proof.
  apply keeps_bind; [typeclasses eauto..| |].
  { unfold handle_past_passive_participle. repeat kept_step. }
  intros _. apply keeps_bind;
    [typeclasses eauto.. | apply kept_handle_participle_compound |].
  intros _. unfold handle_prepositional_complement.
  repeat first [ apply kept_project_subject_phrase | kept_step ].
Qed.

Lemma working_dependency_label_by_label lemma d d' :
  SemanticDependency.label d' = SemanticDependency.label d ->
  working_dependency_label lemma d' = working_dependency_label lemma d.
Proof. intros H. unfold working_dependency_label, has_label. now rewrite H. Qed.

Lemma marked_lookup token h h' k d :
  marked_or_same token token h h' ->
  HolmesDictionary.children h !! k = Some d ->
  exists d',
    HolmesDictionary.children h' !! k = Some d'
    /\ SemanticDependency.child_index d' = SemanticDependency.child_index d
    /\ SemanticDependency.label d' = SemanticDependency.label d.
Proof.
  intros [_ [Hc|[_ Hc]]] Hk; rewrite Hc.
  - eauto.
  - rewrite (mark_uncertain_unless_aux_lookup _ _ _ Hk).
    eexists. split; [reflexivity|]. now destruct (has_label "aux" d).
Qed.

(** X24: phrases with [by], [of] and [to] in the English analyzer.  Take a
    token that is no particle, with a dependency labelled [prep], [agent] or
    [dative] to another token whose lemma in the dictionary is [by], [of] or
    [to].  When [_perform_language_specific_tasks] returns for the token, the
    preposition is not matchable, and for every dependency of the preposition
    that is labelled [pobj] and does not lead back to the token, the token
    has a certain dependency to the same child, labelled [pobjb] for [by],
    [pobjo] for [of], and for [to] [dative] when the dependency to the
    preposition is labelled [dative] and [pobjt] otherwise. *)
Theorem deverbal_phrases_reach_the_objects_of_prepositions :
  forall (self : Analyzer) (limits : Limits) (token : nat) (doc doc' : Doc.t)
         (tok : Token.t) (h : HDict) (dependency : SemDep) (child : nat)
         (hc : HDict) (label : string),
    Doc.tokens doc !! token = Some tok ->
    Token.tag_ tok <> "RP" ->
    dict_at doc token = Some h ->
    In dependency (HolmesDictionary.children h) ->
    label_in (SemanticDependency.label dependency) ["prep"; "agent"; "dative"] = true ->
    child_token dependency doc = (Ok child, doc) ->
    child <> token ->
    dict_at doc child = Some hc ->
    working_dependency_label (HolmesDictionary.lemma hc) dependency = Some label ->
    English_perform_language_specific_tasks self limits token doc = (Ok tt, doc') ->
    exists hc' h',
      dict_at doc' child = Some hc'
      /\ HolmesDictionary.is_matchable hc' = Some false
      /\ dict_at doc' token = Some h'
      /\ forall child_dependency,
           In child_dependency (HolmesDictionary.children hc) ->
           has_label "pobj" child_dependency = true ->
           SemanticDependency.child_index child_dependency <> Z.of_nat token ->
           In (SemanticDependency.Build (Z.of_nat token)
                 (SemanticDependency.child_index child_dependency)
                 (Some label) false)
              (HolmesDictionary.children h').
Proof.
  intros self limits token doc doc' tok h d child hc label
         Htok Htag Hh Hin Hlabel Hchild Hne Hhc Hworking H.
  unfold English_perform_language_specific_tasks in H.
  rewrite (bind_token_at _ _ _ _ Htok) in H.
  apply bind_ok in H as ([] & d1 & Hrem & H).
  unfold remove_phrasal_particle_dependency in Hrem.
  apply String.eqb_neq in Htag. rewrite Htag in Hrem. injection Hrem as <-.
  apply bind_ok in H as ([] & d2 & Hmark & H).
  apply bind_ok in H as ([] & d3 & Hset & H).
  apply bind_ok in H as ([] & d4 & Hloop & H).
  assert (R0 : dictionaries_related (marked_or_same token) doc d3).
  { pose proof (marked_early_tasks limits token tok doc) as Hk.
    unfold bind at 1 in Hk. rewrite Hmark, Hset in Hk. exact Hk. }
  assert (R3 : dictionaries_related kept_unless_npadvmod d4 doc').
  { pose proof (kept_later_tasks self limits token tok d4) as Hk.
    now rewrite H in Hk. }
  clear Hmark Hset H d2.
  destruct (related_dict_at _ _ _ _ _ R0 Hh) as (h3 & Hh3 & Hmarked).
  destruct (related_dict_at _ _ _ _ _ R0 Hhc) as (hc3 & Hhc3 & Hlemma3 & Hchildren3).
  assert (Hc3 : HolmesDictionary.children hc3 = HolmesDictionary.children hc).
  { destruct Hchildren3 as [Hc|[Hp _]]; [exact Hc | contradiction]. }
  apply list_elem_of_In, list_elem_of_lookup in Hin as (k & Hk).
  destruct (marked_lookup _ _ _ _ _ Hmarked Hk) as (d' & Hk3 & Hci & Hlb).
  unfold add_deverbal_dependencies in Hloop.
  eapply (for_live_visits (dictionaries_related (deverbal_frame token)) token)
    with (j := k) (x := d') in Hloop as (a1 & a2 & st & st' & Rst & Hrun & Rst').
  2:{ intros x acc. repeat deverbal_step token. }
  2:{ intros d1 d2 j x. apply deverbal_frame_stable. }
  2:{ lia. }
  2:{ unfold children_at. now rewrite Hh3. }
  cbn beta in Hrun. rewrite Hlb, Hlabel in Hrun.
  destruct (related_dict_at _ _ _ _ _ Rst Hhc3)
    as (hcs & Hhcs & Hlemmas & (new & Hcs & Hnew) & _).
  rewrite (Hnew Hne), app_nil_r, Hc3 in Hcs.
  destruct (related_dict_at _ _ _ _ _ Rst Hh3) as (hts & Hhts & _).
  assert (Hlen : Doc.len st = Doc.len doc).
  { destruct Rst as (_ & -> & _). now destruct R0 as (_ & -> & _). }
  assert (Hchild' : child_token d' st = (Ok child, st)).
  { unfold child_token, doc_getitem in *. rewrite Hlen, Hci.
    destruct (py_index _ _); [|discriminate]. congruence. }
  rewrite (bind_ok_intro _ _ _ _ _ Hchild'), (bind_holmes_of _ _ _ _ Hhcs) in Hrun.
  rewrite Hlemmas, Hlemma3, (working_dependency_label_by_label _ _ _ Hlb), Hworking
    in Hrun.
  rewrite (bind_update_holmes _ _ _ _ _ Hhcs) in Hrun.
  set (st1 := put_dict child
                (HolmesDictionary.set_is_matchable (Some false) hcs) st) in *.
  assert (Hinner : forall x acc,
             keeps (dictionaries_related (deverbal_frame token))
               ((fun child_dependency (_ : unit) =>
                   if has_label "pobj" child_dependency
                      && negb (Z.of_nat token
                               =? SemanticDependency.child_index child_dependency)
                   then
                     let* _ := holmes_of token in
                     let* dep :=
                       lift (SemanticDependency.init (Z.of_nat token)
                               (SemanticDependency.child_index child_dependency)
                               (Some label) false) in
                     append_child token dep
                   else ret tt) x acc)).
  { intros x acc. cbn beta. repeat deverbal_step token. }
  assert (R1 : dictionaries_related (deverbal_frame token) st1 st').
  { pose proof (keeps_for_live _ _ (memory limits) Hinner child 0%nat tt st1) as Hk'.
    now rewrite Hrun in Hk'. }
  assert (K1 : dictionaries_related kept_unless_npadvmod st1 doc').
  { etransitivity; [apply (deverbal_frame_kept token), R1|].
    etransitivity; [apply (deverbal_frame_kept token), Rst' | exact R3]. }
  assert (Hhc1 : dict_at st1 child
                 = Some (HolmesDictionary.set_is_matchable (Some false) hcs)).
  { subst st1. eapply dict_at_put_dict_eq; eauto. }
  assert (Hht1 : dict_at st1 token = Some hts).
  { subst st1. rewrite dict_at_put_dict_ne by auto. exact Hhts. }
  destruct (kept_unmatchable _ _ _ _ K1 Hhc1 eq_refl) as (hc' & Hhc' & Hm').
  destruct (related_dict_at _ _ _ _ _ K1 Hht1) as (h' & Hh' & _).
  exists hc', h'. split; [exact Hhc'|]. split; [exact Hm'|]. split; [exact Hh'|].
  intros g Hg Hpobj Hback.
  apply list_elem_of_In, list_elem_of_lookup in Hg as (i & Hi).
  eapply (for_live_visits (dictionaries_related (deverbal_frame token)) child)
    with (j := i) (x := g) in Hrun as (b1 & b2 & sti & sti' & Rsti & Hg & Rsti').
  2:{ exact Hinner. }
  2:{ intros e1 e2 j x. apply deverbal_frame_stable. }
  2:{ lia. }
  2:{ unfold children_at. rewrite Hhc1. cbn. now rewrite Hcs. }
  cbn beta in Hg. rewrite Hpobj in Hg.
  replace (Z.of_nat token =? SemanticDependency.child_index g) with false in Hg
    by (symmetry; apply Z.eqb_neq; congruence).
  cbn [negb andb] in Hg.
  apply bind_ok in Hg as (hti & s0 & Hhti & Hg).
  apply holmes_of_ok in Hhti as [-> Hhti].
  apply bind_ok in Hg as (dep & s0 & Hdep & Hg).
  unfold lift in Hdep. injection Hdep as Hdep <-.
  apply init_ok_inv in Hdep as [-> _].
  unfold append_child in Hg. rewrite (update_holmes_ok _ _ _ _ Hhti) in Hg.
  injection Hg as _ <-.
  assert (K2 : dictionaries_related kept_unless_npadvmod
                 (put_dict token
                    (HolmesDictionary.append_child
                       (SemanticDependency.Build (Z.of_nat token)
                          (SemanticDependency.child_index g) (Some label) false)
                       hti) sti) doc').
  { etransitivity; [apply (deverbal_frame_kept token), Rsti'|].
    etransitivity; [apply (deverbal_frame_kept token), Rst' | exact R3]. }
  destruct (kept_in _ _ token _
              (SemanticDependency.Build (Z.of_nat token)
                 (SemanticDependency.child_index g) (Some label) false)
              K2 (dict_at_put_dict_eq _ _ _ _ Hhti)) as (h'' & Hh'' & Hin'').
  - cbn. apply in_app_iff. right. now left.
  - cbn. apply working_dependency_label_values in Hworking.
    cbn in Hworking. intros [= Heq]. subst label.
    destruct Hworking as [?|[?|[?|[?|[]]]]]; discriminate.
  - assert (h'' = h') by congruence. now subst h''.
Qed.

Lemma deverbal_phrases_reach_the_objects_of_prepositions_witness :
  exists hc' h',
    dict_at (snd (English_perform_language_specific_tasks english
                    (Build_Limits 1000 1000 1000) 0
                    doc_destruction_of_cities_by_armies)) 3
    = Some hc'
    /\ HolmesDictionary.is_matchable hc' = Some false
    /\ dict_at (snd (English_perform_language_specific_tasks english
                       (Build_Limits 1000 1000 1000) 0
                       doc_destruction_of_cities_by_armies)) 0
       = Some h'
    /\ forall child_dependency,
         In child_dependency [dep 3 4 "pobj"] ->
         has_label "pobj" child_dependency = true ->
         SemanticDependency.child_index child_dependency <> Z.of_nat 0 ->
         In (SemanticDependency.Build (Z.of_nat 0)
               (SemanticDependency.child_index child_dependency)
               (Some "pobjb") false)
            (HolmesDictionary.children h').
Proof.
  apply (deverbal_phrases_reach_the_objects_of_prepositions english
           (Build_Limits 1000 1000 1000) 0 doc_destruction_of_cities_by_armies
           (snd (English_perform_language_specific_tasks english
                   (Build_Limits 1000 1000 1000) 0
                   doc_destruction_of_cities_by_armies))
           (Token.set_holmes
              (prepared 0 "destruction" [dep 0 1 "prep"; dep 0 3 "prep"] [] true)
              (spacy_token "destruction" "destruction" "NOUN" "NN" "ROOT" 0
                 [1; 3]%nat (0, 5)%nat))
           (HolmesDictionary.Build 0 "destruction" [dep 0 1 "prep"; dep 0 3 "prep"]
              [] false (Some false) (Some true))
           (dep 0 3 "prep") 3
           (HolmesDictionary.Build 3 "by" [dep 3 4 "pobj"] [] false (Some false)
              (Some true))
           "pobjb").
  - reflexivity.
  - discriminate.
  - reflexivity.
  - cbn. auto.
  - reflexivity.
  - reflexivity.
  - discriminate.
  - reflexivity.
  - reflexivity.
  - vm_compute. reflexivity.
Defined.

(** ** Past passive participles *)

Lemma same_token_links tok tok' :
  same_token tok tok' ->
  Token.dep_ tok' = Token.dep_ tok /\ Token.head tok' = Token.head tok.
Proof.
  unfold same_token, spacy_attributes. destruct tok, tok'. cbn.
  intros [= -> -> -> -> -> -> -> -> -> ->]. auto.
Qed.

Lemma lefthand_sibling_reads_the_parse self depth :
  forall token,
    reads_spacy_attributes_only (_lefthand_sibling_recursively self depth token).
Proof.
  unfold reads_spacy_attributes_only.
  induction depth as [|depth IH]; intros token; cbn [_lefthand_sibling_recursively].
  - intros doc doc' _. cbn. auto.
  - eapply corresponds_bind; [apply corresponds_token_at|].
    intros tok tok' Hs. destruct (same_token_links _ _ Hs) as (-> & ->).
    destruct (negb _); [now apply corresponds_ret | apply IH].
Qed.

Lemma lefthand_sibling_same_parse self depth token doc doc' lhs :
  same_parse doc doc' ->
  _lefthand_sibling_recursively self depth token doc = (Ok lhs, doc) ->
  _lefthand_sibling_recursively self depth token doc' = (Ok lhs, doc').
Proof.
  intros Hdoc Hrun.
  destruct (lefthand_sibling_reads_the_parse self depth token doc doc' Hdoc)
    as (Ha & _ & Hs).
  rewrite Hrun in Ha. cbn in Ha.
  destruct (_lefthand_sibling_recursively self depth token doc') as [[lhs'|e] d0];
    cbn in *; [|contradiction]. now subst.
Qed.

Lemma kept_handle_prepositional_complement self limits token tok :
  keeps (dictionaries_related kept_unless_npadvmod)
    (handle_prepositional_complement self limits token tok).
Proof.
  unfold handle_prepositional_complement.
  repeat first [ apply kept_project_subject_phrase | kept_step ].
Qed.

(** X25: past passive participles in the English analyzer.  Take a token
    with the dependency label [acl] and the tag [VBN], and the token that
    [_lefthand_sibling_recursively] finds for its head.  When
    [_perform_language_specific_tasks] returns for the participle, the
    participle has a certain dependency labelled [dobj] to that token and to
    each of its righthand siblings, the participle itself apart. *)
Theorem past_passive_participles_take_objects :
  forall (self : Analyzer) (limits : Limits) (token : nat) (doc doc' : Doc.t)
         (tok : Token.t) (h : HDict) (lefthand_sibling : nat) (hl : HDict),
    Doc.tokens doc !! token = Some tok ->
    Token.dep_ tok = "acl" ->
    Token.tag_ tok = "VBN" ->
    dict_at doc token = Some h ->
    _lefthand_sibling_recursively self (recursion_limit limits) (Token.head tok) doc
    = (Ok lefthand_sibling, doc) ->
    dict_at doc lefthand_sibling = Some hl ->
    English_perform_language_specific_tasks self limits token doc = (Ok tt, doc') ->
    exists h',
      dict_at doc' token = Some h'
      /\ forall i antecedent,
           In i (loop_token_and_righthand_siblings hl) ->
           py_index (Doc.len doc) i = Some antecedent ->
           antecedent <> token ->
           In (SemanticDependency.Build (Z.of_nat token) (Z.of_nat antecedent)
                 (Some "dobj") false)
              (HolmesDictionary.children h').
Proof.
  intros self limits token doc doc' tok h lhs hl Htok Hdep Htag Hh Hlhs Hhl H.
  unfold English_perform_language_specific_tasks in H.
  rewrite (bind_token_at _ _ _ _ Htok) in H.
  assert (Hfront : forall (rest : M unit) (d' : Doc.t),
             (remove_phrasal_particle_dependency token tok ;;;
              mark_modal_verb_dependencies limits token tok ;;;
              set_auxiliaries_not_matchable token tok ;;;
              add_deverbal_dependencies limits token ;;; rest) doc = (Ok tt, d') ->
             exists d4,
               dictionaries_related English_tasks_frame doc d4
               /\ rest d4 = (Ok tt, d')).
  { intros rest d' Hrun.
    apply bind_ok in Hrun as ([] & d1 & H1 & Hrun).
    apply bind_ok in Hrun as ([] & d2 & H2 & Hrun).
    apply bind_ok in Hrun as ([] & d3 & H3 & Hrun).
    apply bind_ok in Hrun as ([] & d4 & H4 & Hrun).
    exists d4. split; [|exact Hrun].
    pose proof (frame_remove_phrasal_particle_dependency token tok doc) as K1.
    pose proof (frame_mark_modal_verb_dependencies limits token tok d1) as K2.
    pose proof (frame_set_auxiliaries_not_matchable token tok d2) as K3.
    pose proof (frame_add_deverbal_dependencies limits token d3) as K4.
    rewrite H1 in K1. rewrite H2 in K2. rewrite H3 in K3. rewrite H4 in K4.
    cbn in *. etransitivity; [exact K1|]. etransitivity; [exact K2|].
    etransitivity; eauto. }
  apply Hfront in H as (d4 & R4 & H). clear Hfront.
  apply bind_ok in H as ([] & d5 & Hpart & H).
  assert (R5 : dictionaries_related kept_unless_npadvmod d5 doc').
  { match type of H with
    | ?rest _ = _ =>
        assert (Hk : keeps (dictionaries_related kept_unless_npadvmod) rest)
    end.
    { apply keeps_bind;
        [typeclasses eauto.. | apply kept_handle_participle_compound | intros _].
      apply kept_handle_prepositional_complement. }
    specialize (Hk d5). now rewrite H in Hk. }
  clear H.
  unfold handle_past_passive_participle in Hpart. rewrite Hdep, Htag in Hpart.
  replace (String.eqb "acl" "acl" && String.eqb "VBN" "VBN") with true in Hpart
    by reflexivity.
  cbn [when] in Hpart.
  pose proof (related_same_parse _ _ _ R4) as Hsame.
  rewrite (bind_ok_intro _ _ _ _ _
             (lefthand_sibling_same_parse _ _ _ _ _ _ Hsame Hlhs)) in Hpart.
  destruct (related_dict_at _ _ _ _ _ R4 Hhl) as (hl4 & Hhl4 & Hi & _ & Hrs & _).
  rewrite (bind_holmes_of _ _ _ _ Hhl4) in Hpart.
  assert (Hloop : loop_token_and_righthand_siblings hl4
                  = loop_token_and_righthand_siblings hl).
  { unfold loop_token_and_righthand_siblings. now rewrite Hi, Hrs. }
  rewrite Hloop in Hpart.
  assert (Hlen : Doc.len d4 = Doc.len doc) by apply R4.
  eapply (for_each_post (dictionaries_related kept_unless_npadvmod) _ _
            (fun i d =>
               forall antecedent,
                 py_index (Doc.len doc) i = Some antecedent -> antecedent <> token ->
                 exists h,
                   dict_at d token = Some h
                   /\ In (SemanticDependency.Build (Z.of_nat token)
                            (Z.of_nat antecedent) (Some "dobj") false)
                         (HolmesDictionary.children h)) d4)
    in Hpart as (R45 & Hpost).
  2:{ intros i. repeat kept_step. }
  2:{ intros i d d' Hp HR antecedent Hidx Hne.
      destruct (Hp antecedent Hidx Hne) as (h0 & Hh0 & Hin0).
      eapply kept_in; eauto. }
  2:{ intros i d d' HR Hbody antecedent Hidx Hne.
      assert (Hlen' : Doc.len d = Doc.len doc).
      { destruct HR as (_ & -> & _). exact Hlen. }
      apply bind_ok in Hbody as (a & d0 & Ha & Hbody).
      apply doc_getitem_ok in Ha as [-> Ha].
      rewrite Hlen', Hidx in Ha. injection Ha as <-.
      replace (Nat.eqb token antecedent) with false in Hbody
        by (symmetry; apply Nat.eqb_neq; congruence).
      cbn [negb when] in Hbody.
      apply bind_ok in Hbody as (h0 & d0 & Hh0 & Hbody).
      apply holmes_of_ok in Hh0 as [-> Hh0].
      apply bind_ok in Hbody as (dep & d0 & Hdep' & Hbody).
      unfold lift in Hdep'. injection Hdep' as Hdep' <-.
      apply init_ok_inv in Hdep' as [-> _].
      unfold append_child in Hbody. rewrite (update_holmes_ok _ _ _ _ Hh0) in Hbody.
      injection Hbody as <-.
      eexists. split; [eapply dict_at_put_dict_eq; eauto|].
      cbn. apply in_app_iff. right. now left. }
  2:{ reflexivity. }
  destruct (related_dict_at _ _ _ _ _ R4 Hh) as (h4 & Hh4 & _).
  destruct (related_dict_at _ _ _ _ _ R45 Hh4) as (h5 & Hh5 & _).
  destruct (related_dict_at _ _ _ _ _ R5 Hh5) as (h' & Hh' & _).
  exists h'. split; [exact Hh'|].
  intros i antecedent Hi' Hidx Hne.
  destruct (Hpost i Hi' antecedent Hidx Hne) as (h5' & Hh5' & Hin5).
  destruct (kept_in _ _ _ _ _ R5 Hh5' Hin5) as (h'' & Hh'' & Hin'');
    [discriminate|].
  assert (h'' = h') by congruence. now subst h''.
Qed.

Lemma past_passive_participles_take_objects_witness :
  exists h',
    dict_at (snd (English_perform_language_specific_tasks english
                    (Build_Limits 1000 1000 1000) 4 doc_the_man_and_woman_seen)) 4
    = Some h'
    /\ forall i antecedent,
         In i (loop_token_and_righthand_siblings
                 (HolmesDictionary.Build 1 "man" [dep 1 2 "cc"; dep 1 3 "conj"] [3]
                    false (Some false) (Some true))) ->
         py_index (Doc.len doc_the_man_and_woman_seen) i = Some antecedent ->
         antecedent <> 4%nat ->
         In (SemanticDependency.Build (Z.of_nat 4) (Z.of_nat antecedent)
               (Some "dobj") false)
            (HolmesDictionary.children h').
Proof.
  apply (past_passive_participles_take_objects english
           (Build_Limits 1000 1000 1000) 4 doc_the_man_and_woman_seen
           (snd (English_perform_language_specific_tasks english
                   (Build_Limits 1000 1000 1000) 4 doc_the_man_and_woman_seen))
           (Token.set_holmes (prepared 4 "see" [] [] true)
              (spacy_token "seen" "see" "VERB" "VBN" "acl" 3 [] (0, 5)%nat))
           (HolmesDictionary.Build 4 "see" [] [] false (Some false) (Some true))
           1).
  - reflexivity.
  - reflexivity.
  - reflexivity.
  - reflexivity.
  - reflexivity.
  - reflexivity.
  - vm_compute. reflexivity.
Defined.

(** In "the man and woman seen" the participle takes both nouns as
    objects. *)
Example the_man_and_woman_seen_objects :
  children_at (snd (English_perform_language_specific_tasks english
                      (Build_Limits 1000 1000 1000) 4 doc_the_man_and_woman_seen)) 4
  = [dep 4 1 "dobj"; dep 4 3 "dobj"].
Proof. vm_compute. reflexivity. Qed.

(** ** Participles with a noun: 'cat-eating dog', 'dog-eaten cat' *)

Lemma find_first_app {A} (test : A -> bool) (l l' : list A) :
  forall k0 r, find_first test k0 l = Some r -> find_first test k0 (l ++ l') = Some r.
Proof.
  induction l as [|y l IH]; intros k0 r; cbn [find_first app]; [discriminate|].
  destruct (test y); [auto | apply IH].
Qed.

Lemma find_first_map {A} (test : A -> bool) (g : A -> A) (l : list A) :
  (forall y, test (g y) = test y) ->
  forall k0 k x,
    find_first test k0 l = Some (k, x) ->
    find_first test k0 (List.map g l) = Some (k, g x).
Proof.
  intros Hg. induction l as [|y l IH]; intros k0 k x; cbn [find_first List.map];
    [discriminate|].
  rewrite Hg. destruct (test y); [intros [= <- <-]; reflexivity | apply IH].
Qed.

Lemma deverbal_add_deverbal_dependencies limits token :
  keeps (dictionaries_related (deverbal_frame token))
    (add_deverbal_dependencies limits token).
Proof. unfold add_deverbal_dependencies. repeat deverbal_step token. Qed.

Lemma frame_early_tasks limits token tok :
  keeps (dictionaries_related English_tasks_frame)
    (mark_modal_verb_dependencies limits token tok ;;;
     set_auxiliaries_not_matchable token tok).
Proof.
  apply keeps_bind;
    [typeclasses eauto.. | apply frame_mark_modal_verb_dependencies | intros _].
  apply frame_set_auxiliaries_not_matchable.
Qed.

(** X26: participles with a noun in the English analyzer.  Take a token
    with the dependency label [amod], the part of speech [VERB] and the tag
    [VBG] or [VBN], whose first dependency labelled [npadvmod] stands at
    position [k].  When [_perform_language_specific_tasks] returns for the
    token, the dependency at position [k] has the parent and the child it
    had and is labelled [advmodobj] for [VBG] and [advmodsubj] for [VBN];
    and the token has a dependency with the other of the two labels to its
    head and to each righthand sibling of the head, the token itself apart,
    which is uncertain for every token but the head. *)
Theorem participles_with_a_noun_are_relabelled :
  forall (self : Analyzer) (limits : Limits) (token : nat) (doc doc' : Doc.t)
         (tok : Token.t) (h hh : HDict) (k : nat) (x : SemDep)
         (own_label noun_dependency : string),
    Doc.tokens doc !! token = Some tok ->
    Token.dep_ tok = "amod" ->
    Token.pos_ tok = "VERB" ->
    (Token.tag_ tok = "VBG" /\ own_label = "advmodobj"
     /\ noun_dependency = "advmodsubj"
     \/ Token.tag_ tok = "VBN" /\ own_label = "advmodsubj"
        /\ noun_dependency = "advmodobj") ->
    dict_at doc token = Some h ->
    find_first (has_label "npadvmod") 0 (HolmesDictionary.children h) = Some (k, x) ->
    dict_at doc (Token.head tok) = Some hh ->
    English_perform_language_specific_tasks self limits token doc = (Ok tt, doc') ->
    exists h',
      dict_at doc' token = Some h'
      /\ (exists e',
            HolmesDictionary.children h' !! k = Some e'
            /\ SemanticDependency.parent_index e' = SemanticDependency.parent_index x
            /\ SemanticDependency.child_index e' = SemanticDependency.child_index x
            /\ SemanticDependency.label e' = Some own_label)
      /\ forall i noun,
           In i (loop_token_and_righthand_siblings hh) ->
           py_index (Doc.len doc) i = Some noun ->
           noun <> token ->
           In (SemanticDependency.Build (Z.of_nat token) (Z.of_nat noun)
                 (Some noun_dependency) (negb (Nat.eqb noun (Token.head tok))))
              (HolmesDictionary.children h').
Proof.
  intros self limits token doc doc' tok h hh k x own noun_label
         Htok Hdep Hpos Htag Hh Hfind Hhh H.
  unfold English_perform_language_specific_tasks in H.
  rewrite (bind_token_at _ _ _ _ Htok) in H.
  apply bind_ok in H as ([] & d1 & Hrem & H).
  unfold remove_phrasal_particle_dependency in Hrem.
  replace (String.eqb (Token.tag_ tok) "RP") with false in Hrem
    by (destruct Htag as [(-> & _)|(-> & _)]; reflexivity).
  injection Hrem as <-.
  apply bind_ok in H as ([] & d2 & Hmark & H).
  apply bind_ok in H as ([] & d3 & Hset & H).
  apply bind_ok in H as ([] & d4 & Hloop & H).
  assert (R0 : dictionaries_related (marked_or_same token) doc d3).
  { pose proof (marked_early_tasks limits token tok doc) as Hk.
    unfold bind at 1 in Hk. rewrite Hmark, Hset in Hk. exact Hk. }
  assert (F0 : dictionaries_related English_tasks_frame doc d3).
  { pose proof (frame_early_tasks limits token tok doc) as Hk.
    unfold bind at 1 in Hk. rewrite Hmark, Hset in Hk. exact Hk. }
  assert (R4 : dictionaries_related (deverbal_frame token) d3 d4).
  { pose proof (deverbal_add_deverbal_dependencies limits token d3) as Hk.
    now rewrite Hloop in Hk. }
  assert (F4 : dictionaries_related English_tasks_frame d3 d4).
  { pose proof (frame_add_deverbal_dependencies limits token d3) as Hk.
    now rewrite Hloop in Hk. }
  clear Hmark Hset Hloop d2.
  apply bind_ok in H as ([] & d5 & Hpast & H).
  unfold handle_past_passive_participle in Hpast. rewrite Hdep in Hpast.
  replace (String.eqb "amod" "acl") with false in Hpast by reflexivity.
  injection Hpast as <-.
  apply bind_ok in H as ([] & d6 & Hpc & H).
  unfold handle_prepositional_complement in H. rewrite Hpos, Hdep in H.
  replace (String.eqb "VERB" "VERB" && String.eqb "amod" "pcomp") with false in H
    by reflexivity.
  injection H as <-.
  (* the dictionaries when the participle is dealt with *)
  destruct (related_dict_at _ _ _ _ _ R0 Hh) as (h3 & Hh3 & _ & Hc3).
  destruct (related_dict_at _ _ _ _ _ R4 Hh3) as (h4 & Hh4 & _ & (new & Hc4 & _) & _).
  assert (F04 : dictionaries_related English_tasks_frame doc d4)
    by (etransitivity; eauto).
  destruct (related_dict_at _ _ _ _ _ F04 Hhh) as (hh4 & Hhh4 & Hi4 & _ & Hrs4 & _).
  assert (Hlen : Doc.len d4 = Doc.len doc) by apply F04.
  assert (Hfind4 : exists x4,
             find_first (has_label "npadvmod") 0 (HolmesDictionary.children h4)
             = Some (k, x4)
             /\ SemanticDependency.parent_index x4 = SemanticDependency.parent_index x
             /\ SemanticDependency.child_index x4 = SemanticDependency.child_index x).
  { rewrite Hc4. destruct Hc3 as [Hc3|[_ Hc3]]; rewrite Hc3.
    - exists x. split; [now apply find_first_app | auto].
    - eexists. split.
      + apply find_first_app. unfold mark_uncertain_unless_aux.
        apply find_first_map; [|exact Hfind].
        intros y. unfold has_label. now destruct (negb _).
      + cbn beta. now destruct (negb _). }
  destruct Hfind4 as (x4 & Hfind4 & Hp4 & Hx4).
  unfold handle_participle_compound in Hpc. rewrite Hdep, Hpos in Hpc.
  replace (String.eqb "amod" "amod" && String.eqb "VERB" "VERB") with true in Hpc
    by reflexivity.
  cbn [when] in Hpc. rewrite (bind_holmes_of _ _ _ _ Hh4), Hfind4 in Hpc.
  assert (Hlabels : (if String.eqb (Token.tag_ tok) "VBG"
                     then Some ("advmodobj", "advmodsubj")
                     else if String.eqb (Token.tag_ tok) "VBN"
                          then Some ("advmodsubj", "advmodobj") else None)
                    = Some (own, noun_label)).
  { destruct Htag as [(-> & -> & ->)|(-> & -> & ->)]; reflexivity. }
  rewrite Hlabels in Hpc. clear Hlabels.
  rewrite (bind_update_holmes _ _ _ _ _ Hh4) in Hpc.
  set (h4' := HolmesDictionary.set_children
                (alter (set_label (Some own)) k (HolmesDictionary.children h4)) h4)
    in *.
  set (d4' := put_dict token h4' d4) in *.
  assert (Hh4' : dict_at d4' token = Some h4')
    by (eapply dict_at_put_dict_eq; eauto).
  assert (Hhead : exists hh', dict_at d4' (Token.head tok) = Some hh'
                    /\ loop_token_and_righthand_siblings hh'
                       = loop_token_and_righthand_siblings hh).
  { unfold loop_token_and_righthand_siblings.
    destruct (decide (token = Token.head tok)) as [He|Hne].
    - exists h4'. rewrite <- He. split; [exact Hh4'|].
      rewrite <- He in Hhh4. assert (hh4 = h4) by congruence. subst hh4.
      cbn. now rewrite Hi4, Hrs4.
    - exists hh4. subst d4'. rewrite dict_at_put_dict_ne by auto.
      split; [exact Hhh4|]. now rewrite Hi4, Hrs4. }
  destruct Hhead as (hh' & Hhh' & Hlist).
  rewrite (bind_holmes_of _ _ _ _ Hhh'), Hlist in Hpc.
  eapply (for_each_post (dictionaries_related (deverbal_frame token)) _ _
            (fun i d =>
               forall noun,
                 py_index (Doc.len doc) i = Some noun -> noun <> token ->
                 exists hd,
                   dict_at d token = Some hd
                   /\ In (SemanticDependency.Build (Z.of_nat token) (Z.of_nat noun)
                            (Some noun_label)
                            (negb (Nat.eqb noun (Token.head tok))))
                         (HolmesDictionary.children hd)) d4')
    in Hpc as (R46 & Hpost).
  2:{ intros i. repeat deverbal_step token. }
  2:{ intros i d d' Hp HR noun Hidx Hne.
      destruct (Hp noun Hidx Hne) as (h0 & Hh0 & Hin0).
      destruct (related_dict_at _ _ _ _ _ HR Hh0)
        as (h0' & Hh0' & _ & (new0 & Hc0 & _) & _).
      exists h0'. split; [exact Hh0'|]. rewrite Hc0. apply in_app_iff. now left. }
  2:{ intros i d d' HR Hbody noun Hidx Hne.
      assert (Hlen' : Doc.len d = Doc.len doc).
      { destruct HR as (_ & -> & _). subst d4'. now rewrite len_put_dict. }
      apply bind_ok in Hbody as (a & d0 & Ha & Hbody).
      apply doc_getitem_ok in Ha as [-> Ha].
      rewrite Hlen', Hidx in Ha. injection Ha as <-.
      replace (Nat.eqb token noun) with false in Hbody
        by (symmetry; apply Nat.eqb_neq; congruence).
      cbn [negb when] in Hbody.
      apply bind_ok in Hbody as (h0 & d0 & Hh0 & Hbody).
      apply holmes_of_ok in Hh0 as [-> Hh0].
      apply bind_ok in Hbody as (dep & d0 & Hdep' & Hbody).
      unfold lift in Hdep'. injection Hdep' as Hdep' <-.
      apply init_ok_inv in Hdep' as [-> _].
      unfold append_child in Hbody. rewrite (update_holmes_ok _ _ _ _ Hh0) in Hbody.
      injection Hbody as <-.
      eexists. split; [eapply dict_at_put_dict_eq; eauto|].
      cbn. apply in_app_iff. right. now left. }
  2:{ reflexivity. }
  destruct (related_dict_at _ _ _ _ _ R46 Hh4')
    as (h' & Hh' & _ & (new' & Hc' & _) & _).
  exists h'. split; [exact Hh'|]. split.
  - exists (set_label (Some own) x4). split; [|cbn; auto].
    rewrite Hc'. apply lookup_app_l_Some. subst h4'. cbn.
    rewrite list_lookup_alter_eq.
    apply find_first_spec in Hfind4 as (_ & Hk4 & _).
    rewrite Nat.sub_0_r in Hk4. now rewrite Hk4.
  - intros i noun Hi Hidx Hne.
    destruct (Hpost i Hi noun Hidx Hne) as (h'' & Hh'' & Hin'').
    assert (h'' = h') by congruence. now subst h''.
Qed.

Lemma participles_with_a_noun_are_relabelled_witness :
  exists h',
    dict_at (snd (English_perform_language_specific_tasks english
                    (Build_Limits 1000 1000 1000) 2 doc_cat_eating_dog)) 2
    = Some h'
    /\ (exists e',
          HolmesDictionary.children h' !! 0%nat = Some e'
          /\ SemanticDependency.parent_index e' = 2
          /\ SemanticDependency.child_index e' = 0
          /\ SemanticDependency.label e' = Some "advmodobj")
    /\ forall i noun,
         In i (loop_token_and_righthand_siblings
                 (HolmesDictionary.Build 3 "dog" [dep 3 2 "amod"] [] false
                    (Some false) (Some true))) ->
         py_index (Doc.len doc_cat_eating_dog) i = Some noun ->
         noun <> 2%nat ->
         In (SemanticDependency.Build (Z.of_nat 2) (Z.of_nat noun)
               (Some "advmodsubj") (negb (Nat.eqb noun 3)))
            (HolmesDictionary.children h').
Proof.
  apply (participles_with_a_noun_are_relabelled english
           (Build_Limits 1000 1000 1000) 2 doc_cat_eating_dog
           (snd (English_perform_language_specific_tasks english
                   (Build_Limits 1000 1000 1000) 2 doc_cat_eating_dog))
           (Token.set_holmes (prepared 2 "eat" [dep 2 0 "npadvmod"] [] true)
              (spacy_token "eating" "eat" "VERB" "VBG" "amod" 3 [0; 1]%nat
                 (0, 4)%nat))
           (HolmesDictionary.Build 2 "eat" [dep 2 0 "npadvmod"] [] false (Some false)
              (Some true))
           (HolmesDictionary.Build 3 "dog" [dep 3 2 "amod"] [] false (Some false)
              (Some true))
           0%nat (dep 2 0 "npadvmod") "advmodobj" "advmodsubj").
  - reflexivity.
  - reflexivity.
  - reflexivity.
  - left. repeat split; reflexivity.
  - reflexivity.
  - reflexivity.
  - reflexivity.
  - vm_compute. reflexivity.
Defined.

(** In "cat-eating dog" the cat becomes the object and the dog the subject
    of the participle. *)
Example cat_eating_dog_dependencies :
  children_at (snd (English_perform_language_specific_tasks english
                      (Build_Limits 1000 1000 1000) 2 doc_cat_eating_dog)) 2
  = [dep 2 0 "advmodobj"; dep 2 3 "advmodsubj"].
Proof. vm_compute. reflexivity. Qed.

(** * The language-specific tasks of the German analyzer, continued *)

Ltac kept_step_German :=
  first
    [ solve [ apply reads_only_keeps;
              [ typeclasses eauto
              | first [ apply reads_only_find_target_default
                      | apply reads_only_find_target
                      | apply reads_only_is_um_zu
                      | apply reads_only_is_forcing_object
                      | apply reads_only_filter_m; intros ?; apply reads_only_is_um_zu
                      | apply reads_only_filter_m; intros ?;
                        apply reads_only_is_forcing_object
                      | repeat reads_only_step ] ] ]
    | lazymatch goal with
      | |- keeps _ (for_live _ _ _ _ _) =>
          (apply keeps_for_live; try typeclasses eauto); intros ? ?
      | |- keeps _ (fold_m _ _ _) =>
          (apply keeps_fold_m; try typeclasses eauto); intros ? ?
      | |- _ => kept_step
      end
    | apply reads_only_is_forcing_object
    | apply reads_only_is_um_zu ].

Lemma kept_German_later_tasks limits token tok defaults :
  keeps (dictionaries_related kept_unless_npadvmod)
    (let* defaults := project_subjects limits token tok defaults in
     project_onto_adjective_complements limits token tok defaults).
Proof.
  unfold project_subjects, project_onto_adjective_complements,
    project_subject_onto_dependent_verb.
  repeat kept_step_German.
Qed.

(** X27: the preposition [von] in the German analyzer ('der Abschluss von
    einer Versicherung').  Take a token that is no separable particle, with a
    dependency labelled [mnr] or [pg] to another token whose lemma in the
    dictionary is [von] or [vom].  When [_perform_language_specific_tasks]
    returns for the token, then for every dependency of the preposition that
    is labelled [nk] and does not lead back to the token, the token has a
    certain dependency labelled [nk] to the same child; and when there is
    such a dependency, the preposition is not matchable. *)
Theorem German_von_phrases_are_spanned :
  forall (limits : Limits) (token : nat) (defaults defaults' : DefaultArguments)
         (doc doc' : Doc.t) (tok : Token.t) (h : HDict) (dependency : SemDep)
         (child : nat) (hc : HDict),
    Doc.tokens doc !! token = Some tok ->
    Token.tag_ tok <> "PTKVZ" ->
    dict_at doc token = Some h ->
    In dependency (HolmesDictionary.children h) ->
    label_in (SemanticDependency.label dependency) ["mnr"; "pg"] = true ->
    child_token dependency doc = (Ok child, doc) ->
    child <> token ->
    dict_at doc child = Some hc ->
    str_in (HolmesDictionary.lemma hc) ["von"; "vom"] = true ->
    German_perform_language_specific_tasks limits token defaults doc
    = (Ok defaults', doc') ->
    exists hc' h',
      dict_at doc' child = Some hc'
      /\ dict_at doc' token = Some h'
      /\ forall child_dependency,
           In child_dependency (HolmesDictionary.children hc) ->
           SemanticDependency.label child_dependency = Some "nk" ->
           SemanticDependency.child_index child_dependency <> Z.of_nat token ->
           In (SemanticDependency.Build (Z.of_nat token)
                 (SemanticDependency.child_index child_dependency)
                 (Some "nk") false)
              (HolmesDictionary.children h')
           /\ HolmesDictionary.is_matchable hc' = Some false.
Proof.
  intros limits token defaults defaults' doc doc' tok h d child hc
         Htok Htag Hh Hin Hlabel Hchild Hne Hhc Hlemma H.
  unfold German_perform_language_specific_tasks in H.
  rewrite (bind_token_at _ _ _ _ Htok) in H.
  apply bind_ok in H as ([] & d1 & Hrem & H).
  unfold remove_particle_dependency in Hrem.
  apply String.eqb_neq in Htag. rewrite Htag in Hrem. injection Hrem as <-.
  apply bind_ok in H as ([] & d2 & Hloop & H).
  assert (R3 : dictionaries_related kept_unless_npadvmod d2 doc').
  { pose proof (kept_German_later_tasks limits token tok
                  {| visited_default := [] |} d2) as Hk.
    now rewrite H in Hk. }
  clear H.
  assert (R2 : dictionaries_related (deverbal_frame token) doc d2).
  { assert (Hk : keeps (dictionaries_related (deverbal_frame token))
                   (span_von_preposition limits token)).
    { unfold span_von_preposition. repeat deverbal_step token. }
    specialize (Hk doc). now rewrite Hloop in Hk. }
  assert (K02 : dictionaries_related kept_unless_npadvmod doc doc').
  { etransitivity; [apply (deverbal_frame_kept token), R2 | exact R3]. }
  destruct (related_dict_at _ _ _ _ _ K02 Hhc) as (hc' & Hhc' & _).
  destruct (related_dict_at _ _ _ _ _ K02 Hh) as (h' & Hh' & _).
  exists hc', h'. split; [exact Hhc'|]. split; [exact Hh'|].
  intros g Hg Hnk Hback.
  apply list_elem_of_In, list_elem_of_lookup in Hin as (k & Hk).
  unfold span_von_preposition in Hloop.
  eapply (for_live_visits (dictionaries_related (deverbal_frame token)) token)
    with (j := k) (x := d) in Hloop as (a1 & a2 & st & st' & Rst & Hrun & Rst').
  2:{ intros x acc. repeat deverbal_step token. }
  2:{ intros e1 e2 j x. apply deverbal_frame_stable. }
  2:{ lia. }
  2:{ unfold children_at. now rewrite Hh. }
  cbn beta in Hrun. rewrite Hlabel in Hrun.
  destruct (related_dict_at _ _ _ _ _ Rst Hhc)
    as (hcs & Hhcs & Hlemmas & (new & Hcs & Hnew) & _).
  rewrite (Hnew Hne), app_nil_r in Hcs.
  assert (Hlen : Doc.len st = Doc.len doc) by apply Rst.
  assert (Hchild' : doc_getitem (SemanticDependency.child_index d) st = (Ok child, st)).
  { unfold child_token, doc_getitem in *. rewrite Hlen.
    destruct (py_index _ _); [|discriminate]. congruence. }
  unfold bind at 1 in Hrun. unfold bind at 1 in Hrun.
  rewrite Hchild' in Hrun.
  rewrite (bind_holmes_of _ _ _ _ Hhcs) in Hrun. cbn [ret] in Hrun.
  rewrite Hlemmas, Hlemma in Hrun. cbn [when] in Hrun.
  rewrite (bind_ok_intro _ _ _ _ _ Hchild') in Hrun.
  apply list_elem_of_In, list_elem_of_lookup in Hg as (i & Hi).
  eapply (for_live_visits (dictionaries_related (deverbal_frame token)) child)
    with (j := i) (x := g) in Hrun as (b1 & b2 & sti & sti' & Rsti & Hg & Rsti').
  2:{ intros x acc. repeat deverbal_step token. }
  2:{ intros e1 e2 j x. apply deverbal_frame_stable. }
  2:{ lia. }
  2:{ unfold children_at. rewrite Hhcs. now rewrite Hcs. }
  cbn beta in Hg. rewrite Hnk in Hg.
  replace (bool_decide (Some "nk" = Some "nk")) with true in Hg by reflexivity.
  replace (Z.of_nat token =? SemanticDependency.child_index g) with false in Hg
    by (symmetry; apply Z.eqb_neq; congruence).
  cbn [negb andb when] in Hg.
  apply bind_ok in Hg as (hti & s0 & Hhti & Hg).
  apply holmes_of_ok in Hhti as [-> Hhti].
  apply bind_ok in Hg as (dep & s0 & Hdep & Hg).
  unfold lift in Hdep. injection Hdep as Hdep <-.
  apply init_ok_inv in Hdep as [-> _].
  apply bind_ok in Hg as ([] & s1 & Happ & Hg).
  unfold append_child in Happ. rewrite (update_holmes_ok _ _ _ _ Hhti) in Happ.
  injection Happ as <-.
  apply update_holmes_inv in Hg as [(hci & Hhci & _ & ->)|(_ & _ & Hno)];
    [|discriminate].
  match goal with
  | H : dictionaries_related _ ?mid st' |- _ =>
      assert (K : dictionaries_related kept_unless_npadvmod mid doc')
  end.
  { etransitivity; [apply (deverbal_frame_kept token), Rsti'|].
    etransitivity; [apply (deverbal_frame_kept token), Rst' | exact R3]. }
  split.
  - assert (Hdt : dict_at
                    (put_dict child
                       (HolmesDictionary.set_is_matchable (Some false) hci)
                       (put_dict token
                          (HolmesDictionary.append_child
                             (SemanticDependency.Build (Z.of_nat token)
                                (SemanticDependency.child_index g) (Some "nk") false)
                             hti) sti)) token
                  = Some (HolmesDictionary.append_child
                            (SemanticDependency.Build (Z.of_nat token)
                               (SemanticDependency.child_index g) (Some "nk") false)
                            hti)).
    { rewrite dict_at_put_dict_ne by auto. eapply dict_at_put_dict_eq; eauto. }
    destruct (kept_in _ _ _ _
                (SemanticDependency.Build (Z.of_nat token)
                   (SemanticDependency.child_index g) (Some "nk") false) K Hdt)
      as (h'' & Hh'' & Hin'').
    + cbn. apply in_app_iff. right. now left.
    + discriminate.
    + assert (h'' = h') by congruence. now subst h''.
  - destruct (kept_unmatchable _ _ child _ K (dict_at_put_dict_eq _ _ _ _ Hhci)
                eq_refl) as (hc'' & Hhc'' & Hm).
    assert (hc'' = hc') by congruence. now subst hc''.
Qed.

Lemma German_von_phrases_are_spanned_witness :
  exists hc' h',
    dict_at (snd (German_perform_language_specific_tasks
                    (Build_Limits 1000 1000 1000) 1 {| visited_default := [] |}
                    doc_abschluss_von_einer_versicherung)) 2
    = Some hc'
    /\ dict_at (snd (German_perform_language_specific_tasks
                       (Build_Limits 1000 1000 1000) 1 {| visited_default := [] |}
                       doc_abschluss_von_einer_versicherung)) 1
       = Some h'
    /\ forall child_dependency,
         In child_dependency [dep 2 4 "nk"] ->
         SemanticDependency.label child_dependency = Some "nk" ->
         SemanticDependency.child_index child_dependency <> Z.of_nat 1 ->
         In (SemanticDependency.Build (Z.of_nat 1)
               (SemanticDependency.child_index child_dependency) (Some "nk") false)
            (HolmesDictionary.children h')
         /\ HolmesDictionary.is_matchable hc' = Some false.
Proof.
  apply (German_von_phrases_are_spanned (Build_Limits 1000 1000 1000) 1
           {| visited_default := [] |} {| visited_default := [] |}
           doc_abschluss_von_einer_versicherung
           (snd (German_perform_language_specific_tasks
                   (Build_Limits 1000 1000 1000) 1 {| visited_default := [] |}
                   doc_abschluss_von_einer_versicherung))
           (Token.set_holmes (prepared 1 "abschluss" [dep 1 2 "mnr"] [] true)
              (spacy_token "Abschluss" "Abschluss" "NOUN" "NN" "ROOT" 1 [0; 2]%nat
                 (0, 5)%nat))
           (HolmesDictionary.Build 1 "abschluss" [dep 1 2 "mnr"] [] false
              (Some false) (Some true))
           (dep 1 2 "mnr") 2
           (HolmesDictionary.Build 2 "von" [dep 2 4 "nk"] [] false (Some false)
              (Some true))).
  - reflexivity.
  - discriminate.
  - reflexivity.
  - cbn. auto.
  - reflexivity.
  - reflexivity.
  - discriminate.
  - reflexivity.
  - reflexivity.
  - vm_compute. reflexivity.
Defined.

(** In "der Abschluss von einer Versicherung" the noun reaches the insurance
    across the preposition, which is no longer matchable. *)
Example abschluss_von_einer_versicherung_spanned :
  let r := German_perform_language_specific_tasks (Build_Limits 1000 1000 1000) 1
             {| visited_default := [] |} doc_abschluss_von_einer_versicherung in
  children_at (snd r) 1 = [dep 1 2 "mnr"; dep 1 4 "nk"]
  /\ (HolmesDictionary.is_matchable <$> dict_at (snd r) 2) = Some (Some false).
Proof. vm_compute. split; reflexivity. Qed.

(** ** Separable verbs *)

(** For a token that is neither a verb nor a noun, the projections of
    subjects leave the children of the other tokens alone. *)
Lemma others_German_later_tasks limits token tok defaults :
  Token.pos_ tok <> "VERB" -> Token.pos_ tok <> "NOUN" ->
  keeps (dictionaries_related (other_children_kept token))
    (span_von_preposition limits token ;;;
     let* defaults := project_subjects limits token tok defaults in
     project_onto_adjective_complements limits token tok defaults).
Proof.
  intros Hverb Hnoun.
  apply String.eqb_neq in Hverb. apply String.eqb_neq in Hnoun.
  apply keeps_bind; [typeclasses eauto..| |intros _].
  { unfold span_von_preposition. repeat others_step token. }
  apply keeps_bind; [typeclasses eauto..| |intros defaults'].
  - unfold project_subjects.
    apply keeps_for_live; [typeclasses eauto..|]. intros dependency defaults'.
    rewrite Hverb, andb_false_r.
    change (keeps (dictionaries_related (other_children_kept token)) (ret defaults')).
    apply keeps_ret; typeclasses eauto.
  - unfold project_onto_adjective_complements.
    apply keeps_for_live; [typeclasses eauto..|]. intros dependency defaults''.
    rewrite Hnoun, andb_false_r. cbn [andb].
    change (keeps (dictionaries_related (other_children_kept token)) (ret defaults'')).
    apply keeps_ret; typeclasses eauto.
Qed.

(** X15: the two places of the German analyzer that deal with separable
    verbs agree.  Take a token with the tag [PTKVZ] that is neither a verb
    nor a noun nor its own head.  When the head has the part of speech [VERB]
    and none of the tags [VAINF], [VMINF], [VVINF], [VVIZU],
    [_perform_language_specific_tasks] for the token, whether it returns or
    raises, leaves the head without any edge to the token and with its other
    edges as they were, in their order; and [_holmes_lemma] of the head is
    the lower-cased lemma of the first of its children with the tag [PTKVZ],
    with [einen] turned into [ein], followed by the lower-cased lemma of the
    head.  For any other head the task leaves the edges of the head as they
    are. *)
Theorem separable_verb_lemma_and_dependency :
  forall (lower : string -> string) (limits : Limits) (token : nat)
         (defaults : DefaultArguments) (doc : Doc.t) (tok th : Token.t) (hh : HDict),
    Doc.tokens doc !! token = Some tok ->
    Token.tag_ tok = "PTKVZ" ->
    Token.pos_ tok <> "VERB" ->
    Token.pos_ tok <> "NOUN" ->
    Token.head tok <> token ->
    Doc.tokens doc !! Token.head tok = Some th ->
    dict_at doc (Token.head tok) = Some hh ->
    let doc' :=
      snd (German_perform_language_specific_tasks limits token defaults doc) in
    (Token.pos_ th = "VERB" ->
     str_in (Token.tag_ th) ["VAINF"; "VMINF"; "VVINF"; "VVIZU"] = false ->
     (exists hh',
         dict_at doc' (Token.head tok) = Some hh'
         /\ HolmesDictionary.children hh'
            = List.filter
                (fun dependency =>
                   negb (SemanticDependency.child_index dependency =? Z.of_nat token))
                (HolmesDictionary.children hh)
         /\ HolmesDictionary.has_dependency_with_child_index hh' (Z.of_nat token)
            = false)
     /\ (In token (Token.children th) ->
         Forall (fun c => (c < Doc.len doc)%nat) (Token.children th) ->
         exists before particle after tp,
           Token.children th = (before ++ particle :: after)%list
           /\ (forall c tc, In c before -> Doc.tokens doc !! c = Some tc ->
                            Token.tag_ tc <> "PTKVZ")
           /\ Doc.tokens doc !! particle = Some tp
           /\ Token.tag_ tp = "PTKVZ"
           /\ German_holmes_lemma lower (Token.head tok) doc
              = (Ok ((if String.eqb (lower (Token.lemma_ tp)) "einen"
                      then "ein" else lower (Token.lemma_ tp))
                     ++ lower (Token.lemma_ th))%string,
                 doc)))
    /\ (Token.pos_ th <> "VERB"
        \/ str_in (Token.tag_ th) ["VAINF"; "VMINF"; "VVINF"; "VVIZU"] = true ->
        exists hh',
          dict_at doc' (Token.head tok) = Some hh'
          /\ HolmesDictionary.children hh' = HolmesDictionary.children hh).
Proof.
  intros lower limits token defaults doc tok th hh Htok Htag Hverb Hnoun Hhead Hth
    Hhh doc'.
  assert (Hrest : forall d1 h1,
             remove_particle_dependency token tok doc = (Ok tt, d1) ->
             dict_at d1 (Token.head tok) = Some h1 ->
             exists hh', dict_at doc' (Token.head tok) = Some hh'
                         /\ HolmesDictionary.children hh' = HolmesDictionary.children h1).
  { intros d1 h1 Hrem Hh1. subst doc'.
    unfold German_perform_language_specific_tasks.
    rewrite (bind_token_at _ _ _ _ Htok).
    rewrite (bind_ok_intro _ _ _ _ _ Hrem).
    pose proof (others_German_later_tasks limits token tok {| visited_default := [] |}
                  Hverb Hnoun d1) as Hk.
    destruct (related_dict_at _ _ _ (Token.head tok) _ Hk Hh1) as (hh' & Hhh' & Hkept).
    exists hh'. split; [exact Hhh' | exact (Hkept Hhead)]. }
  split.
  - intros Hpos Hinf. split.
    + destruct (Hrest (put_dict (Token.head tok)
                         (HolmesDictionary.remove_dependency_with_child_index
                            (Z.of_nat token) hh) doc)
                  (HolmesDictionary.remove_dependency_with_child_index
                     (Z.of_nat token) hh)) as (hh' & Hhh' & Hkept).
      * unfold remove_particle_dependency. rewrite Htag.
        replace (String.eqb "PTKVZ" "PTKVZ") with true by reflexivity.
        rewrite (bind_token_at _ _ _ _ Hth), Hpos, Hinf.
        replace (String.eqb "VERB" "VERB") with true by reflexivity.
        cbn [negb andb when]. now apply update_holmes_ok.
      * eapply dict_at_put_dict_eq; eauto.
      * exists hh'. split; [exact Hhh'|]. split; [exact Hkept|].
        unfold HolmesDictionary.has_dependency_with_child_index. rewrite Hkept. cbn.
        apply not_true_is_false. intros Hex.
        apply existsb_exists in Hex as (e & He & Heq).
        apply filter_In in He as [_ Hne]. now rewrite Heq in Hne.
    + intros Hin Hcs.
      destruct (first_child_with_tag_first "PTKVZ" doc (Token.children th) Hcs
                  token tok Hin Htok Htag)
        as (before & c' & after & tc' & Hsplit & Hbefore & Hc' & Htag' & Hrun).
      exists before, c', after, tc'. repeat split; auto.
      unfold German_holmes_lemma.
      rewrite (bind_token_at _ _ _ _ Hth), Hpos, Hinf.
      replace (String.eqb "VERB" "VERB") with true by reflexivity.
      cbn [negb andb].
      now rewrite (bind_ok_intro _ _ _ _ _ Hrun).
  - intros Hother. apply (Hrest doc hh); [|exact Hhh].
    unfold remove_particle_dependency. rewrite Htag.
    replace (String.eqb "PTKVZ" "PTKVZ") with true by reflexivity.
    rewrite (bind_token_at _ _ _ _ Hth).
    destruct Hother as [Hpos | Hinf].
    + apply String.eqb_neq in Hpos. now rewrite Hpos.
    + rewrite Hinf. cbn [negb]. now rewrite andb_false_r.
Qed.

Lemma separable_verb_lemma_and_dependency_witness :
  let doc' :=
    snd (German_perform_language_specific_tasks (Build_Limits 1000 1000 1000) 2
           {| visited_default := [] |} doc_er_steht_auf_prepared) in
  (exists hh',
      dict_at doc' 1 = Some hh'
      /\ HolmesDictionary.children hh' = [dep 1 0 "sb"]
      /\ HolmesDictionary.has_dependency_with_child_index hh' 2 = false)
  /\ exists before particle after tp,
       [0; 2; 3]%nat = (before ++ particle :: after)%list
       /\ (forall c tc, In c before ->
             Doc.tokens doc_er_steht_auf_prepared !! c = Some tc ->
             Token.tag_ tc <> "PTKVZ")
       /\ Doc.tokens doc_er_steht_auf_prepared !! particle = Some tp
       /\ Token.tag_ tp = "PTKVZ"
       /\ German_holmes_lemma (fun s => s) 1 doc_er_steht_auf_prepared
          = (Ok ((if String.eqb (Token.lemma_ tp) "einen"
                  then "ein" else Token.lemma_ tp) ++ "stehen")%string,
             doc_er_steht_auf_prepared).
Proof.
  destruct (separable_verb_lemma_and_dependency (fun s => s)
              (Build_Limits 1000 1000 1000) 2 {| visited_default := [] |}
              doc_er_steht_auf_prepared
              (Token.set_holmes (prepared 2 "auf" [] [] true)
                 (spacy_token "auf" "auf" "PART" "PTKVZ" "svp" 1 [] (0, 4)%nat))
              (Token.set_holmes
                 (prepared 1 "aufstehen" [dep 1 0 "sb"; dep 1 2 "svp"] [] true)
                 (spacy_token "steht" "stehen" "VERB" "VVFIN" "ROOT" 1 [0; 2; 3]%nat
                    (0, 4)%nat))
              (HolmesDictionary.Build 1 "aufstehen" [dep 1 0 "sb"; dep 1 2 "svp"] []
                 false (Some false) (Some true))
              eq_refl eq_refl ltac:(discriminate) ltac:(discriminate)
              ltac:(discriminate) eq_refl eq_refl) as [Hverb _].
  destruct (Hverb eq_refl eq_refl) as [Hremoved Hlemma].
  split; [exact Hremoved|].
  apply Hlemma; [cbn; auto | repeat constructor; cbn; lia].
Defined.

(** ** Prepositional complements: 'he is thinking about singing' *)

Lemma subject_labels_kept_refl p h : subject_labels_kept p h h.
Proof. intros label _. reflexivity. Qed.

Lemma subject_labels_kept_trans p h1 h2 h3 :
  subject_labels_kept p h1 h2 -> subject_labels_kept p h2 h3 ->
  subject_labels_kept p h1 h3.
Proof. intros H12 H23 label Hl. rewrite H23, H12; auto. Qed.

#[global] Instance subject_labels_related_refl :
  Reflexive (dictionaries_related subject_labels_kept) :=
  related_refl _ subject_labels_kept_refl.

#[global] Instance subject_labels_related_trans :
  Transitive (dictionaries_related subject_labels_kept) :=
  related_trans _ subject_labels_kept_trans.

Lemma children_extended_refl p h : children_extended p h h.
Proof. split; [reflexivity|]. split; [reflexivity|]. exists []. now rewrite app_nil_r. Qed.

Lemma children_extended_trans p h1 h2 h3 :
  children_extended p h1 h2 -> children_extended p h2 h3 ->
  children_extended p h1 h3.
Proof.
  intros (I1 & S1 & n1 & C1) (I2 & S2 & n2 & C2).
  split; [congruence|]. split; [congruence|].
  exists (n1 ++ n2)%list. rewrite C2, C1. now rewrite <- app_assoc.
Qed.

#[global] Instance children_extended_related_refl :
  Reflexive (dictionaries_related children_extended) :=
  related_refl _ children_extended_refl.

#[global] Instance children_extended_related_trans :
  Transitive (dictionaries_related children_extended) :=
  related_trans _ children_extended_trans.

Lemma subject_labels_same_children p h h' :
  HolmesDictionary.children h' = HolmesDictionary.children h ->
  subject_labels_kept p h h'.
Proof. intros Hc label _. now rewrite Hc. Qed.

Lemma subject_labels_mark p h :
  subject_labels_kept p h
    (HolmesDictionary.set_children
       (mark_uncertain_unless_aux (HolmesDictionary.children h)) h).
Proof.
  intros label _. cbn. unfold mark_uncertain_unless_aux.
  induction (HolmesDictionary.children h) as [|e l IH]; [reflexivity|].
  cbn [List.map existsb]. rewrite IH. f_equal.
  unfold has_label. now destruct (negb _).
Qed.

Lemma subject_labels_append p h d :
  label_in (SemanticDependency.label d) ["pobjb"; "pobjo"; "dative"; "pobjt"] = true ->
  subject_labels_kept p h (HolmesDictionary.append_child d h).
Proof.
  intros Hd label Hl. cbn. rewrite existsb_app. cbn. rewrite orb_false_r.
  replace (has_label label d) with false; [apply orb_false_r|].
  symmetry. unfold has_label. apply bool_decide_eq_false_2. intros Heq.
  rewrite Heq in Hd. cbn in Hl, Hd.
  destruct Hl as [<-|[<-|[<-|[]]]]; discriminate.
Qed.

Ltac subject_step :=
  lazymatch goal with
  | |- keeps _ (update_holmes _ _) =>
      apply keeps_related_update_holmes; [exact subject_labels_kept_refl|];
      intros ?; cbn beta;
      first [ apply subject_labels_mark
            | apply subject_labels_same_children; reflexivity ]
  | |- keeps _ (append_child _ _) =>
      apply keeps_related_update_holmes; [exact subject_labels_kept_refl|];
      intros ?; apply subject_labels_append; cbn;
      match goal with
      | H : working_dependency_label _ _ = Some _ |- _ =>
          apply working_dependency_label_values in H; cbn in H;
          destruct H as [<-|[<-|[<-|[<-|[]]]]]; reflexivity
      end
  | |- keeps _ (bind (lift (SemanticDependency.init _ _ _ _)) _) =>
      let dep := fresh "dep" in
      let Hdep := fresh "Hdep" in
      apply keeps_lift_bind; [typeclasses eauto|]; intros dep Hdep;
      apply init_ok_inv in Hdep as [-> Hdep]
  | |- keeps _ (child_token _) =>
      apply keeps_doc_getitem; typeclasses eauto
  | |- keeps _ (for_live _ _ _ _ _) =>
      (apply keeps_for_live; try typeclasses eauto); intros ? ?
  | |- keeps _ (match working_dependency_label ?l ?d with _ => _ end) =>
      let E := fresh "E" in
      destruct (working_dependency_label l d) eqn:E
  | |- _ => keeps_step
  end.

Lemma subject_labels_front_tasks limits token tok :
  keeps (dictionaries_related subject_labels_kept)
    (mark_modal_verb_dependencies limits token tok ;;;
     set_auxiliaries_not_matchable token tok ;;;
     add_deverbal_dependencies limits token).
Proof.
  unfold mark_modal_verb_dependencies, set_auxiliaries_not_matchable,
    add_deverbal_dependencies.
  repeat subject_step.
Qed.

Lemma frame_front_tasks limits token tok :
  keeps (dictionaries_related English_tasks_frame)
    (mark_modal_verb_dependencies limits token tok ;;;
     set_auxiliaries_not_matchable token tok ;;;
     add_deverbal_dependencies limits token).
Proof.
  apply keeps_bind;
    [typeclasses eauto.. | apply frame_mark_modal_verb_dependencies | intros _].
  apply keeps_bind;
    [typeclasses eauto.. | apply frame_set_auxiliaries_not_matchable | intros _].
  apply frame_add_deverbal_dependencies.
Qed.

Lemma corresponds_doc_getitem i :
  corresponds_under same_parse eq (doc_getitem i) (doc_getitem i).
Proof.
  intros doc doc' Hdoc. unfold doc_getitem.
  rewrite (same_parse_len _ _ Hdoc).
  destruct (py_index _ _); cbn; auto.
Qed.

Lemma find_subject_phrase_reads_the_parse sent_start counter :
  reads_spacy_attributes_only (find_subject_phrase sent_start counter).
Proof.
  unfold reads_spacy_attributes_only.
  induction counter as [|counter IH]; cbn [find_subject_phrase].
  - now apply corresponds_ret.
  - destruct (_ <? _)%nat; [now apply corresponds_ret|].
    eapply corresponds_bind; [apply corresponds_doc_getitem|].
    intros candidate ? <-.
    eapply corresponds_bind; [apply corresponds_token_at|].
    intros tc tc' Hs. destruct (same_token_links _ _ Hs) as (-> & _).
    destruct (str_in _ _); [now apply corresponds_ret | exact IH].
Qed.

Ltac extended_step :=
  lazymatch goal with
  | |- keeps _ (append_child _ ?dep) =>
      apply keeps_related_update_holmes; [exact children_extended_refl|];
      intros ?; split; [reflexivity|]; split; [reflexivity|];
      exists [dep]; reflexivity
  | |- keeps _ (bind (lift _) _) =>
      apply keeps_lift_bind; [typeclasses eauto|]; intros ? _
  | |- _ => keeps_step
  end.

Lemma extended_in doc doc' p h e :
  dictionaries_related children_extended doc doc' ->
  dict_at doc p = Some h -> In e (HolmesDictionary.children h) ->
  exists h', dict_at doc' p = Some h' /\ In e (HolmesDictionary.children h').
Proof.
  intros HR Hh He.
  destruct (related_dict_at _ _ _ _ _ HR Hh) as (h' & Hh' & _ & _ & new & Hc).
  exists h'. split; [exact Hh'|]. rewrite Hc. apply in_app_iff. now left.
Qed.

(** X28: prepositional complements in the English analyzer ('he is thinking
    about singing').  Take a token that is a verb with the dependency label
    [pcomp] and no particle.  The label of the new dependencies is
    [nsubjpass] when the token has a dependency labelled [auxpass] and
    [nsubj] otherwise; assume that the token has no dependency with that
    label yet, that the search backwards through the sentence finds a
    subject, and that the tag of this subject starts with [NN].  When
    [_perform_language_specific_tasks] returns for the token, the token and
    each of its righthand siblings have an uncertain dependency with the new
    label to the subject and to each of its righthand siblings, wherever the
    two tokens differ. *)
Theorem prepositional_complements_take_the_subject :
  forall (self : Analyzer) (limits : Limits) (token : nat) (doc doc' : Doc.t)
         (tok : Token.t) (h : HDict) (new_dependency_label : string)
         (subject : nat) (ts : Token.t) (hs : HDict),
    Doc.tokens doc !! token = Some tok ->
    Token.pos_ tok = "VERB" ->
    Token.dep_ tok = "pcomp" ->
    Token.tag_ tok <> "RP" ->
    dict_at doc token = Some h ->
    new_dependency_label
    = (if existsb (has_label "auxpass") (HolmesDictionary.children h)
       then "nsubjpass" else "nsubj") ->
    existsb (has_label new_dependency_label) (HolmesDictionary.children h) = false ->
    find_subject_phrase (fst (Token.sent tok)) token doc = (Ok (Some subject), doc) ->
    Doc.tokens doc !! subject = Some ts ->
    String.prefix "NN" (Token.tag_ ts) = true ->
    dict_at doc subject = Some hs ->
    English_perform_language_specific_tasks self limits token doc = (Ok tt, doc') ->
    forall i source j target,
      In i (loop_token_and_righthand_siblings hs) ->
      py_index (Doc.len doc) i = Some source ->
      In j (loop_token_and_righthand_siblings h) ->
      py_index (Doc.len doc) j = Some target ->
      target <> source ->
      exists ht',
        dict_at doc' target = Some ht'
        /\ In (SemanticDependency.Build (Z.of_nat target) (Z.of_nat source)
                 (Some new_dependency_label) true)
              (HolmesDictionary.children ht').
Proof.
  intros self limits token doc doc' tok h label subject ts hs
         Htok Hpos Hdep Htag Hh Hlabel Hnone Hsubject Hts Hnn Hhs H.
  unfold English_perform_language_specific_tasks in H.
  rewrite (bind_token_at _ _ _ _ Htok) in H.
  apply bind_ok in H as ([] & d1 & Hrem & H).
  unfold remove_phrasal_particle_dependency in Hrem.
  apply String.eqb_neq in Htag. rewrite Htag in Hrem. injection Hrem as <-.
  assert (Hfront : exists d4,
             dictionaries_related English_tasks_frame doc d4
             /\ dictionaries_related subject_labels_kept doc d4
             /\ (handle_past_passive_participle self limits token tok ;;;
                 handle_participle_compound token tok ;;;
                 handle_prepositional_complement self limits token tok) d4
                = (Ok tt, doc')).
  { pose proof (frame_front_tasks limits token tok doc) as F.
    pose proof (subject_labels_front_tasks limits token tok doc) as S.
    apply bind_ok in H as ([] & d2 & H2 & H).
    apply bind_ok in H as ([] & d3 & H3 & H).
    apply bind_ok in H as ([] & d4 & H4 & H).
    assert (Hrun : (mark_modal_verb_dependencies limits token tok ;;;
                    set_auxiliaries_not_matchable token tok ;;;
                    add_deverbal_dependencies limits token) doc = (Ok tt, d4)).
    { rewrite (bind_ok_intro _ _ _ _ _ H2), (bind_ok_intro _ _ _ _ _ H3). exact H4. }
    rewrite Hrun in F, S. exists d4. auto. }
  clear H. destruct Hfront as (d4 & F4 & S4 & H).
  apply bind_ok in H as ([] & d5 & Hpast & H).
  unfold handle_past_passive_participle in Hpast. rewrite Hdep in Hpast.
  replace (String.eqb "pcomp" "acl") with false in Hpast by reflexivity.
  injection Hpast as <-.
  apply bind_ok in H as ([] & d6 & Hpc & H).
  unfold handle_participle_compound in Hpc. rewrite Hdep in Hpc.
  replace (String.eqb "pcomp" "amod") with false in Hpc by reflexivity.
  injection Hpc as <-.
  unfold handle_prepositional_complement in H. rewrite Hpos, Hdep in H.
  replace (String.eqb "VERB" "VERB" && String.eqb "pcomp" "pcomp") with true in H
    by reflexivity.
  cbn [when] in H.
  destruct (related_dict_at _ _ _ _ _ F4 Hh) as (h4 & Hh4 & Hi4 & _ & Hrs4 & _).
  destruct (related_dict_at _ _ _ _ _ S4 Hh) as (h4' & Hh4' & Hlabels).
  assert (h4' = h4) by congruence. subst h4'.
  destruct (related_dict_at _ _ _ _ _ F4 Hhs) as (hs4 & Hhs4 & His4 & _ & Hrss4 & _).
  assert (Hlen : Doc.len d4 = Doc.len doc) by apply F4.
  pose proof (related_same_parse _ _ _ F4) as Hsame.
  rewrite (bind_holmes_of _ _ _ _ Hh4), (bind_holmes_of _ _ _ _ Hh4) in H.
  rewrite (Hlabels "auxpass") in H by (cbn; auto). rewrite <- Hlabel in H.
  rewrite (Hlabels label) in H
    by (rewrite Hlabel; destruct (existsb _ _); cbn; auto).
  rewrite Hnone in H. cbn [negb when] in H.
  assert (Hsubject4 : find_subject_phrase (fst (Token.sent tok)) token d4
                      = (Ok (Some subject), d4)).
  { destruct (find_subject_phrase_reads_the_parse (fst (Token.sent tok)) token
                doc d4 Hsame) as (Ha & _ & Hs).
    rewrite Hsubject in Ha. cbn in Ha.
    destruct (find_subject_phrase _ _ d4) as [[s4|e] d0]; cbn in *;
      [|contradiction]. now subst. }
  rewrite (bind_ok_intro _ _ _ _ _ Hsubject4) in H.
  destruct (patience limits) as [|rounds]; [discriminate|].
  cbn [project_subject_phrase] in H.
  destruct (same_parse_lookup _ _ _ _ Hsame Hts) as (ts4 & Hts4 & Hsame_ts).
  destruct (same_token_fields _ _ Hsame_ts) as (_ & _ & Htag4 & _).
  rewrite (bind_token_at _ _ _ _ Hts4), Htag4, Hnn in H.
  unfold bind at 1 in H. cbn [ret] in H.
  rewrite (bind_holmes_of _ _ _ _ Hhs4) in H.
  assert (Hloop_s : loop_token_and_righthand_siblings hs4
                    = loop_token_and_righthand_siblings hs).
  { unfold loop_token_and_righthand_siblings. now rewrite His4, Hrss4. }
  rewrite Hloop_s in H.
  intros i source j target Hi Hisrc Hj Hjtgt Hne.
  eapply (for_each_post (dictionaries_related children_extended) _ _
            (fun i d =>
               forall source,
                 py_index (Doc.len doc) i = Some source ->
                 forall j target,
                   In j (loop_token_and_righthand_siblings h) ->
                   py_index (Doc.len doc) j = Some target ->
                   target <> source ->
                   exists ht',
                     dict_at d target = Some ht'
                     /\ In (SemanticDependency.Build (Z.of_nat target)
                              (Z.of_nat source) (Some label) true)
                           (HolmesDictionary.children ht')) d4)
    in H as (_ & Hpost).
  - exact (Hpost i Hi source Hisrc j target Hj Hjtgt Hne).
  - intros x. repeat extended_step.
  - intros x d d' Hp HR src Hsrc j0 tgt Hj0 Htgt Hne0.
    destruct (Hp src Hsrc j0 tgt Hj0 Htgt Hne0) as (ht0 & Hht0 & Hin0).
    eapply extended_in; eauto.
  - intros x d d' HR Hbody src Hsrc j0 tgt Hj0 Htgt Hne0.
    assert (Hlen' : Doc.len d = Doc.len doc).
    { destruct HR as (_ & -> & _). exact Hlen. }
    apply bind_ok in Hbody as (a & d0 & Ha & Hbody).
    apply doc_getitem_ok in Ha as [-> Ha].
    rewrite Hlen', Hsrc in Ha. injection Ha as <-.
    destruct (related_dict_at _ _ _ _ _ HR Hh4) as (ht & Hht & Hit & Hrst & _).
    rewrite (bind_holmes_of _ _ _ _ Hht) in Hbody.
    assert (Hloop_t : loop_token_and_righthand_siblings ht
                      = loop_token_and_righthand_siblings h).
    { unfold loop_token_and_righthand_siblings. now rewrite Hit, Hrst, Hi4, Hrs4. }
    rewrite Hloop_t in Hbody.
    eapply (for_each_post (dictionaries_related children_extended) _ _
              (fun j d =>
                 forall target,
                   py_index (Doc.len doc) j = Some target -> target <> src ->
                   exists ht',
                     dict_at d target = Some ht'
                     /\ In (SemanticDependency.Build (Z.of_nat target)
                              (Z.of_nat src) (Some label) true)
                           (HolmesDictionary.children ht')) d)
      in Hbody as (_ & Hpost).
    + exact (Hpost j0 Hj0 tgt Htgt Hne0).
    + intros y. repeat extended_step.
    + intros y e e' Hp HR' t Ht Hnet.
      destruct (Hp t Ht Hnet) as (ht0 & Hht0 & Hin0).
      eapply extended_in; eauto.
    + intros y e e' HR' Hinner t Ht Hnet.
      assert (Hlen'' : Doc.len e = Doc.len doc).
      { destruct HR' as (_ & -> & _). exact Hlen'. }
      apply bind_ok in Hinner as (b & e0 & Hb & Hinner).
      apply doc_getitem_ok in Hb as [-> Hb].
      rewrite Hlen'', Ht in Hb. injection Hb as <-.
      replace (Nat.eqb t src) with false in Hinner
        by (symmetry; apply Nat.eqb_neq; congruence).
      cbn [negb when] in Hinner.
      apply bind_ok in Hinner as (h0 & e0 & Hh0 & Hinner).
      apply holmes_of_ok in Hh0 as [-> Hh0].
      apply bind_ok in Hinner as (dep & e0 & Hdep' & Hinner).
      unfold lift in Hdep'. injection Hdep' as Hdep' <-.
      apply init_ok_inv in Hdep' as [-> _].
      unfold append_child in Hinner.
      rewrite (update_holmes_ok _ _ _ _ Hh0) in Hinner.
      injection Hinner as <-.
      eexists. split; [eapply dict_at_put_dict_eq; eauto|].
      cbn. apply in_app_iff. right. now left.
    + reflexivity.
  - reflexivity.
Qed.

Lemma prepositional_complements_take_the_subject_witness :
  exists ht',
    dict_at (snd (English_perform_language_specific_tasks english
                    (Build_Limits 1000 1000 1000) 3
                    doc_peter_thinks_about_singing)) 3
    = Some ht'
    /\ In (SemanticDependency.Build (Z.of_nat 3) (Z.of_nat 0) (Some "nsubj") true)
          (HolmesDictionary.children ht').
Proof.
  apply (prepositional_complements_take_the_subject english
           (Build_Limits 1000 1000 1000) 3 doc_peter_thinks_about_singing
           (snd (English_perform_language_specific_tasks english
                   (Build_Limits 1000 1000 1000) 3 doc_peter_thinks_about_singing))
           (Token.set_holmes (prepared 3 "sing" [] [] true)
              (spacy_token "singing" "sing" "VERB" "VBG" "pcomp" 2 [] (0, 4)%nat))
           (HolmesDictionary.Build 3 "sing" [] [] false (Some false) (Some true))
           "nsubj" 0
           (Token.set_holmes (prepared 0 "peter" [] [] true)
              (spacy_token "Peter" "Peter" "PROPN" "NNP" "nsubj" 1 [] (0, 4)%nat))
           (HolmesDictionary.Build 0 "peter" [] [] false (Some false) (Some true)))
    with (i := 0) (j := 3).
  - reflexivity.
  - reflexivity.
  - reflexivity.
  - discriminate.
  - reflexivity.
  - reflexivity.
  - reflexivity.
  - reflexivity.
  - reflexivity.
  - reflexivity.
  - reflexivity.
  - vm_compute. reflexivity.
  - cbn. auto.
  - reflexivity.
  - cbn. auto.
  - reflexivity.
  - discriminate.
Defined.

(** In "Peter thinks about singing" the singing is, possibly, Peter's. *)
Example peter_thinks_about_singing_subject :
  children_at (snd (English_perform_language_specific_tasks english
                      (Build_Limits 1000 1000 1000) 3
                      doc_peter_thinks_about_singing)) 3
  = [SemanticDependency.Build 3 0 (Some "nsubj") true].
Proof. vm_compute. reflexivity. Qed.

(** * Edges are anchored at the tokens that hold them *)

Section Establishes.

Variable n : nat.

Lemma anchored_dict_at doc p h :
  anchored n doc -> dict_at doc p = Some h -> dict_anchored n p h.
Proof.
  intros [_ H] Hh. apply dict_at_token in Hh as (tok & Htok & Eh).
  destruct (H p tok Htok) as (h' & Eh' & Ha). congruence.
Qed.

Lemma anchored_put_dict doc p h h' :
  anchored n doc -> dict_at doc p = Some h -> dict_anchored n p h' ->
  anchored n (put_dict p h' doc).
Proof.
  intros [HL H] Hh Ha. split; [now rewrite len_put_dict|].
  intros q tok Hq. rewrite tokens_put_dict in Hq.
  destruct (Doc.tokens doc !! q) as [tq|] eqn:Htq; [|discriminate].
  cbn in Hq. injection Hq as <-.
  destruct (decide (p = q)) as [->|Hne].
  - exists h'. split; [now destruct tq | exact Ha].
  - exact (H q tq Htq).
Qed.

Lemma establishes_ret {A} (a : A) (Q : A -> Prop) : Q a -> establishes n (ret a) Q.
Proof. intros HQ doc Hd. cbn. split; [exact Hd|]. now intros a' [= <-]. Qed.

Lemma establishes_raise {A} (e : Error) (Q : A -> Prop) : establishes n (raise e) Q.
Proof. intros doc Hd. cbn. split; [exact Hd|]. discriminate. Qed.

Lemma establishes_bind {A B} (m : M A) (k : A -> M B) (Q : A -> Prop)
    (Q' : B -> Prop) :
  establishes n m Q -> (forall a, Q a -> establishes n (k a) Q') ->
  establishes n (bind m k) Q'.
Proof.
  intros Hm Hk doc Hd. unfold bind. destruct (Hm doc Hd) as [Hd1 HQ].
  destruct (m doc) as [[a|e] d1]; cbn in *.
  - apply (Hk a (HQ a eq_refl) d1 Hd1).
  - split; [exact Hd1 | discriminate].
Qed.

Lemma establishes_weaken {A} (m : M A) (Q Q' : A -> Prop) :
  establishes n m Q -> (forall a, Q a -> Q' a) -> establishes n m Q'.
Proof.
  intros Hm HQ doc Hd. destruct (Hm doc Hd) as [Hd1 H]. split; auto.
Qed.

Lemma establishes_reads {A} (m : M A) (Q : A -> Prop) :
  reads_only m -> (forall doc a, m doc = (Ok a, doc) -> Q a) -> establishes n m Q.
Proof.
  intros Hr HQ doc Hd. specialize (Hr doc).
  destruct (m doc) as [r d1] eqn:E. cbn in *. subst d1.
  split; [exact Hd|]. intros a ->. eapply HQ; eauto.
Qed.

Lemma establishes_reads_only {A} (m : M A) :
  reads_only m -> establishes n m (fun _ => True).
Proof. intros Hr. apply establishes_reads; auto. Qed.

Lemma establishes_when (b : bool) (m : M unit) (Q : unit -> Prop) :
  Q tt -> (b = true -> establishes n m Q) -> establishes n (when b m) Q.
Proof. intros HQ Hm. destruct b; cbn; [auto | now apply establishes_ret]. Qed.

Lemma establishes_for_each {A} (l : list A) (body : A -> M unit) :
  (forall x, x ∈ l -> establishes n (body x) (fun _ => True)) ->
  establishes n (for_each l body) (fun _ => True).
Proof.
  induction l as [|x l IH]; intros Hb; cbn [for_each].
  - now apply establishes_ret.
  - eapply establishes_bind; [apply Hb; apply list_elem_of_here|].
    intros _ _. apply IH. intros y Hy. apply Hb. now apply list_elem_of_further.
Qed.

Lemma establishes_fold_m {A St} (l : list A) (body : A -> St -> M St)
    (P : St -> Prop) :
  (forall x acc, x ∈ l -> P acc -> establishes n (body x acc) P) ->
  forall acc, P acc -> establishes n (fold_m l body acc) P.
Proof.
  induction l as [|x l IH]; intros Hb acc Hacc; cbn [fold_m].
  - now apply establishes_ret.
  - eapply establishes_bind; [apply Hb; [apply list_elem_of_here | exact Hacc]|].
    intros acc' Hacc'. apply IH; [|exact Hacc'].
    intros y a Hy. apply Hb. now apply list_elem_of_further.
Qed.

Lemma establishes_seq {A B} (m : M A) (m' : M B) (Q : B -> Prop) :
  establishes n m (fun _ => True) -> establishes n m' Q ->
  establishes n (m ;;; m') Q.
Proof. intros Hm Hm'. eapply establishes_bind; [exact Hm | now intros _ _]. Qed.

Lemma establishes_holmes_of p :
  establishes n (holmes_of p) (fun h => dict_anchored n p h /\ (p < n)%nat).
Proof.
  intros doc Hd. pose proof (reads_only_holmes_of p doc) as Hr.
  destruct (holmes_of p doc) as [r d1] eqn:E. cbn in *. subst d1.
  split; [exact Hd|]. intros h ->. apply holmes_of_ok in E as [_ Hh].
  split; [eapply anchored_dict_at; eauto|].
  destruct Hd as [<- _]. eapply dict_at_lt; eauto.
Qed.

Lemma establishes_token_at p :
  establishes n (token_at p) (fun _ => (p < n)%nat).
Proof.
  intros doc Hd. pose proof (reads_only_token_at p doc) as Hr.
  destruct (token_at p doc) as [r d1] eqn:E. cbn in *. subst d1.
  split; [exact Hd|]. intros tok ->. apply token_at_inv in E as [_ H].
  apply lookup_lt_Some in H. destruct Hd as [<- _]. exact H.
Qed.

Lemma establishes_doc_getitem i :
  establishes n (doc_getitem i)
    (fun p => (p < n)%nat /\ py_index n i = Some p).
Proof.
  intros doc Hd. pose proof (reads_only_doc_getitem i doc) as Hr.
  destruct (doc_getitem i doc) as [r d1] eqn:E. cbn in *. subst d1.
  split; [exact Hd|]. intros p ->. apply doc_getitem_ok in E as [_ E].
  destruct Hd as [<- _]. split; [eapply py_index_lt; eauto | exact E].
Qed.

Lemma establishes_update_holmes p f :
  (forall h, dict_anchored n p h -> dict_anchored n p (f h)) ->
  establishes n (update_holmes p f) (fun _ => True).
Proof.
  intros Hf doc Hd. split; [|auto].
  destruct (update_holmes p f doc) as [r d1] eqn:E.
  apply update_holmes_inv in E as [(h & Hh & _ & ->)|(_ & -> & _)]; cbn; [|exact Hd].
  eapply anchored_put_dict; eauto. apply Hf. eapply anchored_dict_at; eauto.
Qed.

Lemma establishes_init parent_index child_index label is_uncertain :
  establishes n
    (lift (SemanticDependency.init parent_index child_index label is_uncertain))
    (fun dep =>
       dep = SemanticDependency.Build parent_index child_index label is_uncertain
       /\ parent_index <> child_index
       /\ (child_index < 0 -> label = None)).
Proof.
  apply establishes_reads; [now intros doc|].
  intros doc dep H. unfold lift in H. injection H as H.
  unfold SemanticDependency.init in H.
  destruct (child_index <? 0) eqn:Hneg; cbn in H.
  - destruct label; [discriminate|]. cbn in H.
    destruct (Z.eqb_spec parent_index child_index); [discriminate|].
    injection H as <-. auto.
  - destruct (Z.eqb_spec parent_index child_index); [destruct label; discriminate|].
    apply Z.ltb_ge in Hneg.
    assert (dep = SemanticDependency.Build parent_index child_index label is_uncertain)
      by (destruct label; cbn in H; congruence).
    repeat split; auto; lia.
Qed.

Lemma dict_anchored_append p h c label is_uncertain :
  dict_anchored n p h ->
  is_Some (py_index n c) -> (c < 0 -> label = None) -> Z.of_nat p <> c ->
  dict_anchored n p
    (HolmesDictionary.append_child
       (SemanticDependency.Build (Z.of_nat p) c label is_uncertain) h).
Proof.
  intros [Hc Hs] Hi Hl Hne. split; [|exact Hs]. cbn.
  apply Forall_app_2; [exact Hc|]. constructor; [|constructor].
  repeat split; cbn; auto.
Qed.

(** Appending to the token at [p] an edge that the constructor accepted,
    from [p] to an index of the document. *)
Lemma establishes_append_init p parent_index child_index label is_uncertain :
  parent_index = Z.of_nat p -> is_Some (py_index n child_index) ->
  establishes n
    (let* dep := lift (SemanticDependency.init parent_index child_index label
                         is_uncertain) in
     append_child p dep)
    (fun _ => True).
Proof.
  intros -> Hi. eapply establishes_bind; [apply establishes_init|].
  intros dep (-> & Hne & Hl). apply establishes_update_holmes.
  intros h Hh. now apply dict_anchored_append.
Qed.

Lemma establishes_for_live {Locals} (P : Locals -> Prop) p
    (body : SemDep -> Locals -> M Locals) :
  (forall dependency acc,
     (p < n)%nat -> edge_anchored n p dependency -> P acc ->
     establishes n (body dependency acc) P) ->
  forall fuel k acc, P acc -> establishes n (for_live fuel p k body acc) P.
Proof.
  intros Hb. induction fuel as [|fuel IH]; intros k acc Hacc; cbn [for_live].
  - apply establishes_raise.
  - eapply establishes_bind; [apply establishes_holmes_of|].
    intros h [[Hc _] Hp]. destruct (HolmesDictionary.children h !! k) as [d|] eqn:E.
    + eapply establishes_bind.
      * apply Hb; [exact Hp| |exact Hacc]. rewrite Forall_forall in Hc. apply Hc.
        eapply list_elem_of_lookup_2; eauto.
      * intros acc' Hacc'. now apply IH.
    + now apply establishes_ret.
Qed.

Lemma py_index_in_range i :
  0 <= i < Z.of_nat n -> is_Some (py_index n i).
Proof.
  intros Hi. unfold py_index.
  destruct (Z.leb_spec 0 i); [|lia].
  destruct (Z.ltb_spec i (Z.of_nat n)); [eauto | lia].
Qed.

Lemma py_index_pointer i :
  0 <= i < Z.of_nat n -> is_Some (py_index n (0 - (i + 1))).
Proof.
  intros Hi. unfold py_index.
  destruct (Z.leb_spec 0 (0 - (i + 1))); [lia|].
  destruct (Z.leb_spec 0 (Z.of_nat n + (0 - (i + 1)))); [eauto | lia].
Qed.

Lemma establishes_for_each_token (method : nat -> M unit) :
  (forall token, establishes n (method token) (fun _ => True)) ->
  establishes n (for_each_token method) (fun _ => True).
Proof.
  intros Hm doc Hd. unfold for_each_token.
  apply (establishes_for_each (seq 0 (Doc.len doc)) method); auto.
Qed.

End Establishes.

Ltac anchored_rule :=
  lazymatch goal with
  | |- establishes _ (ret _) (fun _ => True) => apply establishes_ret; exact I
  | |- establishes _ (raise _) _ => apply establishes_raise
  | |- establishes _ (when _ _) _ => apply establishes_when; [exact I | intros ?]
  | |- establishes _ (bind (holmes_of _) _) _ =>
      eapply establishes_bind; [apply establishes_holmes_of | intros ? [[? ?] ?]]
  | |- establishes _ (bind (token_at _) _) _ =>
      eapply establishes_bind; [apply establishes_token_at | intros ? ?]
  | |- establishes _ (bind (doc_getitem _) _) _ =>
      eapply establishes_bind; [apply establishes_doc_getitem | intros ? [? ?]]
  | |- establishes _ (bind (if ?b then _ else _) _) _ => destruct b eqn:?
  | |- establishes _ (bind (ret _) _) _ =>
      eapply establishes_bind;
        [apply (establishes_ret _ _ (fun _ => True)); exact I | intros ? _]
  | |- establishes _ (for_each _ _) _ => apply establishes_for_each; intros ? ?
  | |- establishes _ (if ?b then _ else _) _ => destruct b eqn:?
  | |- establishes _ (match ?x with _ => _ end) _ => destruct x eqn:?
  end.

Ltac anchored_step := anchored_rule; cbv beta in *.

(** A step that only reads: nothing is learnt about what it returns. *)
Ltac anchored_reads :=
  eapply establishes_bind;
    [apply establishes_reads_only; repeat reads_only_step | intros ? _].

Section BasePassesAnchored.

Variable n : nat.
Variable self : Analyzer.
Variable limits : Limits.

Lemma anchored_set_matchability token :
  establishes n (_set_matchability self token) (fun _ => True).
Proof.
  unfold _set_matchability. anchored_step.
  anchored_reads. anchored_reads.
  apply establishes_update_holmes. now intros h.
Qed.

Lemma anchored_initialize token :
  establishes n (_initialize_semantic_dependencies self token) (fun _ => True).
Proof.
  unfold _initialize_semantic_dependencies. repeat anchored_step.
  apply establishes_append_init; [reflexivity|].
  rewrite py_index_of_nat; eauto.
Qed.

Lemma anchored_mark token :
  establishes n (_mark_if_righthand_sibling self limits token) (fun _ => True).
Proof.
  unfold _mark_if_righthand_sibling. repeat anchored_step.
  eapply establishes_bind;
    [apply establishes_reads_only; apply reads_only_climb | intros [wt flag] _].
  eapply establishes_bind.
  - apply establishes_update_holmes. intros h [Hc Hs]. split; [exact Hc|]. cbn.
    apply Forall_app_2; [exact Hs|]. constructor; [lia | constructor].
  - intros _ _. anchored_step. apply establishes_update_holmes. now intros h.
Qed.
Lemma anchored_copy_to_child_sibling token dependency child_righthand_sibling :
  0 <= child_righthand_sibling < Z.of_nat n ->
  establishes n (copy_to_child_sibling token dependency child_righthand_sibling)
    (fun _ => True).
Proof.
  intros Hs. unfold copy_to_child_sibling. cbv zeta. repeat anchored_step.
  apply establishes_append_init; [reflexivity|].
  destruct (SemanticDependency.child_index dependency <? 0).
  - now apply py_index_pointer.
  - now apply py_index_in_range.
Qed.

Lemma anchored_copy_to_sibling dependency righthand_sibling :
  edge_ok n dependency -> 0 <= righthand_sibling < Z.of_nat n ->
  establishes n (copy_to_sibling self dependency righthand_sibling) (fun _ => True).
Proof.
  intros [Hi _] Hs. unfold copy_to_sibling. repeat anchored_step.
  apply establishes_append_init; [|exact Hi].
  eapply py_index_nonneg; [lia | eauto].
Qed.

Lemma anchored_copy_dependency token dependency :
  edge_ok n dependency ->
  establishes n (copy_dependency self token dependency) (fun _ => True).
Proof.
  intros Hd. unfold copy_dependency. apply establishes_seq.
  - repeat anchored_step. apply anchored_copy_to_child_sibling.
    match goal with H : Forall _ (HolmesDictionary.righthand_siblings _) |- _ =>
      rewrite Forall_forall in H; now apply H end.
  - repeat anchored_step. apply anchored_copy_to_sibling; [exact Hd|].
    match goal with
    | H : Forall _ (HolmesDictionary.righthand_siblings _), Hx : _ ∈ List.filter _ _ |- _ =>
        rewrite Forall_forall in H; apply H;
        apply list_elem_of_In in Hx; apply filter_In in Hx as [Hx _];
        now apply list_elem_of_In
    end.
Qed.

Lemma anchored_copy_any_sibling_info token :
  establishes n (_copy_any_sibling_info self token) (fun _ => True).
Proof.
  unfold _copy_any_sibling_info. apply establishes_seq.
  - repeat anchored_step. apply establishes_update_holmes. now intros h.
  - repeat anchored_step. apply anchored_copy_dependency.
    match goal with H : Forall _ (HolmesDictionary.children _) |- _ =>
      rewrite Forall_forall in H; now apply H end.
Qed.
Lemma is_predicate_subject_nonneg predicative_adjective_index dependency doc doc' :
  is_predicate_subject self predicative_adjective_index dependency doc
  = (Ok true, doc') ->
  0 <= SemanticDependency.child_index dependency.
Proof.
  unfold is_predicate_subject. destruct (bool_decide _); [|discriminate].
  intros H. apply bind_ok in H as (c & d1 & _ & H).
  apply bind_ok in H as (tc & d2 & _ & H).
  apply bind_ok in H as (b & d3 & _ & H).
  injection H as H _. apply andb_prop in H as [H _]. apply andb_prop in H as [_ H].
  now apply Z.leb_le.
Qed.

Lemma reads_only_is_predicate_subject predicative_adjective_index dependency :
  reads_only (is_predicate_subject self predicative_adjective_index dependency).
Proof. unfold is_predicate_subject. repeat reads_only_step. Qed.

Lemma anchored_attach_adjective predicative_adjective_index dependency locals :
  is_Some (py_index n predicative_adjective_index) ->
  (forall subject_index, snd locals = Some subject_index ->
     0 <= subject_index < Z.of_nat n) ->
  establishes n
    (attach_adjective self predicative_adjective_index dependency locals)
    (fun locals' => forall subject_index, snd locals' = Some subject_index ->
                      0 <= subject_index < Z.of_nat n).
Proof.
  intros Hi Hl. unfold attach_adjective. eapply establishes_bind.
  - apply (establishes_reads n _
             (fun b => b = true -> 0 <= SemanticDependency.child_index dependency)).
    + apply reads_only_is_predicate_subject.
    + intros doc b H ->. eapply is_predicate_subject_nonneg; eauto.
  - intros [] Hb; [|now apply establishes_ret]. specialize (Hb eq_refl). cbv zeta.
    repeat anchored_step.
    match goal with H : py_index n _ = Some ?a |- _ =>
      pose proof (py_index_nonneg _ _ _ Hb H) as Hs; rename a into s end.
    eapply establishes_bind; [apply establishes_init|].
    intros dep (-> & Hne & Hlab). apply establishes_seq.
    + apply establishes_update_holmes. intros h Hh. rewrite Hs in *.
      now apply dict_anchored_append.
    + apply establishes_ret. cbn. intros si [= <-]. lia.
Qed.

Lemma anchored_normalize token :
  establishes n (_normalize_predicative_adjectives self limits token) (fun _ => True).
Proof.
  unfold _normalize_predicative_adjectives. repeat anchored_step.
  eapply establishes_bind.
  - apply (establishes_for_live n
             (fun locals : AdjectiveLocals =>
                forall subject_index, snd locals = Some subject_index ->
                  0 <= subject_index < Z.of_nat n)); [|discriminate].
    intros dependency locals _ [[Hi _] _] Hl.
    eapply establishes_bind;
      [apply establishes_reads_only; unfold is_predicative_adjective;
       repeat reads_only_step|].
    intros [] _; [|now apply establishes_ret].
    apply establishes_for_live; [|exact Hl].
    intros d acc _ _ Hacc. now apply anchored_attach_adjective.
  - intros [[] [si|]] Hl; try (apply establishes_ret; exact I).
    specialize (Hl si eq_refl).
    eapply establishes_bind; [apply establishes_init|].
    intros dep (-> & Hne & _). apply establishes_update_holmes.
    intros h [_ Hs]. split; [|exact Hs]. cbn. constructor; [|constructor].
    repeat split; cbn; auto. now apply py_index_pointer.
Qed.
Lemma anchored_add_dependencies_pointing_to_preposition token parent label :
  establishes n
    (add_dependencies_pointing_to_preposition_and_siblings token parent label)
    (fun _ => True).
Proof.
  unfold add_dependencies_pointing_to_preposition_and_siblings.
  repeat anchored_step. apply establishes_append_init; [reflexivity|].
  rewrite py_index_of_nat; eauto.
Qed.

Lemma anchored_preposition token :
  establishes n
    (_create_additional_preposition_phrase_semantic_dependencies self token)
    (fun _ => True).
Proof.
  unfold _create_additional_preposition_phrase_semantic_dependencies.
  repeat anchored_step.
  eapply establishes_bind;
    [apply establishes_reads_only; unfold directly_preceded_by_noun;
     repeat reads_only_step | intros preceded _].
  repeat anchored_step.
  eapply establishes_bind;
    [apply establishes_reads_only; unfold governs; repeat reads_only_step
    | intros governing_verbs _].
  destruct governing_verbs as [|first_governing_verb rest];
    [apply establishes_ret; exact I|].
  apply establishes_seq.
  - repeat anchored_step. apply anchored_add_dependencies_pointing_to_preposition.
  - repeat anchored_step.
    eapply establishes_bind;
      [apply establishes_reads_only; unfold points_to_relative_clause;
       repeat reads_only_step | intros relative _].
    repeat anchored_step. apply anchored_add_dependencies_pointing_to_preposition.
Qed.

Lemma anchored_debug_structures :
  establishes n (debug_structures self) (fun _ => True).
Proof.
  apply establishes_reads_only. unfold debug_structures.
  destruct (SemanticAnalyzer.debug self); cbn; [|apply reads_only_ret].
  intros doc. generalize (seq 0 (Doc.len doc)). intros l. revert doc.
  change (reads_only
            (for_each l
               (fun token =>
                  let* _ := holmes_of token in
                  let* _ := is_involved_in_coreference self token in
                  ret tt))).
  induction l as [|x l IH]; cbn [for_each]; [apply reads_only_ret|].
  repeat reads_only_step. exact IH.
Qed.

End BasePassesAnchored.

(** ** The methods of the two languages *)

Section LanguageMethodsAnchored.

Variable n : nat.
Variable limits : Limits.

Lemma anchored_set_negation negation_child depth :
  (forall child, reads_only (negation_child child)) ->
  forall token, establishes n (_set_negation negation_child depth token) (fun _ => True).
Proof.
  intros Hr. induction depth as [|depth IH]; intros token; cbn [_set_negation].
  - apply establishes_raise.
  - repeat anchored_step.
    eapply establishes_bind;
      [apply establishes_reads_only; apply reads_only_any_m; exact Hr
      | intros found _].
    repeat anchored_step; try (apply establishes_update_holmes; now intros h).
    apply establishes_seq; [apply IH|].
    repeat anchored_step. apply establishes_update_holmes. now intros h.
Qed.

Lemma anchored_German_set_negation token :
  establishes n (German_set_negation limits token) (fun _ => True).
Proof.
  apply anchored_set_negation. intros child. unfold German_negation_child.
  repeat reads_only_step.
Qed.

Lemma anchored_English_set_negation token :
  establishes n (English_set_negation limits token) (fun _ => True).
Proof.
  apply anchored_set_negation. intros child. unfold English_negation_child.
  repeat reads_only_step.
Qed.

Lemma dict_anchored_remove p index h :
  dict_anchored n p h ->
  dict_anchored n p (HolmesDictionary.remove_dependency_with_child_index index h).
Proof.
  intros [Hc Hs]. split; [|exact Hs]. cbn.
  rewrite Forall_forall in Hc. apply Forall_forall. intros e He.
  apply Hc. apply list_elem_of_In in He. apply filter_In in He as [He _].
  now apply list_elem_of_In.
Qed.

Lemma anchored_remove_particle_dependency token tok :
  establishes n (remove_particle_dependency token tok) (fun _ => True).
Proof.
  unfold remove_particle_dependency. repeat anchored_step.
  apply establishes_update_holmes. intros h. apply dict_anchored_remove.
Qed.

Lemma anchored_span_von_preposition token :
  establishes n (span_von_preposition limits token) (fun _ => True).
Proof.
  unfold span_von_preposition. apply establishes_for_live; [|exact I].
  intros dependency [] _ _ _.
  eapply establishes_bind;
    [apply establishes_reads_only; repeat reads_only_step | intros selected _].
  repeat anchored_step. apply establishes_for_live; [|exact I].
  intros child_dependency [] _ [[Hi _] _] _. repeat anchored_step.
  eapply establishes_bind; [apply establishes_init|].
  intros dep (-> & Hne & Hlab). apply establishes_seq.
  - apply establishes_update_holmes. intros h Hh. now apply dict_anchored_append.
  - apply establishes_update_holmes. now intros h.
Qed.

Lemma Forall_list_filter {A} (P : A -> Prop) (f : A -> bool) (l : list A) :
  Forall P l -> Forall P (List.filter f l).
Proof.
  rewrite !Forall_forall. intros H x Hx. apply H.
  apply list_elem_of_In in Hx. apply filter_In in Hx as [Hx _].
  now apply list_elem_of_In.
Qed.

Lemma Forall_anchored_ok p (l : list SemDep) :
  Forall (edge_anchored n p) l -> Forall (edge_ok n) l.
Proof. intros H. eapply Forall_impl; [exact H|]. now intros e [He _]. Qed.

Lemma filter_m_keeps {A} (P : A -> Prop) (test : A -> M bool) (l : list A) :
  Forall P l ->
  forall doc r doc', filter_m l test doc = (Ok r, doc') -> Forall P r.
Proof.
  induction 1 as [|x l Hx Hl IH]; intros doc r doc' H; cbn [filter_m] in H.
  - injection H as <- _. constructor.
  - apply bind_ok in H as (b & d1 & _ & H).
    apply bind_ok in H as (rest & d2 & Hrest & H).
    injection H as <- _. specialize (IH _ _ _ Hrest).
    destruct b; [constructor|]; auto.
Qed.

Lemma establishes_filter_m {A} (P : A -> Prop) (test : A -> M bool) (l : list A) :
  (forall x, reads_only (test x)) -> Forall P l ->
  establishes n (filter_m l test) (Forall P).
Proof.
  intros Hr Hl. apply establishes_reads; [now apply reads_only_filter_m|].
  intros doc r H. eapply filter_m_keeps; eauto.
Qed.

Lemma anchored_project_subject_onto_dependent_verb token dependency defaults :
  establishes n
    (project_subject_onto_dependent_verb limits token dependency defaults)
    (fun _ => True).
Proof.
  unfold project_subject_onto_dependent_verb. anchored_step.
  eapply establishes_bind;
    [apply establishes_reads_only; apply reads_only_find_target_default
    | intros [[target_tokens target_dependency] defaults'] _].
  eapply establishes_bind with (Q := fun _ => True).
  { destruct target_tokens; [apply establishes_raise | now apply establishes_ret]. }
  intros first_target _. anchored_step.
  eapply establishes_bind;
    [apply establishes_reads_only; apply reads_only_filter_m; intros ?;
     apply reads_only_is_um_zu | intros um_zu _].
  eapply establishes_bind with (Q := Forall (edge_ok n)).
  { destruct (Nat.eqb (length um_zu) 0); [|apply establishes_ret; constructor].
    eapply establishes_bind; [apply establishes_holmes_of|].
    intros ht [[Hc _] _]. cbv zeta. destruct (Nat.eqb _ 0).
    - eapply establishes_bind; [apply establishes_holmes_of|].
      intros ht' [[Hc' _] _]. apply establishes_filter_m.
      + intros x. apply reads_only_is_forcing_object.
      + eapply Forall_anchored_ok; eauto.
    - apply establishes_ret. apply Forall_list_filter.
      eapply Forall_anchored_ok; eauto. }
  intros dependencies_to_add Hadd.
  eapply establishes_bind with (Q := Forall (edge_ok n)).
  { destruct (Nat.eqb _ 0); [|now apply establishes_ret].
    eapply establishes_bind; [apply establishes_holmes_of|].
    intros ht [[Hc _] _]. apply establishes_ret. apply Forall_list_filter.
    eapply Forall_anchored_ok; eauto. }
  intros dependencies_to_add' Hadd'. apply establishes_seq; [|now apply establishes_ret].
  repeat anchored_step. apply establishes_append_init; [reflexivity|].
  match goal with Hx : ?x ∈ List.filter _ dependencies_to_add' |- _ =>
    apply list_elem_of_In in Hx; apply filter_In in Hx as [Hx _];
    apply list_elem_of_In in Hx;
    rewrite Forall_forall in Hadd'; now apply (Hadd' x) end.
Qed.

Lemma anchored_project_subjects token tok defaults :
  establishes n (project_subjects limits token tok defaults) (fun _ => True).
Proof.
  unfold project_subjects. apply establishes_for_live; [|exact I].
  intros dependency defaults' _ _ _.
  eapply establishes_bind;
    [apply establishes_reads_only; repeat reads_only_step | intros selected _].
  destruct selected; [|now apply establishes_ret].
  apply anchored_project_subject_onto_dependent_verb.
Qed.

Lemma anchored_project_onto_adjective_complements token tok defaults :
  establishes n (project_onto_adjective_complements limits token tok defaults)
    (fun _ => True).
Proof.
  unfold project_onto_adjective_complements. apply establishes_for_live; [|exact I].
  intros dependency defaults' Hp (_ & Hparent & _) _.
  eapply establishes_bind;
    [apply establishes_reads_only; repeat reads_only_step | intros selected _].
  destruct selected; [|now apply establishes_ret].
  anchored_step. apply establishes_for_live; [|exact I].
  intros child_dependency defaults'' _ _ _.
  eapply establishes_bind;
    [apply establishes_reads_only; repeat reads_only_step | intros selected _].
  destruct selected; [|now apply establishes_ret].
  anchored_step.
  eapply establishes_bind;
    [apply establishes_reads_only; apply reads_only_find_target_default
    | intros [[target_tokens target_dependency] defaults3] _].
  apply establishes_seq; [|now apply establishes_ret].
  repeat anchored_step. apply establishes_append_init; [reflexivity|].
  rewrite Hparent. apply py_index_in_range. lia.
Qed.

Lemma anchored_German_tasks token defaults :
  establishes n (German_perform_language_specific_tasks limits token defaults)
    (fun _ => True).
Proof.
  unfold German_perform_language_specific_tasks. anchored_step.
  apply establishes_seq; [apply anchored_remove_particle_dependency|].
  apply establishes_seq; [apply anchored_span_von_preposition|]. cbv zeta.
  eapply establishes_bind; [apply anchored_project_subjects|].
  intros defaults' _. apply anchored_project_onto_adjective_complements.
Qed.

End LanguageMethodsAnchored.

Section EnglishTasksAnchored.

Variable n : nat.
Variable self : Analyzer.
Variable limits : Limits.

Lemma edge_anchored_set_is_uncertain p is_uncertain e :
  edge_anchored n p e -> edge_anchored n p (set_is_uncertain is_uncertain e).
Proof. now intros ([Hi Hl] & Hp & Hc). Qed.

Lemma anchored_mark_modal_verb_dependencies token tok :
  establishes n (mark_modal_verb_dependencies limits token tok) (fun _ => True).
Proof.
  unfold mark_modal_verb_dependencies, child_token. anchored_step.
  apply establishes_for_live; [|exact I].
  intros dependency [] _ _ _. repeat anchored_step.
  apply establishes_update_holmes. intros h [Hc Hs]. split; [|exact Hs]. cbn.
  unfold mark_uncertain_unless_aux. apply Forall_forall. intros e He.
  apply list_elem_of_In, in_map_iff in He as (e0 & <- & He0).
  rewrite Forall_forall in Hc. apply list_elem_of_In in He0.
  destruct (negb (has_label "aux" e0));
    [apply (edge_anchored_set_is_uncertain _ true)|]; auto.
Qed.

Lemma anchored_add_deverbal_dependencies token :
  establishes n (add_deverbal_dependencies limits token) (fun _ => True).
Proof.
  unfold add_deverbal_dependencies, child_token.
  apply establishes_for_live; [|exact I].
  intros dependency [] _ _ _. repeat anchored_step.
  apply establishes_seq; [apply establishes_update_holmes; now intros h|].
  apply establishes_for_live; [|exact I].
  intros child_dependency [] _ [[Hi _] _] _. repeat anchored_step.
  now apply establishes_append_init.
Qed.

Lemma anchored_handle_past_passive_participle token tok :
  establishes n (handle_past_passive_participle self limits token tok)
    (fun _ => True).
Proof.
  unfold handle_past_passive_participle. anchored_step.
  eapply establishes_bind;
    [apply establishes_reads_only; apply reads_only_lefthand_sibling
    | intros lefthand_sibling _].
  repeat anchored_step. apply establishes_append_init; [reflexivity|].
  rewrite py_index_of_nat; eauto.
Qed.

(** Giving a label to an edge that has one keeps the edge anchored. *)
Lemma dict_anchored_relabel p h k e label :
  dict_anchored n p h ->
  HolmesDictionary.children h !! k = Some e ->
  SemanticDependency.label e <> None ->
  dict_anchored n p
    (HolmesDictionary.set_children
       (alter (set_label label) k (HolmesDictionary.children h)) h).
Proof.
  intros [Hc Hs] Hk Hlab. split; [|exact Hs]. cbn.
  apply Forall_lookup. intros i e' Hi. rewrite Forall_lookup in Hc.
  destruct (decide (i = k)) as [->|Hne].
  - rewrite list_lookup_alter_eq, Hk in Hi. injection Hi as <-.
    destruct (Hc k e Hk) as ([Hin Hl] & Hp & Hch).
    repeat split; cbn; auto. intros Hneg. now specialize (Hl Hneg).
  - rewrite list_lookup_alter_ne in Hi by auto. eauto.
Qed.

Lemma anchored_handle_participle_compound token tok :
  establishes n (handle_participle_compound token tok) (fun _ => True).
Proof.
  unfold handle_participle_compound. anchored_step.
  intros doc Hd. destruct (dict_at doc token) as [h|] eqn:Hh.
  - rewrite (bind_holmes_of _ _ _ _ Hh).
    destruct (find_first _ 0 _) as [[k e]|] eqn:Hk;
      [|now apply (establishes_ret n tt (fun _ => True))].
    apply find_first_spec in Hk as (_ & Hk & Hlab). rewrite Nat.sub_0_r in Hk.
    cbv zeta.
    match goal with
    | |- context [match ?labels with Some _ => _ | None => _ end] =>
        destruct labels as [[own_label noun_dependency]|]
    end; [|now apply (establishes_ret n tt (fun _ => True))].
    rewrite (bind_update_holmes _ _ _ _ _ Hh).
    assert (Hd' : anchored n
              (put_dict token
                 (HolmesDictionary.set_children
                    (alter (set_label (Some own_label)) k
                       (HolmesDictionary.children h)) h) doc)).
    { eapply anchored_put_dict; eauto. eapply dict_anchored_relabel; eauto.
      - eapply anchored_dict_at; eauto.
      - unfold has_label in Hlab. apply bool_decide_eq_true in Hlab.
        rewrite Hlab. discriminate. }
    revert Hd'. generalize (put_dict token
                 (HolmesDictionary.set_children
                    (alter (set_label (Some own_label)) k
                       (HolmesDictionary.children h)) h) doc).
    change (establishes n
              (let* hh := holmes_of (Token.head tok) in
               for_each (loop_token_and_righthand_siblings hh)
                 (fun i =>
                    let* noun := doc_getitem i in
                    when (negb (Nat.eqb token noun))
                      (let* _ := holmes_of token in
                       let* dep :=
                         lift (SemanticDependency.init (Z.of_nat token) (Z.of_nat noun)
                                 (Some noun_dependency)
                                 (negb (Nat.eqb noun (Token.head tok)))) in
                       append_child token dep)))
              (fun _ => True)).
    repeat anchored_step. apply establishes_append_init; [reflexivity|].
    rewrite py_index_of_nat; eauto.
  - destruct (holmes_of_no_dict _ _ Hh) as [e He].
    erewrite bind_raise_intro by exact He. cbn. split; [exact Hd | discriminate].
Qed.

Lemma anchored_project_subject_phrase rounds token new_dependency_label :
  forall working_token,
    establishes n
      (project_subject_phrase self rounds token new_dependency_label working_token)
      (fun _ => True).
Proof.
  induction rounds as [|rounds IH]; intros working_token;
    cbn [project_subject_phrase]; [apply establishes_raise|].
  anchored_step.
  eapply establishes_bind;
    [apply establishes_reads_only; repeat reads_only_step | intros is_nominal _].
  destruct is_nominal.
  - repeat anchored_step. apply establishes_append_init; [reflexivity|].
    rewrite py_index_of_nat; eauto.
  - destruct (negb _); [apply IH | now apply establishes_ret].
Qed.

Lemma anchored_handle_prepositional_complement token tok :
  establishes n (handle_prepositional_complement self limits token tok)
    (fun _ => True).
Proof.
  unfold handle_prepositional_complement. repeat anchored_step. cbv zeta.
  repeat anchored_step.
  eapply establishes_bind;
    [apply establishes_reads_only; apply reads_only_find_subject_phrase
    | intros [working_token|] _];
    [apply anchored_project_subject_phrase | now apply establishes_ret].
Qed.

Lemma anchored_English_tasks token :
  establishes n (English_perform_language_specific_tasks self limits token)
    (fun _ => True).
Proof.
  unfold English_perform_language_specific_tasks. anchored_step.
  apply establishes_seq.
  { unfold remove_phrasal_particle_dependency. anchored_step.
    apply establishes_update_holmes. intros h. apply dict_anchored_remove. }
  apply establishes_seq; [apply anchored_mark_modal_verb_dependencies|].
  apply establishes_seq.
  { unfold set_auxiliaries_not_matchable. anchored_step.
    apply establishes_update_holmes. now intros h. }
  apply establishes_seq; [apply anchored_add_deverbal_dependencies|].
  apply establishes_seq; [apply anchored_handle_past_passive_participle|].
  apply establishes_seq; [apply anchored_handle_participle_compound|].
  apply anchored_handle_prepositional_complement.
Qed.

End EnglishTasksAnchored.

(** ** [holmes_parse] leaves an anchored document *)

Lemma establishes_fold_tokens n (task : nat -> DefaultArguments -> M DefaultArguments)
    defaults :
  (forall token defaults, establishes n (task token defaults) (fun _ => True)) ->
  establishes n (fun doc => fold_m (seq 0 (Doc.len doc)) task defaults doc)
    (fun _ => True).
Proof.
  intros Ht doc Hd.
  apply (establishes_fold_m n (seq 0 (Doc.len doc)) task (fun _ => True)); auto.
Qed.

Lemma fresh_dictionaries_anchored doc d1 :
  same_parse doc d1 ->
  (forall p tok, Doc.tokens doc !! p = Some tok ->
     exists lemma,
       Doc.tokens d1 !! p
       = Some (Token.set_holmes
                 (ExtDict (HolmesDictionary.init (Z.of_nat p) lemma)) tok)) ->
  anchored (Doc.len doc) d1.
Proof.
  intros Hsame Htokens. split; [now apply same_parse_len|].
  intros p tok1 Hp1.
  assert (Hp : (p < Doc.len doc)%nat).
  { rewrite <- (same_parse_len _ _ Hsame). eapply lookup_lt_Some; eauto. }
  destruct (token_at_lt doc p Hp) as (tok & Htok).
  destruct (Htokens p tok Htok) as (lemma & Hp1').
  assert (tok1 = Token.set_holmes
                   (ExtDict (HolmesDictionary.init (Z.of_nat p) lemma)) tok)
    by congruence.
  subst tok1. eexists. split; [now destruct tok|].
  split; constructor.
Qed.

(** X29: what [holmes_parse] leaves behind is well formed.  [_holmes_lemma]
    is assumed to read nothing but what spaCy says, and the other methods of
    the language are assumed to leave an anchored document anchored.  Then,
    when [holmes_parse] returns, every token has a dictionary; every
    dependency in it has the position of that token as its parent index and
    another index as its child index, the child index is one that [doc[...]]
    accepts, and a negative child index comes without a label; and every
    righthand sibling is the position of a token of the document. *)
Theorem holmes_parse_leaves_an_anchored_document :
  forall (self : Analyzer) (limits : Limits)
         (_holmes_lemma : nat -> M string)
         (_set_negation _correct_auxiliaries_and_passives
            _handle_relative_constructions : nat -> M unit)
         (_perform_language_specific_tasks :
            nat -> DefaultArguments -> M DefaultArguments),
    (forall token, reads_spacy_attributes_only (_holmes_lemma token)) ->
    (forall n token, establishes n (_set_negation token) (fun _ => True)) ->
    (forall n token,
        establishes n (_correct_auxiliaries_and_passives token) (fun _ => True)) ->
    (forall n token,
        establishes n (_handle_relative_constructions token) (fun _ => True)) ->
    (forall n token defaults,
        establishes n (_perform_language_specific_tasks token defaults)
          (fun _ => True)) ->
    forall (defaults defaults' : DefaultArguments) (doc doc' : Doc.t),
      holmes_parse self limits _holmes_lemma _set_negation
        _correct_auxiliaries_and_passives _handle_relative_constructions
        _perform_language_specific_tasks defaults doc
      = (Ok defaults', doc') ->
      Doc.len doc' = Doc.len doc
      /\ forall p, (p < Doc.len doc)%nat ->
           exists h,
             dict_at doc' p = Some h
             /\ (forall dependency, In dependency (HolmesDictionary.children h) ->
                   SemanticDependency.parent_index dependency = Z.of_nat p
                   /\ SemanticDependency.child_index dependency <> Z.of_nat p
                   /\ is_Some (py_index (Doc.len doc)
                                 (SemanticDependency.child_index dependency))
                   /\ (SemanticDependency.child_index dependency < 0 ->
                       SemanticDependency.label dependency = None))
             /\ (forall righthand_sibling,
                   In righthand_sibling (HolmesDictionary.righthand_siblings h) ->
                   0 <= righthand_sibling < Z.of_nat (Doc.len doc)).
Proof.
  intros self limits hl sn ca hr task Hhl Hsn Hca Hhr Htask
         defaults defaults' doc doc' H.
  unfold holmes_parse in H.
  apply bind_ok in H as ([] & d1 & Hpass1 & H).
  unfold for_each_token in Hpass1.
  destruct (create_dictionaries_loop hl Hhl _ _ _ _ Hpass1) as (Hsame1 & Htokens1).
  assert (H1 : anchored (Doc.len doc) d1).
  { apply fresh_dictionaries_anchored; [exact Hsame1|].
    intros p tok Htok. specialize (Htokens1 p tok Htok).
    rewrite bool_decide_eq_true_2 in Htokens1.
    - destruct Htokens1 as (lemma & _ & Hp1). eauto.
    - apply lookup_lt_Some in Htok. unfold Doc.len. lia. }
  assert (H' : anchored (Doc.len doc) doc').
  { match type of H with
    | ?rest d1 = _ =>
        assert (Hk : establishes (Doc.len doc) rest (fun _ => True))
    end.
    { repeat (apply establishes_seq;
                [ apply establishes_for_each_token;
                  first [ apply Hsn | apply Hca | apply Hhr
                        | intros token;
                          first [ apply anchored_set_matchability
                                | apply anchored_initialize
                                | apply anchored_mark
                                | apply anchored_copy_any_sibling_info
                                | apply anchored_normalize
                                | apply anchored_preposition ] ]
                | ]).
      eapply establishes_bind; [apply establishes_fold_tokens; apply Htask|].
      intros defaults0 _. apply establishes_seq; [apply anchored_debug_structures|].
      now apply establishes_ret. }
    destruct (Hk d1 H1) as [Hd' _]. now rewrite H in Hd'. }
  destruct H' as [Hlen Hall]. split; [exact Hlen|].
  intros p Hp. rewrite <- Hlen in Hp.
  destruct (token_at_lt doc' p Hp) as (tok & Htok).
  destruct (Hall p tok Htok) as (h & Hh & Hc & Hs).
  exists h. split; [eapply token_dict_at; eauto|]. split.
  - intros e He. rewrite Forall_forall in Hc.
    destruct (Hc e) as ([Hi Hl] & Hparent & Hchild); [now apply list_elem_of_In|].
    auto.
  - intros rs Hrs. rewrite Forall_forall in Hs. apply Hs. now apply list_elem_of_In.
Qed.

Lemma holmes_parse_leaves_an_anchored_document_witness :
  let enriched :=
    snd (holmes_parse german (Build_Limits 1000 1000 1000)
           (German_holmes_lemma (fun s => s))
           (German_set_negation (Build_Limits 1000 1000 1000)) no_rewrite no_rewrite
           (German_perform_language_specific_tasks (Build_Limits 1000 1000 1000))
           {| visited_default := [] |} doc_er_steht_auf) in
  Doc.len enriched = Doc.len doc_er_steht_auf
  /\ forall p, (p < Doc.len doc_er_steht_auf)%nat ->
       exists h,
         dict_at enriched p = Some h
         /\ (forall dependency, In dependency (HolmesDictionary.children h) ->
               SemanticDependency.parent_index dependency = Z.of_nat p
               /\ SemanticDependency.child_index dependency <> Z.of_nat p
               /\ is_Some (py_index (Doc.len doc_er_steht_auf)
                             (SemanticDependency.child_index dependency))
               /\ (SemanticDependency.child_index dependency < 0 ->
                   SemanticDependency.label dependency = None))
         /\ (forall righthand_sibling,
               In righthand_sibling (HolmesDictionary.righthand_siblings h) ->
               0 <= righthand_sibling < Z.of_nat (Doc.len doc_er_steht_auf)).
Proof.
  apply (holmes_parse_leaves_an_anchored_document german
           (Build_Limits 1000 1000 1000) (German_holmes_lemma (fun s => s))
           (German_set_negation (Build_Limits 1000 1000 1000)) no_rewrite no_rewrite
           (German_perform_language_specific_tasks (Build_Limits 1000 1000 1000)))
    with (defaults := {| visited_default := [] |})
         (defaults' := {| visited_default := [] |}).
  - intros token. apply German_holmes_lemma_reads_the_parse.
  - intros n token. apply anchored_German_set_negation.
  - intros n token. apply establishes_ret. exact I.
  - intros n token. apply establishes_ret. exact I.
  - intros n token defaults. apply anchored_German_tasks.
  - vm_compute. reflexivity.
Defined.

(** ** The language-specific tasks keep a document anchored *)

(** X30: the language-specific tasks of the two analyzers keep a document
    well formed, whether they return or raise.  If every token has a
    dictionary, every dependency has the position of the token that holds it
    as its parent index and another index as its child index, an index that
    [doc[...]] accepts, without a label when it is negative, and every
    righthand sibling is the position of a token, then the same holds after
    [_perform_language_specific_tasks] of the English analyzer and after that
    of the German analyzer. *)
Theorem language_specific_tasks_keep_documents_anchored :
  forall (n : nat) (self : Analyzer) (limits : Limits) (token : nat)
         (defaults : DefaultArguments) (doc : Doc.t),
    anchored n doc ->
    anchored n (snd (English_perform_language_specific_tasks self limits token doc))
    /\ anchored n
         (snd (German_perform_language_specific_tasks limits token defaults doc)).
Proof.
  intros n self limits token defaults doc Hd. split.
  - apply (anchored_English_tasks n self limits token doc Hd).
  - apply (anchored_German_tasks n limits token defaults doc Hd).
Qed.

Lemma language_specific_tasks_keep_documents_anchored_witness :
  anchored 4
    (snd (English_perform_language_specific_tasks english
            (Build_Limits 1000 1000 1000) 3 doc_peter_thinks_about_singing))
  /\ anchored 4
       (snd (German_perform_language_specific_tasks (Build_Limits 1000 1000 1000) 3
               {| visited_default := [] |} doc_peter_thinks_about_singing)).
Proof.
  apply (language_specific_tasks_keep_documents_anchored 4 english
           (Build_Limits 1000 1000 1000) 3 {| visited_default := [] |}
           doc_peter_thinks_about_singing).
  split; [reflexivity|]. intros p tok H.
  repeat (destruct p as [|p];
          [ cbn in H; injection H as <-; eexists; split; [reflexivity|];
            split; [|constructor];
            repeat (constructor;
                    [ split; [split; [cbn; eauto | cbn; intros; lia]
                             | split; [reflexivity | cbn; lia] ] | ]);
            constructor
          | ]).
  cbn in H. discriminate.
Defined.

(** * The pass over the predicative adjectives *)

Section Maintains.

Variable Inv : Doc.t -> Prop.

Lemma maintains_ret {A} (a : A) (Q : A -> Prop) : Q a -> maintains Inv (ret a) Q.
Proof. intros HQ doc Hd. cbn. split; [exact Hd|]. now intros a' [= <-]. Qed.

Lemma maintains_raise {A} (e : Error) (Q : A -> Prop) : maintains Inv (raise e) Q.
Proof. intros doc Hd. cbn. split; [exact Hd|]. discriminate. Qed.

Lemma maintains_bind {A B} (m : M A) (k : A -> M B) (Q : A -> Prop)
    (Q' : B -> Prop) :
  maintains Inv m Q -> (forall a, Q a -> maintains Inv (k a) Q') ->
  maintains Inv (bind m k) Q'.
Proof.
  intros Hm Hk doc Hd. unfold bind. destruct (Hm doc Hd) as [Hd1 HQ].
  destruct (m doc) as [[a|e] d1]; cbn in *.
  - apply (Hk a (HQ a eq_refl) d1 Hd1).
  - split; [exact Hd1 | discriminate].
Qed.

(** A step that only reads; what it returns is known from the document it
    read. *)
Lemma maintains_reads {A} (m : M A) (Q : A -> Prop) :
  reads_only m -> (forall doc a, Inv doc -> m doc = (Ok a, doc) -> Q a) ->
  maintains Inv m Q.
Proof.
  intros Hr HQ doc Hd. specialize (Hr doc).
  destruct (m doc) as [r d1] eqn:E. cbn in *. subst d1.
  split; [exact Hd|]. intros a ->. eapply HQ; eauto.
Qed.

Lemma maintains_when (b : bool) (m : M unit) :
  (b = true -> maintains Inv m (fun _ => True)) ->
  maintains Inv (when b m) (fun _ => True).
Proof. intros Hm. destruct b; cbn; [auto | now apply maintains_ret]. Qed.

Lemma maintains_for_each {A} (l : list A) (body : A -> M unit) :
  (forall x, In x l -> maintains Inv (body x) (fun _ => True)) ->
  maintains Inv (for_each l body) (fun _ => True).
Proof.
  induction l as [|x l IH]; intros Hb; cbn [for_each].
  - now apply maintains_ret.
  - eapply maintains_bind; [apply Hb; now left|].
    intros _ _. apply IH. intros y Hy. apply Hb. now right.
Qed.

(** A walk over the children of the token at [p], which the body may
    extend: [E] holds of every child that the walk can come to. *)
Lemma maintains_for_live {Locals} (P : Locals -> Prop) (E : SemDep -> Prop) p
    (body : SemDep -> Locals -> M Locals) :
  (forall doc h d, Inv doc -> dict_at doc p = Some h ->
                   In d (HolmesDictionary.children h) -> E d) ->
  (forall dependency acc, E dependency -> P acc ->
                          maintains Inv (body dependency acc) P) ->
  forall fuel k acc, P acc -> maintains Inv (for_live fuel p k body acc) P.
Proof.
  intros HE Hb. induction fuel as [|fuel IH]; intros k acc Hacc; cbn [for_live].
  - apply maintains_raise.
  - eapply (maintains_bind _ _
              (fun h => forall d, In d (HolmesDictionary.children h) -> E d)).
    + apply maintains_reads; [apply reads_only_holmes_of|].
      intros doc h Hd Hh d Hin. apply holmes_of_ok in Hh as [_ Hh]. eauto.
    + intros h Hh. destruct (HolmesDictionary.children h !! k) as [d|] eqn:Ek.
      * eapply maintains_bind.
        -- apply Hb; [|exact Hacc]. apply Hh. apply list_elem_of_In.
           eapply list_elem_of_lookup_2; eauto.
        -- intros acc' Hacc'. now apply IH.
      * now apply maintains_ret.
Qed.

End Maintains.

Lemma for_each_app {A} (l l' : list A) (body : A -> M unit) doc :
  for_each (l ++ l') body doc = (for_each l body ;;; for_each l' body) doc.
Proof.
  revert doc. induction l as [|x l IH]; intros doc; cbn [for_each app].
  - reflexivity.
  - unfold bind in *. destruct (body x doc) as [[[]|e] d1]; [|reflexivity].
    apply IH.
Qed.

(** A loop whose body does nothing on the document at hand. *)
Lemma for_each_idle {A} (l : list A) (body : A -> M unit) doc :
  (forall x, In x l -> body x doc = (Ok tt, doc)) ->
  for_each l body doc = (Ok tt, doc).
Proof.
  induction l as [|x l IH]; intros H; cbn [for_each]; [reflexivity|].
  rewrite (bind_ok_intro _ _ _ _ _ (H x ltac:(now left))).
  apply IH. intros y Hy. apply H. now right.
Qed.

Lemma same_parse_put_dict p h doc doc' :
  same_parse doc doc' -> same_parse doc (put_dict p h doc').
Proof.
  intros H. etransitivity; [exact H|]. apply same_parse_set_extension.
Qed.

Lemma same_parse_pos doc doc' p tok tok' :
  same_parse doc doc' ->
  Doc.tokens doc !! p = Some tok -> Doc.tokens doc' !! p = Some tok' ->
  Token.pos_ tok' = Token.pos_ tok.
Proof.
  intros H Htok Htok'.
  destruct (same_parse_lookup _ _ _ _ H Htok) as (tok1 & E & Hs).
  rewrite Htok' in E. injection E as <-.
  now destruct (same_token_fields _ _ Hs) as (_ & -> & _).
Qed.

Section PredicativePass.

Variable self : Analyzer.
Variable limits : Limits.

Lemma is_predicate_subject_label predicative_adjective_index dependency doc doc' :
  is_predicate_subject self predicative_adjective_index dependency doc
  = (Ok true, doc') ->
  SemanticDependency.label dependency
  = Some (SemanticAnalyzer._adjectival_predicate_subject_dep self)
  /\ 0 <= SemanticDependency.child_index dependency.
Proof.
  unfold is_predicate_subject. case_bool_decide as El; [|discriminate].
  intros H. split; [exact El|].
  apply bind_ok in H as (c & d1 & _ & H).
  apply bind_ok in H as (tc & d2 & _ & H).
  apply bind_ok in H as (b & d3 & _ & H).
  injection H as H _. apply andb_prop in H as [H _]. apply andb_prop in H as [_ H].
  now apply Z.leb_le.
Qed.

(** A token with the head part of speech that has no edge with the predicate
    label is left as it is. *)
Lemma normalize_idle doc q tokq :
  Doc.tokens doc !! q = Some tokq ->
  (Token.pos_ tokq = SemanticAnalyzer._adjectival_predicate_head_pos self ->
   exists hq,
     Token.holmes tokq = ExtDict hq
     /\ (forall d, In d (HolmesDictionary.children hq) ->
                   SemanticDependency.label d
                   <> Some (SemanticAnalyzer._adjectival_predicate_predicate_dep self))
     /\ (length (HolmesDictionary.children hq) < memory limits)%nat) ->
  _normalize_predicative_adjectives self limits q doc = (Ok tt, doc).
Proof.
  intros Htok Hhead. unfold _normalize_predicative_adjectives.
  rewrite (bind_ok_intro _ _ _ _ _ (token_at_ok _ _ _ Htok)).
  destruct (String.eqb_spec (Token.pos_ tokq)
              (SemanticAnalyzer._adjectival_predicate_head_pos self)) as [Epos|];
    [|reflexivity].
  destruct (Hhead Epos) as (hq & Ehq & Hnone & Hmem). cbn [when].
  assert (Hd : dict_at doc q = Some hq) by (unfold dict_at; now rewrite Htok, Ehq).
  set (L := length (HolmesDictionary.children hq)) in *.
  match goal with |- bind (for_live _ _ _ ?b _) _ _ = _ => set (body := b) end.
  assert (Hloop : for_live (memory limits) q 0 body (false, None) doc
                  = (Ok (false, None), doc)).
  { replace (memory limits) with (L + S (memory limits - S L))%nat by lia.
    rewrite (for_live_skip q body doc hq (false, None) Hd L 0); [| lia |].
    - eapply for_live_end; [exact Hd|]. apply lookup_ge_None. cbn. fold L. lia.
    - intros k d _ Hk. unfold body, is_predicative_adjective.
      case_bool_decide as El; [|reflexivity].
      exfalso. eapply Hnone; [|exact El]. apply list_elem_of_In.
      eapply list_elem_of_lookup_2; eauto. }
  rewrite (bind_ok_intro _ _ _ _ _ Hloop). reflexivity.
Qed.

Section OtherTokens.

Variable doc : Doc.t.
Variables t s : nat.
Variable toks : Token.t.
Variable before : list SemDep.
Variable copula : HDict.
Variable attached : list SemDep.

Hypothesis modifier_is_no_subject :
  SemanticAnalyzer._modifier_dep self
  <> SemanticAnalyzer._adjectival_predicate_subject_dep self.
Hypothesis subject_token : Doc.tokens doc !! s = Some toks.
Hypothesis subject_is_no_head :
  Token.pos_ toks <> SemanticAnalyzer._adjectival_predicate_head_pos self.

Let Inv := copula_invariant self doc t s before copula attached.

Lemma maintains_append_child subject dep :
  subject <> t ->
  SemanticDependency.label dep = Some (SemanticAnalyzer._modifier_dep self) ->
  maintains Inv (append_child subject dep) (fun _ => True).
Proof.
  intros Hne Hlab current HI. split; [|auto].
  destruct (append_child subject dep current) as [r d1] eqn:E. cbn.
  apply update_holmes_inv in E as [(h & Hh & _ & ->)|(_ & -> & _)]; [|exact HI].
  destruct HI as (Hparse & Ht & (hs & new & Hs & Hchildren & Hincl) & Hnone).
  split; [now apply same_parse_put_dict|].
  split; [now rewrite dict_at_put_dict_ne|].
  split.
  - destruct (decide (subject = s)) as [->|Hs'].
    + exists (HolmesDictionary.append_child dep hs), (new ++ [dep])%list.
      assert (h = hs) as -> by congruence.
      split; [eapply dict_at_put_dict_eq; eauto|].
      split; [cbn; rewrite Hchildren; now rewrite <- app_assoc|].
      intros x Hx. apply in_or_app. left. now apply Hincl.
    + exists hs, new. rewrite dict_at_put_dict_ne by exact Hs'. auto.
  - intros q hq e Hq Hin Hl.
    destruct (decide (subject = q)) as [<-|Hq'].
    + rewrite (dict_at_put_dict_eq _ _ _ _ Hh) in Hq. injection Hq as <-.
      cbn in Hin. apply in_app_or in Hin as [Hin|[<-|[]]].
      * eapply Hnone; eauto.
      * congruence.
    + rewrite dict_at_put_dict_ne in Hq by exact Hq'. eapply Hnone; eauto.
Qed.

Lemma maintains_set_pointer q dep :
  q <> t -> q <> s -> SemanticDependency.label dep = None ->
  maintains Inv (update_holmes q (HolmesDictionary.set_children [dep]))
    (fun _ => True).
Proof.
  intros Hqt Hqs Hlab current HI. split; [|auto].
  destruct (update_holmes q _ current) as [r d1] eqn:E. cbn.
  apply update_holmes_inv in E as [(h & Hh & _ & ->)|(_ & -> & _)]; [|exact HI].
  destruct HI as (Hparse & Ht & (hs & new & Hs & Hchildren & Hincl) & Hnone).
  split; [now apply same_parse_put_dict|].
  split; [now rewrite dict_at_put_dict_ne|].
  split.
  - exists hs, new. rewrite dict_at_put_dict_ne by exact Hqs. auto.
  - intros q' hq e Hq Hin Hl.
    destruct (decide (q = q')) as [<-|Hq'].
    + rewrite (dict_at_put_dict_eq _ _ _ _ Hh) in Hq. injection Hq as <-.
      cbn in Hin. destruct Hin as [<-|[]]. congruence.
    + rewrite dict_at_put_dict_ne in Hq by exact Hq'. eapply Hnone; eauto.
Qed.

Lemma maintains_attach_adjective predicative_adjective_index dependency locals :
  (SemanticDependency.label dependency
   = Some (SemanticAnalyzer._adjectival_predicate_subject_dep self) ->
   SemanticDependency.child_index dependency <> Z.of_nat t) ->
  maintains Inv
    (attach_adjective self predicative_adjective_index dependency locals)
    (fun _ => True).
Proof.
  intros Hd. unfold attach_adjective.
  eapply (maintains_bind _ _ _
            (fun b => b = true ->
                      SemanticDependency.child_index dependency <> Z.of_nat t
                      /\ 0 <= SemanticDependency.child_index dependency)).
  - apply maintains_reads; [apply reads_only_is_predicate_subject|].
    intros current b _ H ->. apply is_predicate_subject_label in H as [Hl H0]. auto.
  - intros [] Hb; [|now apply maintains_ret]. destruct (Hb eq_refl) as [Hne H0].
    cbv zeta.
    eapply (maintains_bind _ _ _ (fun subject => subject <> t)).
    + apply maintains_reads; [apply reads_only_doc_getitem|].
      intros current subject _ H. apply doc_getitem_ok in H as [_ H].
      apply (py_index_nonneg _ _ _ H0) in H. intros ->. contradiction.
    + intros subject Hsubject.
      eapply maintains_bind;
        [apply (maintains_reads _ _ (fun _ => True));
         [apply reads_only_holmes_of | auto]|].
      intros _ _.
      eapply (maintains_bind _ _ _
                (fun dep => SemanticDependency.label dep
                            = Some (SemanticAnalyzer._modifier_dep self))).
      * apply maintains_reads; [now intros current|].
        intros current dep _ H. unfold lift in H. injection H as H.
        unfold SemanticDependency.init in H.
        repeat match type of H with
               | context [if ?b then _ else _] => destruct b; cbn in H
               end; try discriminate; now injection H as <-.
      * intros dep Hlab. eapply maintains_bind.
        -- now apply maintains_append_child.
        -- intros _ _. now apply maintains_ret.
Qed.

(** The call for a token other than the copula keeps the invariant. *)
Lemma maintains_normalize q :
  q <> t ->
  maintains Inv (_normalize_predicative_adjectives self limits q) (fun _ => True).
Proof.
  intros Hqt. unfold _normalize_predicative_adjectives.
  eapply (maintains_bind _ _ _
            (fun tokq => Token.pos_ tokq
                         = SemanticAnalyzer._adjectival_predicate_head_pos self ->
                         q <> s)).
  - apply maintains_reads; [apply reads_only_token_at|].
    intros current tokq (Hparse & _) H Hpos ->.
    apply token_at_inv in H as [_ H].
    rewrite <- (same_parse_pos _ _ _ _ _ Hparse subject_token H) in subject_is_no_head.
    contradiction.
  - intros tokq Hq. apply maintains_when. intros Hpos.
    apply String.eqb_eq in Hpos. specialize (Hq Hpos).
    eapply (maintains_bind _ _ _ (fun _ => True)).
    + apply (maintains_for_live _ (fun _ => True) (fun _ => True)); auto.
      intros dependency locals _ _.
      eapply maintains_bind;
        [apply (maintains_reads _ _ (fun _ => True));
         [unfold is_predicative_adjective; repeat reads_only_step | auto]|].
      intros [] _; [|now apply maintains_ret].
      apply (maintains_for_live _ (fun _ => True)
               (fun d => SemanticDependency.label d
                         = Some (SemanticAnalyzer._adjectival_predicate_subject_dep self) ->
                         SemanticDependency.child_index d <> Z.of_nat t)); auto.
      * intros current h d (_ & _ & _ & Hnone) Hh Hin Hl. eapply Hnone; eauto.
      * intros d acc Hd _. now apply maintains_attach_adjective.
    + intros [[] [subject_index|]] _; try now apply maintains_ret.
      eapply (maintains_bind _ _ _
                (fun dep => SemanticDependency.label dep = None)).
      * apply maintains_reads; [now intros current|].
        intros current dep _ H. unfold lift in H. injection H as H.
        unfold SemanticDependency.init in H.
        repeat match type of H with
               | context [if ?b then _ else _] => destruct b; cbn in H
               end; try discriminate; now injection H as <-.
      * intros dep Hlab. now apply maintains_set_pointer.
Qed.

Lemma maintains_other_tokens l :
  ~ In t l ->
  maintains Inv (for_each l (_normalize_predicative_adjectives self limits))
    (fun _ => True).
Proof.
  intros Hl. apply maintains_for_each. intros q Hq. apply maintains_normalize.
  intros ->. contradiction.
Qed.

End OtherTokens.

End PredicativePass.

(** In both languages the modifier label is not the subject label, and the
    head part of speech is no subject part of speech. *)
Example copula_labels_of_both_languages :
  SemanticAnalyzer._modifier_dep english
  <> SemanticAnalyzer._adjectival_predicate_subject_dep english
  /\ SemanticAnalyzer._modifier_dep german
     <> SemanticAnalyzer._adjectival_predicate_subject_dep german
  /\ str_in (SemanticAnalyzer._adjectival_predicate_head_pos english)
       (SemanticAnalyzer._adjectival_predicate_subject_pos english) = false
  /\ str_in (SemanticAnalyzer._adjectival_predicate_head_pos german)
       (SemanticAnalyzer._adjectival_predicate_subject_pos german) = false.
Proof. repeat split; try discriminate; reflexivity. Qed.

(** "The town is old and the man is poor.": two copulas. *)
Example two_copulas_normalized :
  let doc :=
    Doc.Build
      [ Token.set_holmes (prepared 0 "the" [] [] false)
          (spacy_token "The" "the" "DET" "DT" "det" 1 [] (0, 10)%nat);
        Token.set_holmes (prepared 1 "town" [] [] true)
          (spacy_token "town" "town" "NOUN" "NN" "nsubj" 2 [0%nat] (0, 10)%nat);
        Token.set_holmes
          (prepared 2 "be" [dep 2 1 "nsubj"; dep 2 3 "acomp"; dep 2 7 "conj"] [] true)
          (spacy_token "is" "be" "VERB" "VBZ" "ROOT" 2 [1; 3; 4; 7; 9]%nat (0, 10)%nat);
        Token.set_holmes (prepared 3 "old" [] [] true)
          (spacy_token "old" "old" "ADJ" "JJ" "acomp" 2 [] (0, 10)%nat);
        Token.set_holmes (prepared 4 "and" [] [] false)
          (spacy_token "and" "and" "CCONJ" "CC" "cc" 2 [] (0, 10)%nat);
        Token.set_holmes (prepared 5 "the" [] [] false)
          (spacy_token "the" "the" "DET" "DT" "det" 6 [] (0, 10)%nat);
        Token.set_holmes (prepared 6 "man" [] [] true)
          (spacy_token "man" "man" "NOUN" "NN" "nsubj" 7 [5%nat] (0, 10)%nat);
        Token.set_holmes
          (prepared 7 "be" [dep 7 6 "nsubj"; dep 7 8 "acomp"] [] true)
          (spacy_token "is" "be" "VERB" "VBZ" "conj" 2 [6; 8]%nat (0, 10)%nat);
        Token.set_holmes (prepared 8 "poor" [] [] true)
          (spacy_token "poor" "poor" "ADJ" "JJ" "acomp" 7 [] (0, 10)%nat);
        Token.set_holmes (prepared 9 "." [] [] false)
          (spacy_token "." "." "PUNCT" "." "punct" 2 [] (0, 10)%nat) ]
      false in
  let r := normalize_predicative_adjectives_pass english (Build_Limits 1000 1000 1000)
             doc in
  fst r = Ok tt
  /\ children_at (snd r) 1 = [SemanticDependency.Build 1 3 (Some "amod") false]
  /\ children_at (snd r) 2 = [SemanticDependency.Build 2 (-2) None false]
  /\ children_at (snd r) 6 = [SemanticDependency.Build 6 8 (Some "amod") false]
  /\ children_at (snd r) 7 = [SemanticDependency.Build 7 (-7) None false].
Proof. vm_compute. repeat split; reflexivity. Qed.

(** C5: in a document where a token [t] with the head part of speech has,
    among its children, one edge with the subject label, to a token [s] with
    a subject part of speech, and one edge with the predicate label, to an
    adjective [a], and no other edge with either label, where no edge with
    the subject label ends at [t], and for an analyzer whose modifier label is
    not its subject label and whose head part of speech is no subject part of
    speech: when the pass [_normalize_predicative_adjectives] over all tokens
    returns, [s] has the children that it had, in place, followed by new ones
    among which is the modifier-labelled, certain edge from [s] to [a], and
    the children of [t] are exactly one edge, without a label, whose child
    index is [-(s+1)].  The pass does return when every other token with the
    head part of speech has a dictionary without an edge with the predicate
    label, shorter than the memory at hand. *)
Theorem predicative_adjective_pass_normalizes_copula
    (self : Analyzer) (limits : Limits) (doc : Doc.t) (t s a i j : nat)
    (tok toks toka : Token.t) (ht hs : HDict) (ds da : SemDep) :
  Doc.tokens doc !! t = Some tok ->
  Token.pos_ tok = SemanticAnalyzer._adjectival_predicate_head_pos self ->
  Token.holmes tok = ExtDict ht ->
  HolmesDictionary.children ht !! i = Some ds ->
  HolmesDictionary.children ht !! j = Some da ->
  SemanticDependency.label ds
  = Some (SemanticAnalyzer._adjectival_predicate_subject_dep self) ->
  SemanticDependency.child_index ds = Z.of_nat s ->
  SemanticDependency.label da
  = Some (SemanticAnalyzer._adjectival_predicate_predicate_dep self) ->
  SemanticDependency.child_index da = Z.of_nat a ->
  (forall k d, HolmesDictionary.children ht !! k = Some d ->
               SemanticDependency.label d
               = Some (SemanticAnalyzer._adjectival_predicate_subject_dep self) ->
               k = i) ->
  (forall k d, HolmesDictionary.children ht !! k = Some d ->
               SemanticDependency.label d
               = Some (SemanticAnalyzer._adjectival_predicate_predicate_dep self) ->
               k = j) ->
  Doc.tokens doc !! s = Some toks ->
  str_in (Token.pos_ toks)
    (SemanticAnalyzer._adjectival_predicate_subject_pos self) = true ->
  Token.holmes toks = ExtDict hs ->
  Doc.tokens doc !! a = Some toka ->
  Token.pos_ toka = "ADJ" ->
  s <> a -> s <> t ->
  (length (HolmesDictionary.children ht) < memory limits)%nat ->
  SemanticAnalyzer._modifier_dep self
  <> SemanticAnalyzer._adjectival_predicate_subject_dep self ->
  str_in (SemanticAnalyzer._adjectival_predicate_head_pos self)
    (SemanticAnalyzer._adjectival_predicate_subject_pos self) = false ->
  (forall q hq e,
     dict_at doc q = Some hq -> In e (HolmesDictionary.children hq) ->
     SemanticDependency.label e
     = Some (SemanticAnalyzer._adjectival_predicate_subject_dep self) ->
     SemanticDependency.child_index e <> Z.of_nat t) ->
  (forall doc',
     normalize_predicative_adjectives_pass self limits doc = (Ok tt, doc') ->
     (exists hs' new,
        dict_at doc' s = Some hs'
        /\ HolmesDictionary.children hs' = (HolmesDictionary.children hs ++ new)%list
        /\ In (SemanticDependency.Build (Z.of_nat s) (Z.of_nat a)
                 (Some (SemanticAnalyzer._modifier_dep self)) false) new)
     /\ (exists ht',
           dict_at doc' t = Some ht'
           /\ HolmesDictionary.children ht'
              = [SemanticDependency.Build (Z.of_nat t) (- (Z.of_nat s + 1)) None false]))
  /\ ((forall q tokq,
         q <> t -> Doc.tokens doc !! q = Some tokq ->
         Token.pos_ tokq = SemanticAnalyzer._adjectival_predicate_head_pos self ->
         exists hq,
           Token.holmes tokq = ExtDict hq
           /\ (forall d, In d (HolmesDictionary.children hq) ->
                         SemanticDependency.label d
                         <> Some (SemanticAnalyzer._adjectival_predicate_predicate_dep self))
           /\ (length (HolmesDictionary.children hq) < memory limits)%nat) ->
      exists doc',
        normalize_predicative_adjectives_pass self limits doc = (Ok tt, doc')).
Proof.
  intros Htok Hpos Hht Hi Hj Hlds Hcds Hlda Hcda Hsubj Hadj Htoks Hposs Hhs Htoka Hposa
    Hsa Hst Hmem Hmod Hhead Hnone.
  assert (Hdt : dict_at doc t = Some ht) by (unfold dict_at; now rewrite Htok, Hht).
  assert (Hds : dict_at doc s = Some hs) by (unfold dict_at; now rewrite Htoks, Hhs).
  assert (Hnohead : Token.pos_ toks
                    <> SemanticAnalyzer._adjectival_predicate_head_pos self).
  { intros E. rewrite E in Hposs. congruence. }
  assert (Ht_lt : (t < Doc.len doc)%nat) by (eapply lookup_lt_Some; eauto).
  assert (Hseq : seq 0 (Doc.len doc)
                 = (seq 0 t ++ t :: seq (S t) (Doc.len doc - S t))%list).
  { replace (Doc.len doc) with (t + S (Doc.len doc - S t))%nat at 1 by lia.
    rewrite seq_app. reflexivity. }
  assert (Hbefore : ~ In t (seq 0 t)) by (rewrite in_seq; lia).
  assert (Hafter : ~ In t (seq (S t) (Doc.len doc - S t))) by (rewrite in_seq; lia).
  set (edge := SemanticDependency.Build (Z.of_nat s) (Z.of_nat a)
                 (Some (SemanticAnalyzer._modifier_dep self)) false).
  set (pointer := SemanticDependency.Build (Z.of_nat t) (- (Z.of_nat s + 1)) None false).
  (* the call for the copula, on a document that the invariant describes *)
  assert (Hcall : forall d1,
            copula_invariant self doc t s (HolmesDictionary.children hs) ht [] d1 ->
            exists d2,
              _normalize_predicative_adjectives self limits t d1 = (Ok tt, d2)
              /\ copula_invariant self doc t s (HolmesDictionary.children hs)
                   (HolmesDictionary.set_children [pointer] ht) [edge] d2).
  { intros d1 (Hparse & Ht1 & (hs1 & new & Hs1 & Hchildren & _) & Hnone1).
    apply dict_at_token in Ht1 as (tok1 & Htok1 & Eht1).
    apply dict_at_token in Hs1 as (toks1 & Htoks1 & Ehs1).
    destruct (same_parse_lookup _ _ _ _ Hparse Htoka) as (toka1 & Htoka1 & Hsa1).
    apply same_token_fields in Hsa1 as (_ & Hposa1 & _).
    pose proof (same_parse_pos _ _ _ _ _ Hparse Htok Htok1) as Hpos1.
    pose proof (same_parse_pos _ _ _ _ _ Hparse Htoks Htoks1) as Hposs1.
    eexists. split.
    - eapply (normalize_copula_call self limits d1 t s a i j tok1 toks1 toka1 ht hs1 ds da);
        eauto; congruence.
    - assert (Hs1 : dict_at d1 s = Some hs1) by (eapply token_dict_at; eauto).
      assert (Ht1 : dict_at d1 t = Some ht) by (eapply token_dict_at; eauto).
      split; [now do 2 apply same_parse_put_dict|].
      split.
      { eapply dict_at_put_dict_eq. rewrite dict_at_put_dict_ne by exact Hst. eauto. }
      split.
      { exists (HolmesDictionary.append_child edge hs1), (new ++ [edge])%list.
        split; [rewrite dict_at_put_dict_ne by auto; eapply dict_at_put_dict_eq; eauto|].
        split; [cbn; rewrite Hchildren; now rewrite <- app_assoc|].
        intros x [<-|[]]. apply in_or_app. right. now left. }
      intros q hq e Hq Hin Hl.
      destruct (decide (t = q)) as [<-|Hqt].
      { erewrite dict_at_put_dict_eq in Hq
          by (rewrite dict_at_put_dict_ne by exact Hst; eauto).
        injection Hq as <-. cbn in Hin. destruct Hin as [<-|[]]. discriminate. }
      rewrite dict_at_put_dict_ne in Hq by exact Hqt.
      destruct (decide (s = q)) as [<-|Hqs].
      { rewrite (dict_at_put_dict_eq _ _ _ _ Hs1) in Hq. injection Hq as <-.
        cbn in Hin. apply in_app_or in Hin as [Hin|[<-|[]]].
        - eapply (Hnone1 s hs1); eauto.
        - cbn in Hl. congruence. }
      rewrite dict_at_put_dict_ne in Hq by exact Hqs. eapply Hnone1; eauto. }
  assert (Hstart : copula_invariant self doc t s (HolmesDictionary.children hs) ht [] doc).
  { split; [reflexivity|]. split; [exact Hdt|]. split; [|exact Hnone].
    exists hs, []. rewrite app_nil_r. repeat split; auto. intros x []. }
  split.
  - (* what the pass leaves when it returns *)
    intros doc' Hrun. unfold normalize_predicative_adjectives_pass in Hrun.
    rewrite Hseq, for_each_app in Hrun.
    apply bind_ok in Hrun as ([] & d1 & Hrun1 & Hrun).
    cbn [for_each] in Hrun. apply bind_ok in Hrun as ([] & d2 & Hrun2 & Hrun3).
    pose proof (maintains_other_tokens self limits doc t s toks
                  (HolmesDictionary.children hs) ht [] Hmod Htoks Hnohead
                  (seq 0 t) Hbefore doc Hstart) as [H1 _].
    rewrite Hrun1 in H1. cbn in H1.
    destruct (Hcall d1 H1) as (d2' & Hrun2' & H2).
    assert (d2' = d2) as -> by congruence.
    pose proof (maintains_other_tokens self limits doc t s toks
                  (HolmesDictionary.children hs) _ [edge] Hmod Htoks Hnohead
                  _ Hafter d2 H2) as [H3 _].
    rewrite Hrun3 in H3. cbn in H3.
    destruct H3 as (_ & Ht3 & (hs3 & new & Hs3 & Hchildren & Hincl) & _).
    split.
    + exists hs3, new. repeat split; auto. apply Hincl. now left.
    + eexists. split; [exact Ht3 | reflexivity].
  - (* the pass returns *)
    intros Hidle. unfold normalize_predicative_adjectives_pass.
    rewrite Hseq, for_each_app.
    assert (Hrun1 : for_each (seq 0 t) (_normalize_predicative_adjectives self limits) doc
                    = (Ok tt, doc)).
    { apply for_each_idle. intros q Hq. apply in_seq in Hq.
      destruct (lookup_lt_is_Some_2 (Doc.tokens doc) q) as [tokq Htokq];
        [unfold Doc.len in Ht_lt; lia|].
      eapply normalize_idle; [exact Htokq|]. intros Eq.
      apply (Hidle q tokq); auto. lia. }
    rewrite (bind_ok_intro _ _ _ _ _ Hrun1). cbn [for_each].
    destruct (Hcall doc Hstart) as (d2 & Hrun2 & H2).
    rewrite (bind_ok_intro _ _ _ _ _ Hrun2).
    pose proof Hrun2 as Hd2.
    rewrite (normalize_copula_call self limits doc t s a i j tok toks toka ht hs ds da)
      in Hd2 by assumption.
    injection Hd2 as Hd2.
    exists d2. apply for_each_idle. intros q Hq. apply in_seq in Hq.
    destruct (lookup_lt_is_Some_2 (Doc.tokens doc) q) as [tokq Htokq];
      [unfold Doc.len in *; lia|].
    assert (Hqt : t <> q) by lia.
    destruct (decide (s = q)) as [<-|Hqs].
    + destruct H2 as (Hparse & _).
      destruct (same_parse_lookup _ _ _ _ Hparse Htoks) as (toks2 & Htoks2 & Hs2).
      apply same_token_fields in Hs2 as (_ & Hpos2 & _).
      eapply normalize_idle; [exact Htoks2|]. intros E. congruence.
    + assert (Htokq2 : Doc.tokens d2 !! q = Some tokq).
      { rewrite <- Hd2. now rewrite !tokens_put_dict_ne by auto. }
      eapply normalize_idle; [exact Htokq2|]. intros Eq.
      apply (Hidle q tokq); auto.
Qed.

(** "The town is old.": the pass returns, and leaves [town] with the edge to
    [old] and [is] with the redirect to [town]. *)
Lemma predicative_adjective_pass_normalizes_copula_witness :
  exists doc',
    normalize_predicative_adjectives_pass english (Build_Limits 1000 1000 1000)
      doc_the_town_is_old = (Ok tt, doc')
    /\ (exists hs' new,
          dict_at doc' 1 = Some hs'
          /\ HolmesDictionary.children hs' = ([] ++ new)%list
          /\ In (SemanticDependency.Build 1 3 (Some "amod") false) new)
    /\ (exists ht',
          dict_at doc' 2 = Some ht'
          /\ HolmesDictionary.children ht'
             = [SemanticDependency.Build 2 (-2) None false]).
Proof.
  refine (match predicative_adjective_pass_normalizes_copula english
                  (Build_Limits 1000 1000 1000) doc_the_town_is_old 2 1 3 0 1 _ _ _ _ _
                  (dep 2 1 "nsubj") (dep 2 3 "acomp")
                  eq_refl eq_refl eq_refl eq_refl eq_refl eq_refl eq_refl eq_refl eq_refl
                  _ _ eq_refl eq_refl eq_refl eq_refl eq_refl _ _ _ _ eq_refl _
          with
          | conj Hleft Hreturns => _
          end).
  - intros [|[|k]] d Hk Hl; [reflexivity | | discriminate].
    injection Hk as <-. discriminate.
  - intros [|[|k]] d Hk Hl; [| reflexivity | discriminate].
    injection Hk as <-. discriminate.
  - lia.
  - lia.
  - cbn. lia.
  - discriminate.
  - intros [|[|[|[|[|q]]]]] hq e H; cbn in H; try discriminate; injection H as <-;
      cbn; intros Hin; repeat destruct Hin as [<-|Hin]; try destruct Hin;
      cbn; intros E; try discriminate; lia.
  - destruct Hreturns as [doc' Hrun].
    + intros [|[|[|[|[|q]]]]] tokq Hq H; cbn in H; try discriminate;
        injection H as <-; cbn; intros E; try discriminate; congruence.
    + exists doc'. split; [exact Hrun|]. exact (Hleft doc' Hrun).
Defined.
